(** * go-hamt: a shallow embedding of the Hash Array Mapped Trie

    The development embeds two packages of the repository:

    - [Hamt32]: the copy-on-write map of [hamt32/hamt_functional.go]
      ([HamtFunctional.Put], [Del], [persist]) together with the walk,
      [Get] and [Count] of [hamt32/hamt_common.go];
    - [Hamt64]: the in-place map of [hamt64] ([Hamt.Get], [Put], [Del]).

    Tables are Go heap objects reached through pointers.  The persistent
    flavor shares them between versions, the transient flavor updates them
    in place, so the embedding threads an explicit store of tables through
    every operation: a pointer is an index into the store, [copy()] and the
    table constructors allocate a new cell, and the table methods that
    mutate their receiver rewrite the cell they are called on. *)

From Stdlib Require Import ZArith NArith List Lia Bool String.
From Stdlib.Strings Require Import Byte.
From stdpp Require Import base tactics option list numbers.

Set Default Proof Using "Type".
Open Scope nat_scope.

(** ** Outcomes of Go code that may panic *)

Inductive outcome (A : Type) : Type :=
| Ret (a : A)
| Panic (msg : string).
Arguments Ret {A} a.
Arguments Panic {A} msg.

Definition obind {A B : Type} (m : outcome A) (f : A -> outcome B) : outcome B :=
  match m with
  | Ret a => f a
  | Panic msg => Panic msg
  end.

Notation "x <-- m ;> f" := (obind m (fun x => f))
  (at level 20, m at level 100, f at level 200, only parsing).
Notation "' p <-- m ;> f" := (obind m (fun p => f))
  (at level 20, p pattern, m at level 100, f at level 200, only parsing).

Definition is_ret {A : Type} (m : outcome A) : Prop :=
  match m with Ret _ => True | Panic _ => False end.

(** ** Machine integers *)

(** Go's [uint] on a 64-bit target: increments and decrements wrap. *)
Definition uint_max : Z := 2 ^ 64.
Definition uint_incr (n : Z) : Z := ((n + 1) mod uint_max)%Z.
Definition uint_decr (n : Z) : Z := ((n - 1) mod uint_max)%Z.

(** Go's [int] on a 64-bit target (two's complement). *)
Definition int_wrap (n : Z) : Z := ((n + 2 ^ 63) mod 2 ^ 64 - 2 ^ 63)%Z.
Definition int_incr (n : Z) : Z := int_wrap (n + 1).
Definition int_decr (n : Z) : Z := int_wrap (n - 1).

(** ** Bitmaps *)

Fixpoint popcount_pos (p : positive) : nat :=
  match p with
  | xH => 1
  | xO q => popcount_pos q
  | xI q => S (popcount_pos q)
  end.

(** Number of set bits of a bitmap. *)
Definition popcount (n : N) : nat :=
  match n with
  | N0 => 0
  | Npos p => popcount_pos p
  end.

(** Packed position of slot [i]: [popcount(bitmap & ((1<<i)-1))]. *)
Definition rank (bm : N) (i : nat) : nat :=
  popcount (N.land bm (N.ones (N.of_nat i))).

Definition bit (bm : N) (i : nat) : bool := N.testbit bm (N.of_nat i).

(** ** Keys, values, leaves and tables *)

#[global] Instance byte_eq_decision : EqDecision byte := Byte.byte_eq_dec.

(** A hash value is an unsigned machine integer. *)
Abbreviation hashVal := N.

(** A pointer to a table: the index of its cell in the store. *)
Abbreviation loc := nat.

(** The two packages differ in the number of hash bits consumed per level
    and in the number of levels. *)
Class Params : Type := { indexBits : nat; depthLimit : nat }.

(** The host's hash function over byte strings. *)
Class HostHash : Type := hashfn : list byte -> N.

Section Nodes.

(** Values are Go's [interface{}]; [None] is the [nil] interface. *)
Context {V : Type} {P : Params} {HH : HostHash}.
Definition value : Type := option V.
Definition nil_value : value := None.

Definition indexLimit : nat := 2 ^ indexBits.
Definition maxDepth : nat := depthLimit - 1.

(** Modelled from the spec: the HashDigits of section 3, missing from the
    sources ([hashVal] and its methods).  A hash value holds [depthLimit]
    digits of [indexBits] bits; any tail bits of the host hash are ignored,
    so two hash values are equal iff all their digits agree. *)
Definition hashBits : N := N.of_nat (depthLimit * indexBits).
Definition calcHashVal (bs : list byte) : hashVal :=
  N.land (hashfn bs) (N.ones hashBits).

(** Modelled from the spec: [digit(d)] of section 4.1,
    [(hash >> (d*b)) & ((1<<b)-1)]. *)
Definition Index (h : hashVal) (depth : nat) : nat :=
  N.to_nat (N.land (N.shiftr h (N.of_nat (depth * indexBits)))
                   (N.ones (N.of_nat indexBits))).

(** Modelled from the spec: the prefix of section 3, digits [0..depth-1]
    significant and the remainder zero. *)
Definition hashPath (h : hashVal) (depth : nat) : hashVal :=
  N.land h (N.ones (N.of_nat (depth * indexBits))).

(** [BuildHashPath(idx, depth)] of the hamt64 key package: the prefix
    extended by digit [idx] at position [depth]. *)
Definition BuildHashPath (h : hashVal) (idx depth : nat) : hashVal :=
  N.lor h (N.shiftl (N.of_nat idx) (N.of_nat (depth * indexBits))).

(** Modelled from the spec: the Key of section 3.  A key is an immutable
    byte sequence; its precomputed hash is the host hash of the bytes, so
    the embedding recomputes it where the code reads the cached field. *)
Definition iKey : Type := list byte.
Definition newKey (bs : list byte) : iKey := bs.
Definition Hash (k : iKey) : hashVal := calcHashVal k.
Definition key_equals (a b : iKey) : bool := bool_decide (a = b).

(** Modelled from the spec: the leaves of section 3.  A flat leaf carries
    one pair; a collision leaf carries the common hash and its pairs. *)
Inductive leaf : Type :=
| flatLeaf (key : iKey) (val : value)
| collisionLeaf (hash : hashVal) (kvs : list (iKey * value)).

Definition newFlatLeaf (k : iKey) (v : value) : leaf := flatLeaf k v.

Definition leaf_Hash (l : leaf) : hashVal :=
  match l with
  | flatLeaf k _ => Hash k
  | collisionLeaf h _ => h
  end.

Definition keyVals (l : leaf) : list (iKey * value) :=
  match l with
  | flatLeaf k v => [(k, v)]
  | collisionLeaf _ kvs => kvs
  end.

(** Linear search by byte-equality. *)
Fixpoint kvs_get (kvs : list (iKey * value)) (k : iKey) : value * bool :=
  match kvs with
  | [] => (nil_value, false)
  | (k', v') :: rest =>
      if key_equals k' k then (v', true) else kvs_get rest k
  end.

(** Replace the value of the matching pair, or append; order kept. *)
Fixpoint kvs_put (kvs : list (iKey * value)) (k : iKey) (v : value)
  : list (iKey * value) * bool :=
  match kvs with
  | [] => ([(k, v)], true)
  | (k', v') :: rest =>
      if key_equals k' k then ((k', v) :: rest, false)
      else let '(rest', added) := kvs_put rest k v in ((k', v') :: rest', added)
  end.

(** Remove the matching pair. *)
Fixpoint kvs_del (kvs : list (iKey * value)) (k : iKey)
  : list (iKey * value) * value * bool :=
  match kvs with
  | [] => ([], nil_value, false)
  | (k', v') :: rest =>
      if key_equals k' k then (rest, v', true)
      else let '(rest', v, deleted) := kvs_del rest k in
           ((k', v') :: rest', v, deleted)
  end.

(** Modelled from the spec: the leaf operations of section 4.2. *)
Definition leaf_get (l : leaf) (k : iKey) : value * bool :=
  match l with
  | flatLeaf k' v' => if key_equals k' k then (v', true) else (nil_value, false)
  | collisionLeaf _ kvs => kvs_get kvs k
  end.

Definition leaf_put (l : leaf) (k : iKey) (v : value) : leaf * bool :=
  match l with
  | flatLeaf k' v' =>
      if key_equals k' k then (flatLeaf k v, false)
      else (collisionLeaf (Hash k') [(k', v'); (k, v)], true)
  | collisionLeaf h kvs =>
      let '(kvs', added) := kvs_put kvs k v in (collisionLeaf h kvs', added)
  end.

(** The replacement is [None] when the slot empties. *)
Definition leaf_del (l : leaf) (k : iKey) : option leaf * value * bool :=
  match l with
  | flatLeaf k' v' =>
      if key_equals k' k then (None, v', true) else (Some l, nil_value, false)
  | collisionLeaf h kvs =>
      let '(kvs', v, deleted) := kvs_del kvs k in
      if deleted then
        match kvs' with
        | [] => (None, v, true)
        | [(k1, v1)] => (Some (flatLeaf k1 v1), v, true)
        | _ => (Some (collisionLeaf h kvs'), v, true)
        end
      else (Some l, nil_value, false)
  end.

(** A slot: Go's [nodeI] interface, [nil], a leaf or a pointer to a table. *)
Inductive nodeI : Type :=
| nilNode
| leafNode (l : leaf)
| tableNode (p : loc).

Definition is_nil (n : nodeI) : bool :=
  match n with nilNode => true | _ => false end.

Definition node_of_leaf (ol : option leaf) : nodeI :=
  match ol with Some l => leafNode l | None => nilNode end.

Definition node_of_root (r : option loc) : nodeI :=
  match r with Some p => tableNode p | None => nilNode end.

(** Modelled from the spec: the two table variants of section 3.  A fixed
    table stores an array of [indexLimit] slots; a sparse table stores a
    presence bitmap and the packed array of its present slots. *)
Inductive table : Type :=
| fixedTable (depth : nat) (hashPath : hashVal) (nodes : list nodeI)
| sparseTable (depth : nat) (hashPath : hashVal) (nodeMap : N)
              (nodes : list nodeI).

Definition is_fixed (t : table) : bool :=
  match t with fixedTable _ _ _ => true | sparseTable _ _ _ _ => false end.

Definition table_depth (t : table) : nat :=
  match t with fixedTable d _ _ => d | sparseTable d _ _ _ => d end.

Definition table_Hash (t : table) : hashVal :=
  match t with fixedTable _ h _ => h | sparseTable _ h _ _ => h end.

(** Modelled from the spec: the table contract of section 4.3. *)
Definition table_get (t : table) (i : nat) : nodeI :=
  match t with
  | fixedTable _ _ nodes => default nilNode (nodes !! i)
  | sparseTable _ _ bm nodes =>
      if bit bm i then default nilNode (nodes !! rank bm i) else nilNode
  end.

(** [insert(i, node)]: slot [i] was empty. *)
Definition table_insert (t : table) (i : nat) (n : nodeI) : table :=
  match t with
  | fixedTable d h nodes => fixedTable d h (<[i := n]> nodes)
  | sparseTable d h bm nodes =>
      let r := rank bm i in
      sparseTable d h (N.setbit bm (N.of_nat i))
                  (take r nodes ++ n :: drop r nodes)
  end.

(** [replace(i, node)]: slot [i] was non-empty. *)
Definition table_replace (t : table) (i : nat) (n : nodeI) : table :=
  match t with
  | fixedTable d h nodes => fixedTable d h (<[i := n]> nodes)
  | sparseTable d h bm nodes => sparseTable d h bm (<[rank bm i := n]> nodes)
  end.

(** [remove(i)]: slot [i] was non-empty. *)
Definition table_remove (t : table) (i : nat) : table :=
  match t with
  | fixedTable d h nodes => fixedTable d h (<[i := nilNode]> nodes)
  | sparseTable d h bm nodes =>
      sparseTable d h (N.clearbit bm (N.of_nat i)) (delete (rank bm i) nodes)
  end.

(** [set(i, node)]: whatever slot [i] held. *)
Definition table_set (t : table) (i : nat) (n : nodeI) : table :=
  if is_nil n then
    if is_nil (table_get t i) then t else table_remove t i
  else
    if is_nil (table_get t i) then table_insert t i n else table_replace t i n.

Definition table_nentries (t : table) : nat :=
  match t with
  | fixedTable _ _ nodes => length (filter (fun n => is_nil n = false) nodes)
  | sparseTable _ _ _ nodes => length nodes
  end.

(** [entries()]: the present slots with their index, in ascending order. *)
Definition table_entries (t : table) : list (nat * nodeI) :=
  omap (fun i => match table_get t i with
                 | nilNode => None
                 | n => Some (i, n)
                 end) (seq 0 indexLimit).

Definition table_copy (t : table) : table := t.

Definition emptyFixedTable (depth : nat) (hp : hashVal) : table :=
  fixedTable depth hp (replicate indexLimit nilNode).

Definition emptySparseTable (depth : nat) (hp : hashVal) : table :=
  sparseTable depth hp 0%N [].

Definition emptyTable (fixed : bool) (depth : nat) (hp : hashVal) : table :=
  if fixed then emptyFixedTable depth hp else emptySparseTable depth hp.

Definition fill_table (t : table) (ents : list (nat * nodeI)) : table :=
  fold_left (fun acc e => table_insert acc (fst e) (snd e)) ents t.

(** Modelled from the spec: table adaptation of section 4.3, the other
    variant at the same depth and prefix with the same children. *)
Definition upgradeToFixedTable (hp : hashVal) (depth : nat)
    (ents : list (nat * nodeI)) : table :=
  fill_table (emptyFixedTable depth hp) ents.

Definition downgradeToSparseTable (hp : hashVal) (depth : nat)
    (ents : list (nat * nodeI)) : table :=
  fill_table (emptySparseTable depth hp) ents.

(** ** The store of tables *)

Abbreviation store := (list table).

Definition alloc (s : store) (t : table) : store * loc :=
  (s ++ [t], length s).

(** A method that mutates its receiver rewrites the receiver's cell. *)
Definition update (s : store) (p : loc) (f : table -> table) : outcome store :=
  match s !! p with
  | Some t => Ret (<[p := f t]> s)
  | None => Panic "nil dereference"
  end.

Definition deref (s : store) (p : loc) : outcome table :=
  match s !! p with
  | Some t => Ret t
  | None => Panic "nil dereference"
  end.

(** The table written by [persist]: the parent with the slot of the walk
    replaced by the new child, or emptied. *)
Definition patch (t : table) (i : nat) (nn : option loc) : table :=
  match nn with
  | None => table_remove t i
  | Some nt => table_replace t i (tableNode nt)
  end.

(** The stack of tables visited by the walk; the top is the head. *)
Abbreviation tableStack := (list loc).
Definition push (path : tableStack) (p : loc) : tableStack := p :: path.
Definition pop (path : tableStack) : option loc * tableStack :=
  match path with
  | [] => (None, [])
  | p :: rest => (Some p, rest)
  end.
Definition peek (path : tableStack) : option loc := head path.

(** Modelled from the spec: the descent construction of section 4.4(4)
    ([createFixedTable], [createSparseTable] and hamt64's [newTable] are
    missing from the sources).  The new table at [depth], of prefix [hp],
    holds both leaves, each at its own digit; when the digits collide the
    construction recurses one level down, and at the last level the two
    land in a collision leaf.  [fuel] is [maxDepth - depth]. *)
Fixpoint createTable_rec (fixed : bool) (fuel : nat) (s : store) (depth : nat)
    (hp : hashVal) (leaf1 leaf2 : leaf) : store * loc :=
  let empty := emptyTable fixed depth hp in
  let idx1 := Index (leaf_Hash leaf1) depth in
  let idx2 := Index (leaf_Hash leaf2) depth in
  if bool_decide (idx1 = idx2) then
    match fuel with
    | 0 =>
        let node := leafNode (collisionLeaf (leaf_Hash leaf1)
                                (keyVals leaf1 ++ keyVals leaf2)) in
        alloc s (table_insert empty idx1 node)
    | S fuel' =>
        let '(s1, p) := createTable_rec fixed fuel' s (S depth)
                          (BuildHashPath hp idx1 depth) leaf1 leaf2 in
        alloc s1 (table_insert empty idx1 (tableNode p))
    end
  else
    alloc s (table_insert (table_insert empty idx1 (leafNode leaf1))
                          idx2 (leafNode leaf2)).

Definition createFixedTable (s : store) (depth : nat) (leaf1 leaf2 : leaf)
  : store * loc :=
  createTable_rec true (maxDepth - depth) s depth
                  (hashPath (leaf_Hash leaf1) depth) leaf1 leaf2.

Definition createSparseTable (s : store) (depth : nat) (leaf1 leaf2 : leaf)
  : store * loc :=
  createTable_rec false (maxDepth - depth) s depth
                  (hashPath (leaf_Hash leaf1) depth) leaf1 leaf2.

(** Modelled from the spec: the root of section 3 is a fixed table at
    depth 0 whatever the option ([createRootTable], [newRootTable] are
    missing from the sources). *)
Definition createRootFixedTable (s : store) (lf : leaf) : store * loc :=
  alloc s (table_insert (emptyFixedTable 0 0%N)
                        (Index (leaf_Hash lf) 0) (leafNode lf)).

(** ** Structural invariants *)

(** The digits [0..d-1] of a hash: the path from the root to depth [d]. *)
Definition digits (h : hashVal) (d : nat) : list nat :=
  map (Index h) (seq 0 d).

(** The physical children of a table: the array of a fixed table, the
    packed array of a sparse table. *)
Definition table_nodes (t : table) : list nodeI :=
  match t with
  | fixedTable _ _ nodes => nodes
  | sparseTable _ _ _ nodes => nodes
  end.

Definition wf_table (t : table) : Prop :=
  match t with
  | fixedTable _ _ nodes => length nodes = indexLimit
  | sparseTable _ _ bm nodes =>
      (bm < 2 ^ N.of_nat indexLimit)%N /\ length nodes = popcount bm /\
      Forall (fun n => is_nil n = false) nodes
  end.

(** A leaf reached by [path]: its hash has these digits; the pairs of a
    collision leaf, two at least, all hash to the leaf's hash. *)
Definition wf_leaf (path : list nat) (l : leaf) : Prop :=
  digits (leaf_Hash l) (length path) = path /\
  match l with
  | flatLeaf _ _ => True
  | collisionLeaf h kvs =>
      2 <= length kvs /\ Forall (fun kv => Hash (fst kv) = h) kvs
  end.

(** A node reached by [path] with [fuel] levels left below it: tables sit
    at the depth and prefix they record, and no table lies below the last
    level. *)
Fixpoint wf_node (s : store) (fuel : nat) (path : list nat) (n : nodeI) : Prop :=
  match n with
  | nilNode => True
  | leafNode l => wf_leaf path l
  | tableNode p =>
      match fuel with
      | 0 => False
      | S fuel' =>
          match s !! p with
          | None => False
          | Some t =>
              wf_table t /\ table_depth t = length path /\
              digits (table_Hash t) (length path) = path /\
              forall i, i < indexLimit ->
                wf_node s fuel' (path ++ [i]) (table_get t i)
          end
      end
  end.

(** Number of key/value pairs below a node. *)
Fixpoint node_pairs (s : store) (fuel : nat) (n : nodeI) : nat :=
  match n with
  | nilNode => 0
  | leafNode l => length (keyVals l)
  | tableNode p =>
      match fuel with
      | 0 => 0
      | S fuel' =>
          match s !! p with
          | None => 0
          | Some t =>
              sum_list (map (fun i => node_pairs s fuel' (table_get t i))
                            (seq 0 indexLimit))
          end
      end
  end.

(** What a lookup of [k] finds below a node read at [depth]: the trie as a
    finite map. *)
Fixpoint tree_get (s : store) (k : iKey) (fuel depth : nat) (n : nodeI)
  : value * bool :=
  match n with
  | nilNode => (nil_value, false)
  | leafNode l => leaf_get l k
  | tableNode p =>
      match fuel with
      | 0 => (nil_value, false)
      | S fuel' =>
          match s !! p with
          | None => (nil_value, false)
          | Some t =>
              tree_get s k fuel' (S depth) (table_get t (Index (Hash k) depth))
          end
      end
  end.

(** The leaf reached from a node by following the digits [ds], one per
    level. *)
Fixpoint leaf_at (s : store) (fuel : nat) (n : nodeI) (ds : list nat)
  : option leaf :=
  match n with
  | nilNode => None
  | leafNode l => Some l
  | tableNode p =>
      match fuel with
      | 0 => None
      | S fuel' =>
          match s !! p with
          | None => None
          | Some t =>
              match ds with
              | [] => None
              | i :: ds' => leaf_at s fuel' (table_get t i) ds'
              end
          end
      end
  end.

(** The keys of a leaf are pairwise distinct. *)
Definition leaf_nodup (l : leaf) : Prop := NoDup (map fst (keyVals l)).

(** The stack of ancestors of table [cur] on the walk along hash [hv]:
    each table of the stack holds the one above it at the digit of its depth. *)
Fixpoint chain (s : store) (hv : hashVal) (cur : loc) (path : tableStack) : Prop :=
  match path with
  | [] => True
  | par :: rest =>
      (exists t, s !! par = Some t /\
                 table_get t (Index hv (length rest)) = tableNode cur) /\
      chain s hv par rest
  end.

(** The bottom of the stack: the table the walk started from. *)
Fixpoint root_of (cur : loc) (path : tableStack) : loc :=
  match path with
  | [] => cur
  | par :: rest => root_of par rest
  end.

(** A node all of whose table pointers resolve, within [fuel] levels, to
    tables that record a depth below [depthLimit]. *)
Fixpoint closed (s : store) (fuel : nat) (n : nodeI) : Prop :=
  match n with
  | tableNode p =>
      match fuel with
      | 0 => False
      | S fuel' =>
          match s !! p with
          | None => False
          | Some t =>
              wf_table t /\ table_depth t < depthLimit /\
              forall i, i < indexLimit -> closed s fuel' (table_get t i)
          end
      end
  | _ => True
  end.

(** Every table at or below the node holds two pairs at least. *)
Fixpoint dense (s : store) (fuel : nat) (n : nodeI) : Prop :=
  match n with
  | tableNode p =>
      match fuel with
      | 0 => False
      | S fuel' =>
          match s !! p with
          | None => False
          | Some t =>
              2 <= node_pairs s (S fuel') (tableNode p) /\
              forall i, i < indexLimit -> dense s fuel' (table_get t i)
          end
      end
  | _ => True
  end.

(** The subtrees off the walk along [hv]: every slot of a table of the
    stack, but the slot the walk went through, is dense. *)
Fixpoint dense_off (s : store) (hv : hashVal) (path : tableStack) : Prop :=
  match path with
  | [] => True
  | par :: rest =>
      (exists t, s !! par = Some t /\
         forall i, i < indexLimit -> i <> Index hv (length rest) ->
           dense s (depthLimit - S (length rest)) (table_get t i)) /\
      dense_off s hv rest
  end.

(** What the visiting function is applied to: Go's [nodeI] with the table
    or leaf object it points to. *)
Inductive visitArg : Type :=
| VisitNil
| VisitTable (t : table)
| VisitLeaf (l : leaf).

(** Modelled from the spec: the read-only traversal of section 4.8 (the
    [visit] methods of the tables are missing from the sources).  The
    function is applied to the table, then to every slot of its array in
    order, descending into child tables; the result carries the greatest
    depth of a visited table.  Running out of [fuel] stands for a
    recursion that does not end. *)
Definition visit_slot {A : Type}
    (visit_table : table -> nat -> A -> outcome (A * nat))
    (fn : A -> visitArg -> outcome A) (s : store) (depth : nat)
    (r : outcome (A * nat)) (n : nodeI) : outcome (A * nat) :=
  '(acc, md) <-- r ;>
  match n with
  | nilNode => acc <-- fn acc VisitNil ;> Ret (acc, md)
  | leafNode l => acc <-- fn acc (VisitLeaf l) ;> Ret (acc, md)
  | tableNode p =>
      ct <-- deref s p ;>
      '(acc, md') <-- visit_table ct (S depth) acc ;>
      Ret (acc, Nat.max md md')
  end.

Fixpoint visit {A : Type} (fn : A -> visitArg -> outcome A) (s : store)
    (fuel : nat) (t : table) (depth : nat) (acc : A) : outcome (A * nat) :=
  match fuel with
  | 0 => Panic "stack overflow"
  | S fuel' =>
      acc <-- fn acc (VisitTable t) ;>
      fold_left (visit_slot (visit fn s fuel') fn s depth)
                (table_nodes t) (Ret (acc, depth))
  end.

End Nodes.

Abbreviation store := (list table).
Abbreviation tableStack := (list loc).

(** The last level of the walk, under the name the packages do not reuse. *)
Abbreviation lastLevel := maxDepth.

(** ** Package hamt32: the persistent (copy-on-write) map *)

Module Hamt32.

(** hamt32.go: the constants of the package. *)
Definition hashSize : nat := 32.
Definition IndexBits : nat := 5.
Definition DepthLimit : nat := hashSize / IndexBits.
Definition remainder : nat := hashSize - DepthLimit * IndexBits.
Definition IndexLimit : nat := Nat.shiftl 1 IndexBits.
Definition maxDepth : nat := DepthLimit - 1.
Definition maxIndex : nat := IndexLimit - 1.
Definition DowngradeThreshold : nat := IndexLimit * 3 / 8.
Definition UpgradeThreshold : nat := IndexLimit / 2.

Definition FixedTables : nat := 0.
Definition SparseTables : nat := 1.
Definition HybridTables : nat := 2.

#[export] Instance params : Params :=
  {| indexBits := IndexBits; depthLimit := DepthLimit |}.

Section WithHost.
Context {V : Type} {HH : HostHash}.

Abbreviation value := (@value V).
Abbreviation leaf := (@leaf V).
Abbreviation nodeI := (@nodeI V).
Abbreviation table := (@table V).
Abbreviation store := (list table).

(** hamt_common.go: [hamtBase].  hamt_functional.go assigns table pointers
    to [root], [nil] among them, so the field is a nullable pointer. *)
Record HamtBase : Type := mkHamt {
  root : option loc;
  nentries : Z;
  grade : bool;
  startFixed : bool
}.

Definition set_root (h : HamtBase) (r : option loc) : HamtBase :=
  mkHamt r (nentries h) (grade h) (startFixed h).
Definition set_nentries (h : HamtBase) (n : Z) : HamtBase :=
  mkHamt (root h) n (grade h) (startFixed h).

Definition init (h : HamtBase) (opt : nat) : HamtBase :=
  if bool_decide (opt = HybridTables) then
    mkHamt (root h) (nentries h) true (startFixed h)
  else if bool_decide (opt = SparseTables) then h
  else if bool_decide (opt = FixedTables) then
    mkHamt (root h) (nentries h) (grade h) true
  else h.

Definition NewFunctional (opt : nat) : HamtBase :=
  init (mkHamt None 0 false false) opt.

Definition IsEmpty (h : HamtBase) : bool := bool_decide (nentries h = 0%Z).
Definition Nentries (h : HamtBase) : Z := nentries h.

(** hamt_common.go: [find].  The loop runs for [depth = 0 .. maxDepth];
    [fuel] is the number of iterations left, [S maxDepth - depth]. *)
Fixpoint find_loop (s : store) (hv : hashVal) (fuel depth : nat)
    (curTable : loc) (path : tableStack) (idx : nat)
  : outcome (tableStack * option leaf * nat) :=
  match fuel with
  | 0 => Ret (path, None, idx)
  | S fuel' =>
      let path := push path curTable in
      let idx := Index hv depth in
      t <-- deref s curTable ;>
      match table_get t idx with
      | nilNode => Ret (path, None, idx)
      | leafNode n => Ret (path, Some n, idx)
      | tableNode n =>
          if bool_decide (depth = maxDepth) then
            Panic "SHOULD NOT BE REACHED; depth == maxDepth & tableI entry found"
          else find_loop s hv fuel' (S depth) n path idx
      end
  end.

Definition find (s : store) (h : HamtBase) (k : iKey)
  : outcome (tableStack * option leaf * nat) :=
  match root h with
  | None => Panic "nil dereference"
  | Some r => find_loop s (Hash k) (S maxDepth) 0 r [] 0
  end.

(** hamt_common.go: [Get]. *)
Fixpoint Get_loop (s : store) (k : iKey) (hv : hashVal) (fuel depth : nat)
    (curTable : loc) : outcome (value * bool) :=
  match fuel with
  | 0 => Panic "SHOULD NEVER BE REACHED"
  | S fuel' =>
      let idx := Index hv depth in
      t <-- deref s curTable ;>
      match table_get t idx with
      | nilNode => Ret (nil_value, false)
      | leafNode lf => Ret (leaf_get lf k)
      | tableNode n =>
          if bool_decide (depth = maxDepth) then Panic "SHOULD NOT HAPPEN"
          else Get_loop s k hv fuel' (S depth) n
      end
  end.

Definition Get (s : store) (h : HamtBase) (key : list byte)
  : outcome (value * bool) :=
  if IsEmpty h then Ret (nil_value, false)
  else
    let k := newKey key in
    match root h with
    | None => Panic "nil dereference"
    | Some r => Get_loop s k (Hash k) (S maxDepth) 0 r
    end.

(** hamt_common.go: [createTable]. *)
Definition createTable (h : HamtBase) (s : store) (depth : nat)
    (leaf1 leaf2 : leaf) : store * loc :=
  if startFixed h then createFixedTable s depth leaf1 leaf2
  else createSparseTable s depth leaf1 leaf2.

Definition createRootTable (s : store) (lf : leaf) : store * loc :=
  createRootFixedTable s lf.

(** hamt_functional.go: [persist].  Each ancestor is copied and the copy,
    a fresh cell, is the only table written. *)
Fixpoint persist (s : store) (h : HamtBase) (oldTable : loc)
    (newTable : option loc) (path : tableStack) {struct path}
  : outcome (store * HamtBase) :=
  if IsEmpty h then Ret (s, set_root h newTable)
  else if bool_decide (Some oldTable = root h) then Ret (s, set_root h newTable)
  else
    let depth := length path in
    let parentDepth := depth - 1 in
    ot <-- deref s oldTable ;>
    let parentIdx := Index (table_Hash ot) parentDepth in
    match path with
    | [] => Panic "nil dereference"
    | oldParent :: path' =>
        op <-- deref s oldParent ;>
        let '(s1, newParent) := alloc s (table_copy op) in
        s2 <-- update s1 newParent
                 (fun t => match newTable with
                           | None => table_remove t parentIdx
                           | Some nt => table_replace t parentIdx (tableNode nt)
                           end) ;>
        persist s2 h oldParent (Some newParent) path'
    end.

(** hamt_functional.go: [Put], the statement [if leaf == nil { ... } else
    { ... }] that builds [newTable] from [curTable]. *)
Definition Put_newTable (s : store) (nh : HamtBase) (k : iKey) (v : value)
    (ct : table) (depth idx : nat) (lf : option leaf)
  : outcome (store * loc * bool) :=
  match lf with
  | None =>
      let '(s1, newTable) :=
        if grade nh && bool_decide (table_nentries ct + 1 = UpgradeThreshold)
        then alloc s (upgradeToFixedTable (table_Hash ct) depth
                                          (table_entries ct))
        else alloc s (table_copy ct) in
      s2 <-- update s1 newTable
               (fun t => table_insert t idx (leafNode (newFlatLeaf k v))) ;>
      Ret (s2, newTable, true)
  | Some lf =>
      let '(s1, newTable) := alloc s (table_copy ct) in
      if bool_decide (leaf_Hash lf = Hash k) then
        let '(newLeaf, added) := leaf_put lf k v in
        s2 <-- update s1 newTable
                 (fun t => table_replace t idx (leafNode newLeaf)) ;>
        Ret (s2, newTable, added)
      else
        let '(s2, tmpTable) :=
          createTable nh s1 (depth + 1) lf (newFlatLeaf k v) in
        s3 <-- update s2 newTable
                 (fun t => table_replace t idx (tableNode tmpTable)) ;>
        Ret (s3, newTable, true)
  end.

(** hamt_functional.go: [Put]. *)
Definition Put (s : store) (h : HamtBase) (bs : list byte) (v : value)
  : outcome (store * HamtBase * bool) :=
  let nh := h in
  let k := newKey bs in
  if IsEmpty nh then
    let '(s1, r) := createRootTable s (newFlatLeaf k v) in
    Ret (s1, set_nentries (set_root nh (Some r)) (uint_incr (nentries nh)), true)
  else
    '(path, lf, idx) <-- find s nh k ;>
    match pop path with
    | (None, _) => Panic "nil dereference"
    | (Some curTable, path) =>
        let depth := length path in
        ct <-- deref s curTable ;>
        '(s', newTable, added) <-- Put_newTable s nh k v ct depth idx lf ;>
        let nh := if added : bool then set_nentries nh (uint_incr (nentries nh))
                  else nh in
        '(s'', nh) <-- persist s' nh curTable (Some newTable) path ;>
        Ret (s'', nh, added)
    end.

(** hamt_functional.go: [Del], the statements that build [newTable] from
    [curTable] once the leaf has given up the pair; the result is [nil]
    when the table is left without entries. *)
Definition Del_newTable (s : store) (h : HamtBase) (ct : table)
    (depth idx : nat) (newLeaf : option leaf) : outcome (store * option loc) :=
  let '(s1, newTable) := alloc s (table_copy ct) in
  match newLeaf with
  | Some nl =>
      s2 <-- update s1 newTable
               (fun t => table_replace t idx (leafNode nl)) ;>
      Ret (s2, Some newTable)
  | None =>
      s2 <-- update s1 newTable (fun t => table_remove t idx) ;>
      nt <-- deref s2 newTable ;>
      if bool_decide (table_nentries nt = 0) then Ret (s2, None)
      else if grade h && bool_decide (table_nentries nt = DowngradeThreshold)
      then
        let '(s3, dt) :=
          alloc s2 (downgradeToSparseTable (table_Hash nt) depth
                                           (table_entries nt)) in
        Ret (s3, Some dt)
      else Ret (s2, Some newTable)
  end.

(** hamt_functional.go: [Del]. *)
Definition Del (s : store) (h : HamtBase) (bs : list byte)
  : outcome (store * HamtBase * value * bool) :=
  if IsEmpty h then Ret (s, h, nil_value, false)
  else
    let k := newKey bs in
    '(path, lf, idx) <-- find s h k ;>
    match pop path with
    | (None, _) => Panic "nil dereference"
    | (Some curTable, path) =>
        match lf with
        | None => Ret (s, h, nil_value, false)
        | Some lf =>
            let '(newLeaf, val, deleted) := leaf_del lf k in
            if negb deleted then Ret (s, h, nil_value, false)
            else
              let depth := length path in
              ct <-- deref s curTable ;>
              '(s2, newTable) <-- Del_newTable s h ct depth idx newLeaf ;>
              let nh := set_nentries h (uint_decr (nentries h)) in
              '(s3, nh) <-- persist s2 nh curTable newTable path ;>
              Ret (s3, nh, val, deleted)
        end
    end.

(** hamt32.go: [Counts].  The two arrays have [IndexLimit + 1] and
    [DepthLimit] slots. *)
Record Counts : Type := mkCounts {
  TableCountsByNentries : list Z;
  TableCountsByDepth : list Z;
  Nils : Z;
  Nodes : Z;
  Tables : Z;
  Leafs : Z;
  CountFixedTables : Z;
  CountSparseTables : Z;
  FlatLeafs : Z;
  CollisionLeafs : Z;
  KeyVals : Z
}.

Definition newCounts : Counts :=
  mkCounts (replicate (IndexLimit + 1) 0%Z) (replicate DepthLimit 0%Z)
           0 0 0 0 0 0 0 0 0.

Definition uint_add (a b : Z) : Z := ((a + b) mod uint_max)%Z.

(** [a[i]++] on an array. *)
Definition array_incr (a : list Z) (i : nat) : outcome (list Z) :=
  match a !! i with
  | Some x => Ret (<[i := uint_incr x]> a)
  | None => Panic "index out of range"
  end.

(** hamt_common.go: the closure [countFn] of [Count]. *)
Definition countFn (c : Counts) (n : @visitArg V) : outcome Counts :=
  match n with
  | VisitNil =>
      Ret (mkCounts (TableCountsByNentries c) (TableCountsByDepth c)
             (uint_incr (Nils c)) (Nodes c) (Tables c) (Leafs c)
             (CountFixedTables c) (CountSparseTables c)
             (FlatLeafs c) (CollisionLeafs c) (KeyVals c))
  | VisitTable x =>
      byN <-- array_incr (TableCountsByNentries c) (table_nentries x) ;>
      byD <-- array_incr (TableCountsByDepth c) (table_depth x) ;>
      Ret (mkCounts byN byD
             (Nils c) (uint_incr (Nodes c)) (uint_incr (Tables c)) (Leafs c)
             (if is_fixed x then uint_incr (CountFixedTables c)
              else CountFixedTables c)
             (if is_fixed x then CountSparseTables c
              else uint_incr (CountSparseTables c))
             (FlatLeafs c) (CollisionLeafs c) (KeyVals c))
  | VisitLeaf (flatLeaf _ _) =>
      Ret (mkCounts (TableCountsByNentries c) (TableCountsByDepth c)
             (Nils c) (uint_incr (Nodes c)) (Tables c) (uint_incr (Leafs c))
             (CountFixedTables c) (CountSparseTables c)
             (uint_incr (FlatLeafs c)) (CollisionLeafs c)
             (uint_add (KeyVals c) 1))
  | VisitLeaf (collisionLeaf _ kvs) =>
      Ret (mkCounts (TableCountsByNentries c) (TableCountsByDepth c)
             (Nils c) (uint_incr (Nodes c)) (Tables c) (uint_incr (Leafs c))
             (CountFixedTables c) (CountSparseTables c)
             (FlatLeafs c) (uint_incr (CollisionLeafs c))
             (uint_add (KeyVals c) (Z.of_nat (length kvs))))
  end.

(** hamt_common.go: [Count], through [visit].  hamt_common.go holds the
    root table by value, so the root of an empty map, [nil] in
    hamt_functional.go, is visited as that table's zero value, an empty
    fixed table.  The fuel exceeds the number of tables of the store. *)
Definition Count (s : store) (h : HamtBase) : outcome (nat * Counts) :=
  rt <-- match root h with
         | Some r => deref s r
         | None => Ret (emptyFixedTable 0 0%N)
         end ;>
  '(counts, maxDepth) <--
    visit countFn s (length s + S DepthLimit) rt 0 newCounts ;>
  Ret (maxDepth, counts).

(** The two arrays of [Counts] keep their lengths, and [KeyVals] is a
    [uint]. *)
Definition counts_ok (c : Counts) : Prop :=
  length (TableCountsByNentries c) = IndexLimit + 1 /\
  length (TableCountsByDepth c) = DepthLimit /\
  (0 <= KeyVals c < uint_max)%Z.

(** *** Maps reachable by the public operations *)

Definition root_node (h : HamtBase) : nodeI := node_of_root (root h).

(** The maps built from [NewFunctional] by [Put] and [Del], in a heap that
    other maps may grow meanwhile.  A map never holds [2^64 - 1] entries
    when a pair is added. *)
Inductive reachable : store -> HamtBase -> Prop :=
| reach_new (s : store) (opt : nat) : reachable s (NewFunctional opt)
| reach_grow (s s' : store) (h : HamtBase) :
    reachable s h -> s `prefix_of` s' -> reachable s' h
| reach_put (s s' : store) (h h' : HamtBase) (bs : list byte) (v : value)
    (added : bool) :
    reachable s h -> (nentries h + 1 < uint_max)%Z ->
    Put s h bs v = Ret (s', h', added) -> reachable s' h'
| reach_del (s s' : store) (h h' : HamtBase) (bs : list byte) (v : value)
    (deleted : bool) :
    reachable s h ->
    Del s h bs = Ret (s', h', v, deleted) -> reachable s' h'.

(** The invariant of the reachable maps: the entry count is the number of
    pairs held, every table pointer resolves, and a non-empty map is a
    well-formed trie. *)
Definition INV (s : store) (h : HamtBase) : Prop :=
  nentries h = Z.of_nat (node_pairs s depthLimit (root_node h)) /\
  (nentries h < uint_max)%Z /\
  closed s depthLimit (root_node h) /\
  (nentries h <> 0%Z -> wf_node s depthLimit [] (root_node h)).

(** The leaves of a map that is not empty hold each key once. *)
Definition INV_leaves (s : store) (h : HamtBase) : Prop :=
  nentries h <> 0%Z ->
  forall ds l, leaf_at s depthLimit (root_node h) ds = Some l -> leaf_nodup l.

(** The walk along [hv] from table [cur] at [depth] runs through tables
    down to the last level and finds a table in the slot there. *)
Fixpoint overdeep (s : store) (hv : hashVal) (fuel depth : nat) (cur : loc)
  : Prop :=
  match fuel with
  | 0 => False
  | S fuel' =>
      match s !! cur with
      | None => False
      | Some t =>
          match table_get t (Index hv depth) with
          | tableNode q => depth = maxDepth \/ overdeep s hv fuel' (S depth) q
          | _ => False
          end
      end
  end.

End WithHost.
End Hamt32.

(** ** Package hamt64: the in-place map *)

Module Hamt64.

(** hamt.go: the constants of the package.  [nBits] and [maxDepth] come
    from the key package: a 60 bit hash split into ten 6 bit numbers. *)
Definition nBits : nat := 6.
Definition maxDepth : nat := 9.
Definition tableCapacity : nat := Nat.shiftl 1 nBits.
Definition downgradeThreshold : nat := tableCapacity / 8.
Definition upgradeThreshold : nat := tableCapacity / 2.

Definition HybridTables : nat := 0.
Definition CompTablesOnly : nat := 1.
Definition FullTablesOnly : nat := 2.

#[export] Instance params : Params :=
  {| indexBits := nBits; depthLimit := S maxDepth |}.

Section WithHost.
Context {V : Type} {HH : HostHash}.

Abbreviation value := (@value V).
Abbreviation leaf := (@leaf V).
Abbreviation nodeI := (@nodeI V).
Abbreviation table := (@table V).
Abbreviation store := (list table).

Record Hamt : Type := mkHamt {
  root : option loc;
  nentries : Z;
  grade : bool;
  fullinit : bool
}.

Definition set_root (h : Hamt) (r : option loc) : Hamt :=
  mkHamt r (nentries h) (grade h) (fullinit h).
Definition set_nentries (h : Hamt) (n : Z) : Hamt :=
  mkHamt (root h) n (grade h) (fullinit h).

Definition New (opt : nat) : Hamt :=
  if bool_decide (opt = CompTablesOnly) then mkHamt None 0 false false
  else if bool_decide (opt = FullTablesOnly) then mkHamt None 0 false true
  else mkHamt None 0 true false.

Definition IsEmpty (h : Hamt) : bool :=
  match root h with None => true | Some _ => false end.
Definition Nentries (h : Hamt) : Z := nentries h.

(** The fullTable and compressedTable of the package are the fixed and
    sparse tables; they keep a hash path but no depth of their own, so the
    depth field of the shared table model is filled with the depth of the
    walk and never read by this package. *)
Definition newRootTable (s : store) (lf : leaf) : store * loc :=
  createRootFixedTable s lf.

Definition newTable (h : Hamt) (s : store) (depth : nat) (hp : hashVal)
    (leaf1 leaf2 : leaf) : store * loc :=
  createTable_rec (fullinit h) (maxDepth - depth) s depth hp leaf1 leaf2.

(** hamt.go: [find].  On an empty map the stack returned is [nil]. *)
Fixpoint find_loop (s : store) (k : iKey) (fuel depth : nat)
    (curTable : loc) (path : tableStack) (idx : nat)
  : outcome (tableStack * option leaf * nat) :=
  match fuel with
  | 0 => Ret (path, None, idx)
  | S fuel' =>
      let path := push path curTable in
      let idx := Index (Hash k) depth in
      t <-- deref s curTable ;>
      match table_get t idx with
      | nilNode => Ret (path, None, idx)
      | leafNode n => Ret (path, Some n, idx)
      | tableNode n =>
          if bool_decide (depth = maxDepth) then
            Panic "SHOULD NOT BE REACHED; depth == maxDepth & tableI entry found"
          else find_loop s k fuel' (S depth) n path idx
      end
  end.

Definition find (s : store) (h : Hamt) (k : iKey)
  : outcome (tableStack * option leaf * nat) :=
  match root h with
  | None => Ret ([], None, 0)
  | Some r => find_loop s k (S maxDepth) 0 r [] 0
  end.

(** hamt.go: [Get]. *)
Fixpoint Get_loop (s : store) (k : iKey) (fuel depth : nat) (curTable : loc)
  : outcome (value * bool) :=
  match fuel with
  | 0 => Panic "SHOULD NEVER BE REACHED"
  | S fuel' =>
      let idx := Index (Hash k) depth in
      t <-- deref s curTable ;>
      match table_get t idx with
      | nilNode => Ret (nil_value, false)
      | leafNode lf => Ret (leaf_get lf k)
      | tableNode n =>
          if bool_decide (depth = maxDepth) then Panic "SHOULD NOT HAPPEN"
          else Get_loop s k fuel' (S depth) n
      end
  end.

Definition Get (s : store) (h : Hamt) (k : iKey) : outcome (value * bool) :=
  match root h with
  | None => Ret (nil_value, false)
  | Some r => Get_loop s k (S maxDepth) 0 r
  end.

(** hamt.go: the upgrade step of [Put], after a leaf was stored in an empty
    slot of [curTable]. *)
Definition Put_upgrade (s : store) (h : Hamt) (k : iKey) (depth : nat)
    (hp : hashVal) (curTable : loc) (path : tableStack)
  : outcome (store * Hamt) :=
  if grade h then
    t <-- deref s curTable ;>
    if negb (is_fixed t) && bool_decide (upgradeThreshold <= table_nentries t)
    then
      let '(s1, nt) :=
        alloc s (upgradeToFixedTable hp depth (table_entries t)) in
      if bool_decide (depth = 0) then Ret (s1, set_root h (Some nt))
      else
        match peek path with
        | None => Panic "nil dereference"
        | Some parentTable =>
            let parentIdx := Index (Hash k) (depth - 1) in
            s2 <-- update s1 parentTable
                     (fun p => table_set p parentIdx (tableNode nt)) ;>
            Ret (s2, h)
        end
    else Ret (s, h)
  else Ret (s, h).

(** hamt.go: [Put].  When [curLeaf.put] reports that nothing was inserted,
    the key existed and, as the doc comment of [Put] says, its value was
    overwritten: the leaf object was updated in place and the slot still
    points to it, so the slot holds the updated leaf in both cases. *)
Fixpoint Put_loop (s : store) (h : Hamt) (k : iKey) (v : value)
    (fuel depth : nat) (hp : hashVal) (curTable : loc) (path : tableStack)
  : outcome (store * Hamt * bool) :=
  match fuel with
  | 0 => Panic "WTF!!"
  | S fuel' =>
      let idx := Index (Hash k) depth in
      t <-- deref s curTable ;>
      match table_get t idx with
      | nilNode =>
          s1 <-- update s curTable
                   (fun t => table_set t idx (leafNode (newFlatLeaf k v))) ;>
          let h1 := set_nentries h (int_incr (nentries h)) in
          '(s2, h2) <-- Put_upgrade s1 h1 k depth hp curTable path ;>
          Ret (s2, h2, true)
      | leafNode curLeaf =>
          if bool_decide (leaf_Hash curLeaf = Hash k) then
            let '(colLeaf, inserted) := leaf_put curLeaf k v in
            if inserted then
              s1 <-- update s curTable
                       (fun t => table_set t idx (leafNode colLeaf)) ;>
              Ret (s1, set_nentries h (int_incr (nentries h)), true)
            else
              s1 <-- update s curTable
                       (fun t => table_replace t idx (leafNode colLeaf)) ;>
              Ret (s1, h, false)
          else if bool_decide (depth = maxDepth) then Panic "WTF!!!"
          else
            let hp := BuildHashPath hp idx depth in
            let '(s1, collisionTable) :=
              newTable h s (depth + 1) hp curLeaf (newFlatLeaf k v) in
            s2 <-- update s1 curTable
                     (fun t => table_set t idx (tableNode collisionTable)) ;>
            Ret (s2, set_nentries h (int_incr (nentries h)), true)
      | tableNode n =>
          Put_loop s h k v fuel' (S depth) (BuildHashPath hp idx depth) n
                   (push path curTable)
      end
  end.

Definition Put (s : store) (h : Hamt) (k : iKey) (v : value)
  : outcome (store * Hamt * bool) :=
  match root h with
  | None =>
      let '(s1, r) := newRootTable s (newFlatLeaf k v) in
      Ret (s1, set_nentries (set_root h (Some r)) (int_incr (nentries h)), true)
  | Some r => Put_loop s h k v (S maxDepth) 0 0%N r []
  end.

(** hamt.go: the downgrade step of [Del], after [curTable.set(idx, delLeaf)].
    It returns the table the walk now stands on. *)
Definition Del_downgrade (s : store) (h : Hamt) (k : iKey) (depth : nat)
    (hp : hashVal) (curTable : loc) (path : tableStack) (delLeaf : option leaf)
  : outcome (store * Hamt * loc) :=
  if grade h then
    match delLeaf with
    | Some _ => Ret (s, h, curTable)
    | None =>
        t <-- deref s curTable ;>
        if is_fixed t && bool_decide (table_nentries t <= downgradeThreshold)
        then
          let '(s1, nt) :=
            alloc s (downgradeToSparseTable hp depth (table_entries t)) in
          if bool_decide (depth = 0) then Ret (s1, set_root h (Some nt), nt)
          else
            match peek path with
            | None => Panic "nil dereference"
            | Some parentTable =>
                let parentIdx := Index (Hash k) (depth - 1) in
                s2 <-- update s1 parentTable
                         (fun p => table_set p parentIdx (tableNode nt)) ;>
                Ret (s2, h, nt)
            end
        else Ret (s, h, curTable)
    end
  else Ret (s, h, curTable).

(** hamt.go: the collapse loop of [Del]. *)
Fixpoint collapse (s : store) (curTable : loc) (depth : nat) (path : tableStack)
  : outcome (store * loc) :=
  t <-- deref s curTable ;>
  if bool_decide (table_nentries t = 1) then
    match depth with
    | 0 => Ret (s, curTable)
    | S depth' =>
        match table_entries t with
        | [] => Panic "index out of range"
        | (_, leafNode lf) :: _ =>
            match pop path with
            | (None, _) => Panic "nil dereference"
            | (Some parentTable, path') =>
                let parentIdx := Index (table_Hash t) depth' in
                s1 <-- update s parentTable
                         (fun p => table_set p parentIdx (leafNode lf)) ;>
                collapse s1 parentTable depth' path'
            end
        | _ :: _ => Ret (s, curTable)
        end
    end
  else Ret (s, curTable).

(** hamt.go: [Del]. *)
Fixpoint Del_loop (s : store) (h : Hamt) (k : iKey) (fuel depth : nat)
    (hp : hashVal) (curTable : loc) (path : tableStack)
  : outcome (store * Hamt * value * bool) :=
  match fuel with
  | 0 => Ret (s, h, nil_value, false)
  | S fuel' =>
      let idx := Index (Hash k) depth in
      t <-- deref s curTable ;>
      match table_get t idx with
      | nilNode => Ret (s, h, nil_value, false)
      | leafNode curLeaf =>
          let '(delLeaf, val, deleted) := leaf_del curLeaf k in
          if negb deleted then Ret (s, h, nil_value, false)
          else
            let h1 := set_nentries h (int_decr (nentries h)) in
            s1 <-- update s curTable
                     (fun t => table_set t idx (node_of_leaf delLeaf)) ;>
            '(s2, h2, curTable) <--
              Del_downgrade s1 h1 k depth hp curTable path delLeaf ;>
            '(s3, curTable) <-- collapse s2 curTable depth path ;>
            t3 <-- deref s3 curTable ;>
            let h3 :=
              if bool_decide (Some curTable = root h2)
                 && bool_decide (table_nentries t3 = 0)
              then set_root h2 None else h2 in
            Ret (s3, h3, val, true)
      | tableNode n =>
          Del_loop s h k fuel' (S depth) (BuildHashPath hp idx depth) n
                   (push path curTable)
      end
  end.

Definition Del (s : store) (h : Hamt) (k : iKey)
  : outcome (store * Hamt * value * bool) :=
  match root h with
  | None => Ret (s, h, nil_value, false)
  | Some r => Del_loop s h k (S maxDepth) 0 0%N r []
  end.

(** The maps built from [New] by [Put] and [Del]. *)
Inductive reachable : store -> Hamt -> Prop :=
| reach_new (s : store) (opt : nat) : reachable s (New opt)
| reach_put (s s' : store) (h h' : Hamt) (k : iKey) (v : value)
    (inserted : bool) :
    reachable s h -> Put s h k v = Ret (s', h', inserted) -> reachable s' h'
| reach_del (s s' : store) (h h' : Hamt) (k : iKey) (v : value)
    (deleted : bool) :
    reachable s h -> Del s h k = Ret (s', h', v, deleted) -> reachable s' h'.


(** The trie of a map with a root is compact: the root holds a pair, and
    every table below it two at least. *)
Definition compact (s : store) (h : Hamt) : Prop :=
  match root h with
  | None => True
  | Some r =>
      1 <= node_pairs s depthLimit (tableNode r) /\
      exists t, s !! r = Some t /\
        forall i, i < indexLimit -> dense s maxDepth (table_get t i)
  end.

(** The invariant of the reachable maps: a map with a root is a
    well-formed trie, and its leaves hold each key once. *)
Definition INV (s : store) (h : Hamt) : Prop :=
  match root h with
  | None => True
  | Some r =>
      wf_node s depthLimit [] (tableNode r) /\
      forall ds l, leaf_at s depthLimit (tableNode r) ds = Some l -> leaf_nodup l
  end.

End WithHost.
End Hamt64.

(** ** A host hash and keys for the examples *)

Module Sample.

(** The 32 bit FNV-1a hash, a hash function a host may supply. *)
Definition fnv1a32 (bs : list byte) : N :=
  fold_left (fun h b => ((N.lxor h (Byte.to_N b)) * 16777619) mod 2 ^ 32)%N
            bs 2166136261%N.

Definition host : HostHash := fnv1a32.

Definition bytes (str : string) : list byte := list_byte_of_string str.

(** A heap of hamt32 tables that no operation builds: seven fixed tables,
    each slot of a table pointing to the next table, the last one empty;
    and a map rooted at the first. *)
Definition deep_store : list (@table Z) :=
  map (fun d => fixedTable d 0%N (replicate 32 (tableNode (S d)))) (seq 0 6)
  ++ [fixedTable 6 0%N (replicate 32 nilNode)].

Definition deep_map : Hamt32.HamtBase := Hamt32.mkHamt (Some 0) 1 false false.


End Sample.

(** * Facts about the model *)

(** ** Bitmaps *)

Lemma popcount_double (n : N) : popcount (2 * n) = popcount n.
Proof. destruct n; reflexivity. Qed.

Lemma popcount_succ_double (n : N) : popcount (2 * n + 1) = S (popcount n).
Proof. destruct n; reflexivity. Qed.

Lemma popcount_div2 (n : N) :
  popcount n = popcount (N.div2 n) + (if N.odd n then 1 else 0).
Proof.
  destruct n as [|[p|p|]]; simpl; lia.
Qed.

Lemma rank_0 (bm : N) : rank bm 0 = 0.
Proof. unfold rank. simpl. rewrite N.land_0_r. reflexivity. Qed.

Lemma land_ones_succ_div2 (bm : N) (i : nat) :
  N.div2 (N.land bm (N.ones (N.of_nat (S i))))
  = N.land (N.div2 bm) (N.ones (N.of_nat i)).
Proof.
  apply N.bits_inj. intros n.
  rewrite N.testbit_div2, !N.land_spec, N.testbit_div2, Nat2N.inj_succ.
  f_equal.
  destruct (N.lt_ge_cases n (N.of_nat i)).
  - rewrite !N.ones_spec_low by lia. reflexivity.
  - rewrite !N.ones_spec_high by lia. reflexivity.
Qed.

Lemma land_ones_succ_odd (bm : N) (i : nat) :
  N.odd (N.land bm (N.ones (N.of_nat (S i)))) = N.odd bm.
Proof.
  rewrite <- !N.bit0_odd, N.land_spec, N.ones_spec_low by lia.
  apply andb_true_r.
Qed.

Lemma rank_low (bm : N) (i : nat) :
  rank bm (S i) = rank (N.div2 bm) i + (if N.odd bm then 1 else 0).
Proof.
  unfold rank. rewrite popcount_div2, land_ones_succ_div2, land_ones_succ_odd.
  reflexivity.
Qed.

Lemma bit_div2 (bm : N) (i : nat) : bit (N.div2 bm) i = bit bm (S i).
Proof. unfold bit. rewrite N.testbit_div2, Nat2N.inj_succ. reflexivity. Qed.

Lemma bit_0 (bm : N) : bit bm 0 = N.odd bm.
Proof. unfold bit. apply N.bit0_odd. Qed.

Lemma rank_S (bm : N) (i : nat) :
  rank bm (S i) = rank bm i + (if bit bm i then 1 else 0).
Proof.
  revert bm. induction i as [|i IH]; intros bm.
  - rewrite rank_low, !rank_0, bit_0. reflexivity.
  - rewrite rank_low, IH, (rank_low bm i), bit_div2. lia.
Qed.

Lemma rank_le (bm : N) (i j : nat) : i <= j -> rank bm i <= rank bm j.
Proof.
  induction 1 as [|j _ IH]; [lia|]. rewrite rank_S. lia.
Qed.

Lemma rank_lt (bm : N) (i j : nat) :
  i < j -> bit bm i = true -> rank bm i < rank bm j.
Proof.
  intros Hij Hb. pose proof (rank_le bm (S i) j Hij) as Hle.
  rewrite rank_S, Hb in Hle. lia.
Qed.

Lemma popcount_rank (bm : N) (n : nat) :
  (bm < 2 ^ N.of_nat n)%N -> popcount bm = rank bm n.
Proof.
  intros Hlt. unfold rank. rewrite N.land_ones, N.mod_small by assumption.
  reflexivity.
Qed.

Lemma bit_setbit (bm : N) (i j : nat) :
  bit (N.setbit bm (N.of_nat i)) j = bool_decide (i = j) || bit bm j.
Proof.
  unfold bit. case_bool_decide as Hij.
  - subst. rewrite N.setbit_eq. reflexivity.
  - rewrite N.setbit_neq by lia. reflexivity.
Qed.

Lemma bit_clearbit (bm : N) (i j : nat) :
  bit (N.clearbit bm (N.of_nat i)) j = negb (bool_decide (i = j)) && bit bm j.
Proof.
  unfold bit. case_bool_decide as Hij.
  - subst. rewrite N.clearbit_eq. reflexivity.
  - rewrite N.clearbit_neq by lia. reflexivity.
Qed.

Lemma rank_setbit (bm : N) (i j : nat) :
  bit bm i = false ->
  rank (N.setbit bm (N.of_nat i)) j = rank bm j + (if bool_decide (i < j) then 1 else 0).
Proof.
  intros Hb. induction j as [|j IH].
  - rewrite !rank_0. case_bool_decide; lia.
  - rewrite !rank_S, IH, bit_setbit.
    repeat case_bool_decide; subst; simpl; try lia.
    + rewrite Hb. lia.
Qed.

Lemma rank_clearbit (bm : N) (i j : nat) :
  bit bm i = true ->
  rank (N.clearbit bm (N.of_nat i)) j + (if bool_decide (i < j) then 1 else 0) = rank bm j.
Proof.
  intros Hb. induction j as [|j IH].
  - rewrite !rank_0. case_bool_decide; lia.
  - rewrite !rank_S, bit_clearbit.
    repeat case_bool_decide; subst; simpl; try lia.
    + rewrite Hb. lia.
Qed.

Lemma setbit_lt (bm : N) (i n : nat) :
  (bm < 2 ^ N.of_nat n)%N -> i < n -> (N.setbit bm (N.of_nat i) < 2 ^ N.of_nat n)%N.
Proof.
  intros Hlt Hi.
  destruct (N.eq_dec (N.setbit bm (N.of_nat i)) 0%N) as [->|Hne].
  { apply N.neq_0_lt_0, N.pow_nonzero. lia. }
  apply N.log2_lt_pow2; [lia|].
  unfold N.setbit. rewrite N.log2_lor.
  apply N.max_lub_lt.
  - destruct (N.eq_dec bm 0%N) as [->|]; [simpl; lia|].
    apply N.log2_lt_pow2; lia.
  - rewrite N.shiftl_1_l, N.log2_pow2 by lia. lia.
Qed.

Lemma clearbit_lt (bm : N) (i n : nat) :
  (bm < 2 ^ N.of_nat n)%N -> (N.clearbit bm (N.of_nat i) < 2 ^ N.of_nat n)%N.
Proof.
  intros Hlt. eapply N.le_lt_trans; [|exact Hlt].
  unfold N.clearbit. apply N.ldiff_le_l.
Qed.

(** ** The table contract *)

Section TableFacts.
Context {V : Type} {P : Params}.
Abbreviation nodeI := (@nodeI V).
Abbreviation table := (@table V).
Implicit Types (t : table) (n : nodeI) (i j : nat).

Lemma sparse_rank_lt (bm : N) (nodes : list nodeI) i :
  (bm < 2 ^ N.of_nat indexLimit)%N -> length nodes = popcount bm ->
  i < indexLimit -> bit bm i = true -> rank bm i < length nodes.
Proof.
  intros Hbm Hlen Hi Hb. rewrite Hlen, (popcount_rank bm indexLimit Hbm).
  apply rank_lt; assumption.
Qed.

Lemma sparse_rank_le (bm : N) (nodes : list nodeI) i :
  (bm < 2 ^ N.of_nat indexLimit)%N -> length nodes = popcount bm ->
  i < indexLimit -> rank bm i <= length nodes.
Proof.
  intros Hbm Hlen Hi. rewrite Hlen, (popcount_rank bm indexLimit Hbm).
  apply rank_le. lia.
Qed.

(** A slot of a well-formed sparse table is occupied iff its bit is set. *)
Lemma sparse_get_nil d h bm (nodes : list nodeI) i :
  wf_table (sparseTable d h bm nodes) -> i < indexLimit ->
  is_nil (table_get (sparseTable d h bm nodes) i) = negb (bit bm i).
Proof.
  intros (Hbm & Hlen & Hnn) Hi. simpl.
  destruct (bit bm i) eqn:Hb; [|reflexivity].
  destruct (lookup_lt_is_Some_2 nodes (rank bm i)) as [n Hn].
  { eapply sparse_rank_lt; eauto. }
  rewrite Hn. simpl. eapply Forall_lookup_1 in Hnn; eauto.
Qed.

Lemma table_get_insert t i j n :
  wf_table t -> i < indexLimit ->
  is_nil (table_get t i) = true ->
  table_get (table_insert t i n) j = if bool_decide (i = j) then n else table_get t j.
Proof.
  intros Hwf Hi Hnil. destruct t as [d h nodes|d h bm nodes].
  - simpl in *. case_bool_decide as Hij.
    + subst j. rewrite list_lookup_insert_eq by lia. reflexivity.
    + rewrite list_lookup_insert_ne by assumption. reflexivity.
  - rewrite sparse_get_nil in Hnil by assumption.
    apply negb_true_iff in Hnil.
    destruct Hwf as (Hbm & Hlen & Hnn).
    pose proof (sparse_rank_le bm nodes i Hbm Hlen Hi) as Hr.
    simpl. rewrite bit_setbit, rank_setbit by assumption.
    case_bool_decide as Hij; simpl.
    + subst j. rewrite bool_decide_eq_false_2 by lia.
      rewrite Nat.add_0_r, lookup_app_r by (rewrite length_take; lia).
      rewrite length_take, Nat.min_l, Nat.sub_diag by lia. reflexivity.
    + destruct (bit bm j) eqn:Hbj; [|reflexivity].
      case_bool_decide as Hlt.
      * assert (rank bm i <= rank bm j) by (apply rank_le; lia).
        rewrite lookup_app_r by (rewrite length_take; lia).
        rewrite length_take, Nat.min_l by lia.
        replace (rank bm j + 1 - rank bm i) with (S (rank bm j - rank bm i)) by lia.
        simpl. rewrite lookup_drop. f_equal. f_equal. lia.
      * assert (rank bm j < rank bm i) by (apply rank_lt; [lia|assumption]).
        rewrite Nat.add_0_r, lookup_app_l by (rewrite length_take; lia).
        rewrite lookup_take_lt by lia. reflexivity.
Qed.

Lemma wf_table_insert t i n :
  wf_table t -> i < indexLimit ->
  is_nil (table_get t i) = true -> is_nil n = false ->
  wf_table (table_insert t i n).
Proof.
  intros Hwf Hi Hnil Hn. destruct t as [d h nodes|d h bm nodes].
  - simpl in *. rewrite length_insert. assumption.
  - rewrite sparse_get_nil in Hnil by assumption.
    apply negb_true_iff in Hnil.
    destruct Hwf as (Hbm & Hlen & Hnn).
    pose proof (sparse_rank_le bm nodes i Hbm Hlen Hi) as Hr.
    simpl. split; [apply setbit_lt; assumption|]. split.
    + rewrite (popcount_rank _ indexLimit) by (apply setbit_lt; assumption).
      rewrite rank_setbit, bool_decide_eq_true_2 by assumption.
      rewrite <- (popcount_rank bm indexLimit Hbm), <- Hlen.
      rewrite length_app, length_take. simpl. rewrite length_drop. lia.
    + apply Forall_app. split; [apply Forall_take; assumption|].
      constructor; [assumption|apply Forall_drop; assumption].
Qed.

Lemma table_get_replace t i j n :
  wf_table t -> i < indexLimit -> j < indexLimit ->
  is_nil (table_get t i) = false ->
  table_get (table_replace t i n) j = if bool_decide (i = j) then n else table_get t j.
Proof.
  intros Hwf Hi Hj Hnil. destruct t as [d h nodes|d h bm nodes].
  - simpl in *. case_bool_decide as Hij.
    + subst j. rewrite list_lookup_insert_eq by lia. reflexivity.
    + rewrite list_lookup_insert_ne by assumption. reflexivity.
  - rewrite sparse_get_nil in Hnil by assumption.
    apply negb_false_iff in Hnil.
    destruct Hwf as (Hbm & Hlen & Hnn).
    pose proof (sparse_rank_lt bm nodes i Hbm Hlen Hi Hnil) as Hr.
    simpl. case_bool_decide as Hij.
    + subst j. rewrite Hnil, list_lookup_insert_eq by lia. reflexivity.
    + destruct (bit bm j) eqn:Hbj; [|reflexivity].
      rewrite list_lookup_insert_ne; [reflexivity|].
      destruct (Nat.lt_total i j) as [Hlt|[?|Hlt]]; [|lia|].
      * pose proof (rank_lt bm i j Hlt Hnil). lia.
      * pose proof (rank_lt bm j i Hlt Hbj). lia.
Qed.

Lemma wf_table_replace t i n :
  wf_table t -> is_nil n = false -> wf_table (table_replace t i n).
Proof.
  intros Hwf Hn. destruct t as [d h nodes|d h bm nodes].
  - simpl in *. rewrite length_insert. assumption.
  - destruct Hwf as (Hbm & Hlen & Hnn). simpl.
    split; [assumption|]. split; [rewrite length_insert; assumption|].
    apply Forall_insert; assumption.
Qed.

Lemma table_get_remove t i j :
  wf_table t -> i < indexLimit -> j < indexLimit ->
  is_nil (table_get t i) = false ->
  table_get (table_remove t i) j = if bool_decide (i = j) then nilNode else table_get t j.
Proof.
  intros Hwf Hi Hj Hnil. destruct t as [d h nodes|d h bm nodes].
  - simpl in *. case_bool_decide as Hij.
    + subst j. rewrite list_lookup_insert_eq by lia. reflexivity.
    + rewrite list_lookup_insert_ne by assumption. reflexivity.
  - rewrite sparse_get_nil in Hnil by assumption.
    apply negb_false_iff in Hnil.
    destruct Hwf as (Hbm & Hlen & Hnn).
    pose proof (sparse_rank_lt bm nodes i Hbm Hlen Hi Hnil) as Hr.
    simpl. rewrite bit_clearbit.
    case_bool_decide as Hij; simpl; [reflexivity|].
    destruct (bit bm j) eqn:Hbj; [|reflexivity].
    pose proof (rank_clearbit bm i j Hnil) as Hrk.
    case_bool_decide as Hlt.
    + pose proof (rank_lt bm i j Hlt Hnil).
      rewrite list_lookup_delete_ge by lia. f_equal. f_equal. lia.
    + assert (rank bm j < rank bm i) by (apply rank_lt; [lia|assumption]).
      rewrite list_lookup_delete_lt by lia. f_equal. f_equal. lia.
Qed.

Lemma wf_table_remove t i :
  wf_table t -> i < indexLimit -> is_nil (table_get t i) = false ->
  wf_table (table_remove t i).
Proof.
  intros Hwf Hi Hnil. destruct t as [d h nodes|d h bm nodes].
  - simpl in *. rewrite length_insert. assumption.
  - rewrite sparse_get_nil in Hnil by assumption.
    apply negb_false_iff in Hnil.
    destruct Hwf as (Hbm & Hlen & Hnn).
    pose proof (sparse_rank_lt bm nodes i Hbm Hlen Hi Hnil) as Hr.
    simpl. split; [apply clearbit_lt; assumption|]. split.
    + rewrite (popcount_rank _ indexLimit) by (apply clearbit_lt; assumption).
      pose proof (rank_clearbit bm i indexLimit Hnil) as Hrk.
      rewrite bool_decide_eq_true_2 in Hrk by assumption.
      rewrite <- (popcount_rank bm indexLimit Hbm), <- Hlen in Hrk.
      rewrite length_delete by (apply lookup_lt_is_Some_2; assumption). lia.
    + apply Forall_delete. assumption.
Qed.

End TableFacts.

Section TableFacts2.
Context {V : Type} {P : Params}.
Abbreviation nodeI := (@nodeI V).
Abbreviation table := (@table V).
Implicit Types (t : table) (n : nodeI) (i j : nat).

Lemma table_insert_fields t i n :
  table_depth (table_insert t i n) = table_depth t /\
  table_Hash (table_insert t i n) = table_Hash t /\
  is_fixed (table_insert t i n) = is_fixed t.
Proof. destruct t; simpl; auto. Qed.

Lemma table_replace_fields t i n :
  table_depth (table_replace t i n) = table_depth t /\
  table_Hash (table_replace t i n) = table_Hash t /\
  is_fixed (table_replace t i n) = is_fixed t.
Proof. destruct t; simpl; auto. Qed.

Lemma table_remove_fields t i :
  table_depth (table_remove t i) = table_depth t /\
  table_Hash (table_remove t i) = table_Hash t /\
  is_fixed (table_remove t i) = is_fixed t.
Proof. destruct t; simpl; auto. Qed.

Lemma table_set_fields t i n :
  table_depth (table_set t i n) = table_depth t /\
  table_Hash (table_set t i n) = table_Hash t /\
  is_fixed (table_set t i n) = is_fixed t.
Proof.
  unfold table_set.
  destruct (is_nil n), (is_nil (table_get t i));
    auto using table_insert_fields, table_replace_fields, table_remove_fields.
Qed.

(** [set] writes the slot whatever it held. *)
Lemma table_get_set t i j n :
  wf_table t -> i < indexLimit -> j < indexLimit ->
  table_get (table_set t i n) j = if bool_decide (i = j) then n else table_get t j.
Proof.
  intros Hwf Hi Hj. unfold table_set.
  destruct (is_nil n) eqn:Hn, (is_nil (table_get t i)) eqn:Ht.
  - case_bool_decide; [subst j|reflexivity].
    destruct n; try discriminate. destruct (table_get t i); try discriminate.
    reflexivity.
  - rewrite table_get_remove by assumption.
    case_bool_decide; [|reflexivity]. destruct n; try discriminate. reflexivity.
  - apply table_get_insert; assumption.
  - apply table_get_replace; assumption.
Qed.

Lemma wf_table_set t i n :
  wf_table t -> i < indexLimit -> wf_table (table_set t i n).
Proof.
  intros Hwf Hi. unfold table_set.
  destruct (is_nil n) eqn:Hn, (is_nil (table_get t i)) eqn:Ht;
    auto using wf_table_insert, wf_table_replace, wf_table_remove.
Qed.

Lemma wf_emptyFixedTable d h : wf_table (@emptyFixedTable V P d h).
Proof. simpl. apply length_replicate. Qed.

Lemma wf_emptySparseTable d h : wf_table (@emptySparseTable V d h).
Proof. simpl. split; [|split]; [|reflexivity|constructor].
  apply N.neq_0_lt_0, N.pow_nonzero. lia. Qed.

Lemma table_get_emptyFixedTable d h i : table_get (@emptyFixedTable V P d h) i = nilNode.
Proof.
  simpl. destruct (replicate indexLimit nilNode !! i) eqn:E; [|reflexivity].
  apply lookup_replicate in E as [-> _]. reflexivity.
Qed.

Lemma table_get_emptySparseTable d h i : table_get (@emptySparseTable V d h) i = nilNode.
Proof. unfold table_get, emptySparseTable, bit. rewrite N.bits_0. reflexivity. Qed.

(** A fixed table holds nothing out of range, a sparse table no bit there. *)
Lemma table_get_ge t i :
  wf_table t -> indexLimit <= i -> table_get t i = nilNode.
Proof.
  intros Hwf Hi. destruct t as [d h nodes|d h bm nodes]; simpl in *.
  - rewrite lookup_ge_None_2 by lia. reflexivity.
  - destruct Hwf as (Hbm & _). unfold bit.
    destruct (N.eq_dec bm 0%N) as [->|Hne]; [rewrite N.bits_0; reflexivity|].
    rewrite N.bits_above_log2; [reflexivity|].
    apply N.log2_lt_pow2 in Hbm; lia.
Qed.

Lemma elem_of_table_entries t i n :
  (i, n) ∈ table_entries t <->
  i < indexLimit /\ table_get t i = n /\ is_nil n = false.
Proof.
  unfold table_entries. rewrite list_elem_of_omap. split.
  - intros (j & Hj & Hm). apply elem_of_seq in Hj.
    destruct (table_get t j) eqn:E; simplify_eq; (split; [lia|auto]).
  - intros (Hi & Hg & Hn). exists i. split; [apply elem_of_seq; lia|].
    rewrite Hg. destruct n; simplify_eq; reflexivity.
Qed.

Lemma table_entries_fst_sublist t :
  sublist (table_entries t).*1 (seq 0 indexLimit).
Proof.
  unfold table_entries. induction (seq 0 indexLimit) as [|j l IH]; simpl.
  - constructor.
  - destruct (table_get t j); simpl.
    + apply sublist_cons. exact IH.
    + apply sublist_skip. exact IH.
    + apply sublist_skip. exact IH.
Qed.

Lemma NoDup_table_entries_fst t : NoDup (table_entries t).*1.
Proof.
  eapply sublist_NoDup; [apply NoDup_seq|apply table_entries_fst_sublist].
Qed.

Lemma fill_table_fields t (ents : list (nat * nodeI)) :
  table_depth (fill_table t ents) = table_depth t /\
  table_Hash (fill_table t ents) = table_Hash t /\
  is_fixed (fill_table t ents) = is_fixed t.
Proof.
  revert t. induction ents as [|[i n] ents IH]; intros t; simpl; [auto|].
  destruct (IH (table_insert t i n)) as (-> & -> & ->).
  apply table_insert_fields.
Qed.

Lemma fill_table_spec (ents : list (nat * nodeI)) t :
  wf_table t -> NoDup ents.*1 ->
  (forall i n, (i, n) ∈ ents ->
     i < indexLimit /\ is_nil n = false /\ is_nil (table_get t i) = true) ->
  wf_table (fill_table t ents) /\
  (forall i n, (i, n) ∈ ents -> table_get (fill_table t ents) i = n) /\
  (forall j, j ∉ ents.*1 -> table_get (fill_table t ents) j = table_get t j).
Proof.
  revert t. induction ents as [|[i n] ents IH]; intros t Hwf Hnd Hin; simpl.
  - split; [assumption|]. split; [intros ? ? []%elem_of_nil|reflexivity].
  - pose proof (NoDup_cons_1_1 _ _ Hnd) as Hni. apply NoDup_cons_1_2 in Hnd.
    destruct (Hin i n) as (Hi & Hn & Hnil); [left|].
    assert (Hwf1 : wf_table (table_insert t i n)) by (apply wf_table_insert; assumption).
    destruct (IH (table_insert t i n)) as (Hwf' & Hg & Ho); [assumption..| |].
    { intros i' n' Hin'. destruct (Hin i' n') as (? & ? & ?); [right; assumption|].
      split; [assumption|]. split; [assumption|].
      rewrite table_get_insert by assumption.
      rewrite bool_decide_eq_false_2; [assumption|].
      intros ->. apply Hni. apply (list_elem_of_fmap_2 fst) in Hin'. exact Hin'. }
    split; [assumption|]. split.
    + intros i' n' [Heq|Hin']%elem_of_cons.
      * simplify_eq. rewrite Ho by assumption.
        rewrite table_get_insert, bool_decide_eq_true_2 by auto. reflexivity.
      * apply Hg. assumption.
    + intros j Hj. apply not_elem_of_cons in Hj as [Hji Hj].
      rewrite Ho by assumption. rewrite table_get_insert by assumption.
      rewrite bool_decide_eq_false_2 by auto. reflexivity.
Qed.

Lemma fill_table_entries t0 t :
  wf_table t0 -> wf_table t -> (forall i, table_get t0 i = nilNode) ->
  wf_table (fill_table t0 (table_entries t)) /\
  forall j, table_get (fill_table t0 (table_entries t)) j = table_get t j.
Proof.
  intros Hwf0 Hwf Hempty.
  destruct (fill_table_spec (table_entries t) t0) as (Hwf' & Hg & Ho).
  - assumption.
  - apply NoDup_table_entries_fst.
  - intros i n (Hi & Hg & Hn)%elem_of_table_entries.
    rewrite Hempty. auto.
  - split; [assumption|]. intros j.
    destruct (is_nil (table_get t j)) eqn:Hn.
    + rewrite Ho.
      * rewrite Hempty. destruct (table_get t j); simplify_eq. reflexivity.
      * intros ((i & n) & Hj & Hin)%list_elem_of_fmap. simpl in Hj. subst i.
        apply elem_of_table_entries in Hin as (_ & Hg' & Hn'). congruence.
    + destruct (decide (j < indexLimit)) as [Hj|Hj].
      * apply Hg. apply elem_of_table_entries. auto.
      * rewrite (table_get_ge t) in Hn by (assumption || lia). discriminate.
Qed.

Lemma upgradeToFixedTable_spec hp d t :
  wf_table t ->
  let t' := upgradeToFixedTable hp d (table_entries t) in
  wf_table t' /\ table_depth t' = d /\ table_Hash t' = hp /\ is_fixed t' = true /\
  forall j, table_get t' j = table_get t j.
Proof.
  intros Hwf. unfold upgradeToFixedTable.
  destruct (fill_table_entries (emptyFixedTable d hp) t) as (Hwf' & Hg);
    auto using wf_emptyFixedTable, table_get_emptyFixedTable.
  destruct (fill_table_fields (emptyFixedTable d hp) (table_entries t)) as (Hd & Hh & Hf).
  simpl. auto.
Qed.

Lemma downgradeToSparseTable_spec hp d t :
  wf_table t ->
  let t' := downgradeToSparseTable hp d (table_entries t) in
  wf_table t' /\ table_depth t' = d /\ table_Hash t' = hp /\ is_fixed t' = false /\
  forall j, table_get t' j = table_get t j.
Proof.
  intros Hwf. unfold downgradeToSparseTable.
  destruct (fill_table_entries (emptySparseTable d hp) t) as (Hwf' & Hg);
    auto using wf_emptySparseTable, table_get_emptySparseTable.
  destruct (fill_table_fields (emptySparseTable d hp) (table_entries t)) as (Hd & Hh & Hf).
  simpl. auto.
Qed.

(** A table without entries has only empty slots. *)
Lemma table_nentries_0 t i :
  wf_table t -> table_nentries t = 0 -> table_get t i = nilNode.
Proof.
  intros Hwf H0. destruct t as [d h nodes|d h bm nodes]; simpl in *.
  - destruct (nodes !! i) as [n|] eqn:E; [|reflexivity]. simpl.
    destruct (is_nil n) eqn:Hn; [destruct n; simplify_eq; reflexivity|].
    apply length_zero_iff_nil in H0.
    assert (n ∈ filter (λ n, is_nil n = false) nodes) as Hin.
    { apply list_elem_of_filter. split; [assumption|]. eapply list_elem_of_lookup_2; eauto. }
    rewrite H0 in Hin. apply elem_of_nil in Hin. contradiction.
  - apply length_zero_iff_nil in H0. subst nodes.
    destruct (bit bm i); reflexivity.
Qed.

End TableFacts2.

(** ** Hash digits *)

Section HashFacts.
Context {P : Params} {HH : HostHash}.
Implicit Types (h : hashVal) (d i j : nat).

Lemma Index_lt h d : Index h d < indexLimit.
Proof.
  unfold Index, indexLimit. rewrite N.land_ones.
  assert (Hlt : (N.shiftr h (N.of_nat (d * indexBits)) mod 2 ^ N.of_nat indexBits
               < 2 ^ N.of_nat indexBits)%N).
  { apply N.mod_lt, N.pow_nonzero. lia. }
  pose proof (Nat2N.inj_pow 2 indexBits) as Hpow. simpl N.of_nat in Hpow. lia.
Qed.

Lemma testbit_Index h d (r : N) :
  N.testbit (N.of_nat (Index h d)) r
  = N.testbit h (N.of_nat (d * indexBits) + r) && bool_decide (r < N.of_nat indexBits)%N.
Proof.
  unfold Index. rewrite N2Nat.id, N.land_spec, N.shiftr_spec by lia.
  rewrite (N.add_comm r). f_equal.
  case_bool_decide.
  - apply N.ones_spec_low. lia.
  - apply N.ones_spec_high. lia.
Qed.

Lemma length_digits h d : length (digits h d) = d.
Proof. unfold digits. rewrite length_map, length_seq. reflexivity. Qed.

Lemma digits_S h d : digits h (S d) = digits h d ++ [Index h d].
Proof. unfold digits. rewrite seq_S, map_app. reflexivity. Qed.

Lemma digits_lookup h d j : j < d -> digits h d !! j = Some (Index h j).
Proof.
  intros Hj. unfold digits. rewrite list_lookup_fmap, lookup_seq_lt by assumption.
  reflexivity.
Qed.

Lemma digits_eq_Index h1 h2 d j :
  digits h1 d = digits h2 d -> j < d -> Index h1 j = Index h2 j.
Proof.
  intros Heq Hj. pose proof (digits_lookup h1 d j Hj) as H1.
  rewrite Heq, digits_lookup in H1 by assumption. congruence.
Qed.

Lemma digits_le h1 h2 d d' :
  digits h1 d = digits h2 d -> d' <= d -> digits h1 d' = digits h2 d'.
Proof.
  intros Heq Hle. apply list_eq. intros j.
  destruct (decide (j < d')) as [Hj|Hj].
  - rewrite !digits_lookup by assumption. f_equal.
    eapply digits_eq_Index; [eassumption|lia].
  - rewrite !lookup_ge_None_2 by (rewrite length_digits; lia). reflexivity.
Qed.

Lemma Index_hashPath h d j : j < d -> Index (hashPath h d) j = Index h j.
Proof.
  intros Hj. apply Nat2N.inj, N.bits_inj. intros r.
  rewrite !testbit_Index. case_bool_decide as Hr; [|rewrite !andb_false_r; reflexivity].
  unfold hashPath. rewrite N.land_spec, N.ones_spec_low, andb_true_r; [reflexivity|].
  nia.
Qed.

Lemma digits_hashPath h d : digits (hashPath h d) d = digits h d.
Proof.
  apply list_eq. intros j. destruct (decide (j < d)) as [Hj|Hj].
  - rewrite !digits_lookup by assumption. f_equal. apply Index_hashPath. assumption.
  - rewrite !lookup_ge_None_2 by (rewrite length_digits; lia). reflexivity.
Qed.

Lemma Index_path_0 d : Index 0%N d = 0.
Proof. unfold Index. rewrite N.shiftr_0_l, N.land_0_l. reflexivity. Qed.

Lemma testbit_high h (n : N) :
  (h < 2 ^ hashBits)%N -> (hashBits <= n)%N -> N.testbit h n = false.
Proof.
  intros Hh Hn. rewrite <- (N.mod_small h (2 ^ hashBits)) by assumption.
  apply N.mod_pow2_bits_high. assumption.
Qed.

(** Two hash values are equal iff all their digits agree. *)
Lemma digits_inj h1 h2 :
  (h1 < 2 ^ hashBits)%N -> (h2 < 2 ^ hashBits)%N ->
  digits h1 depthLimit = digits h2 depthLimit -> h1 = h2.
Proof.
  intros H1 H2 Heq. apply N.bits_inj. intros n.
  destruct (N.lt_ge_cases n hashBits) as [Hn|Hn].
  - unfold hashBits in Hn.
    assert (Hb : indexBits <> 0) by (intros E; rewrite E in Hn; lia).
    set (q := N.to_nat n / indexBits). set (r := N.to_nat n mod indexBits).
    assert (Hq : q < depthLimit).
    { apply Nat.Div0.div_lt_upper_bound. lia. }
    assert (Hr : r < indexBits) by (apply Nat.mod_upper_bound; assumption).
    assert (Hn' : n = (N.of_nat (q * indexBits) + N.of_nat r)%N).
    { pose proof (Nat.div_mod_eq (N.to_nat n) indexBits). unfold q, r. lia. }
    pose proof (digits_eq_Index h1 h2 depthLimit q Heq Hq) as Hi.
    pose proof (testbit_Index h1 q (N.of_nat r)) as T1.
    pose proof (testbit_Index h2 q (N.of_nat r)) as T2.
    rewrite bool_decide_eq_true_2, andb_true_r in T1, T2 by lia.
    rewrite Hn', <- T1, <- T2, Hi. reflexivity.
  - rewrite !testbit_high by assumption. reflexivity.
Qed.

Lemma Hash_lt (k : iKey) : (Hash k < 2 ^ hashBits)%N.
Proof.
  unfold Hash, calcHashVal. rewrite N.land_ones.
  apply N.mod_lt, N.pow_nonzero. lia.
Qed.

End HashFacts.

(** ** Leaves *)

Section LeafFacts.
Context {V : Type} {P : Params} {HH : HostHash}.
Abbreviation value := (@value V).
Abbreviation leaf := (@leaf V).
Implicit Types (l : leaf) (k : iKey) (v : value) (kvs : list (iKey * value)).

Lemma key_equals_refl k : key_equals k k = true.
Proof. unfold key_equals. apply bool_decide_eq_true_2. reflexivity. Qed.

Lemma key_equals_true k k' : key_equals k k' = true -> k = k'.
Proof. unfold key_equals. apply bool_decide_eq_true_1. Qed.

Lemma kvs_get_put kvs k v : kvs_get (kvs_put kvs k v).1 k = (v, true).
Proof.
  induction kvs as [|[k' v'] kvs IH]; simpl.
  - rewrite key_equals_refl. reflexivity.
  - destruct (key_equals k' k) eqn:E; simpl.
    + rewrite E. reflexivity.
    + destruct (kvs_put kvs k v) as [kvs' added]. simpl in *. rewrite E. exact IH.
Qed.

Lemma kvs_put_added kvs k v : (kvs_put kvs k v).2 = negb (kvs_get kvs k).2.
Proof.
  induction kvs as [|[k' v'] kvs IH]; simpl; [reflexivity|].
  destruct (key_equals k' k); simpl; [reflexivity|].
  destruct (kvs_put kvs k v). exact IH.
Qed.

Lemma kvs_put_length kvs k v :
  length (kvs_put kvs k v).1 = length kvs + (if (kvs_put kvs k v).2 then 1 else 0).
Proof.
  induction kvs as [|[k' v'] kvs IH]; simpl; [reflexivity|].
  destruct (key_equals k' k); simpl; [lia|].
  destruct (kvs_put kvs k v) as [kvs' added]. simpl in *. lia.
Qed.

Lemma kvs_put_Forall (Q : iKey * value -> Prop) kvs k v :
  Forall Q kvs -> (forall v', Q (k, v')) -> Forall Q (kvs_put kvs k v).1.
Proof.
  intros HQ Hk. induction HQ as [|[k' v'] kvs Hh Ht IH]; simpl.
  - constructor; [apply Hk|constructor].
  - destruct (key_equals k' k) eqn:E; simpl.
    + apply key_equals_true in E. subst k'. constructor; [apply Hk|assumption].
    + destruct (kvs_put kvs k v) as [kvs' added]. simpl in *. constructor; assumption.
Qed.

Lemma kvs_get_miss kvs k : (kvs_get kvs k).2 = false -> (kvs_get kvs k).1 = nil_value.
Proof.
  induction kvs as [|[k' v'] kvs IH]; simpl; [reflexivity|].
  destruct (key_equals k' k); simpl; [discriminate|exact IH].
Qed.

Lemma kvs_del_get kvs k :
  (kvs_del kvs k).2 = (kvs_get kvs k).2 /\
  (kvs_del kvs k).1.2 = (kvs_get kvs k).1.
Proof.
  induction kvs as [|[k' v'] kvs IH]; simpl; [auto|].
  destruct (key_equals k' k); simpl; [auto|].
  destruct (kvs_del kvs k) as [[kvs' v] deleted]. exact IH.
Qed.

Lemma kvs_del_length kvs k :
  (kvs_del kvs k).2 = true -> S (length (kvs_del kvs k).1.1) = length kvs.
Proof.
  induction kvs as [|[k' v'] kvs IH]; simpl; [discriminate|].
  destruct (key_equals k' k); simpl; [reflexivity|].
  destruct (kvs_del kvs k) as [[kvs' v] deleted]. simpl in *. intros H. rewrite IH; auto.
Qed.

Lemma kvs_del_Forall (Q : iKey * value -> Prop) kvs k :
  Forall Q kvs -> Forall Q (kvs_del kvs k).1.1.
Proof.
  intros HQ. induction HQ as [|[k' v'] kvs Hh Ht IH]; simpl; [constructor|].
  destruct (key_equals k' k); simpl; [assumption|].
  destruct (kvs_del kvs k) as [[kvs' v] deleted]. simpl in *. constructor; assumption.
Qed.

(** Insert-then-get on a leaf. *)
Lemma leaf_get_put l k v : leaf_get (leaf_put l k v).1 k = (v, true).
Proof.
  destruct l as [k' v'|h kvs]; simpl.
  - destruct (key_equals k' k) eqn:E; simpl.
    + rewrite key_equals_refl. reflexivity.
    + rewrite E, key_equals_refl. reflexivity.
  - pose proof (kvs_get_put kvs k v). destruct (kvs_put kvs k v). assumption.
Qed.

(** A leaf reports an insertion iff it did not hold the key. *)
Lemma leaf_put_added l k v : (leaf_put l k v).2 = negb (leaf_get l k).2.
Proof.
  destruct l as [k' v'|h kvs]; simpl.
  - destruct (key_equals k' k); reflexivity.
  - pose proof (kvs_put_added kvs k v). destruct (kvs_put kvs k v). assumption.
Qed.

Lemma leaf_put_pairs l k v :
  length (keyVals (leaf_put l k v).1)
  = length (keyVals l) + (if (leaf_put l k v).2 then 1 else 0).
Proof.
  destruct l as [k' v'|h kvs]; simpl.
  - destruct (key_equals k' k); reflexivity.
  - pose proof (kvs_put_length kvs k v). destruct (kvs_put kvs k v). assumption.
Qed.

Lemma leaf_put_Hash l k v :
  leaf_Hash l = Hash k -> leaf_Hash (leaf_put l k v).1 = leaf_Hash l.
Proof.
  destruct l as [k' v'|h kvs]; simpl.
  - destruct (key_equals k' k); simpl; congruence.
  - destruct (kvs_put kvs k v). reflexivity.
Qed.

Lemma leaf_get_miss l k : (leaf_get l k).2 = false -> (leaf_get l k).1 = nil_value.
Proof.
  destruct l as [k' v'|h kvs]; simpl.
  - destruct (key_equals k' k); [discriminate|reflexivity].
  - apply kvs_get_miss.
Qed.

(** A leaf deletes a key iff it holds it, and returns the value held. *)
Lemma leaf_del_get l k :
  (leaf_del l k).2 = (leaf_get l k).2 /\
  ((leaf_del l k).2 = true -> (leaf_del l k).1.2 = (leaf_get l k).1).
Proof.
  destruct l as [k' v'|h kvs]; simpl.
  - destruct (key_equals k' k); simpl; auto.
  - destruct (kvs_del_get kvs k) as [H1 H2].
    destruct (kvs_del kvs k) as [[kvs' v] deleted]. simpl in *.
    destruct deleted.
    + destruct kvs' as [|[k1 v1] [|kv2 kvs'']]; simpl;
        (split; [assumption|intros _; assumption]).
    + simpl. split; [assumption|discriminate].
Qed.

Lemma leaf_del_pairs l k :
  (leaf_del l k).2 = true ->
  S (match (leaf_del l k).1.1 with
     | Some l' => length (keyVals l')
     | None => 0
     end) = length (keyVals l).
Proof.
  destruct l as [k' v'|h kvs]; simpl.
  - destruct (key_equals k' k); simpl; [reflexivity|discriminate].
  - pose proof (kvs_del_length kvs k) as Hl.
    destruct (kvs_del kvs k) as [[kvs' v] deleted]. simpl in *.
    destruct deleted; [|discriminate]. intros _. specialize (Hl eq_refl).
    destruct kvs' as [|[k1 v1] [|kv2 kvs'']]; simpl in *; lia.
Qed.

Lemma wf_leaf_Hash_lt path l : wf_leaf path l -> (leaf_Hash l < 2 ^ hashBits)%N.
Proof.
  intros [_ Hl]. destruct l as [k' v'|h kvs]; simpl.
  - apply Hash_lt.
  - destruct Hl as [Hlen Hall]. destruct kvs as [|[k1 v1] kvs]; [simpl in Hlen; lia|].
    apply Forall_cons_1 in Hall as [<- _]. apply Hash_lt.
Qed.

Lemma wf_leaf_flat path k v :
  digits (Hash k) (length path) = path -> wf_leaf path (flatLeaf k v).
Proof. intros H. split; [exact H|exact I]. Qed.

Lemma wf_leaf_put path l k v :
  wf_leaf path l -> leaf_Hash l = Hash k -> wf_leaf path (leaf_put l k v).1.
Proof.
  intros [Hd Hl] Hh. destruct l as [k' v'|h kvs]; simpl in *.
  - destruct (key_equals k' k) eqn:E; simpl.
    + apply key_equals_true in E. subst k'. split; [exact Hd|exact I].
    + split; [exact Hd|]. split; [simpl; lia|].
      repeat constructor; simpl; congruence.
  - destruct Hl as [Hlen Hall].
    pose proof (kvs_put_length kvs k v) as Hl'.
    pose proof (kvs_put_Forall (fun kv => Hash kv.1 = h) kvs k v Hall) as HF.
    destruct (kvs_put kvs k v) as [kvs' added]. simpl in *.
    split; [exact Hd|]. split; [lia|]. apply HF. intros _. simpl. congruence.
Qed.

Lemma wf_leaf_del path l k l' :
  wf_leaf path l -> (leaf_del l k).1.1 = Some l' -> wf_leaf path l'.
Proof.
  intros [Hd Hl]. destruct l as [k' v'|h kvs]; simpl in *.
  - destruct (key_equals k' k); simpl; intros; simplify_eq. split; [exact Hd|exact I].
  - destruct Hl as [Hlen Hall].
    pose proof (kvs_del_Forall (fun kv => Hash kv.1 = h) kvs k Hall) as HF.
    destruct (kvs_del kvs k) as [[kvs' v] deleted]. simpl in *.
    destruct deleted; simpl; [|intros; simplify_eq; split; [exact Hd|auto]].
    destruct kvs' as [|[k1 v1] [|kv2 kvs'']]; simpl; intros; simplify_eq.
    + apply Forall_cons_1 in HF as [HF _]. simpl in HF.
      split; [simpl; rewrite HF; exact Hd|exact I].
    + split; [exact Hd|]. split; [simpl; lia|assumption].
Qed.

Lemma wf_leaf_get_other path l k :
  wf_leaf path l -> leaf_Hash l <> Hash k -> (leaf_get l k).2 = false.
Proof.
  intros [_ Hl] Hne. destruct l as [k' v'|h kvs]; simpl in *.
  - destruct (key_equals k' k) eqn:E; [|reflexivity].
    apply key_equals_true in E. congruence.
  - destruct Hl as [_ Hall]. induction Hall as [|[k1 v1] kvs Hh Ht IH]; simpl; [reflexivity|].
    destruct (key_equals k1 k) eqn:E; [|exact IH].
    apply key_equals_true in E. simpl in Hh. congruence.
Qed.

(** *** The other keys of a leaf, and the distinctness of its keys *)

Lemma key_equals_false k k' : k <> k' -> key_equals k k' = false.
Proof. intros H. unfold key_equals. apply bool_decide_eq_false_2, H. Qed.

Lemma kvs_get_notin kvs k : (kvs_get kvs k).2 = false -> k ∉ kvs.*1.
Proof.
  induction kvs as [|[k' v'] kvs IH]; simpl; [intros _; apply not_elem_of_nil|].
  destruct (key_equals k' k) eqn:E; simpl; [discriminate|].
  intros Hf. apply not_elem_of_cons. split; [|apply IH, Hf].
  intros ->. rewrite key_equals_refl in E. discriminate.
Qed.

Lemma kvs_get_found_in kvs k : (kvs_get kvs k).2 = true -> k ∈ kvs.*1.
Proof.
  induction kvs as [|[k' v'] kvs IH]; simpl; [discriminate|].
  destruct (key_equals k' k) eqn:E; simpl.
  - intros _. apply key_equals_true in E. subst. left.
  - intros Hf. right. apply IH, Hf.
Qed.

Lemma kvs_get_put_other kvs k v k' :
  k' <> k -> kvs_get (kvs_put kvs k v).1 k' = kvs_get kvs k'.
Proof.
  intros Hne. induction kvs as [|[k0 v0] kvs IH]; simpl.
  - rewrite key_equals_false by congruence. reflexivity.
  - destruct (key_equals k0 k) eqn:E; simpl.
    + apply key_equals_true in E. subst k0.
      rewrite key_equals_false by congruence. reflexivity.
    + destruct (kvs_put kvs k v) as [kvs' added]. simpl in *.
      rewrite IH. reflexivity.
Qed.

Lemma kvs_put_keys kvs k v :
  (kvs_put kvs k v).1.*1
  = if (kvs_get kvs k).2 then kvs.*1 else kvs.*1 ++ [k].
Proof.
  induction kvs as [|[k0 v0] kvs IH]; simpl; [reflexivity|].
  destruct (key_equals k0 k) eqn:E; simpl; [reflexivity|].
  destruct (kvs_put kvs k v) as [kvs' added]. simpl in *.
  change (k0 :: kvs'.*1 = (if (kvs_get kvs k).2 then k0 :: kvs.*1
                           else k0 :: kvs.*1 ++ [k])).
  rewrite IH. destruct (kvs_get kvs k).2; reflexivity.
Qed.

Lemma kvs_put_nodup kvs k v : NoDup kvs.*1 -> NoDup (kvs_put kvs k v).1.*1.
Proof.
  intros Hnd. rewrite kvs_put_keys.
  destruct (kvs_get kvs k).2 eqn:E; [exact Hnd|].
  apply list.NoDup_app. split; [exact Hnd|]. split; [|apply NoDup_singleton].
  intros x Hx Hk. apply list_elem_of_singleton in Hk. subst x.
  apply (kvs_get_notin kvs k E), Hx.
Qed.

Lemma leaf_get_put_other (l : leaf) k v k' :
  k' <> k -> leaf_get (leaf_put l k v).1 k' = leaf_get l k'.
Proof.
  intros Hne. destruct l as [k0 v0|h kvs]; simpl.
  - destruct (key_equals k0 k) eqn:E; simpl.
    + apply key_equals_true in E. subst k0.
      rewrite key_equals_false by congruence. reflexivity.
    + rewrite (key_equals_false k k') by congruence.
      destruct (key_equals k0 k'); reflexivity.
  - pose proof (kvs_get_put_other kvs k v k' Hne) as H.
    destruct (kvs_put kvs k v) as [kvs' added]. exact H.
Qed.

Lemma leaf_put_nodup (l : leaf) k v : leaf_nodup l -> leaf_nodup (leaf_put l k v).1.
Proof.
  unfold leaf_nodup. destruct l as [k0 v0|h kvs]; simpl.
  - intros _. destruct (key_equals k0 k) eqn:E; simpl.
    + apply NoDup_singleton.
    + apply list.NoDup_cons. split; [|apply NoDup_singleton].
      intros Hin. apply list_elem_of_singleton in Hin. subst k0.
      rewrite key_equals_refl in E. discriminate.
  - intros Hnd. pose proof (kvs_put_nodup kvs k v Hnd) as H.
    destruct (kvs_put kvs k v) as [kvs' added]. exact H.
Qed.

Lemma kvs_del_get_other kvs k k' :
  k' <> k -> kvs_get (kvs_del kvs k).1.1 k' = kvs_get kvs k'.
Proof.
  intros Hne. induction kvs as [|[k0 v0] kvs IH]; simpl; [reflexivity|].
  destruct (key_equals k0 k) eqn:E; simpl.
  - apply key_equals_true in E. subst k0.
    rewrite key_equals_false by congruence. reflexivity.
  - destruct (kvs_del kvs k) as [[kvs' v] deleted]. simpl in *.
    rewrite IH. reflexivity.
Qed.

Lemma kvs_del_keys kvs k : sublist (kvs_del kvs k).1.1.*1 kvs.*1.
Proof.
  induction kvs as [|[k0 v0] kvs IH]; simpl; [constructor|].
  destruct (key_equals k0 k); simpl; [apply sublist_cons, reflexivity|].
  destruct (kvs_del kvs k) as [[kvs' v] deleted]. simpl in *.
  apply sublist_skip, IH.
Qed.

Lemma kvs_del_get_self kvs k :
  NoDup kvs.*1 -> kvs_get (kvs_del kvs k).1.1 k = (nil_value, false).
Proof.
  induction kvs as [|[k0 v0] kvs IH]; simpl; [reflexivity|].
  intros Hnd. pose proof (NoDup_cons_1_1 _ _ Hnd) as Hni.
  apply NoDup_cons_1_2 in Hnd.
  destruct (key_equals k0 k) eqn:E; simpl.
  - apply key_equals_true in E. subst k0.
    destruct (kvs_get kvs k) as [x b] eqn:Eg. destruct b.
    + exfalso. apply Hni, kvs_get_found_in. rewrite Eg. reflexivity.
    + pose proof (kvs_get_miss kvs k) as Hm. rewrite Eg in Hm.
      simpl in Hm. rewrite Hm; reflexivity.
  - destruct (kvs_del kvs k) as [[kvs' v] deleted]. simpl in *.
    rewrite E. apply IH, Hnd.
Qed.

(** What a leaf holds for the other keys after [del]. *)
Lemma leaf_del_other (l : leaf) k k' :
  k' <> k -> (leaf_del l k).2 = true ->
  match (leaf_del l k).1.1 with
  | Some nl => leaf_get nl k'
  | None => (nil_value, false)
  end = leaf_get l k'.
Proof.
  intros Hne. destruct l as [k0 v0|h kvs]; simpl.
  - destruct (key_equals k0 k) eqn:E; simpl; [|discriminate].
    intros _. apply key_equals_true in E. subst k0.
    rewrite key_equals_false by congruence. reflexivity.
  - pose proof (kvs_del_get_other kvs k k' Hne) as H.
    destruct (kvs_del kvs k) as [[kvs' v] deleted]. simpl in *.
    destruct deleted; [|discriminate]. intros _.
    destruct kvs' as [|[k1 v1] [|kv2 kvs'']]; simpl in *; exact H.
Qed.

(** A leaf whose keys are distinct does not hold the key after [del]. *)
Lemma leaf_del_self (l : leaf) k :
  leaf_nodup l -> (leaf_del l k).2 = true ->
  match (leaf_del l k).1.1 with
  | Some nl => leaf_get nl k
  | None => (nil_value, false)
  end = (nil_value, false).
Proof.
  unfold leaf_nodup. destruct l as [k0 v0|h kvs]; simpl.
  - intros _. destruct (key_equals k0 k) eqn:E; simpl; [reflexivity|discriminate].
  - intros Hnd. pose proof (kvs_del_get_self kvs k Hnd) as H.
    destruct (kvs_del kvs k) as [[kvs' v] deleted]. simpl in *.
    destruct deleted; [|discriminate]. intros _.
    destruct kvs' as [|[k1 v1] [|kv2 kvs'']]; simpl in *; exact H.
Qed.

Lemma leaf_del_nodup (l : leaf) k l' :
  leaf_nodup l -> (leaf_del l k).1.1 = Some l' -> leaf_nodup l'.
Proof.
  unfold leaf_nodup. destruct l as [k0 v0|h kvs]; simpl.
  - destruct (key_equals k0 k); simpl; [discriminate|].
    intros _ [= <-]. apply NoDup_singleton.
  - intros Hnd. pose proof (kvs_del_keys kvs k) as Hsub.
    destruct (kvs_del kvs k) as [[kvs' v] deleted]. simpl in *.
    assert (Hnd' : NoDup kvs'.*1) by (eapply sublist_NoDup; eassumption).
    destruct deleted; [|intros [= <-]; exact Hnd].
    destruct kvs' as [|[k1 v1] [|kv2 kvs'']]; [discriminate| |];
      intros [= <-]; simpl; [apply NoDup_singleton|exact Hnd'].
Qed.

(** Two keys found in one leaf take two pairs. *)
Lemma leaf_get_found_one (l : leaf) k :
  (leaf_get l k).2 = true -> 1 <= length (keyVals l).
Proof.
  destruct l as [k0 v0|h kvs]; simpl; [lia|].
  destruct kvs; simpl; [discriminate|lia].
Qed.

Lemma kvs_get_found_two kvs k k' :
  k <> k' -> (kvs_get kvs k).2 = true -> (kvs_get kvs k').2 = true ->
  2 <= length kvs.
Proof.
  intros Hne. destruct kvs as [|[k0 v0] [|kv1 kvs]]; simpl; try discriminate; [|lia].
  destruct (key_equals k0 k) eqn:E1, (key_equals k0 k') eqn:E2; simpl;
    try discriminate.
  apply key_equals_true in E1, E2. congruence.
Qed.

Lemma leaf_get_found_two (l : leaf) k k' :
  k <> k' -> (leaf_get l k).2 = true -> (leaf_get l k').2 = true ->
  2 <= length (keyVals l).
Proof.
  intros Hne. destruct l as [k0 v0|h kvs]; simpl; [|apply kvs_get_found_two, Hne].
  destruct (key_equals k0 k) eqn:E1, (key_equals k0 k') eqn:E2; simpl;
    try discriminate.
  apply key_equals_true in E1, E2. congruence.
Qed.

End LeafFacts.

(** ** The store *)

Section StoreFacts.
Context {V : Type} {P : Params} {HH : HostHash}.
Abbreviation nodeI := (@nodeI V).
Abbreviation table := (@table V).
Abbreviation store := (list table).
Implicit Types (s : store) (t : table) (n : nodeI) (p q : loc).

Lemma alloc_spec s t s' p :
  alloc s t = (s', p) ->
  p = length s /\ s' = s ++ [t] /\ s' !! p = Some t /\ s `prefix_of` s'.
Proof.
  unfold alloc. intros [= <- <-]. split; [reflexivity|]. split; [reflexivity|].
  split; [apply list_lookup_middle; reflexivity|apply prefix_app_r; reflexivity].
Qed.

Lemma prefix_lookup s s' p t :
  s `prefix_of` s' -> s !! p = Some t -> s' !! p = Some t.
Proof. intros Hpre Hl. eapply prefix_lookup_Some; eassumption. Qed.

Lemma deref_Ret s p t : deref s p = Ret t <-> s !! p = Some t.
Proof. unfold deref. destruct (s !! p); split; intros; simplify_eq; reflexivity. Qed.

Lemma deref_lookup s p t : s !! p = Some t -> deref s p = Ret t.
Proof. apply deref_Ret. Qed.

(** Writing the last cell of a store, the one just allocated. *)
Lemma update_last s t (f : table -> table) :
  update (s ++ [t]) (length s) f = Ret (s ++ [f t]).
Proof.
  unfold update. rewrite list_lookup_middle by reflexivity.
  f_equal. rewrite insert_app_r_alt, Nat.sub_diag by lia. reflexivity.
Qed.

(** Allocating a copy and writing it: the store grows by the written copy. *)
Lemma alloc_update s t (f : table -> table) s1 p :
  alloc s t = (s1, p) ->
  update s1 p f = Ret (s ++ [f t]) /\ p = length s /\
  (s ++ [f t]) !! p = Some (f t) /\ s `prefix_of` (s ++ [f t]).
Proof.
  intros Ha. apply alloc_spec in Ha as (-> & -> & _ & _).
  split; [apply update_last|]. split; [reflexivity|].
  split; [apply list_lookup_middle; reflexivity|apply prefix_app_r; reflexivity].
Qed.

Lemma wf_node_mono s s' fuel path n :
  s `prefix_of` s' -> wf_node s fuel path n -> wf_node s' fuel path n.
Proof.
  intros Hpre. revert path n. induction fuel as [|fuel IH]; intros path n;
    destruct n as [|l|p]; simpl; try tauto.
  destruct (s !! p) as [t|] eqn:E; [|tauto].
  rewrite (prefix_lookup _ _ _ _ Hpre E).
  intros (Hwf & Hd & Hh & Hc). repeat split; try assumption.
  intros i Hi. apply IH, Hc, Hi.
Qed.

Lemma closed_mono s s' fuel fuel' n :
  s `prefix_of` s' -> fuel <= fuel' -> closed s fuel n -> closed s' fuel' n.
Proof.
  intros Hpre. revert fuel' n. induction fuel as [|fuel IH]; intros fuel' n Hle;
    destruct fuel' as [|fuel'], n as [|l|p]; simpl; try tauto; try lia.
  destruct (s !! p) as [t|] eqn:E; [|tauto].
  rewrite (prefix_lookup _ _ _ _ Hpre E).
  intros (Hwf & Hd & Hc). repeat split; try assumption.
  intros i Hi. apply IH; [lia|]. apply Hc, Hi.
Qed.

Lemma wf_node_closed s fuel path n :
  length path + fuel <= depthLimit -> wf_node s fuel path n -> closed s fuel n.
Proof.
  revert path n. induction fuel as [|fuel IH]; intros path n Hle;
    destruct n as [|l|p]; simpl; try tauto.
  destruct (s !! p) as [t|] eqn:E; [|tauto].
  intros (Hwf & Hd & Hh & Hc). repeat split; [assumption|lia|].
  intros i Hi. apply (IH (path ++ [i])); [rewrite length_app; simpl; lia|].
  apply Hc, Hi.
Qed.

Lemma node_pairs_mono s s' fuel fuel' n :
  s `prefix_of` s' -> fuel <= fuel' -> closed s fuel n ->
  node_pairs s' fuel' n = node_pairs s fuel n.
Proof.
  intros Hpre. revert fuel' n. induction fuel as [|fuel IH]; intros fuel' n Hle;
    destruct fuel' as [|fuel'], n as [|l|p]; simpl; try tauto; try lia.
  destruct (s !! p) as [t|] eqn:E; [|tauto].
  rewrite (prefix_lookup _ _ _ _ Hpre E).
  intros (Hwf & Hd & Hc). f_equal. apply map_ext_in.
  intros i Hi%in_seq. apply IH; [lia|]. apply Hc. lia.
Qed.

End StoreFacts.

(** ** The trie below a node *)

Section TreeFacts.
Context {V : Type} {P : Params} {HH : HostHash}.
Abbreviation value := (@value V).
Abbreviation leaf := (@leaf V).
Abbreviation nodeI := (@nodeI V).
Abbreviation table := (@table V).
Abbreviation store := (list table).
Implicit Types (s : store) (t : table) (n : nodeI) (p q cur : loc)
  (path : list nat) (stack : tableStack) (hv : hashVal) (k : iKey).

Lemma sum_seq_update (f g : nat -> nat) (a len i : nat) :
  a <= i < a + len -> (forall j, a <= j < a + len -> j <> i -> g j = f j) ->
  sum_list (map g (seq a len)) + f i = sum_list (map f (seq a len)) + g i.
Proof.
  revert a. induction len as [|len IH]; intros a Hi Hext; [lia|]. simpl.
  destruct (decide (a = i)) as [->|Hne].
  - assert (map g (seq (S i) len) = map f (seq (S i) len)) as ->; [|lia].
    apply map_ext_in. intros j Hj%in_seq. apply Hext; lia.
  - rewrite (Hext a) by lia.
    assert (IH' := IH (S a) ltac:(lia)).
    rewrite <- Nat.add_assoc, IH'; [lia|].
    intros j Hj Hji. apply Hext; lia.
Qed.

Lemma sum_seq_zero (f : nat -> nat) (a len : nat) :
  (forall j, f j = 0) -> sum_list (map f (seq a len)) = 0.
Proof.
  intros Hf. revert a. induction len as [|len IH]; intros a; simpl; [reflexivity|].
  rewrite Hf, IH. reflexivity.
Qed.

Lemma sum_seq_ge (f : nat -> nat) (a len i : nat) :
  a <= i < a + len -> f i <= sum_list (map f (seq a len)).
Proof.
  revert a. induction len as [|len IH]; intros a Hi; [lia|]. simpl.
  destruct (decide (a = i)) as [->|Hne]; [lia|].
  specialize (IH (S a) ltac:(lia)). lia.
Qed.

Lemma wf_node_table s fuel path p :
  wf_node s fuel path (tableNode p) <->
  exists fuel' t, fuel = S fuel' /\ s !! p = Some t /\ wf_table t /\
    table_depth t = length path /\ digits (table_Hash t) (length path) = path /\
    forall i, i < indexLimit -> wf_node s fuel' (path ++ [i]) (table_get t i).
Proof.
  destruct fuel as [|fuel']; simpl.
  - split; [tauto|]. intros (? & ? & ? & _). discriminate.
  - destruct (s !! p) as [t|].
    + split.
      * intros H. exists fuel', t. tauto.
      * intros (? & ? & ? & ? & H). simplify_eq. exact H.
    + split; [tauto|]. intros (? & ? & ? & ? & _). discriminate.
Qed.

Lemma closed_table s fuel p :
  closed s fuel (tableNode p) <->
  exists fuel' t, fuel = S fuel' /\ s !! p = Some t /\ wf_table t /\
    table_depth t < depthLimit /\
    forall i, i < indexLimit -> closed s fuel' (table_get t i).
Proof.
  destruct fuel as [|fuel']; simpl.
  - split; [tauto|]. intros (? & ? & ? & _). discriminate.
  - destruct (s !! p) as [t|].
    + split.
      * intros H. exists fuel', t. tauto.
      * intros (? & ? & ? & ? & H). simplify_eq. exact H.
    + split; [tauto|]. intros (? & ? & ? & ? & _). discriminate.
Qed.

Lemma node_pairs_table s fuel p t :
  s !! p = Some t ->
  node_pairs s (S fuel) (tableNode p)
  = sum_list (map (fun i => node_pairs s fuel (table_get t i)) (seq 0 indexLimit)).
Proof. intros E. simpl. rewrite E. reflexivity. Qed.

Lemma tree_get_table s k fuel depth p t :
  s !! p = Some t ->
  tree_get s k (S fuel) depth (tableNode p)
  = tree_get s k fuel (S depth) (table_get t (Index (Hash k) depth)).
Proof. intros E. simpl. rewrite E. reflexivity. Qed.

Lemma tree_get_mono s s' k fuel depth n :
  s `prefix_of` s' -> closed s fuel n ->
  tree_get s' k fuel depth n = tree_get s k fuel depth n.
Proof.
  intros Hpre. revert depth n. induction fuel as [|fuel IH]; intros depth n;
    destruct n as [|l|p]; simpl; try tauto.
  destruct (s !! p) as [t|] eqn:E; [|tauto].
  rewrite (prefix_lookup _ _ _ _ Hpre E).
  intros (Hwf & Hd & Hc). apply IH, Hc, Index_lt.
Qed.

(** *** The stack of ancestors *)

Lemma chain_mono s s' hv cur stack :
  s `prefix_of` s' -> chain s hv cur stack -> chain s' hv cur stack.
Proof.
  intros Hpre. revert cur. induction stack as [|par rest IH]; intros cur; simpl; [auto|].
  intros [(t & Ht & Hg) Hc]. split; [|apply IH, Hc].
  exists t. split; [eapply prefix_lookup; eassumption|assumption].
Qed.

Lemma chain_wf s hv cur stack :
  chain s hv cur stack ->
  wf_node s depthLimit [] (tableNode (root_of cur stack)) ->
  length stack < depthLimit /\
  wf_node s (depthLimit - length stack) (digits hv (length stack)) (tableNode cur).
Proof.
  revert cur. induction stack as [|par rest IH]; intros cur; simpl.
  - intros _ Hwf. rewrite Nat.sub_0_r. split; [|exact Hwf].
    destruct depthLimit; [destruct Hwf|lia].
  - intros [(t & Ht & Hg) Hc] Hwf. destruct (IH par Hc Hwf) as [Hlen Hpar].
    apply wf_node_table in Hpar as (fuel' & t' & Hf & Ht' & _ & _ & _ & Hch).
    simplify_eq. specialize (Hch (Index hv (length rest)) (Index_lt _ _)).
    rewrite Hg, <- digits_S in Hch.
    replace (depthLimit - S (length rest)) with fuel' by lia.
    split; [|exact Hch].
    destruct fuel'; [destruct Hch|lia].
Qed.

Lemma chain_tree_get s k cur stack :
  chain s (Hash k) cur stack -> length stack < depthLimit ->
  tree_get s k depthLimit 0 (tableNode (root_of cur stack))
  = tree_get s k (depthLimit - length stack) (length stack) (tableNode cur).
Proof.
  revert cur. induction stack as [|par rest IH]; intros cur; simpl.
  - intros _ _. rewrite Nat.sub_0_r. reflexivity.
  - intros [(t & Ht & Hg) Hc] Hlen. rewrite (IH par Hc) by lia.
    replace (depthLimit - length rest) with (S (depthLimit - S (length rest))) by lia.
    rewrite (tree_get_table _ _ _ _ _ _ Ht), Hg. reflexivity.
Qed.

Lemma chain_pairs_le s hv cur stack :
  chain s hv cur stack -> length stack < depthLimit ->
  node_pairs s (depthLimit - length stack) (tableNode cur)
  <= node_pairs s depthLimit (tableNode (root_of cur stack)).
Proof.
  revert cur. induction stack as [|par rest IH]; intros cur; simpl length.
  - intros _ _. rewrite Nat.sub_0_r. reflexivity.
  - intros [(t & Ht & Hg) Hc] Hlen. etrans; [|apply (IH par Hc); lia].
    replace (depthLimit - length rest) with (S (depthLimit - S (length rest))) by lia.
    rewrite (node_pairs_table _ _ _ _ Ht), <- Hg.
    apply (sum_seq_ge (fun i => node_pairs s _ (table_get t i))).
    pose proof (Index_lt hv (length rest)). lia.
Qed.

(** *** The leaves of a trie *)

Lemma leaf_at_nil s fuel ds : leaf_at s fuel (@nilNode V) ds = None.
Proof. destruct fuel; reflexivity. Qed.

Lemma leaf_at_leaf s fuel (l : leaf) ds : leaf_at s fuel (leafNode l) ds = Some l.
Proof. destruct fuel; reflexivity. Qed.

Lemma leaf_at_table s fuel p t ds :
  s !! p = Some t ->
  leaf_at s (S fuel) (tableNode p) ds
  = match ds with
    | [] => None
    | i :: ds' => leaf_at s fuel (table_get t i) ds'
    end.
Proof. intros E. simpl. rewrite E. reflexivity. Qed.

Lemma leaf_at_mono s s' fuel n ds :
  s `prefix_of` s' -> closed s fuel n ->
  leaf_at s' fuel n ds = leaf_at s fuel n ds.
Proof.
  intros Hpre. revert n ds. induction fuel as [|fuel IH]; intros n ds;
    destruct n as [|l|p]; simpl; try tauto.
  destruct (s !! p) as [t|] eqn:E; [|tauto].
  rewrite (prefix_lookup _ _ _ _ Hpre E).
  intros (Hwf & Hd & Hc). destruct ds as [|i ds']; [reflexivity|].
  destruct (decide (i < indexLimit)) as [Hi|Hi]; [apply IH, Hc, Hi|].
  rewrite table_get_ge by (auto; lia). rewrite !leaf_at_nil. reflexivity.
Qed.

(** The lookup of a key reads the leaf that the digits of its hash lead
    to. *)
Lemma tree_get_leaf_at s k fuel depth n :
  tree_get s k fuel depth n
  = match leaf_at s fuel n (map (Index (Hash k)) (seq depth fuel)) with
    | Some l => leaf_get l k
    | None => (nil_value, false)
    end.
Proof.
  revert depth n. induction fuel as [|fuel IH]; intros depth n;
    destruct n as [|l|p]; simpl; try reflexivity.
  destruct (s !! p) as [t|]; [apply IH|reflexivity].
Qed.

(** A stack of ancestors along [hv] is one along every hash with the same
    first digits. *)
Lemma chain_digits s hv hv' cur stack :
  digits hv (length stack) = digits hv' (length stack) ->
  chain s hv cur stack -> chain s hv' cur stack.
Proof.
  revert cur. induction stack as [|par rest IH]; intros cur Hd; simpl; [auto|].
  intros [(t & Ht & Hg) Hc]. simpl length in Hd.
  rewrite <- (digits_eq_Index hv hv' (S (length rest)) (length rest) Hd) by lia.
  split; [exists t; auto|]. apply IH; [|exact Hc].
  rewrite !digits_S in Hd. apply app_inj_tail in Hd as [Hd _]. exact Hd.
Qed.

Lemma take_S_digits (ds : list nat) hv (m : nat) :
  take (S m) ds = digits hv (S m) <->
  take m ds = digits hv m /\ ds !! m = Some (Index hv m).
Proof.
  rewrite digits_S. split.
  - intros Htk. split.
    + apply (f_equal (take m)) in Htk.
      rewrite take_take, Nat.min_l in Htk by lia.
      rewrite take_app_length' in Htk by (rewrite length_digits; reflexivity).
      exact Htk.
    + apply (f_equal (fun l => l !! m)) in Htk.
      rewrite lookup_take_lt in Htk by lia. rewrite Htk.
      rewrite lookup_app_r by (rewrite length_digits; lia).
      rewrite length_digits, Nat.sub_diag. reflexivity.
  - intros [Htk Hm]. rewrite (take_S_r _ _ _ Hm), Htk. reflexivity.
Qed.

Lemma chain_leaf_at s hv cur stack ds :
  chain s hv cur stack -> length stack < depthLimit ->
  take (length stack) ds = digits hv (length stack) ->
  leaf_at s depthLimit (tableNode (root_of cur stack)) ds
  = leaf_at s (depthLimit - length stack) (tableNode cur) (drop (length stack) ds).
Proof.
  revert cur. induction stack as [|par rest IH]; intros cur; simpl root_of; simpl length.
  - intros _ _ _. rewrite Nat.sub_0_r, drop_0. reflexivity.
  - intros [(t & Ht & Hg) Hc] Hlen Htk.
    assert (Htk' : take (length rest) ds = digits hv (length rest)).
    { rewrite digits_S in Htk.
      apply (f_equal (take (length rest))) in Htk.
      rewrite take_take, Nat.min_l in Htk by lia.
      rewrite take_app_length' in Htk by (rewrite length_digits; reflexivity).
      exact Htk. }
    rewrite (IH par Hc) by (auto; lia).
    replace (depthLimit - length rest) with (S (depthLimit - S (length rest))) by lia.
    rewrite (leaf_at_table _ _ _ _ _ Ht).
    assert (Hi : ds !! length rest = Some (Index hv (length rest))).
    { apply (f_equal (fun l => l !! length rest)) in Htk.
      rewrite lookup_take_lt in Htk by lia. rewrite Htk, digits_S.
      rewrite lookup_app_r by (rewrite length_digits; lia).
      rewrite length_digits, Nat.sub_diag. reflexivity. }
    rewrite (drop_S _ _ _ Hi), Hg. reflexivity.
Qed.

(** The leaves below a table one slot of which was rewritten. *)
Lemma slot_update_leaf_at s s2 (fc : nat) cur (ct : table) p (T : table)
    (idx : nat) (nnode : nodeI) :
  s `prefix_of` s2 ->
  s !! cur = Some ct -> wf_table ct ->
  (forall j, j < indexLimit -> closed s fc (table_get ct j)) ->
  s2 !! p = Some T -> wf_table T -> idx < indexLimit ->
  (forall j, j < indexLimit ->
     table_get T j = if bool_decide (idx = j) then nnode else table_get ct j) ->
  forall ds,
    leaf_at s2 (S fc) (tableNode p) ds
    = match ds with
      | [] => None
      | i :: ds' =>
          if bool_decide (i = idx) then leaf_at s2 fc nnode ds'
          else leaf_at s (S fc) (tableNode cur) ds
      end.
Proof.
  intros Hpre Hct Hwfc Hcl Hp HwfT Hidx Hg ds.
  rewrite (leaf_at_table _ _ _ _ _ Hp), (leaf_at_table _ _ _ _ _ Hct).
  destruct ds as [|i ds']; [reflexivity|].
  destruct (decide (i < indexLimit)) as [Hi|Hi].
  - rewrite Hg by assumption. case_bool_decide; case_bool_decide;
      try congruence; try reflexivity.
    apply leaf_at_mono; auto.
  - rewrite !table_get_ge by (auto; lia).
    rewrite bool_decide_eq_false_2 by lia. rewrite !leaf_at_nil. reflexivity.
Qed.

Lemma sum_seq_ge2 (f : nat -> nat) (a len i j : nat) :
  a <= i < a + len -> a <= j < a + len -> i <> j ->
  f i + f j <= sum_list (map f (seq a len)).
Proof.
  revert a. induction len as [|len IH]; intros a Hi Hj Hij; [lia|]. simpl.
  destruct (decide (a = i)) as [Hai|Hni].
  - subst a. assert (H : f j <= sum_list (map f (seq (S i) len)))
      by (apply sum_seq_ge; lia). lia.
  - destruct (decide (a = j)) as [Haj|Hnj].
    + subst a. assert (H : f i <= sum_list (map f (seq (S j) len)))
        by (apply sum_seq_ge; lia). lia.
    + assert (H : f i + f j <= sum_list (map f (seq (S a) len)))
        by (apply IH; lia). lia.
Qed.

(** A miss returns the nil value. *)
Lemma tree_get_miss s k fuel depth n :
  (tree_get s k fuel depth n).2 = false ->
  tree_get s k fuel depth n = (nil_value, false).
Proof.
  rewrite tree_get_leaf_at.
  destruct (leaf_at s fuel n _) as [l|]; [|reflexivity].
  intros Hf. pose proof (leaf_get_miss l k Hf) as Hv.
  destruct (leaf_get l k) as [x b]. simpl in Hf, Hv. rewrite Hf, Hv. reflexivity.
Qed.

(** A key that is found takes a pair, two keys take two. *)
Lemma tree_get_found_one s k fuel depth n :
  (tree_get s k fuel depth n).2 = true -> 1 <= node_pairs s fuel n.
Proof.
  revert depth n. induction fuel as [|fuel IH]; intros depth n;
    destruct n as [|l|p]; simpl; try discriminate;
    try (rewrite ?node_pairs_leaf; apply leaf_get_found_one).
  destruct (s !! p) as [t|]; [|discriminate].
  intros Hf. specialize (IH _ _ Hf). etrans; [exact IH|].
  apply (sum_seq_ge (fun i => node_pairs s fuel (table_get t i))).
  pose proof (Index_lt (Hash k) depth). lia.
Qed.

Lemma tree_get_found_two s k k' fuel depth n :
  k <> k' ->
  (tree_get s k fuel depth n).2 = true -> (tree_get s k' fuel depth n).2 = true ->
  2 <= node_pairs s fuel n.
Proof.
  intros Hne. revert depth n. induction fuel as [|fuel IH]; intros depth n;
    destruct n as [|l|p]; simpl; try discriminate;
    try (rewrite ?node_pairs_leaf; apply leaf_get_found_two, Hne).
  destruct (s !! p) as [t|]; [|discriminate].
  intros Hf Hf'.
  pose proof (Index_lt (Hash k) depth) as Hi.
  pose proof (Index_lt (Hash k') depth) as Hi'.
  destruct (decide (Index (Hash k) depth = Index (Hash k') depth)) as [E|E].
  - rewrite <- E in Hf'. specialize (IH _ _ Hf Hf'). etrans; [exact IH|].
    apply (sum_seq_ge (fun i => node_pairs s fuel (table_get t i))). lia.
  - pose proof (tree_get_found_one _ _ _ _ _ Hf) as H1.
    pose proof (tree_get_found_one _ _ _ _ _ Hf') as H2.
    pose proof (sum_seq_ge2 (fun i => node_pairs s fuel (table_get t i)) 0 indexLimit
                  (Index (Hash k) depth) (Index (Hash k') depth)
                  ltac:(lia) ltac:(lia) E) as H3.
    cbv beta in H3. lia.
Qed.

Lemma take_digits hv (a b : nat) : a <= b -> take a (digits hv b) = digits hv a.
Proof.
  intros Hle. unfold digits. rewrite firstn_map, take_seq, Nat.min_l by lia.
  reflexivity.
Qed.

Lemma drop_digits hv (a b : nat) :
  drop a (digits hv (a + b)) = map (Index hv) (seq a b).
Proof.
  unfold digits. rewrite skipn_map, drop_seq.
  replace (a + b - a) with b by lia. reflexivity.
Qed.

(** A lookup in a trie whose subtree on the walk along [hv] was replaced:
    it agrees with the old trie when it agrees below the replaced node. *)
Lemma replaced_subtree_get s s2 s' hv k cur stack (fc : nat) (n2 n' : nodeI) :
  chain s hv cur stack -> length stack < depthLimit ->
  depthLimit - length stack = S fc ->
  (forall ds,
     leaf_at s' depthLimit n' ds
     = if bool_decide (take (length stack) ds = digits hv (length stack))
       then leaf_at s2 (S fc) n2 (drop (length stack) ds)
       else leaf_at s depthLimit (tableNode (root_of cur stack)) ds) ->
  (digits (Hash k) (length stack) = digits hv (length stack) ->
   tree_get s2 k (S fc) (length stack) n2
   = tree_get s k (S fc) (length stack) (tableNode cur)) ->
  tree_get s' k depthLimit 0 n'
  = tree_get s k depthLimit 0 (tableNode (root_of cur stack)).
Proof.
  intros Hch Hlen Hfc Hla HA.
  rewrite (tree_get_leaf_at s' k), Hla.
  change (map (Index (Hash k)) (seq 0 depthLimit)) with (digits (Hash k) depthLimit).
  rewrite take_digits by lia.
  case_bool_decide as Htk.
  - replace depthLimit with (length stack + S fc) at 1 by lia.
    rewrite drop_digits, <- tree_get_leaf_at, (HA Htk).
    rewrite (chain_tree_get s k cur stack), Hfc; [reflexivity| |lia].
    apply (chain_digits s hv); [congruence|exact Hch].
  - rewrite (tree_get_leaf_at s k depthLimit 0). reflexivity.
Qed.

(** The lookup of any key below a table one slot of which was rewritten. *)
Lemma slot_update_get s s2 k (fc d : nat) cur (ct : table) p (T : table)
    (idx : nat) (nnode : nodeI) :
  s `prefix_of` s2 ->
  s !! cur = Some ct -> wf_table ct ->
  (forall j, j < indexLimit -> closed s fc (table_get ct j)) ->
  s2 !! p = Some T -> wf_table T -> idx < indexLimit ->
  (forall j, j < indexLimit ->
     table_get T j = if bool_decide (idx = j) then nnode else table_get ct j) ->
  tree_get s2 k (S fc) d (tableNode p)
  = if bool_decide (Index (Hash k) d = idx) then tree_get s2 k fc (S d) nnode
    else tree_get s k (S fc) d (tableNode cur).
Proof.
  intros Hpre Hct Hwfc Hcl Hp HwfT Hidx Hg.
  rewrite (tree_get_table _ _ _ _ _ _ Hp), (tree_get_table _ _ _ _ _ _ Hct).
  pose proof (Index_lt (Hash k) d) as Hi.
  rewrite Hg by assumption. case_bool_decide; case_bool_decide;
    try congruence; try reflexivity.
  apply tree_get_mono; auto.
Qed.

End TreeFacts.

Section CreateFacts.
Context {V : Type} {P : Params} {HH : HostHash}.
Abbreviation value := (@value V).
Abbreviation leaf := (@leaf V).
Abbreviation nodeI := (@nodeI V).
Abbreviation table := (@table V).
Abbreviation store := (list table).
Implicit Types (s : store) (t : table) (n : nodeI) (p q cur : loc)
  (path : list nat) (stack : tableStack) (hv : hashVal) (k : iKey).

Lemma hashPath_0 hv : hashPath hv 0 = 0%N.
Proof. unfold hashPath. simpl. apply N.land_0_r. Qed.

Lemma hashPath_S hv d :
  hashPath hv (S d) = BuildHashPath (hashPath hv d) (Index hv d) d.
Proof.
  apply N.bits_inj. intros n. unfold hashPath, BuildHashPath.
  rewrite N.lor_spec, !N.land_spec.
  destruct (N.lt_ge_cases n (N.of_nat (d * indexBits))) as [Hlt|Hge].
  - rewrite N.shiftl_spec_low, !N.ones_spec_low by lia.
    rewrite orb_false_r. reflexivity.
  - rewrite N.shiftl_spec_high', testbit_Index by lia.
    rewrite (N.ones_spec_high (N.of_nat (d * indexBits))), andb_false_r by lia. simpl.
    replace (N.of_nat (d * indexBits) + (n - N.of_nat (d * indexBits)))%N with n by lia.
    f_equal. case_bool_decide.
    + apply N.ones_spec_low. lia.
    + apply N.ones_spec_high. lia.
Qed.

Lemma hashPath_eq h1 h2 d :
  digits h1 d = digits h2 d -> hashPath h1 d = hashPath h2 d.
Proof.
  induction d as [|d IH]; intros Heq; [rewrite !hashPath_0; reflexivity|].
  rewrite !hashPath_S, IH by (eapply digits_le; [eassumption|lia]).
  rewrite (digits_eq_Index h1 h2 (S d) d Heq) by lia. reflexivity.
Qed.

Lemma node_pairs_nil s fuel : node_pairs s fuel (@nilNode V) = 0.
Proof. destruct fuel; reflexivity. Qed.

Lemma node_pairs_leaf s fuel (l : leaf) :
  node_pairs s fuel (leafNode l) = length (keyVals l).
Proof. destruct fuel; reflexivity. Qed.

Lemma wf_node_nil s fuel path : wf_node s fuel path (@nilNode V).
Proof. destruct fuel; exact I. Qed.

Lemma wf_node_leaf s fuel path (l : leaf) :
  wf_node s fuel path (leafNode l) <-> wf_leaf path l.
Proof. destruct fuel; reflexivity. Qed.

Lemma tree_get_leaf s k fuel depth (l : leaf) :
  tree_get s k fuel depth (leafNode l) = leaf_get l k.
Proof. destruct fuel; reflexivity. Qed.

Lemma tree_get_nil s k fuel depth :
  tree_get s k fuel depth (@nilNode V) = (nil_value, false).
Proof. destruct fuel; reflexivity. Qed.

Lemma wf_leaf_extend path (l : leaf) :
  wf_leaf path l -> wf_leaf (path ++ [Index (leaf_Hash l) (length path)]) l.
Proof.
  intros [Hd Hl]. split; [|exact Hl].
  rewrite length_app. simpl. rewrite Nat.add_1_r, digits_S, Hd. reflexivity.
Qed.

(** The sum of a measure over the slots of a table, when one slot changes. *)
Lemma table_sum_update (F : nodeI -> nat) t t' i :
  i < indexLimit ->
  (forall j, j < indexLimit -> j <> i -> table_get t' j = table_get t j) ->
  sum_list (map (fun j => F (table_get t' j)) (seq 0 indexLimit)) + F (table_get t i)
  = sum_list (map (fun j => F (table_get t j)) (seq 0 indexLimit)) + F (table_get t' i).
Proof.
  intros Hi Hext.
  apply (sum_seq_update (fun j => F (table_get t j)) (fun j => F (table_get t' j)));
    [lia|]. intros j Hj Hji. rewrite Hext by (lia || assumption). reflexivity.
Qed.

Lemma table_sum_empty (F : nodeI -> nat) t :
  F nilNode = 0 -> (forall j, table_get t j = nilNode) ->
  sum_list (map (fun j => F (table_get t j)) (seq 0 indexLimit)) = 0.
Proof.
  intros HF Hempty. apply sum_seq_zero. intros j. rewrite Hempty. exact HF.
Qed.

End CreateFacts.

Section CreateTable.
Context {V : Type} {P : Params} {HH : HostHash}.
Abbreviation value := (@value V).
Abbreviation leaf := (@leaf V).
Abbreviation nodeI := (@nodeI V).
Abbreviation table := (@table V).
Abbreviation store := (list table).
Implicit Types (s : store) (t : table) (n : nodeI) (p q cur : loc)
  (path : list nat) (stack : tableStack) (hv : hashVal) (k : iKey).

Lemma emptyTable_spec fixed depth hp :
  wf_table (@emptyTable V P fixed depth hp) /\
  table_depth (@emptyTable V P fixed depth hp) = depth /\
  table_Hash (@emptyTable V P fixed depth hp) = hp /\
  is_fixed (@emptyTable V P fixed depth hp) = fixed /\
  forall i, table_get (@emptyTable V P fixed depth hp) i = nilNode.
Proof.
  destruct fixed; unfold emptyTable.
  - split; [apply wf_emptyFixedTable|]. do 3 (split; [reflexivity|]).
    apply table_get_emptyFixedTable.
  - split; [apply wf_emptySparseTable|]. do 3 (split; [reflexivity|]).
    apply table_get_emptySparseTable.
Qed.

(** A fresh table holding one node. *)
Lemma single_table_spec fixed depth hp i n :
  i < indexLimit -> is_nil n = false ->
  let t := table_insert (emptyTable fixed depth hp) i n in
  wf_table t /\ table_depth t = depth /\ table_Hash t = hp /\ is_fixed t = fixed /\
  forall j, table_get t j = if bool_decide (i = j) then n else nilNode.
Proof.
  intros Hi Hn. destruct (emptyTable_spec fixed depth hp) as (Hwf & Hd & Hh & Hf & Hg).
  destruct (table_insert_fields (emptyTable fixed depth hp) i n) as (Hd' & Hh' & Hf').
  simpl. split; [apply wf_table_insert; auto; rewrite Hg; reflexivity|].
  split; [congruence|]. split; [congruence|]. split; [congruence|].
  intros j. rewrite table_get_insert by (auto; rewrite Hg; reflexivity).
  rewrite Hg. reflexivity.
Qed.

(** A fresh table holding two nodes at different slots. *)
Lemma pair_table_spec fixed depth hp i1 n1 i2 n2 :
  i1 < indexLimit -> i2 < indexLimit -> i1 <> i2 ->
  is_nil n1 = false -> is_nil n2 = false ->
  let t := table_insert (table_insert (emptyTable fixed depth hp) i1 n1) i2 n2 in
  wf_table t /\ table_depth t = depth /\ table_Hash t = hp /\ is_fixed t = fixed /\
  forall j, table_get t j
            = if bool_decide (i2 = j) then n2
              else if bool_decide (i1 = j) then n1 else nilNode.
Proof.
  intros Hi1 Hi2 Hne Hn1 Hn2.
  destruct (single_table_spec fixed depth hp i1 n1 Hi1 Hn1) as (Hwf & Hd & Hh & Hf & Hg).
  set (t1 := table_insert (emptyTable fixed depth hp) i1 n1) in *.
  destruct (table_insert_fields t1 i2 n2) as (Hd' & Hh' & Hf').
  assert (Hnil : is_nil (table_get t1 i2) = true).
  { rewrite Hg, bool_decide_eq_false_2 by assumption. reflexivity. }
  simpl. split; [apply wf_table_insert; auto|].
  split; [congruence|]. split; [congruence|]. split; [congruence|].
  intros j. rewrite table_get_insert by auto. rewrite Hg. reflexivity.
Qed.

Lemma createTable_rec_unfold fixed fuel s depth hp (leaf1 leaf2 : leaf) :
  createTable_rec fixed fuel s depth hp leaf1 leaf2 =
  let empty := emptyTable fixed depth hp in
  let idx1 := Index (leaf_Hash leaf1) depth in
  let idx2 := Index (leaf_Hash leaf2) depth in
  if bool_decide (idx1 = idx2) then
    match fuel with
    | 0 =>
        alloc s (table_insert empty idx1
                   (leafNode (collisionLeaf (leaf_Hash leaf1)
                                (keyVals leaf1 ++ keyVals leaf2))))
    | S fuel' =>
        let '(s1, p) := createTable_rec fixed fuel' s (S depth)
                          (BuildHashPath hp idx1 depth) leaf1 leaf2 in
        alloc s1 (table_insert empty idx1 (tableNode p))
    end
  else
    alloc s (table_insert (table_insert empty idx1 (leafNode leaf1))
                          idx2 (leafNode leaf2)).
Proof. destruct fuel; reflexivity. Qed.

Lemma two_leaves_spec fixed fuel s depth (leaf1 : leaf) k v s' p :
  wf_leaf (digits (Hash k) depth) leaf1 ->
  Index (leaf_Hash leaf1) depth <> Index (Hash k) depth ->
  alloc s (table_insert
             (table_insert (emptyTable fixed depth (hashPath (Hash k) depth))
                           (Index (leaf_Hash leaf1) depth) (leafNode leaf1))
             (Index (Hash k) depth) (leafNode (flatLeaf k v))) = (s', p) ->
  s `prefix_of` s' /\
  wf_node s' (S fuel) (digits (Hash k) depth) (tableNode p) /\
  node_pairs s' (S fuel) (tableNode p) = length (keyVals leaf1) + 1 /\
  tree_get s' k (S fuel) depth (tableNode p) = (v, true).
Proof.
  intros Hl1 Hidx Ha.
  pose proof (Index_lt (leaf_Hash leaf1) depth) as Hi1.
  pose proof (Index_lt (Hash k) depth) as Hi2.
  apply alloc_spec in Ha as (_ & _ & Hp & Hpre).
  destruct (pair_table_spec fixed depth (hashPath (Hash k) depth)
              (Index (leaf_Hash leaf1) depth) (leafNode leaf1)
              (Index (Hash k) depth) (leafNode (flatLeaf k v)))
    as (Hwf & Hd & Hh & _ & Hg); auto.
  match type of Hp with _ = Some ?t => set (tt := t) in * end.
  split; [assumption|]. split; [|split].
  - apply wf_node_table. eexists fuel, _. split; [reflexivity|]. split; [exact Hp|].
    rewrite length_digits. split; [assumption|]. split; [assumption|].
    split; [rewrite Hh; apply digits_hashPath|].
    intros i Hi. rewrite Hg. repeat case_bool_decide; try subst i.
    + apply wf_node_leaf, wf_leaf_flat.
      rewrite length_app, length_digits. simpl.
      rewrite Nat.add_1_r, digits_S. reflexivity.
    + apply wf_node_leaf. pose proof (wf_leaf_extend _ _ Hl1) as He.
      rewrite length_digits in He. exact He.
    + apply wf_node_nil.
  - rewrite (node_pairs_table _ _ _ _ Hp).
    set (f1 := fun j => node_pairs s' fuel
                  (if bool_decide (Index (leaf_Hash leaf1) depth = j)
                   then leafNode leaf1 else nilNode)).
    set (g := fun j => node_pairs s' fuel (table_get tt j)).
    assert (H2 : sum_list (map g (seq 0 indexLimit)) + f1 (Index (Hash k) depth)
                 = sum_list (map f1 (seq 0 indexLimit)) + g (Index (Hash k) depth)).
    { apply sum_seq_update; [lia|]. intros j _ Hj. unfold g, f1.
      rewrite Hg, bool_decide_eq_false_2 by auto. reflexivity. }
    assert (H1 : sum_list (map f1 (seq 0 indexLimit)) + 0
                 = sum_list (map (fun _ => 0) (seq 0 indexLimit))
                   + f1 (Index (leaf_Hash leaf1) depth)).
    { apply (sum_seq_update (fun _ => 0) f1); [lia|]. intros j _ Hj. unfold f1.
      rewrite bool_decide_eq_false_2 by auto. apply node_pairs_nil. }
    rewrite (sum_seq_zero (fun _ => 0)) in H1 by reflexivity.
    assert (E1 : f1 (Index (Hash k) depth) = 0).
    { unfold f1. rewrite bool_decide_eq_false_2 by auto. apply node_pairs_nil. }
    assert (E2 : g (Index (Hash k) depth) = 1).
    { unfold g. rewrite Hg, bool_decide_eq_true_2 by reflexivity.
      apply node_pairs_leaf. }
    assert (E3 : f1 (Index (leaf_Hash leaf1) depth) = length (keyVals leaf1)).
    { unfold f1. rewrite bool_decide_eq_true_2 by reflexivity.
      apply node_pairs_leaf. }
    fold g. lia.
  - rewrite (tree_get_table _ _ _ _ _ _ Hp), Hg, bool_decide_eq_true_2 by reflexivity.
    rewrite tree_get_leaf. simpl. rewrite key_equals_refl. reflexivity.
Qed.

Lemma createTable_rec_spec fixed fuel s depth (leaf1 : leaf) k v s' p :
  fuel + depth = maxDepth -> 0 < depthLimit ->
  wf_leaf (digits (Hash k) depth) leaf1 ->
  leaf_Hash leaf1 <> Hash k ->
  createTable_rec fixed fuel s depth (hashPath (Hash k) depth) leaf1 (flatLeaf k v)
    = (s', p) ->
  s `prefix_of` s' /\
  wf_node s' (S fuel) (digits (Hash k) depth) (tableNode p) /\
  node_pairs s' (S fuel) (tableNode p) = length (keyVals leaf1) + 1 /\
  tree_get s' k (S fuel) depth (tableNode p) = (v, true).
Proof.
  revert s depth s' p. induction fuel as [|fuel IH]; intros s depth s' p Hfd Hdl Hl1 Hne;
    rewrite createTable_rec_unfold; cbv zeta; simpl leaf_Hash;
    pose proof Hl1 as [Hd1 _]; rewrite length_digits in Hd1;
    pose proof (Index_lt (leaf_Hash leaf1) depth) as Hi1;
    pose proof (Index_lt (Hash k) depth) as Hi2;
    case_bool_decide as Hidx.
  - (* last level: equal digits everywhere, so equal hashes *)
    exfalso. apply Hne. apply digits_inj.
    + eapply wf_leaf_Hash_lt. eassumption.
    + apply Hash_lt.
    + replace depthLimit with (S depth) by (unfold maxDepth in Hfd; lia).
      rewrite !digits_S, Hd1, Hidx. reflexivity.
  - (* two leaves at different slots *)
    intros Ha. eapply two_leaves_spec; eassumption.
  - (* one level down *)
    destruct (createTable_rec fixed fuel s (S depth)
                (BuildHashPath (hashPath (Hash k) depth)
                               (Index (leaf_Hash leaf1) depth) depth)
                leaf1 (flatLeaf k v)) as [s1 p1] eqn:Hrec.
    intros Ha.
    rewrite Hidx, <- hashPath_S in Hrec.
    destruct (IH s (S depth) s1 p1) as (Hpre1 & Hwf1 & Hp1 & Hg1); auto.
    { lia. }
    { rewrite digits_S, <- Hidx.
      pose proof (wf_leaf_extend _ _ Hl1) as He.
      rewrite length_digits in He. exact He. }
    apply alloc_spec in Ha as (_ & _ & Hp & Hpre).
    destruct (single_table_spec fixed depth (hashPath (Hash k) depth)
                (Index (leaf_Hash leaf1) depth) (tableNode p1))
      as (Hwf & Hd & Hh & _ & Hg); auto.
    match type of Hp with _ = Some ?t => set (tt := t) in * end.
    assert (Hcl : closed s1 (S fuel) (tableNode p1)).
    { eapply wf_node_closed; [|eassumption].
      rewrite length_digits. unfold maxDepth in Hfd. lia. }
    split; [etrans; eassumption|]. split; [|split].
    + apply wf_node_table. eexists (S fuel), _. split; [reflexivity|]. split; [exact Hp|].
      rewrite length_digits. split; [assumption|]. split; [assumption|].
      split; [rewrite Hh; apply digits_hashPath|].
      intros i Hi. rewrite Hg. case_bool_decide; try subst i.
      * rewrite Hidx, <- digits_S. eapply wf_node_mono; eassumption.
      * apply wf_node_nil.
    + rewrite (node_pairs_table _ _ _ _ Hp).
      set (g := fun j => node_pairs s' (S fuel) (table_get tt j)).
      assert (H1 : sum_list (map g (seq 0 indexLimit)) + 0
                   = sum_list (map (fun _ => 0) (seq 0 indexLimit))
                     + g (Index (leaf_Hash leaf1) depth)).
      { apply (sum_seq_update (fun _ => 0) g); [lia|]. intros j _ Hj. unfold g.
        rewrite Hg, bool_decide_eq_false_2 by auto. apply node_pairs_nil. }
      rewrite (sum_seq_zero (fun _ => 0)) in H1 by reflexivity.
      assert (E : g (Index (leaf_Hash leaf1) depth) = length (keyVals leaf1) + 1).
      { unfold g. rewrite Hg, bool_decide_eq_true_2 by reflexivity.
        rewrite (node_pairs_mono s1 s' (S fuel) (S fuel)) by (auto; lia). exact Hp1. }
      fold g. lia.
    + rewrite (tree_get_table _ _ _ _ _ _ Hp), <- Hidx, Hg,
        bool_decide_eq_true_2 by reflexivity.
      rewrite (tree_get_mono s1 s') by auto. exact Hg1.
  - intros Ha. eapply two_leaves_spec; eassumption.
Qed.

Lemma leaf_get_other_hash path (l : leaf) k :
  wf_leaf path l -> leaf_Hash l <> Hash k -> leaf_get l k = (nil_value, false).
Proof.
  intros Hl Hne. pose proof (wf_leaf_get_other path l k Hl Hne) as Hf.
  pose proof (leaf_get_miss l k Hf) as Hv.
  destruct (leaf_get l k) as [x b]. simpl in Hf, Hv. rewrite Hf, Hv. reflexivity.
Qed.

(** The other keys and the leaves of the constructed subtree. *)
Lemma two_leaves_other fixed fuel s depth (leaf1 : leaf) k v s' p :
  wf_leaf (digits (Hash k) depth) leaf1 ->
  Index (leaf_Hash leaf1) depth <> Index (Hash k) depth ->
  alloc s (table_insert
             (table_insert (emptyTable fixed depth (hashPath (Hash k) depth))
                           (Index (leaf_Hash leaf1) depth) (leafNode leaf1))
             (Index (Hash k) depth) (leafNode (flatLeaf k v))) = (s', p) ->
  (forall k', k' <> k ->
     tree_get s' k' (S fuel) depth (tableNode p) = leaf_get leaf1 k') /\
  (forall ds l', leaf_at s' (S fuel) (tableNode p) ds = Some l' ->
     l' = leaf1 \/ l' = flatLeaf k v).
Proof.
  intros Hl1 Hidx Ha.
  pose proof (Index_lt (leaf_Hash leaf1) depth) as Hi1.
  pose proof (Index_lt (Hash k) depth) as Hi2.
  apply alloc_spec in Ha as (_ & _ & Hp & Hpre).
  destruct (pair_table_spec fixed depth (hashPath (Hash k) depth)
              (Index (leaf_Hash leaf1) depth) (leafNode leaf1)
              (Index (Hash k) depth) (leafNode (flatLeaf k v)))
    as (Hwf & Hd & Hh & _ & Hg); auto.
  match type of Hp with _ = Some ?t => set (tt := t) in * end.
  assert (Hmiss : forall k', Index (Hash k') depth <> Index (leaf_Hash leaf1) depth ->
            leaf_get leaf1 k' = (nil_value, false)).
  { intros k' Hk'. eapply leaf_get_other_hash; [exact Hl1|].
    intros E. apply Hk'. rewrite E. reflexivity. }
  split.
  - intros k' Hk'. rewrite (tree_get_table _ _ _ _ _ _ Hp), Hg.
    repeat case_bool_decide.
    + rewrite tree_get_leaf. simpl. unfold key_equals.
      rewrite bool_decide_eq_false_2 by congruence.
      symmetry. apply Hmiss. congruence.
    + rewrite tree_get_leaf. reflexivity.
    + rewrite tree_get_nil. symmetry. apply Hmiss. congruence.
  - intros ds l'. rewrite (leaf_at_table _ _ _ _ _ Hp).
    destruct ds as [|i ds']; [discriminate|]. rewrite Hg.
    repeat case_bool_decide.
    + rewrite leaf_at_leaf. intros [= <-]. right. reflexivity.
    + rewrite leaf_at_leaf. intros [= <-]. left. reflexivity.
    + rewrite leaf_at_nil. discriminate.
Qed.

Lemma createTable_rec_other fixed fuel s depth (leaf1 : leaf) k v s' p :
  fuel + depth = maxDepth -> 0 < depthLimit ->
  wf_leaf (digits (Hash k) depth) leaf1 ->
  leaf_Hash leaf1 <> Hash k ->
  createTable_rec fixed fuel s depth (hashPath (Hash k) depth) leaf1 (flatLeaf k v)
    = (s', p) ->
  (forall k', k' <> k ->
     tree_get s' k' (S fuel) depth (tableNode p) = leaf_get leaf1 k') /\
  (forall ds l', leaf_at s' (S fuel) (tableNode p) ds = Some l' ->
     l' = leaf1 \/ l' = flatLeaf k v).
Proof.
  revert s depth s' p. induction fuel as [|fuel IH]; intros s depth s' p Hfd Hdl Hl1 Hne;
    rewrite createTable_rec_unfold; cbv zeta; simpl leaf_Hash;
    pose proof Hl1 as [Hd1 _]; rewrite length_digits in Hd1;
    pose proof (Index_lt (leaf_Hash leaf1) depth) as Hi1;
    pose proof (Index_lt (Hash k) depth) as Hi2;
    case_bool_decide as Hidx.
  - exfalso. apply Hne. apply digits_inj.
    + eapply wf_leaf_Hash_lt. eassumption.
    + apply Hash_lt.
    + replace depthLimit with (S depth) by (unfold maxDepth in Hfd; lia).
      rewrite !digits_S, Hd1, Hidx. reflexivity.
  - intros Ha. eapply two_leaves_other; eassumption.
  - destruct (createTable_rec fixed fuel s (S depth)
                (BuildHashPath (hashPath (Hash k) depth)
                               (Index (leaf_Hash leaf1) depth) depth)
                leaf1 (flatLeaf k v)) as [s1 p1] eqn:Hrec.
    intros Ha.
    rewrite Hidx, <- hashPath_S in Hrec.
    assert (Hl1' : wf_leaf (digits (Hash k) (S depth)) leaf1).
    { rewrite digits_S, <- Hidx.
      pose proof (wf_leaf_extend _ _ Hl1) as He.
      rewrite length_digits in He. exact He. }
    destruct (createTable_rec_spec fixed fuel s (S depth) leaf1 k v s1 p1)
      as (Hpre1 & Hwf1 & _); auto; [lia|].
    destruct (IH s (S depth) s1 p1) as (Hget1 & Hleaf1); auto; [lia|].
    apply alloc_spec in Ha as (_ & _ & Hp & Hpre).
    destruct (single_table_spec fixed depth (hashPath (Hash k) depth)
                (Index (leaf_Hash leaf1) depth) (tableNode p1))
      as (Hwf & Hd & Hh & _ & Hg); auto.
    match type of Hp with _ = Some ?t => set (tt := t) in * end.
    assert (Hcl : closed s1 (S fuel) (tableNode p1)).
    { eapply wf_node_closed; [|eassumption].
      rewrite length_digits. unfold maxDepth in Hfd. lia. }
    split.
    + intros k' Hk'. rewrite (tree_get_table _ _ _ _ _ _ Hp), Hg.
      case_bool_decide as Hj.
      * rewrite (tree_get_mono s1 s') by auto. apply Hget1, Hk'.
      * rewrite tree_get_nil. symmetry.
        eapply leaf_get_other_hash; [exact Hl1|]. intros E. apply Hj.
        rewrite E. reflexivity.
    + intros ds l'. rewrite (leaf_at_table _ _ _ _ _ Hp).
      destruct ds as [|i ds']; [discriminate|]. rewrite Hg.
      case_bool_decide.
      * rewrite (leaf_at_mono s1 s') by auto. apply Hleaf1.
      * rewrite leaf_at_nil. discriminate.
  - intros Ha. eapply two_leaves_other; eassumption.
Qed.

End CreateTable.

(** ** hamt32: the walk *)

Section Hamt32Walk.
Import Hamt32.
Context {V : Type} {HH : HostHash}.
Abbreviation value := (@value V).
Abbreviation leaf := (@leaf V).
Abbreviation nodeI := (@nodeI V).
Abbreviation table := (@table V).
Abbreviation store := (list table).
Implicit Types (s : store) (t : table) (n : nodeI) (p q cur : loc)
  (stack : tableStack) (hv : hashVal) (k : iKey) (h : HamtBase).

Lemma obind_Ret {A B : Type} (a : A) (f : A -> outcome B) :
  obind (Ret a) f = f a.
Proof. reflexivity. Qed.

Lemma Get_loop_tree_get s k fuel depth p :
  fuel + depth = DepthLimit ->
  closed s fuel (tableNode p) ->
  Get_loop s k (Hash k) fuel depth p = Ret (tree_get s k fuel depth (tableNode p)).
Proof.
  revert depth p. induction fuel as [|fuel IH]; intros depth p Hfd Hcl.
  - destruct Hcl.
  - apply closed_table in Hcl as (fuel' & t & [= <-] & Ht & Hwf & Hd & Hc).
    simpl. unfold deref. rewrite Ht. simpl.
    specialize (Hc (Index (Hash k) depth) (Index_lt _ _)).
    destruct (table_get t (Index (Hash k) depth)) as [|l|q] eqn:Hg.
    + destruct fuel; reflexivity.
    + destruct fuel; reflexivity.
    + destruct fuel as [|fuel]; [destruct Hc|].
      rewrite bool_decide_eq_false_2 by (unfold maxDepth, DepthLimit in *; simpl in *; lia).
      apply IH; [lia|exact Hc].
Qed.

Lemma find_loop_spec s hv fuel depth cur stack idx0 :
  fuel + depth = DepthLimit -> length stack = depth ->
  closed s fuel (tableNode cur) ->
  exists cur' rest lf ct,
    find_loop s hv fuel depth cur stack idx0
      = Ret (cur' :: rest, lf, Index hv (length rest)) /\
    s !! cur' = Some ct /\
    table_get ct (Index hv (length rest)) = node_of_leaf lf /\
    length rest < DepthLimit /\
    (chain s hv cur stack -> chain s hv cur' rest) /\
    root_of cur' rest = root_of cur stack.
Proof.
  revert depth cur stack idx0.
  induction fuel as [|fuel IH]; intros depth cur stack idx0 Hfd Hlen Hcl.
  - destruct Hcl.
  - apply closed_table in Hcl as (fuel' & t & [= <-] & Ht & Hwf & Hd & Hc).
    simpl. unfold deref. rewrite Ht. simpl.
    specialize (Hc (Index hv depth) (Index_lt _ _)).
    destruct (table_get t (Index hv depth)) as [|l|q] eqn:Hg.
    + exists cur, stack, None, t. rewrite Hlen. repeat split; auto. lia.
    + exists cur, stack, (Some l), t. rewrite Hlen. repeat split; auto. lia.
    + destruct fuel as [|fuel]; [destruct Hc|].
      rewrite bool_decide_eq_false_2 by (unfold maxDepth, DepthLimit in *; simpl in *; lia).
      destruct (IH (S depth) q (push stack cur) (Index hv depth))
        as (cur' & rest & lf & ct & Hf & Hct & Hgl & Hl & Hch & Hr);
        [lia|simpl; lia|exact Hc|].
      exists cur', rest, lf, ct. split; [exact Hf|]. repeat split; auto.
      intros Hchain. apply Hch. simpl. split; [|exact Hchain].
      exists t. rewrite Hlen. auto.
Qed.

Lemma persist_nil s h cur nn :
  persist s h cur nn [] =
  if IsEmpty h then Ret (s, set_root h nn)
  else if bool_decide (Some cur = root h) then Ret (s, set_root h nn)
  else ot <-- deref s cur ;> Panic "nil dereference".
Proof. reflexivity. Qed.

Lemma persist_cons s h cur nn par rest :
  persist s h cur nn (par :: rest) =
  if IsEmpty h then Ret (s, set_root h nn)
  else if bool_decide (Some cur = root h) then Ret (s, set_root h nn)
  else
    ot <-- deref s cur ;>
    let parentIdx := Index (table_Hash ot) (length (par :: rest) - 1) in
    op <-- deref s par ;>
    let '(s1, newParent) := alloc s (table_copy op) in
    s2 <-- update s1 newParent
             (fun t => match nn with
                       | None => table_remove t parentIdx
                       | Some nt => table_replace t parentIdx (tableNode nt)
                       end) ;>
    persist s2 h par (Some newParent) rest.
Proof. reflexivity. Qed.

Lemma IsEmpty_false h : nentries h <> 0%Z -> IsEmpty h = false.
Proof. intros H. unfold IsEmpty. apply bool_decide_eq_false_2. exact H. Qed.

End Hamt32Walk.

Arguments wf_node : simpl never.
Arguments closed : simpl never.
Arguments node_pairs : simpl never.
Arguments tree_get : simpl never.
Arguments depthLimit : simpl never.
Arguments indexLimit : simpl never.
Arguments maxDepth : simpl never.

(** ** hamt32: path copying *)

Section Hamt32Persist.
Import Hamt32.
Context {V : Type} {HH : HostHash}.
Abbreviation value := (@value V).
Abbreviation leaf := (@leaf V).
Abbreviation nodeI := (@nodeI V).
Abbreviation table := (@table V).
Abbreviation store := (list table).
Implicit Types (s : store) (t : table) (n : nodeI) (p q cur : loc)
  (stack : tableStack) (hv : hashVal) (k : iKey) (h : HamtBase).

Lemma chain_cur_not_root s hv cur par rest :
  chain s hv cur (par :: rest) ->
  wf_node s depthLimit [] (tableNode (root_of par rest)) ->
  cur <> root_of par rest.
Proof.
  intros Hc Hwf. destruct (chain_wf s hv cur (par :: rest) Hc Hwf) as [_ Hcur].
  apply wf_node_table in Hcur as (f & t & _ & Ht & _ & Hd & _).
  rewrite length_digits in Hd.
  apply wf_node_table in Hwf as (f' & t' & _ & Ht' & _ & Hd' & _).
  intros ->. simplify_eq. simpl length in *. lia.
Qed.

Lemma patch_spec t i nn :
  wf_table t -> i < indexLimit -> is_nil (table_get t i) = false ->
  wf_table (patch t i nn) /\
  table_depth (patch t i nn) = table_depth t /\
  table_Hash (patch t i nn) = table_Hash t /\
  is_fixed (patch t i nn) = is_fixed t /\
  forall j, j < indexLimit ->
    table_get (patch t i nn) j
    = if bool_decide (i = j) then node_of_root nn else table_get t j.
Proof.
  intros Hwf Hi Hn. destruct nn as [nt|]; simpl.
  - destruct (table_replace_fields t i (tableNode nt)) as (-> & -> & ->).
    split; [apply wf_table_replace; auto|]. do 3 (split; [reflexivity|]).
    intros j Hj. apply table_get_replace; auto.
  - destruct (table_remove_fields t i) as (-> & -> & ->).
    split; [apply wf_table_remove; auto|]. do 3 (split; [reflexivity|]).
    intros j Hj. apply table_get_remove; auto.
Qed.

Lemma persist_spec s0 hv h rest : forall s cur nn,
  nentries h <> 0%Z ->
  s0 `prefix_of` s ->
  chain s0 hv cur rest ->
  root h = Some (root_of cur rest) ->
  wf_node s0 depthLimit [] (tableNode (root_of cur rest)) ->
  wf_node s (depthLimit - length rest) (digits hv (length rest)) (node_of_root nn) ->
  exists s' r',
    persist s h cur nn rest = Ret (s', set_root h r') /\
    s `prefix_of` s' /\
    wf_node s' depthLimit [] (node_of_root r') /\
    node_pairs s' depthLimit (node_of_root r')
      + node_pairs s0 (depthLimit - length rest) (tableNode cur)
    = node_pairs s0 depthLimit (tableNode (root_of cur rest))
      + node_pairs s (depthLimit - length rest) (node_of_root nn) /\
    (forall k, Hash k = hv ->
       tree_get s' k depthLimit 0 (node_of_root r')
       = tree_get s k (depthLimit - length rest) (length rest) (node_of_root nn)) /\
    (rest <> [] -> exists r, r' = Some r) /\
    (rest = [] -> r' = nn) /\
    (forall ds,
       leaf_at s' depthLimit (node_of_root r') ds
       = if bool_decide (take (length rest) ds = digits hv (length rest))
         then leaf_at s (depthLimit - length rest) (node_of_root nn)
                (drop (length rest) ds)
         else leaf_at s0 depthLimit (tableNode (root_of cur rest)) ds).
Proof.
  induction rest as [|par rest IH]; intros s cur nn Hne Hpre Hchain Hroot Hwf0 Hnn.
  - (* the table is the root *)
    rewrite persist_nil, IsEmpty_false by assumption.
    simpl in Hroot. rewrite bool_decide_eq_true_2 by congruence.
    simpl root_of in *. simpl length in *. rewrite Nat.sub_0_r in *.
    exists s, nn. split; [reflexivity|]. split; [reflexivity|].
    split; [exact Hnn|]. split; [lia|]. split; [reflexivity|].
    split; [congruence|]. split; [reflexivity|].
    intros ds. rewrite take_0, drop_0.
    rewrite bool_decide_eq_true_2 by reflexivity. reflexivity.
  - pose proof (chain_cur_not_root _ _ _ _ _ Hchain Hwf0) as Hcr.
    destruct (chain_wf _ _ _ _ Hchain Hwf0) as [Hlen Hcur].
    destruct Hchain as [(tp & Htp & Hgp) Hchain].
    destruct (chain_wf _ _ _ _ Hchain Hwf0) as [_ Hpar].
    simpl root_of in *. simpl length in *.
    apply wf_node_table in Hcur as (fc0 & tc & _ & Htc & _ & _ & Hhc & _).
    rewrite length_digits in Hhc. clear fc0.
    apply wf_node_table in Hpar as (fc & tp' & Hfp & Htp' & Hwfp & Hdp & Hhp & Hchild).
    rewrite length_digits in Hdp, Hhp.
    assert (tp' = tp) by congruence. subst tp'. clear Htp'.
    assert (Hfc' : depthLimit - S (length rest) = fc) by lia.
    rewrite Hfc' in *.
    rewrite persist_cons, IsEmpty_false by assumption.
    rewrite bool_decide_eq_false_2 by congruence.
    rewrite (deref_lookup s cur tc) by (eapply prefix_lookup; eassumption).
    rewrite obind_Ret. cbv zeta.
    rewrite (deref_lookup s par tp) by (eapply prefix_lookup; eassumption).
    rewrite obind_Ret.
    replace (length (par :: rest) - 1) with (length rest) by (simpl; lia).
    rewrite (digits_eq_Index (table_Hash tc) hv (S (length rest)) (length rest) Hhc)
      by lia.
    set (idx := Index hv (length rest)) in *.
    assert (Hidx : idx < indexLimit) by apply Index_lt.
    destruct (alloc s (table_copy tp)) as [s1 newParent] eqn:Ha.
    destruct (alloc_update s (table_copy tp)
                (fun t => match nn with
                          | None => table_remove t idx
                          | Some nt => table_replace t idx (tableNode nt)
                          end) s1 newParent Ha) as (-> & Hnp & Hl & Hpre2).
    rewrite obind_Ret. fold (patch (table_copy tp) idx nn) in *.
    unfold table_copy in *.
    set (s2 := s ++ [patch tp idx nn]) in *.
    destruct (patch_spec tp idx nn Hwfp Hidx) as (Hwf' & Hd' & Hh' & _ & Hg');
      [rewrite Hgp; reflexivity|].
    assert (Hpre02 : s0 `prefix_of` s2) by (etrans; eassumption).
    assert (Hclc : closed s0 fc (tableNode cur)).
    { pose proof (Hchild idx Hidx) as Hc. rewrite Hgp in Hc.
      eapply wf_node_closed; [|exact Hc].
      rewrite length_app, length_digits. simpl. lia. }
    assert (Hcln : closed s fc (node_of_root nn)).
    { eapply wf_node_closed; [|exact Hnn]. rewrite length_digits. lia. }
    assert (Hclj : forall j, j < indexLimit -> closed s0 fc (table_get tp j)).
    { intros j Hj. eapply wf_node_closed; [|apply Hchild, Hj].
      rewrite length_app, length_digits. simpl. lia. }
    destruct (IH s2 par (Some newParent))
      as (s' & r' & Hp & Hpre' & Hwf'' & Hpairs & Hget & Hr & Hrn & Hla);
      auto.
    { replace (depthLimit - length rest) with (S fc) by lia.
      apply wf_node_table. exists fc, (patch tp idx nn).
      rewrite length_digits. split; [reflexivity|]. split; [exact Hl|].
      split; [assumption|]. split; [congruence|]. split; [congruence|].
      intros i Hi. rewrite Hg' by assumption. case_bool_decide as Hii.
      - subst i. unfold idx. rewrite <- digits_S.
        apply (wf_node_mono s s2); assumption.
      - apply (wf_node_mono s0 s2); [assumption|]. apply Hchild, Hi. }
    exists s', r'. split; [exact Hp|]. split; [etrans; eassumption|].
    split; [exact Hwf''|]. split; [|split; [|split; [|split]]].
    + replace (depthLimit - length rest) with (S fc) in Hpairs by lia.
      rewrite (node_pairs_table _ _ _ _ Htp) in Hpairs.
      simpl node_of_root in Hpairs.
      rewrite (node_pairs_table _ _ _ _ Hl) in Hpairs.
      assert (Hsum := table_sum_update (node_pairs s2 fc) tp (patch tp idx nn) idx Hidx
        ltac:(intros j Hj Hji; rewrite Hg' by assumption;
              rewrite bool_decide_eq_false_2 by auto; reflexivity)).
      rewrite Hg', bool_decide_eq_true_2, Hgp in Hsum by auto.
      rewrite (node_pairs_mono s0 s2 fc fc) in Hsum by auto.
      rewrite (node_pairs_mono s s2 fc fc) in Hsum by auto.
      assert (Hext : map (fun j => node_pairs s2 fc (table_get tp j)) (seq 0 indexLimit)
                     = map (fun j => node_pairs s0 fc (table_get tp j)) (seq 0 indexLimit)).
      { apply map_ext_in. intros j Hj%in_seq.
        apply node_pairs_mono; auto. apply Hclj. lia. }
      rewrite Hext in Hsum.
      lia.
    + intros k Hk. rewrite (Hget k Hk).
      replace (depthLimit - length rest) with (S fc) by lia.
      simpl node_of_root.
      rewrite (tree_get_table _ _ _ _ _ _ Hl), Hk. fold idx.
      rewrite Hg', bool_decide_eq_true_2 by auto.
      apply tree_get_mono; assumption.
    + intros _. destruct rest as [|par' rest'].
      * eexists. apply Hrn. reflexivity.
      * apply Hr. discriminate.
    + discriminate.
    + intros ds. rewrite (Hla ds).
      replace (depthLimit - length rest) with (S fc) by lia.
      simpl node_of_root.
      pose proof (take_S_digits ds hv (length rest)) as Hts. fold idx in Hts.
      destruct (decide (take (length rest) ds = digits hv (length rest)))
        as [Htk|Htk].
      2:{ rewrite bool_decide_eq_false_2 by exact Htk.
          rewrite bool_decide_eq_false_2 by (intros E; apply Hts in E; tauto).
          reflexivity. }
      rewrite bool_decide_eq_true_2 by exact Htk.
      rewrite (slot_update_leaf_at s0 s2 fc par tp newParent (patch tp idx nn) idx
                 (node_of_root nn)) by assumption.
      assert (Hold : leaf_at s0 depthLimit (tableNode (root_of par rest)) ds
                     = leaf_at s0 (S fc) (tableNode par) (drop (length rest) ds)).
      { rewrite (chain_leaf_at s0 hv par rest ds) by (auto; lia).
        replace (depthLimit - length rest) with (S fc) by lia. reflexivity. }
      destruct (ds !! length rest) as [i|] eqn:Hi.
      * rewrite (drop_S _ _ _ Hi). case_bool_decide as Hii.
        -- subst i. rewrite bool_decide_eq_true_2 by (apply Hts; auto).
           apply leaf_at_mono; assumption.
        -- rewrite bool_decide_eq_false_2
             by (intros E; apply Hts in E as [_ E]; congruence).
           rewrite Hold, (drop_S _ _ _ Hi). reflexivity.
      * rewrite drop_ge by (apply lookup_ge_None; exact Hi).
        rewrite bool_decide_eq_false_2
          by (intros E; apply Hts in E as [_ E]; congruence).
        rewrite Hold, drop_ge by (apply lookup_ge_None; exact Hi).
        rewrite (leaf_at_table _ _ _ _ _ Htp). reflexivity.
Qed.

End Hamt32Persist.

(** ** Rewriting one slot of a table on the walk *)

Section SlotUpdate.
Context {V : Type} {P : Params} {HH : HostHash}.
Abbreviation value := (@value V).
Abbreviation leaf := (@leaf V).
Abbreviation nodeI := (@nodeI V).
Abbreviation table := (@table V).
Abbreviation store := (list table).
Implicit Types (s : store) (t : table) (n : nodeI) (p q cur : loc)
  (stack : tableStack) (hv : hashVal) (k : iKey).

Lemma slot_update_spec s s2 k fc d cur ct p T nnode :
  s `prefix_of` s2 ->
  wf_node s (S fc) (digits (Hash k) d) (tableNode cur) ->
  s !! cur = Some ct ->
  s2 !! p = Some T ->
  wf_table T -> table_depth T = d ->
  digits (table_Hash T) d = digits (Hash k) d ->
  (forall j, j < indexLimit ->
     table_get T j = if bool_decide (Index (Hash k) d = j) then nnode
                     else table_get ct j) ->
  wf_node s2 fc (digits (Hash k) (S d)) nnode ->
  d + S fc <= depthLimit ->
  wf_node s2 (S fc) (digits (Hash k) d) (tableNode p) /\
  node_pairs s2 (S fc) (tableNode p) + node_pairs s fc (table_get ct (Index (Hash k) d))
  = node_pairs s (S fc) (tableNode cur) + node_pairs s2 fc nnode /\
  tree_get s2 k (S fc) d (tableNode p) = tree_get s2 k fc (S d) nnode.
Proof.
  intros Hpre Hcur Hct Hp HwfT HdT HhT Hg Hnn Hle.
  apply wf_node_table in Hcur as (fc' & ct' & [= <-] & Hct' & Hwfc & Hdc & Hhc & Hchild).
  rewrite length_digits in Hdc, Hhc.
  assert (ct' = ct) by congruence. subst ct'. clear Hct'.
  set (idx := Index (Hash k) d) in *.
  assert (Hidx : idx < indexLimit) by apply Index_lt.
  assert (Hclj : forall j, j < indexLimit -> closed s fc (table_get ct j)).
  { intros j Hj. eapply wf_node_closed; [|apply Hchild, Hj].
    rewrite length_app, length_digits. simpl. lia. }
  split; [|split].
  - apply wf_node_table. exists fc, T. rewrite length_digits.
    split; [reflexivity|]. split; [exact Hp|]. split; [assumption|].
    split; [assumption|]. split; [assumption|].
    intros i Hi. rewrite Hg by assumption. case_bool_decide as Hii.
    + subst i. unfold idx. rewrite <- digits_S. exact Hnn.
    + apply (wf_node_mono s s2); [assumption|]. apply Hchild, Hi.
  - rewrite (node_pairs_table _ _ _ _ Hp), (node_pairs_table _ _ _ _ Hct).
    assert (Hsum := table_sum_update (node_pairs s2 fc) ct T idx Hidx
      ltac:(intros j Hj Hji; rewrite Hg by assumption;
            rewrite bool_decide_eq_false_2 by auto; reflexivity)).
    rewrite Hg, bool_decide_eq_true_2 in Hsum by auto.
    rewrite (node_pairs_mono s s2 fc fc) in Hsum by auto.
    assert (Hext : map (fun j => node_pairs s2 fc (table_get ct j)) (seq 0 indexLimit)
                   = map (fun j => node_pairs s fc (table_get ct j)) (seq 0 indexLimit)).
    { apply map_ext_in. intros j Hj%in_seq.
      apply node_pairs_mono; auto. apply Hclj. lia. }
    rewrite Hext in Hsum. lia.
  - rewrite (tree_get_table _ _ _ _ _ _ Hp). fold idx.
    rewrite Hg, bool_decide_eq_true_2 by auto. reflexivity.
Qed.

(** Writing the cell allocated before the last allocations. *)
Lemma update_middle s t (ext : store) (f : table -> table) :
  update (s ++ t :: ext) (length s) f = Ret (s ++ f t :: ext).
Proof.
  unfold update. rewrite list_lookup_middle by reflexivity.
  f_equal. rewrite insert_app_r_alt, Nat.sub_diag by lia. reflexivity.
Qed.

(** The construction does not read the store: it appends the same tables
    to any store of the same length. *)
Lemma createTable_rec_indep fixed fuel : forall s s' depth hp (leaf1 leaf2 : leaf),
  length s = length s' ->
  exists ext p,
    createTable_rec fixed fuel s depth hp leaf1 leaf2 = (s ++ ext, p) /\
    createTable_rec fixed fuel s' depth hp leaf1 leaf2 = (s' ++ ext, p).
Proof.
  induction fuel as [|fuel IH]; intros s s' depth hp leaf1 leaf2 Hlen;
    rewrite !createTable_rec_unfold; cbv zeta; case_bool_decide.
  - unfold alloc. rewrite Hlen. eexists _, _. split; reflexivity.
  - unfold alloc. rewrite Hlen. eexists _, _. split; reflexivity.
  - destruct (IH s s' (S depth)
                (BuildHashPath hp (Index (leaf_Hash leaf1) depth) depth) leaf1 leaf2 Hlen)
      as (ext & p & -> & ->).
    unfold alloc. rewrite !length_app, Hlen, <- !app_assoc.
    eexists _, _. split; reflexivity.
  - unfold alloc. rewrite Hlen. eexists _, _. split; reflexivity.
Qed.

End SlotUpdate.

(** ** hamt32: Put *)

Section Hamt32Put.
Import Hamt32.
Context {V : Type} {HH : HostHash}.
Abbreviation value := (@value V).
Abbreviation leaf := (@leaf V).
Abbreviation nodeI := (@nodeI V).
Abbreviation table := (@table V).
Abbreviation store := (list table).
Implicit Types (s : store) (t : table) (n : nodeI) (p q cur : loc)
  (stack : tableStack) (hv : hashVal) (k : iKey) (h : HamtBase).

Lemma depthLimit_pos : 0 < @depthLimit params.
Proof. vm_compute. lia. Qed.

Lemma S_maxDepth : S Hamt32.maxDepth = @depthLimit params.
Proof. reflexivity. Qed.

Lemma uint_incr_small (n : Z) : (0 <= n)%Z -> (n + 1 < uint_max)%Z -> uint_incr n = (n + 1)%Z.
Proof. intros H0 H1. unfold uint_incr. apply Z.mod_small. lia. Qed.

Lemma uint_decr_small (n : Z) : (0 < n)%Z -> (n < uint_max)%Z -> uint_decr n = (n - 1)%Z.
Proof. intros H0 H1. unfold uint_decr. apply Z.mod_small. lia. Qed.

Lemma INV_root s h :
  INV s h -> nentries h <> 0%Z ->
  exists r, root h = Some r /\ wf_node s depthLimit [] (tableNode r) /\
            closed s depthLimit (tableNode r).
Proof.
  intros (Hn & Hlt & Hcl & Hwf) Hne. specialize (Hwf Hne).
  unfold root_node in *. destruct (root h) as [r|].
  - exists r. auto.
  - exfalso. apply Hne. rewrite Hn. simpl. rewrite node_pairs_nil. reflexivity.
Qed.

(** What [find] returns on a non-empty reachable map. *)
Lemma find_spec s h k r :
  root h = Some r -> wf_node s depthLimit [] (tableNode r) ->
  exists cur rest lf ct fc,
    find s h k = Ret (cur :: rest, lf, Index (Hash k) (length rest)) /\
    s !! cur = Some ct /\
    table_get ct (Index (Hash k) (length rest)) = node_of_leaf lf /\
    depthLimit - length rest = S fc /\
    length rest < depthLimit /\
    chain s (Hash k) cur rest /\ root_of cur rest = r /\
    wf_node s (S fc) (digits (Hash k) (length rest)) (tableNode cur).
Proof.
  intros Hr Hwf. unfold find. rewrite Hr.
  destruct (find_loop_spec s (Hash k) (S Hamt32.maxDepth) 0 r [] 0)
    as (cur & rest & lf & ct & Hf & Hct & Hg & Hlen & Hch & Hroot).
  - reflexivity.
  - reflexivity.
  - rewrite S_maxDepth. eapply wf_node_closed; [|exact Hwf]. simpl. lia.
  - specialize (Hch I). simpl in Hroot.
    assert (Hwf' : wf_node s depthLimit [] (tableNode (root_of cur rest)))
      by (rewrite Hroot; exact Hwf).
    destruct (chain_wf s (Hash k) cur rest Hch Hwf') as [_ Hcur].
    change DepthLimit with (@depthLimit params) in Hlen.
    exists cur, rest, lf, ct, (depthLimit - length rest - 1).
    replace (S (depthLimit - length rest - 1)) with (depthLimit - length rest) by lia.
    repeat split; auto.
Qed.


(** The new terminal table built by [Put]. *)
Lemma Put_newTable_spec s h k v cur ct fc d lf :
  d + S fc = depthLimit ->
  s !! cur = Some ct ->
  wf_node s (S fc) (digits (Hash k) d) (tableNode cur) ->
  table_get ct (Index (Hash k) d) = node_of_leaf lf ->
  exists s2 newTable added,
    Put_newTable s h k v ct d (Index (Hash k) d) lf = Ret (s2, newTable, added) /\
    s `prefix_of` s2 /\
    wf_node s2 (S fc) (digits (Hash k) d) (tableNode newTable) /\
    node_pairs s2 (S fc) (tableNode newTable)
    = node_pairs s (S fc) (tableNode cur) + (if added then 1 else 0) /\
    tree_get s2 k (S fc) d (tableNode newTable) = (v, true) /\
    added = negb (tree_get s k (S fc) d (tableNode cur)).2 /\
    (forall k', k' <> k ->
       tree_get s2 k' (S fc) d (tableNode newTable)
       = tree_get s k' (S fc) d (tableNode cur)) /\
    (forall ds l',
       leaf_at s2 (S fc) (tableNode newTable) ds = Some l' ->
       leaf_at s (S fc) (tableNode cur) ds = Some l' \/
       l' = flatLeaf k v \/
       exists l, lf = Some l /\ leaf_Hash l = Hash k /\ l' = (leaf_put l k v).1).
Proof.
  intros Hfd Hct Hcur Hg.
  pose proof Hcur as Hcur'.
  apply wf_node_table in Hcur' as (fc' & ct' & [= <-] & Hct' & Hwfc & Hdc & Hhc & Hchild).
  rewrite length_digits in Hdc, Hhc.
  assert (ct' = ct) by congruence. subst ct'. clear Hct'.
  set (idx := Index (Hash k) d) in *.
  assert (Hidx : idx < indexLimit) by apply Index_lt.
  assert (Hclj : forall j, j < indexLimit -> closed s fc (table_get ct j)).
  { intros j Hj. eapply wf_node_closed; [|apply Hchild, Hj].
    rewrite length_app, length_digits. simpl. lia. }
  rewrite (tree_get_table _ _ _ _ _ _ Hct). fold idx. rewrite Hg.
  pose proof (Hchild idx Hidx) as Hslot. rewrite Hg in Hslot.
  unfold idx in Hslot. rewrite <- digits_S in Hslot.
  destruct lf as [l|]; simpl node_of_leaf in *; unfold Put_newTable.
  - (* a leaf stopped the walk *)
    apply wf_node_leaf in Hslot.
    rewrite tree_get_leaf.
    destruct (alloc s (table_copy ct)) as [s1 newTable] eqn:Ha.
    case_bool_decide as Hh.
    + (* same hash: the leaf takes the pair *)
      destruct (leaf_put l k v) as [newLeaf added] eqn:Hput.
      destruct (alloc_update s (table_copy ct)
                  (fun t => table_replace t idx (leafNode newLeaf)) s1 newTable Ha)
        as (-> & Hnt & Hl & Hpre2).
      rewrite obind_Ret. unfold table_copy in *.
      set (T := table_replace ct idx (leafNode newLeaf)) in *.
      set (s2 := s ++ [T]) in *.
      destruct (table_replace_fields ct idx (leafNode newLeaf)) as (HdT & HhT & _).
      fold T in HdT, HhT.
      assert (HwfT : wf_table T) by (apply wf_table_replace; auto).
      assert (HgT : forall j, j < indexLimit ->
                table_get T j = if bool_decide (idx = j) then leafNode newLeaf
                                else table_get ct j).
      { intros j Hj. apply table_get_replace; auto. rewrite Hg. reflexivity. }
      assert (HnewLeaf : newLeaf = (leaf_put l k v).1) by (rewrite Hput; reflexivity).
      assert (Hadded : added = (leaf_put l k v).2) by (rewrite Hput; reflexivity).
      destruct (slot_update_spec s s2 k fc d cur ct newTable T (leafNode newLeaf))
        as (Hwf' & Hpairs & Hget); auto; try congruence; try lia.
      { apply wf_node_leaf. rewrite HnewLeaf. apply wf_leaf_put; assumption. }
      exists s2, newTable, added. split; [reflexivity|]. split; [assumption|].
      split; [exact Hwf'|]. split; [|split; [|split; [|split]]].
      * fold idx in Hpairs. rewrite Hg, !node_pairs_leaf in Hpairs.
        pose proof (leaf_put_pairs l k v) as Hlp.
        rewrite <- HnewLeaf, <- Hadded in Hlp. lia.
      * rewrite Hget, tree_get_leaf, HnewLeaf. apply leaf_get_put.
      * rewrite Hadded. apply leaf_put_added.
      * intros k' Hk'.
        rewrite (slot_update_get s s2 k' fc d cur ct newTable T idx (leafNode newLeaf))
          by assumption.
        case_bool_decide as Hi; [|reflexivity].
        rewrite (tree_get_table _ _ _ _ _ _ Hct), Hi, Hg, !tree_get_leaf, HnewLeaf.
        apply leaf_get_put_other, Hk'.
      * intros ds l'.
        rewrite (slot_update_leaf_at s s2 fc cur ct newTable T idx (leafNode newLeaf))
          by assumption.
        destruct ds as [|i ds']; [discriminate|]. case_bool_decide; [|auto].
        rewrite leaf_at_leaf. intros [= <-]. right. right. exists l.
        rewrite HnewLeaf. auto.
    + (* another hash: one level down *)
      assert (Hd : d < lastLevel).
      { destruct (decide (d < lastLevel)) as [|Hge]; [assumption|]. exfalso.
        apply Hh. apply digits_inj.
        - eapply wf_leaf_Hash_lt. eassumption.
        - apply Hash_lt.
        - destruct Hslot as [Hdig _]. rewrite length_digits in Hdig.
          replace depthLimit with (S d) by (unfold lastLevel in Hge; lia).
          exact Hdig. }
      apply alloc_spec in Ha as (-> & -> & _ & _).
      unfold createTable, createFixedTable, createSparseTable, newFlatLeaf.
      assert (Hhp : hashPath (leaf_Hash l) (d + 1) = hashPath (Hash k) (d + 1)).
      { apply hashPath_eq. destruct Hslot as [Hdig _].
        rewrite length_digits in Hdig. rewrite Nat.add_1_r. exact Hdig. }
      rewrite Hhp.
      change Hamt32.maxDepth with (@lastLevel params).
      assert (Hsame :
        (if startFixed h
         then createTable_rec true (lastLevel - (d + 1)) (s ++ [table_copy ct])
                (d + 1) (hashPath (Hash k) (d + 1)) l (flatLeaf k v)
         else createTable_rec false (lastLevel - (d + 1)) (s ++ [table_copy ct])
                (d + 1) (hashPath (Hash k) (d + 1)) l (flatLeaf k v))
        = createTable_rec (startFixed h) (lastLevel - (d + 1)) (s ++ [table_copy ct])
            (d + 1) (hashPath (Hash k) (d + 1)) l (flatLeaf k v)).
      { destruct (startFixed h); reflexivity. }
      rewrite Hsame. clear Hsame.
      destruct (createTable_rec_indep (startFixed h) (lastLevel - (d + 1))
                  (s ++ [table_copy ct]) (s ++ [table_copy ct]) (d + 1)
                  (hashPath (Hash k) (d + 1)) l (flatLeaf k v) eq_refl)
        as (ext & tmp & Hc1 & _).
      rewrite Hc1. unfold table_copy in *.
      set (T := table_replace ct idx (tableNode tmp)).
      destruct (createTable_rec_indep (startFixed h) (lastLevel - (d + 1))
                  (s ++ [ct]) (s ++ [T]) (d + 1)
                  (hashPath (Hash k) (d + 1)) l (flatLeaf k v))
        as (ext' & tmp' & Hc1' & Hc2).
      { rewrite !length_app. reflexivity. }
      rewrite Hc1 in Hc1'. injection Hc1' as Hext <-.
      apply app_inv_head in Hext. subst ext'.
      rewrite <- app_assoc. simpl app.
      rewrite (update_middle s ct ext). rewrite obind_Ret.
      set (s3 := s ++ T :: ext) in *.
      replace ((s ++ [T]) ++ ext) with s3 in Hc2 by (unfold s3; rewrite <- app_assoc; reflexivity).
      rewrite Nat.add_1_r in Hc2.
      destruct (createTable_rec_spec (startFixed h) (lastLevel - S d) (s ++ [T]) (S d)
                  l k v s3 tmp) as (Hpre3 & Hwf3 & Hp3 & Hg3); auto.
      { lia. }
      { apply depthLimit_pos. }
      destruct (createTable_rec_other (startFixed h) (lastLevel - S d) (s ++ [T]) (S d)
                  l k v s3 tmp) as (Hg3o & Hl3o); auto.
      { lia. }
      { apply depthLimit_pos. }
      replace (S (lastLevel - S d)) with fc in * by (unfold lastLevel in *; lia).
      assert (Hl3 : s3 !! length s = Some T)
        by (unfold s3; apply list_lookup_middle; reflexivity).
      destruct (table_replace_fields ct idx (tableNode tmp)) as (HdT & HhT & _).
      fold T in HdT, HhT.
      assert (HwfT : wf_table T) by (apply wf_table_replace; auto).
      assert (HgT : forall j, j < indexLimit ->
                table_get T j = if bool_decide (idx = j) then tableNode tmp
                                else table_get ct j).
      { intros j Hj. apply table_get_replace; auto. rewrite Hg. reflexivity. }
      assert (Hpre : s `prefix_of` s3) by (apply prefix_app_r; reflexivity).
      destruct (slot_update_spec s s3 k fc d cur ct (length s) T (tableNode tmp))
        as (Hwf' & Hpairs & Hget); auto; try congruence; try lia.
      exists s3, (length s), true. split; [reflexivity|]. split; [assumption|].
      split; [exact Hwf'|]. split; [|split; [|split; [|split]]].
      * fold idx in Hpairs. rewrite Hg, !node_pairs_leaf in Hpairs. lia.
      * rewrite Hget. exact Hg3.
      * symmetry. apply negb_true_iff. eapply wf_leaf_get_other; eassumption.
      * intros k' Hk'.
        rewrite (slot_update_get s s3 k' fc d cur ct (length s) T idx (tableNode tmp))
          by assumption.
        case_bool_decide as Hi; [|reflexivity].
        rewrite (Hg3o k' Hk'), (tree_get_table _ _ _ _ _ _ Hct), Hi, Hg, tree_get_leaf.
        reflexivity.
      * intros ds l'.
        rewrite (slot_update_leaf_at s s3 fc cur ct (length s) T idx (tableNode tmp))
          by assumption.
        destruct ds as [|i ds']; [discriminate|]. case_bool_decide as Hi; [|auto].
        intros Hl'. destruct (Hl3o _ _ Hl') as [-> | ->]; [left|right; left; reflexivity].
        subst i. rewrite (leaf_at_table _ _ _ _ _ Hct), Hg, leaf_at_leaf. reflexivity.
  - (* an empty slot stopped the walk *)
    rewrite tree_get_nil.
    set (t0 := if grade h && bool_decide (table_nentries ct + 1 = UpgradeThreshold)
               then upgradeToFixedTable (table_Hash ct) d (table_entries ct)
               else table_copy ct).
    assert (Hal :
      (if grade h && bool_decide (table_nentries ct + 1 = UpgradeThreshold)
       then alloc s (upgradeToFixedTable (table_Hash ct) d (table_entries ct))
       else alloc s (table_copy ct)) = alloc s t0).
    { unfold t0. destruct (grade h && _); reflexivity. }
    rewrite Hal. clear Hal.
    assert (Ht0 : wf_table t0 /\ table_depth t0 = d /\ table_Hash t0 = table_Hash ct /\
                  forall j, table_get t0 j = table_get ct j).
    { unfold t0. destruct (grade h && _).
      - destruct (upgradeToFixedTable_spec (table_Hash ct) d ct Hwfc)
          as (? & ? & ? & _ & ?). auto.
      - unfold table_copy. auto. }
    destruct Ht0 as (Hwf0 & Hd0 & Hh0 & Hg0). clearbody t0.
    destruct (alloc s t0) as [s1 newTable] eqn:Ha.
    destruct (alloc_update s t0
                (fun t => table_insert t idx (leafNode (newFlatLeaf k v))) s1 newTable Ha)
      as (-> & Hnt & Hl & Hpre2).
    rewrite obind_Ret. unfold newFlatLeaf in *.
    set (T := table_insert t0 idx (leafNode (flatLeaf k v))) in *.
    set (s2 := s ++ [T]) in *.
    destruct (table_insert_fields t0 idx (leafNode (flatLeaf k v))) as (HdT & HhT & _).
    fold T in HdT, HhT.
    assert (Hnil0 : is_nil (table_get t0 idx) = true) by (rewrite Hg0, Hg; reflexivity).
    assert (HwfT : wf_table T) by (apply wf_table_insert; auto).
    assert (HgT : forall j, j < indexLimit ->
              table_get T j = if bool_decide (idx = j) then leafNode (flatLeaf k v)
                              else table_get ct j).
    { intros j Hj. unfold T. rewrite table_get_insert by auto. rewrite Hg0. reflexivity. }
    destruct (slot_update_spec s s2 k fc d cur ct newTable T (leafNode (flatLeaf k v)))
      as (Hwf' & Hpairs & Hget); auto; try congruence; try lia.
    { apply wf_node_leaf, wf_leaf_flat. rewrite length_digits. reflexivity. }
    exists s2, newTable, true. split; [reflexivity|]. split; [assumption|].
    split; [exact Hwf'|]. split; [|split; [|split; [|split]]].
    + fold idx in Hpairs. rewrite Hg, node_pairs_nil, node_pairs_leaf in Hpairs.
      simpl in Hpairs. lia.
    + rewrite Hget, tree_get_leaf. simpl. rewrite key_equals_refl. reflexivity.
    + reflexivity.
    + intros k' Hk'.
      rewrite (slot_update_get s s2 k' fc d cur ct newTable T idx
                 (leafNode (flatLeaf k v))) by assumption.
      case_bool_decide as Hi; [|reflexivity].
      rewrite (tree_get_table _ _ _ _ _ _ Hct), Hi, Hg, tree_get_leaf, tree_get_nil.
      simpl. rewrite key_equals_false by congruence. reflexivity.
    + intros ds l'.
      rewrite (slot_update_leaf_at s s2 fc cur ct newTable T idx
                 (leafNode (flatLeaf k v))) by assumption.
      destruct ds as [|i ds']; [discriminate|]. case_bool_decide; [|auto].
      rewrite leaf_at_leaf. intros [= <-]. right. left. reflexivity.
Qed.


Lemma single_slot_sum (F : nodeI -> nat) t i n :
  i < indexLimit -> F nilNode = 0 ->
  (forall j, table_get t j = if bool_decide (i = j) then n else nilNode) ->
  sum_list (map (fun j => F (table_get t j)) (seq 0 indexLimit)) = F n.
Proof.
  intros Hi HF Hg.
  assert (H1 := sum_seq_update (fun _ => 0) (fun j => F (table_get t j)) 0 indexLimit i
                  ltac:(lia)
                  ltac:(intros j _ Hj; cbv beta; rewrite Hg, bool_decide_eq_false_2 by auto;
                        exact HF)).
  cbv beta in H1. rewrite (sum_seq_zero (fun _ => 0)) in H1 by reflexivity.
  rewrite Hg, bool_decide_eq_true_2 in H1 by reflexivity. lia.
Qed.

Lemma Get_tree_get s h bs r :
  nentries h <> 0%Z -> root h = Some r -> closed s depthLimit (tableNode r) ->
  Get s h bs = Ret (tree_get s (newKey bs) depthLimit 0 (tableNode r)).
Proof.
  intros Hne Hr Hcl. unfold Get. rewrite IsEmpty_false, Hr by assumption.
  change (S Hamt32.maxDepth) with (@depthLimit params).
  apply Get_loop_tree_get; [reflexivity|exact Hcl].
Qed.

(** The first pair of a map: a root table with one flat leaf. *)
Lemma createRootTable_spec s k v s1 r :
  createRootTable s (newFlatLeaf k v) = (s1, r) ->
  s `prefix_of` s1 /\
  wf_node s1 depthLimit [] (tableNode r) /\
  node_pairs s1 depthLimit (tableNode r) = 1 /\
  tree_get s1 k depthLimit 0 (tableNode r) = (v, true).
Proof.
  unfold createRootTable, createRootFixedTable, newFlatLeaf. simpl leaf_Hash.
  change (emptyFixedTable 0 0%N) with (@emptyTable V params true 0 0%N).
  intros Ha. apply alloc_spec in Ha as (_ & _ & Hp & Hpre).
  pose proof (Index_lt (Hash k) 0) as Hidx.
  destruct (single_table_spec true 0 0%N (Index (Hash k) 0) (leafNode (flatLeaf k v)))
    as (Hwf & Hd & Hh & _ & Hg); auto.
  match type of Hp with _ = Some ?t => set (T := t) in * end.
  pose proof depthLimit_pos as Hpos.
  replace (@depthLimit params) with (S (depthLimit - 1)) by lia.
  split; [assumption|]. split; [|split].
  - apply wf_node_table. exists (depthLimit - 1), T.
    split; [reflexivity|]. split; [exact Hp|]. split; [assumption|].
    split; [assumption|]. split; [reflexivity|].
    intros i Hi. rewrite Hg. case_bool_decide.
    + subst i. apply wf_node_leaf, wf_leaf_flat. reflexivity.
    + apply wf_node_nil.
  - rewrite (node_pairs_table _ _ _ _ Hp).
    rewrite (single_slot_sum _ T (Index (Hash k) 0) (leafNode (flatLeaf k v)) Hidx
               (node_pairs_nil _ _) Hg). apply node_pairs_leaf.
  - rewrite (tree_get_table _ _ _ _ _ _ Hp), Hg, bool_decide_eq_true_2 by reflexivity.
    rewrite tree_get_leaf. simpl. rewrite key_equals_refl. reflexivity.
Qed.

Lemma createRootTable_other s k v s1 r :
  createRootTable s (newFlatLeaf k v) = (s1, r) ->
  (forall k', k' <> k ->
     tree_get s1 k' depthLimit 0 (tableNode r) = (nil_value, false)) /\
  (forall ds l', leaf_at s1 depthLimit (tableNode r) ds = Some l' ->
     l' = flatLeaf k v).
Proof.
  unfold createRootTable, createRootFixedTable, newFlatLeaf. simpl leaf_Hash.
  change (emptyFixedTable 0 0%N) with (@emptyTable V params true 0 0%N).
  intros Ha. apply alloc_spec in Ha as (_ & _ & Hp & Hpre).
  pose proof (Index_lt (Hash k) 0) as Hidx.
  destruct (single_table_spec true 0 0%N (Index (Hash k) 0) (leafNode (flatLeaf k v)))
    as (Hwf & Hd & Hh & _ & Hg); auto.
  match type of Hp with _ = Some ?t => set (T := t) in * end.
  pose proof depthLimit_pos as Hpos.
  replace (@depthLimit params) with (S (depthLimit - 1)) by lia.
  split.
  - intros k' Hk'. rewrite (tree_get_table _ _ _ _ _ _ Hp), Hg.
    case_bool_decide; [|apply tree_get_nil].
    rewrite tree_get_leaf. simpl. rewrite key_equals_false by congruence.
    reflexivity.
  - intros ds l'. rewrite (leaf_at_table _ _ _ _ _ Hp).
    destruct ds as [|i ds']; [discriminate|]. rewrite Hg.
    case_bool_decide; [|rewrite leaf_at_nil; discriminate].
    rewrite leaf_at_leaf. congruence.
Qed.

(** [Put] on a reachable map: it returns, writes no cell of the old store,
    keeps the invariant, stores the pair, and reports an insertion iff the
    key was absent; the other keys keep what they had, and the leaves are
    the old ones, the new flat leaf, or an old leaf after [put]. *)
Lemma Put_spec s h bs v :
  INV s h -> (nentries h + 1 < uint_max)%Z ->
  exists s' h' added,
    Put s h bs v = Ret (s', h', added) /\
    s `prefix_of` s' /\ INV s' h' /\
    Get s' h' bs = Ret (v, true) /\
    (exists r, Get s h bs = Ret r /\ added = negb r.2) /\
    nentries h' = (nentries h + if added then 1 else 0)%Z /\
    grade h' = grade h /\ startFixed h' = startFixed h /\
    (forall bs', bs' <> bs -> Get s' h' bs' = Get s h bs') /\
    (forall ds l',
       leaf_at s' depthLimit (root_node h') ds = Some l' ->
       (nentries h <> 0%Z /\ leaf_at s depthLimit (root_node h) ds = Some l') \/
       l' = flatLeaf (newKey bs) v \/
       exists ds0 l,
         nentries h <> 0%Z /\
         leaf_at s depthLimit (root_node h) ds0 = Some l /\
         l' = (leaf_put l (newKey bs) v).1).
Proof.
  intros Hinv Hb. pose proof Hinv as (Hn & Hlt & Hcl & Hwf).
  assert (H0 : (0 <= nentries h)%Z) by lia.
  unfold Put. destruct (IsEmpty h) eqn:He.
  - (* the first pair *)
    apply bool_decide_eq_true_1 in He.
    destruct (createRootTable s (newFlatLeaf (newKey bs) v)) as [s1 r] eqn:Hc.
    destruct (createRootTable_spec _ _ _ _ _ Hc) as (Hpre & Hwf1 & Hp1 & Hg1).
    destruct (createRootTable_other _ _ _ _ _ Hc) as (Hgo & Hlo).
    rewrite He. change (uint_incr 0) with 1%Z.
    eexists _, _, _. split; [reflexivity|]. split; [assumption|].
    assert (Hcl1 : closed s1 depthLimit (tableNode r)).
    { eapply wf_node_closed; [|exact Hwf1]. simpl. lia. }
    split; [|split; [|split; [|split; [|split; [|split; [|split]]]]]].
    + unfold INV, root_node. simpl. rewrite Hp1.
      split; [reflexivity|]. split; [reflexivity|]. auto.
    + rewrite (Get_tree_get _ _ _ r) by (simpl; auto; lia). rewrite Hg1. reflexivity.
    + exists (nil_value, false). split; [|reflexivity].
      unfold Get, IsEmpty. rewrite bool_decide_eq_true_2 by assumption. reflexivity.
    + simpl. lia.
    + reflexivity.
    + reflexivity.
    + intros bs' Hne.
      rewrite (Get_tree_get _ _ _ r) by (simpl; auto; lia).
      rewrite (Hgo (newKey bs') Hne).
      unfold Get, IsEmpty. rewrite bool_decide_eq_true_2 by assumption. reflexivity.
    + intros ds l' Hl'. right. left. apply (Hlo ds l'), Hl'.
  - (* a non-empty map *)
    apply bool_decide_eq_false_1 in He.
    destruct (INV_root s h Hinv He) as (r & Hr & Hwfr & Hclr).
    destruct (find_spec s h (newKey bs) r Hr Hwfr)
      as (cur & rest & lf & ct & fc & Hf & Hct & Hg & Hfc & Hlen & Hch & Hro & Hcur).
    rewrite Hf, obind_Ret. simpl pop. cbv beta iota.
    rewrite (deref_lookup _ _ _ Hct), obind_Ret.
    destruct (Put_newTable_spec s h (newKey bs) v cur ct fc (length rest) lf)
      as (s2 & newTable & added & Hnt & Hpre2 & Hwf2 & Hp2 & Hg2 & Hadd & HA & HB);
      auto; [lia|].
    rewrite Hnt, obind_Ret.
    set (nh := if added then set_nentries h (uint_incr (nentries h)) else h).
    assert (Hnh : nentries nh = (nentries h + if added then 1 else 0)%Z).
    { unfold nh. destruct added; simpl; [apply uint_incr_small; lia|lia]. }
    assert (Hnhr : root nh = root h) by (unfold nh; destruct added; reflexivity).
    assert (Hnhg : grade nh = grade h /\ startFixed nh = startFixed h)
      by (unfold nh; destruct added; split; reflexivity).
    clearbody nh.
    destruct (persist_spec s (Hash (newKey bs)) nh rest s2 cur (Some newTable))
      as (s' & r' & Hp & Hpre' & Hwf' & Hpairs & Hget & Hrne & Hrnil & Hla); auto.
    { destruct added; lia. }
    { rewrite Hnhr, Hro. exact Hr. }
    { rewrite Hro. exact Hwfr. }
    { rewrite Hfc. exact Hwf2. }
    assert (Hother : forall k, k <> newKey bs ->
              tree_get s' k depthLimit 0 (node_of_root r')
              = tree_get s k depthLimit 0 (tableNode (root_of cur rest))).
    { intros k Hk.
      apply (replaced_subtree_get s s2 s' (Hash (newKey bs)) k cur rest fc
               (tableNode newTable)); [exact Hch|exact Hlen|exact Hfc| |].
      - intros ds. rewrite (Hla ds), Hfc. reflexivity.
      - intros _. apply HA, Hk. }
    assert (Hleaves : forall ds l',
              leaf_at s' depthLimit (node_of_root r') ds = Some l' ->
              leaf_at s depthLimit (tableNode (root_of cur rest)) ds = Some l' \/
              l' = flatLeaf (newKey bs) v \/
              exists ds0 l,
                leaf_at s depthLimit (tableNode (root_of cur rest)) ds0 = Some l /\
                l' = (leaf_put l (newKey bs) v).1).
    { intros ds l'. rewrite (Hla ds), Hfc. simpl node_of_root.
      case_bool_decide as Htk; [|auto].
      intros Hl'. destruct (HB _ _ Hl') as [Hold|[->|(l & -> & _ & ->)]].
      - left. rewrite (chain_leaf_at s _ cur rest ds Hch Hlen Htk), Hfc. exact Hold.
      - right. left. reflexivity.
      - right. right.
        exists (digits (Hash (newKey bs)) (length rest)
                ++ [Index (Hash (newKey bs)) (length rest)]), l.
        split; [|reflexivity].
        rewrite (chain_leaf_at s (Hash (newKey bs)) cur rest), Hfc; [|exact Hch|lia|].
        + rewrite drop_app_length' by (rewrite length_digits; reflexivity).
          rewrite (leaf_at_table _ _ _ _ _ Hct), Hg. apply leaf_at_leaf.
        + rewrite take_app_length' by (rewrite length_digits; reflexivity).
          reflexivity. }
    rewrite Hp, obind_Ret. rewrite Hfc, Hro in *. simpl node_of_root in *.
    assert (Hr' : exists r'', r' = Some r'').
    { destruct rest; [exists newTable; apply Hrnil; reflexivity|apply Hrne; discriminate]. }
    destruct Hr' as [r'' ->]. simpl node_of_root in *.
    assert (Hcl' : closed s' depthLimit (tableNode r'')).
    { eapply wf_node_closed; [|exact Hwf']. simpl. lia. }
    assert (Hcur' : tree_get s (newKey bs) depthLimit 0 (tableNode r)
                    = tree_get s (newKey bs) (S fc) (length rest) (tableNode cur)).
    { rewrite <- Hro, <- Hfc. apply chain_tree_get; assumption. }
    eexists _, _, _. split; [reflexivity|]. split; [etrans; eassumption|].
    split; [|split; [|split; [|split; [|split; [|split; [|split]]]]]].
    + unfold INV, root_node. simpl. rewrite Hnh.
      assert (node_pairs s' depthLimit (tableNode r'')
              = node_pairs s depthLimit (tableNode r) + (if added then 1 else 0)) as ->.
      { lia. }
      unfold root_node in Hn. rewrite Hr in Hn. simpl in Hn.
      split; [destruct added; lia|]. split; [destruct added; lia|]. auto.
    + rewrite (Get_tree_get _ _ _ r'') by (simpl; auto; destruct added; lia).
      rewrite Hget by reflexivity. rewrite Hg2. reflexivity.
    + exists (tree_get s (newKey bs) depthLimit 0 (tableNode r)).
      split; [apply Get_tree_get; auto|]. rewrite Hcur'. exact Hadd.
    + simpl. exact Hnh.
    + simpl. apply Hnhg.
    + simpl. apply Hnhg.
    + intros bs' Hne.
      rewrite (Get_tree_get _ _ _ r'') by (simpl; auto; destruct added; lia).
      rewrite (Get_tree_get s h bs' r) by auto.
      f_equal. apply Hother. exact Hne.
    + unfold root_node. simpl root. rewrite Hr. simpl node_of_root.
      intros ds l' Hl'.
      destruct (Hleaves ds l' Hl') as [Hold|[->|(ds0 & l & Hl0 & ->)]].
      * left. auto.
      * right. left. reflexivity.
      * right. right. exists ds0, l. auto.
Qed.

End Hamt32Put.

(** ** hamt32: Del *)

Section Hamt32Del.
Import Hamt32.
Context {V : Type} {HH : HostHash}.
Abbreviation value := (@value V).
Abbreviation leaf := (@leaf V).
Abbreviation nodeI := (@nodeI V).
Abbreviation table := (@table V).
Abbreviation store := (list table).
Implicit Types (s : store) (t : table) (n : nodeI) (p q cur : loc)
  (stack : tableStack) (hv : hashVal) (k : iKey) (h : HamtBase).

(** The lookups and the leaves below a table whose slot on the walk lost
    a pair. *)
Lemma Del_slot_spec s s' k fc d cur ct p (T' : table) (l : leaf) newLeaf :
  s `prefix_of` s' ->
  s !! cur = Some ct -> wf_table ct ->
  (forall j, j < indexLimit -> closed s fc (table_get ct j)) ->
  s' !! p = Some T' -> wf_table T' ->
  (forall j, j < indexLimit ->
     table_get T' j = if bool_decide (Index (Hash k) d = j)
                      then node_of_leaf newLeaf else table_get ct j) ->
  table_get ct (Index (Hash k) d) = leafNode l ->
  (leaf_del l k).2 = true -> (leaf_del l k).1.1 = newLeaf ->
  (forall k', k' <> k ->
     tree_get s' k' (S fc) d (tableNode p)
     = tree_get s k' (S fc) d (tableNode cur)) /\
  tree_get s' k (S fc) d (tableNode p)
  = match newLeaf with
    | Some nl => leaf_get nl k
    | None => (nil_value, false)
    end /\
  (forall ds l',
     leaf_at s' (S fc) (tableNode p) ds = Some l' ->
     leaf_at s (S fc) (tableNode cur) ds = Some l' \/ newLeaf = Some l').
Proof.
  intros Hpre Hct Hwfc Hclj Hp HwfT HgT Hg Hdel HnewLeaf.
  pose proof (Index_lt (Hash k) d) as Hidx.
  assert (Hnode : forall k0,
            tree_get s' k0 fc (S d) (node_of_leaf newLeaf)
            = match newLeaf with
              | Some nl => leaf_get nl k0
              | None => (nil_value, false)
              end).
  { intros k0. destruct newLeaf; simpl; [apply tree_get_leaf|apply tree_get_nil]. }
  split; [|split].
  - intros k' Hk'.
    rewrite (slot_update_get s s' k' fc d cur ct p T' (Index (Hash k) d)
               (node_of_leaf newLeaf)) by assumption.
    case_bool_decide as Hi; [|reflexivity].
    rewrite Hnode, (tree_get_table _ _ _ _ _ _ Hct), Hi, Hg, tree_get_leaf.
    rewrite <- HnewLeaf. apply leaf_del_other; assumption.
  - rewrite (slot_update_get s s' k fc d cur ct p T' (Index (Hash k) d)
               (node_of_leaf newLeaf)) by assumption.
    rewrite bool_decide_eq_true_2 by reflexivity. apply Hnode.
  - intros ds l'.
    rewrite (slot_update_leaf_at s s' fc cur ct p T' (Index (Hash k) d)
               (node_of_leaf newLeaf)) by assumption.
    destruct ds as [|i ds']; [discriminate|]. case_bool_decide; [|auto].
    destruct newLeaf as [nl|]; simpl.
    + rewrite leaf_at_leaf. auto.
    + rewrite leaf_at_nil. discriminate.
Qed.

(** The new terminal table built by [Del], or [nil]. *)
Lemma Del_newTable_spec s h k cur ct fc d (l : leaf) newLeaf :
  d + S fc = depthLimit ->
  s !! cur = Some ct ->
  wf_node s (S fc) (digits (Hash k) d) (tableNode cur) ->
  table_get ct (Index (Hash k) d) = leafNode l ->
  (leaf_del l k).2 = true -> (leaf_del l k).1.1 = newLeaf ->
  exists s2 nn,
    Del_newTable s h ct d (Index (Hash k) d) newLeaf = Ret (s2, nn) /\
    s `prefix_of` s2 /\
    wf_node s2 (S fc) (digits (Hash k) d) (node_of_root nn) /\
    node_pairs s2 (S fc) (node_of_root nn) + 1
    = node_pairs s (S fc) (tableNode cur) /\
    (forall k', k' <> k ->
       tree_get s2 k' (S fc) d (node_of_root nn)
       = tree_get s k' (S fc) d (tableNode cur)) /\
    tree_get s2 k (S fc) d (node_of_root nn)
    = match newLeaf with
      | Some nl => leaf_get nl k
      | None => (nil_value, false)
      end /\
    (forall ds l',
       leaf_at s2 (S fc) (node_of_root nn) ds = Some l' ->
       leaf_at s (S fc) (tableNode cur) ds = Some l' \/ newLeaf = Some l').
Proof.
  intros Hfd Hct Hcur Hg Hdel HnewLeaf.
  pose proof Hcur as Hcur'.
  apply wf_node_table in Hcur' as (fc' & ct' & [= <-] & Hct' & Hwfc & Hdc & Hhc & Hchild).
  rewrite length_digits in Hdc, Hhc.
  assert (ct' = ct) by congruence. subst ct'. clear Hct'.
  pose proof (Index_lt (Hash k) d) as Hidx.
  assert (Hclj : forall j, j < indexLimit -> closed s fc (table_get ct j)).
  { intros j Hj. eapply wf_node_closed; [|apply Hchild, Hj].
    rewrite length_app, length_digits. simpl. lia. }
  pose proof (Hchild _ Hidx) as Hslot. rewrite Hg, <- digits_S in Hslot.
  apply wf_node_leaf in Hslot.
  pose proof (leaf_del_pairs l k Hdel) as Hlp. rewrite HnewLeaf in Hlp.
  set (idx := Index (Hash k) d) in *.
  unfold Del_newTable.
  destruct (alloc s (table_copy ct)) as [s1 newTable] eqn:Ha.
  destruct newLeaf as [nl|].
  - (* the collision leaf shrinks *)
    destruct (alloc_update s (table_copy ct)
                (fun t => table_replace t idx (leafNode nl)) s1 newTable Ha)
      as (-> & Hnt & Hl & Hpre2).
    rewrite obind_Ret. unfold table_copy in *.
    set (T := table_replace ct idx (leafNode nl)) in *.
    set (s2 := s ++ [T]) in *.
    destruct (table_replace_fields ct idx (leafNode nl)) as (HdT & HhT & _).
    fold T in HdT, HhT.
    assert (HwfT : wf_table T) by (apply wf_table_replace; auto).
    assert (HgT : forall j, j < indexLimit ->
              table_get T j = if bool_decide (idx = j) then leafNode nl
                              else table_get ct j).
    { intros j Hj. apply table_get_replace; auto. rewrite Hg. reflexivity. }
    destruct (slot_update_spec s s2 k fc d cur ct newTable T (leafNode nl))
      as (Hwf' & Hpairs & _); auto; try congruence; try lia.
    { apply wf_node_leaf. eapply wf_leaf_del; eassumption. }
    exists s2, (Some newTable). split; [reflexivity|]. split; [assumption|].
    split; [exact Hwf'|]. split.
    { fold idx in Hpairs. rewrite Hg, !node_pairs_leaf in Hpairs.
      simpl node_of_root. lia. }
    simpl node_of_root.
    apply (Del_slot_spec s s2 k fc d cur ct newTable T l (Some nl)); assumption.
  - (* the flat leaf goes *)
    destruct (alloc_update s (table_copy ct)
                (fun t => table_remove t idx) s1 newTable Ha)
      as (-> & Hnt & Hl & Hpre2).
    rewrite obind_Ret. unfold table_copy in *.
    set (T := table_remove ct idx) in *.
    set (s2 := s ++ [T]) in *.
    rewrite (deref_lookup _ _ _ Hl), obind_Ret.
    destruct (table_remove_fields ct idx) as (HdT & HhT & _).
    fold T in HdT, HhT.
    assert (Hnn : is_nil (table_get ct idx) = false) by (rewrite Hg; reflexivity).
    assert (HwfT : wf_table T) by (apply wf_table_remove; auto).
    assert (HgT : forall j, j < indexLimit ->
              table_get T j = if bool_decide (idx = j) then nilNode
                              else table_get ct j).
    { intros j Hj. apply table_get_remove; auto. }
    destruct (slot_update_spec s s2 k fc d cur ct newTable T nilNode)
      as (Hwf' & Hpairs & _); auto using wf_node_nil; try congruence; try lia.
    fold idx in Hpairs. rewrite Hg, node_pairs_leaf, node_pairs_nil in Hpairs.
    case_bool_decide as Hz.
    + (* no entry left *)
      exists s2, None. split; [reflexivity|]. split; [assumption|].
      split; [apply wf_node_nil|]. simpl node_of_root.
      rewrite node_pairs_nil. split.
      { rewrite (node_pairs_table _ _ _ _ Hl) in Hpairs.
        rewrite table_sum_empty in Hpairs;
          [lia|apply node_pairs_nil|intros j; apply table_nentries_0; assumption]. }
      destruct (Del_slot_spec s s2 k fc d cur ct newTable T l None)
        as (Hgo & _ & _); try assumption.
      split; [|split].
      * intros k' Hk'. rewrite <- (Hgo k' Hk'), tree_get_nil.
        rewrite (tree_get_table _ _ _ _ _ _ Hl).
        rewrite (table_nentries_0 T _ HwfT Hz), tree_get_nil. reflexivity.
      * apply tree_get_nil.
      * intros ds l'. rewrite leaf_at_nil. discriminate.
    + destruct (grade h && bool_decide (table_nentries T = DowngradeThreshold)).
      * (* downgrade *)
        destruct (alloc s2 (downgradeToSparseTable (table_Hash T) d (table_entries T)))
          as [s3 dt] eqn:Ha3.
        apply alloc_spec in Ha3 as (_ & _ & Hl3 & Hpre3).
        destruct (downgradeToSparseTable_spec (table_Hash T) d T HwfT)
          as (Hwfd & Hdd & Hhd & _ & Hgd).
        destruct (slot_update_spec s s3 k fc d cur ct dt
                    (downgradeToSparseTable (table_Hash T) d (table_entries T)) nilNode)
          as (Hwf3 & Hpairs3 & _); auto using wf_node_nil; try congruence; try lia.
        { etrans; eassumption. }
        { intros j Hj. rewrite Hgd. apply HgT. assumption. }
        fold idx in Hpairs3. rewrite Hg, node_pairs_leaf, node_pairs_nil in Hpairs3.
        exists s3, (Some dt). split; [reflexivity|]. split; [etrans; eassumption|].
        split; [exact Hwf3|]. simpl node_of_root. split; [lia|].
        apply (Del_slot_spec s s3 k fc d cur ct dt
                 (downgradeToSparseTable (table_Hash T) d (table_entries T)) l None);
          try assumption.
        { etrans; eassumption. }
        { intros j Hj. rewrite Hgd. apply HgT. assumption. }
      * exists s2, (Some newTable). split; [reflexivity|]. split; [assumption|].
        split; [exact Hwf'|]. simpl node_of_root. split; [lia|].
        apply (Del_slot_spec s s2 k fc d cur ct newTable T l None); assumption.
Qed.


(** [Del] on a reachable map: it returns, writes no cell of the old store,
    keeps the invariant, deletes iff the key is present, and on a miss
    returns the map it was given. *)
Lemma Del_spec s h bs :
  INV s h ->
  exists s' h' val deleted,
    Del s h bs = Ret (s', h', val, deleted) /\
    s `prefix_of` s' /\ INV s' h' /\
    (exists r, Get s h bs = Ret r /\ deleted = r.2 /\ val = r.1) /\
    (deleted = false -> s' = s /\ h' = h) /\
    nentries h' = (nentries h - if deleted then 1 else 0)%Z /\
    grade h' = grade h /\ startFixed h' = startFixed h /\
    (forall bs', bs' <> bs -> Get s' h' bs' = Get s h bs') /\
    (INV_leaves s h -> deleted = true -> Get s' h' bs = Ret (nil_value, false)) /\
    (forall ds l',
       nentries h' <> 0%Z ->
       leaf_at s' depthLimit (root_node h') ds = Some l' ->
       leaf_at s depthLimit (root_node h) ds = Some l' \/
       exists ds0 l,
         leaf_at s depthLimit (root_node h) ds0 = Some l /\
         (leaf_del l (newKey bs)).1.1 = Some l').
Proof.
  intros Hinv. pose proof Hinv as (Hn & Hlt & Hcl & Hwf).
  assert (H0 : (0 <= nentries h)%Z) by lia.
  assert (Hsame :
            (exists r, Get s h bs = Ret r /\ false = r.2 /\ nil_value = r.1) ->
            exists s' h' val deleted,
              Ret (s, h, nil_value, false) = Ret (s', h', val, deleted) /\
              s `prefix_of` s' /\ INV s' h' /\
              (exists r, Get s h bs = Ret r /\ deleted = r.2 /\ val = r.1) /\
              (deleted = false -> s' = s /\ h' = h) /\
              nentries h' = (nentries h - if deleted then 1 else 0)%Z /\
              grade h' = grade h /\ startFixed h' = startFixed h /\
              (forall bs', bs' <> bs -> Get s' h' bs' = Get s h bs') /\
              (INV_leaves s h -> deleted = true ->
               Get s' h' bs = Ret (nil_value, false)) /\
              (forall ds l',
                 nentries h' <> 0%Z ->
                 leaf_at s' depthLimit (root_node h') ds = Some l' ->
                 leaf_at s depthLimit (root_node h) ds = Some l' \/
                 exists ds0 l,
                   leaf_at s depthLimit (root_node h) ds0 = Some l /\
                   (leaf_del l (newKey bs)).1.1 = Some l')).
  { intros HG.
    exists s, h, nil_value, false. split; [reflexivity|]. split; [reflexivity|].
    split; [assumption|]. split; [exact HG|].
    split; [auto|]. split; [lia|]. split; [reflexivity|]. split; [reflexivity|].
    split; [reflexivity|]. split; [discriminate|]. auto. }
  unfold Del. destruct (IsEmpty h) eqn:He.
  - (* an empty map *)
    apply bool_decide_eq_true_1 in He.
    apply Hsame.
    exists (nil_value, false). split; [|auto].
    unfold Get, IsEmpty. rewrite bool_decide_eq_true_2 by assumption. reflexivity.
  - apply bool_decide_eq_false_1 in He.
    destruct (INV_root s h Hinv He) as (r & Hr & Hwfr & Hclr).
    destruct (find_spec s h (newKey bs) r Hr Hwfr)
      as (cur & rest & lf & ct & fc & Hf & Hct & Hg & Hfc & Hlen & Hch & Hro & Hcur).
    rewrite Hf, obind_Ret. simpl pop. cbv beta iota.
    assert (Hget : Get s h bs
                   = Ret (tree_get s (newKey bs) fc (S (length rest)) (node_of_leaf lf))).
    { rewrite (Get_tree_get s h bs r) by assumption.
      rewrite <- Hro, chain_tree_get, Hfc by assumption.
      rewrite (tree_get_table _ _ _ _ _ _ Hct), Hg. reflexivity. }
    destruct lf as [l|]; simpl node_of_leaf in *.
    2:{ (* the walk ends on an empty slot *)
      apply Hsame.
      eexists. split; [exact Hget|]. rewrite tree_get_nil. auto. }
    rewrite tree_get_leaf in Hget.
    destruct (leaf_del_get l (newKey bs)) as [Hd1 Hd2].
    pose proof (leaf_del_self l (newKey bs)) as Hself.
    destruct (leaf_del l (newKey bs)) as [[newLeaf val] deleted] eqn:Hdel.
    simpl in Hd1, Hd2, Hself.
    destruct deleted; simpl negb; cbv iota.
    2:{ (* the leaf does not hold the key *)
      apply Hsame.
      eexists. split; [exact Hget|]. split; [assumption|].
      symmetry. apply leaf_get_miss. congruence. }
    specialize (Hd2 eq_refl).
    rewrite (deref_lookup _ _ _ Hct), obind_Ret.
    destruct (Del_newTable_spec s h (newKey bs) cur ct fc (length rest) l newLeaf)
      as (s2 & nn & Hnt & Hpre2 & Hwf2 & Hp2 & HA & HA0 & HB); auto; try lia;
      try (rewrite Hdel; reflexivity).
    rewrite Hnt, obind_Ret.
    (* the leaf of the key, seen from the root *)
    set (ds0 := digits (Hash (newKey bs)) (length rest)
                ++ [Index (Hash (newKey bs)) (length rest)]).
    assert (Hl0 : leaf_at s depthLimit (tableNode r) ds0 = Some l).
    { rewrite <- Hro.
      rewrite (chain_leaf_at s (Hash (newKey bs)) cur rest), Hfc; [|exact Hch|lia|].
      - unfold ds0. rewrite drop_app_length' by (rewrite length_digits; reflexivity).
        rewrite (leaf_at_table _ _ _ _ _ Hct), Hg. apply leaf_at_leaf.
      - unfold ds0. rewrite take_app_length' by (rewrite length_digits; reflexivity).
        reflexivity. }
    (* at least one pair is held *)
    assert (Hle : node_pairs s (S fc) (tableNode cur)
                  <= node_pairs s depthLimit (tableNode r)).
    { rewrite <- Hro, <- Hfc. apply (chain_pairs_le s (Hash (newKey bs))); assumption. }
    unfold root_node in Hn. rewrite Hr in Hn. simpl node_of_root in Hn.
    assert (Hdecr : uint_decr (nentries h) = (nentries h - 1)%Z)
      by (apply uint_decr_small; lia).
    rewrite Hdecr.
    set (nh := set_nentries h (nentries h - 1)).
    assert (Hcl2 : closed s2 (S fc) (node_of_root nn)).
    { eapply wf_node_closed; [|exact Hwf2]. rewrite length_digits. lia. }
    destruct (decide (nentries h = 1%Z)) as [H1|H1].
    + (* the last pair: the map becomes empty *)
      assert (Hp : persist s2 nh cur nn rest = Ret (s2, set_root nh nn)).
      { destruct rest; [rewrite persist_nil|rewrite persist_cons];
          unfold IsEmpty, nh; simpl nentries;
          rewrite bool_decide_eq_true_2 by lia; reflexivity. }
      rewrite Hp, obind_Ret.
      assert (Hempty : forall bs', Get s2 (set_root nh nn) bs' = Ret (nil_value, false)).
      { intros bs'. unfold Get, IsEmpty, nh. simpl nentries.
        rewrite bool_decide_eq_true_2 by lia. reflexivity. }
      eexists _, _, _, _. split; [reflexivity|]. split; [assumption|].
      split; [|split; [|split; [discriminate|split; [simpl; lia|
        split; [reflexivity|split; [reflexivity|split; [|split]]]]]]].
      * unfold INV, root_node. simpl.
        rewrite (node_pairs_mono s2 s2 (S fc) depthLimit) by (auto; lia).
        split; [lia|]. split; [lia|].
        split; [eapply closed_mono; [reflexivity| |eassumption]; lia|lia].
      * eexists. split; [exact Hget|]. split; [assumption|]. assumption.
      * intros bs' Hne. rewrite Hempty.
        rewrite (Get_tree_get s h bs' r) by assumption. f_equal. symmetry.
        apply tree_get_miss.
        destruct (tree_get s (newKey bs') depthLimit 0 (tableNode r)).2 eqn:Hf';
          [exfalso|reflexivity].
        assert (Hfk : (tree_get s (newKey bs) depthLimit 0 (tableNode r)).2 = true).
        { rewrite (Get_tree_get s h bs r) in Hget by assumption.
          injection Hget as ->. congruence. }
        pose proof (tree_get_found_two s (newKey bs) (newKey bs') depthLimit 0
                      (tableNode r) ltac:(unfold newKey; congruence) Hfk Hf').
        lia.
      * intros _ _. apply Hempty.
      * simpl nentries. intros ds l' Hz. exfalso. apply Hz. lia.
    + destruct (persist_spec s (Hash (newKey bs)) nh rest s2 cur nn)
        as (s' & r' & Hp & Hpre' & Hwf' & Hpairs & Hgetk & _ & _ & Hla); auto.
      { unfold nh. simpl. lia. }
      { simpl. rewrite Hro. exact Hr. }
      { rewrite Hro. exact Hwfr. }
      { rewrite Hfc. exact Hwf2. }
      assert (Hother : forall k, k <> newKey bs ->
                tree_get s' k depthLimit 0 (node_of_root r')
                = tree_get s k depthLimit 0 (tableNode (root_of cur rest))).
      { intros k Hk.
        apply (replaced_subtree_get s s2 s' (Hash (newKey bs)) k cur rest fc
                 (node_of_root nn)); [exact Hch|exact Hlen|exact Hfc| |].
        - intros ds. rewrite (Hla ds), Hfc. reflexivity.
        - intros _. apply HA, Hk. }
      rewrite Hp, obind_Ret. rewrite Hfc, Hro in *.
      assert (Hnz : nentries (set_root nh r') <> 0%Z) by (simpl; lia).
      assert (Hr' : exists r'', r' = Some r'').
      { destruct r' as [r''|]; [eauto|]. exfalso. simpl node_of_root in Hpairs.
        rewrite node_pairs_nil in Hpairs. lia. }
      destruct Hr' as [r'' ->]. simpl node_of_root in *.
      assert (Hcl' : closed s' depthLimit (tableNode r'')).
      { eapply wf_node_closed; [|exact Hwf']. simpl. lia. }
      eexists _, _, _, _. split; [reflexivity|]. split; [etrans; eassumption|].
      split; [|split; [|split; [discriminate|split; [simpl; lia|
        split; [reflexivity|split; [reflexivity|split; [|split]]]]]]].
      * unfold INV, root_node. simpl.
        split; [lia|]. split; [lia|].
        split; [exact Hcl'|auto].
      * eexists. split; [exact Hget|]. split; [assumption|]. assumption.
      * intros bs' Hne.
        rewrite (Get_tree_get s' _ bs' r'') by (simpl; auto).
        rewrite (Get_tree_get s h bs' r) by assumption.
        f_equal. apply Hother. exact Hne.
      * intros HL _.
        rewrite (Get_tree_get s' _ bs r'') by (simpl; auto).
        rewrite (Hgetk (newKey bs) eq_refl), HA0. f_equal.
        apply Hself; [|reflexivity].
        apply (HL He ds0 l). unfold root_node. rewrite Hr. exact Hl0.
      * unfold root_node. simpl root. rewrite Hr. simpl node_of_root.
        intros ds l' _. rewrite (Hla ds).
        case_bool_decide as Htk; [|auto].
        intros Hl'. destruct (HB _ _ Hl') as [Hold|Hnew].
        -- left. rewrite <- Hro.
           rewrite (chain_leaf_at s _ cur rest ds Hch Hlen Htk), Hfc. exact Hold.
        -- right. exists ds0, l. split; [exact Hl0|]. rewrite Hdel. exact Hnew.
Qed.

End Hamt32Del.

(** ** The array of a table and its slots *)

Section PhysicalNodes.
Context {V : Type} {P : Params}.
Abbreviation nodeI := (@nodeI V).
Abbreviation table := (@table V).
Implicit Types (t : table) (n : nodeI) (i j : nat).

Lemma rank_le_index (bm : N) j : rank bm j <= j.
Proof.
  induction j as [|j IH]; [rewrite rank_0; lia|].
  rewrite rank_S. destruct (bit bm j); lia.
Qed.

Lemma table_nentries_le t : wf_table t -> table_nentries t <= indexLimit.
Proof.
  destruct t as [d h nodes|d h bm nodes]; simpl.
  - intros <-. apply length_filter.
  - intros (Hbm & -> & _). rewrite (popcount_rank bm indexLimit Hbm).
    apply rank_le_index.
Qed.

(** The packed array of a sparse table lists its occupied slots in order. *)
Lemma sparse_nodes_take d h bm (nodes : list nodeI) j :
  wf_table (sparseTable d h bm nodes) -> j <= indexLimit ->
  take (rank bm j) nodes
  = map (table_get (sparseTable d h bm nodes)) (filter (fun i => bit bm i = true) (seq 0 j)).
Proof.
  intros (Hbm & Hlen & Hnn). induction j as [|j IH]; intros Hj.
  - rewrite rank_0. reflexivity.
  - rewrite seq_S, list.filter_app, map_app, <- IH, rank_S by lia. simpl.
    rewrite filter_cons, filter_nil.
    destruct (decide (bit bm j = true)) as [Hb|Hb].
    + rewrite Hb. simpl. rewrite Hb.
      destruct (lookup_lt_is_Some_2 nodes (rank bm j)) as [x Hx].
      { eapply sparse_rank_lt; eauto. }
      rewrite Hx. simpl. rewrite Nat.add_1_r. apply take_S_r. exact Hx.
    + apply not_true_is_false in Hb. rewrite Hb, Nat.add_0_r, app_nil_r.
      reflexivity.
Qed.

Lemma sparse_nodes d h bm (nodes : list nodeI) :
  wf_table (sparseTable d h bm nodes) ->
  nodes = map (table_get (sparseTable d h bm nodes))
              (filter (fun i => bit bm i = true) (seq 0 indexLimit)).
Proof.
  intros Hwf. rewrite <- (sparse_nodes_take d h bm nodes indexLimit Hwf) by lia.
  destruct Hwf as (Hbm & Hlen & _).
  rewrite <- (popcount_rank bm indexLimit Hbm), <- Hlen, firstn_all. reflexivity.
Qed.

(** Every element of the array is the content of a slot. *)
Lemma table_nodes_get t n :
  wf_table t -> n ∈ table_nodes t ->
  exists i, i < indexLimit /\ table_get t i = n.
Proof.
  intros Hwf Hin. destruct t as [d h nodes|d h bm nodes].
  - simpl in *. apply list_elem_of_lookup in Hin as [i Hi].
    exists i. split; [rewrite <- Hwf; eapply lookup_lt_Some; eassumption|].
    rewrite Hi. reflexivity.
  - simpl table_nodes in Hin. rewrite (sparse_nodes d h bm nodes Hwf) in Hin.
    apply list_elem_of_fmap in Hin as (i & -> & Hi).
    apply list_elem_of_filter in Hi as [_ Hi]. apply elem_of_seq in Hi.
    exists i. split; [lia|reflexivity].
Qed.

Lemma sum_filter_seq (f : nat -> nat) (Q : nat -> bool) a len :
  (forall i, Q i = false -> f i = 0) ->
  sum_list (map f (filter (fun i => Q i = true) (seq a len)))
  = sum_list (map f (seq a len)).
Proof.
  intros HQ. revert a. induction len as [|len IH]; intros a; [reflexivity|].
  simpl. rewrite filter_cons. destruct (decide (Q a = true)) as [Hq|Hq]; simpl.
  - rewrite IH. reflexivity.
  - apply not_true_is_false in Hq. rewrite IH, (HQ a Hq). reflexivity.
Qed.

(** A measure summed over the array is the measure summed over the slots. *)
Lemma table_nodes_sum (F : nodeI -> nat) t :
  wf_table t -> F nilNode = 0 ->
  sum_list (map F (table_nodes t))
  = sum_list (map (fun i => F (table_get t i)) (seq 0 indexLimit)).
Proof.
  intros Hwf HF. destruct t as [d h nodes|d h bm nodes].
  - simpl in *. f_equal. apply list_eq. intros i.
    rewrite !list_lookup_fmap.
    destruct (decide (i < indexLimit)) as [Hi|Hi].
    + rewrite lookup_seq_lt by assumption. simpl.
      destruct (lookup_lt_is_Some_2 nodes i) as [x Hx]; [lia|].
      rewrite Hx. reflexivity.
    + rewrite lookup_seq_ge, lookup_ge_None_2 by lia. reflexivity.
  - simpl table_nodes. rewrite (sparse_nodes d h bm nodes Hwf) at 1.
    rewrite map_map.
    apply (sum_filter_seq (fun i => F (table_get (sparseTable d h bm nodes) i))).
    intros i Hb. simpl. rewrite Hb. exact HF.
Qed.

End PhysicalNodes.

(** ** hamt32: the statistics traversal *)

Section Hamt32Count.
Import Hamt32.
Context {V : Type} {HH : HostHash}.
Abbreviation value := (@value V).
Abbreviation leaf := (@leaf V).
Abbreviation nodeI := (@nodeI V).
Abbreviation table := (@table V).
Abbreviation store := (list table).
Implicit Types (s : store) (t : table) (n : nodeI) (acc : Counts).

Lemma array_incr_Ret (a : list Z) i :
  i < length a -> exists a', array_incr a i = Ret a' /\ length a' = length a.
Proof.
  intros Hi. unfold array_incr.
  destruct (lookup_lt_is_Some_2 a i Hi) as [x ->].
  eexists. split; [reflexivity|]. apply length_insert.
Qed.

Lemma uint_add_add a b c :
  uint_add (uint_add a b) c = uint_add a (b + c).
Proof.
  unfold uint_add. rewrite Z.add_mod_idemp_l by (unfold uint_max; lia).
  f_equal. lia.
Qed.

Lemma uint_add_0 a : (0 <= a < uint_max)%Z -> uint_add a 0 = a.
Proof. intros Ha. unfold uint_add. rewrite Z.add_0_r. apply Z.mod_small, Ha. Qed.

Lemma uint_add_range a b : (0 <= uint_add a b < uint_max)%Z.
Proof. unfold uint_add. apply Z.mod_pos_bound. unfold uint_max. lia. Qed.

Lemma countFn_nil acc :
  counts_ok acc ->
  exists acc', countFn acc (@VisitNil V) = Ret acc' /\ counts_ok acc' /\
               KeyVals acc' = uint_add (KeyVals acc) 0.
Proof.
  intros Hok. eexists. split; [reflexivity|]. split; [exact Hok|].
  simpl. symmetry. apply uint_add_0, Hok.
Qed.

Lemma countFn_leaf acc (l : leaf) :
  counts_ok acc ->
  exists acc', countFn acc (VisitLeaf l) = Ret acc' /\ counts_ok acc' /\
               KeyVals acc' = uint_add (KeyVals acc) (Z.of_nat (length (keyVals l))).
Proof.
  intros (HN & HD & HK). destruct l as [k v|h kvs]; eexists;
    (split; [reflexivity|]); (split; [|reflexivity]);
    (split; [exact HN|split; [exact HD|apply uint_add_range]]).
Qed.

Lemma countFn_table acc t :
  counts_ok acc -> wf_table t -> table_depth t < depthLimit ->
  exists acc', countFn acc (VisitTable t) = Ret acc' /\ counts_ok acc' /\
               KeyVals acc' = KeyVals acc.
Proof.
  intros (HN & HD & HK) Hwf Hd. unfold countFn.
  destruct (array_incr_Ret (TableCountsByNentries acc) (table_nentries t))
    as (a1 & -> & L1).
  { rewrite HN. pose proof (table_nentries_le t Hwf) as Hle.
    change (@indexLimit params) with IndexLimit in Hle. lia. }
  destruct (array_incr_Ret (TableCountsByDepth acc) (table_depth t))
    as (a2 & -> & L2).
  { rewrite HD. exact Hd. }
  simpl. eexists. split; [reflexivity|]. split; [|reflexivity].
  split; [exact (eq_trans L1 HN)|split; [exact (eq_trans L2 HD)|exact HK]].
Qed.

(** The slots of an array visited in turn, each adding its measure. *)
Lemma fold_visit_slot s (vt : table -> nat -> Counts -> outcome (Counts * nat))
    depth (F : nodeI -> nat) (ns : list nodeI) :
  (forall n acc md, n ∈ ns -> counts_ok acc ->
     exists acc' md',
       visit_slot vt countFn s depth (Ret (acc, md)) n = Ret (acc', md') /\
       counts_ok acc' /\
       KeyVals acc' = uint_add (KeyVals acc) (Z.of_nat (F n))) ->
  forall acc md, counts_ok acc ->
    exists acc' md',
      fold_left (visit_slot vt countFn s depth) ns (Ret (acc, md))
        = Ret (acc', md') /\
      counts_ok acc' /\
      KeyVals acc' = uint_add (KeyVals acc) (Z.of_nat (sum_list (map F ns))).
Proof.
  induction ns as [|n ns IH]; intros Hstep acc md Hok.
  - exists acc, md. split; [reflexivity|]. split; [exact Hok|].
    simpl. symmetry. apply uint_add_0, Hok.
  - destruct (Hstep n acc md ltac:(left) Hok) as (acc1 & md1 & E1 & Hok1 & HK1).
    change (fold_left (visit_slot vt countFn s depth) (n :: ns) (Ret (acc, md)))
      with (fold_left (visit_slot vt countFn s depth) ns
              (visit_slot vt countFn s depth (Ret (acc, md)) n)).
    rewrite E1.
    destruct (IH (fun n' a m Hn' => Hstep n' a m ltac:(right; exact Hn'))
                 acc1 md1 Hok1) as (acc' & md' & E & Hok' & HK').
    exists acc', md'. split; [exact E|]. split; [exact Hok'|].
    rewrite HK', HK1, uint_add_add. simpl. f_equal. lia.
Qed.

(** The traversal of a table whose subtrees are closed at level [c]: it
    ends, and adds to [KeyVals] the pairs held below the table. *)
Lemma visit_countFn s c :
  forall fuel t depth acc,
    c < fuel -> wf_table t -> table_depth t < depthLimit ->
    (forall i, i < indexLimit -> closed s c (table_get t i)) ->
    counts_ok acc ->
    exists acc' md,
      visit countFn s fuel t depth acc = Ret (acc', md) /\ counts_ok acc' /\
      KeyVals acc'
      = uint_add (KeyVals acc)
          (Z.of_nat (sum_list (map (fun i => node_pairs s c (table_get t i))
                                   (seq 0 indexLimit)))).
Proof.
  induction c as [c IH] using lt_wf_ind.
  intros fuel t depth acc Hf Hwf Hd Hcl Hok.
  destruct fuel as [|fuel]; [lia|].
  change (visit countFn s (S fuel) t depth acc)
    with (acc <-- countFn acc (VisitTable t) ;>
          fold_left (visit_slot (visit countFn s fuel) countFn s depth)
                    (table_nodes t) (Ret (acc, depth))).
  destruct (countFn_table acc t Hok Hwf Hd) as (acc1 & -> & Hok1 & HK1).
  rewrite obind_Ret, <- (table_nodes_sum (node_pairs s c) t Hwf)
    by (apply node_pairs_nil).
  rewrite <- HK1.
  apply fold_visit_slot; [|exact Hok1].
  intros n a md Hn Ha.
  destruct (table_nodes_get t n Hwf Hn) as (i & Hi & <-).
  specialize (Hcl i Hi). destruct (table_get t i) as [|l|q]; unfold visit_slot.
  - rewrite obind_Ret.
    destruct (countFn_nil a Ha) as (a2 & -> & Hok2 & HK2). rewrite obind_Ret.
    exists a2, md. split; [reflexivity|]. split; [exact Hok2|].
    rewrite HK2, node_pairs_nil. reflexivity.
  - rewrite obind_Ret.
    destruct (countFn_leaf a l Ha) as (a2 & -> & Hok2 & HK2). rewrite obind_Ret.
    exists a2, md. split; [reflexivity|]. split; [exact Hok2|].
    rewrite HK2, node_pairs_leaf. reflexivity.
  - apply closed_table in Hcl as (c' & t' & -> & Hq & Hwf' & Hd' & Hc').
    rewrite obind_Ret, (deref_lookup _ _ _ Hq), obind_Ret.
    destruct (IH c' ltac:(lia) fuel t' (S depth) a ltac:(lia) Hwf' Hd' Hc' Ha)
      as (a2 & md2 & -> & Hok2 & HK2).
    rewrite obind_Ret.
    exists a2, (Nat.max md md2). split; [reflexivity|]. split; [exact Hok2|].
    rewrite HK2, (node_pairs_table _ _ _ _ Hq). reflexivity.
Qed.

Lemma closed_nil s fuel : closed s fuel (@nilNode V).
Proof. destruct fuel; exact I. Qed.

Lemma counts_ok_new : counts_ok newCounts.
Proof.
  split; [apply length_replicate|]. split; [apply length_replicate|].
  simpl. unfold uint_max. lia.
Qed.

(** [Count] on a map that satisfies the invariant: the traversal ends and
    its [KeyVals] is the entry count. *)
Lemma Count_spec s h :
  INV s h -> exists d c, Count s h = Ret (d, c) /\ KeyVals c = nentries h.
Proof.
  intros (Hn & Hlt & Hcl & _). unfold Count, root_node in *.
  destruct (root h) as [r|]; simpl node_of_root in *.
  - apply closed_table in Hcl as (c' & t & Hc & Hr & Hwf & Hd & Hch).
    rewrite (deref_lookup _ _ _ Hr), obind_Ret.
    destruct (visit_countFn s c' (length s + S DepthLimit) t 0 newCounts)
      as (acc & md & -> & _ & HK); try assumption.
    { change DepthLimit with (@depthLimit params). lia. }
    { apply counts_ok_new. }
    rewrite obind_Ret. exists md, acc. split; [reflexivity|].
    rewrite HK, Hn, Hc, (node_pairs_table _ _ _ _ Hr).
    change (KeyVals newCounts) with 0%Z. unfold uint_add.
    rewrite Z.add_0_l. apply Z.mod_small.
    rewrite Hn, Hc, (node_pairs_table _ _ _ _ Hr) in Hlt. lia.
  - rewrite obind_Ret.
    destruct (visit_countFn s 0 (length s + S DepthLimit)
                (@emptyFixedTable V params 0 0%N) 0 newCounts)
      as (acc & md & -> & _ & HK).
    { lia. }
    { apply wf_emptyFixedTable. }
    { simpl. apply depthLimit_pos. }
    { intros i _. rewrite table_get_emptyFixedTable. apply closed_nil. }
    { apply counts_ok_new. }
    rewrite obind_Ret. exists md, acc. split; [reflexivity|].
    rewrite HK, Hn, node_pairs_nil.
    rewrite (sum_seq_zero (fun i => node_pairs s 0 (table_get (@emptyFixedTable V params 0 0%N) i))).
    + reflexivity.
    + intros i. rewrite table_get_emptyFixedTable. apply node_pairs_nil.
Qed.

End Hamt32Count.

(** ** hamt32: the reachable maps satisfy the invariant *)

Section Hamt32Reach.
Import Hamt32.
Context {V : Type} {HH : HostHash}.
Abbreviation value := (@value V).
Abbreviation leaf := (@leaf V).
Abbreviation nodeI := (@nodeI V).
Abbreviation table := (@table V).
Abbreviation store := (list table).
Implicit Types (s : store) (t : table) (n : nodeI) (h : @HamtBase).

Lemma NewFunctional_fields opt :
  root (NewFunctional opt) = None /\ nentries (NewFunctional opt) = 0%Z.
Proof.
  unfold NewFunctional, init. repeat case_bool_decide; split; reflexivity.
Qed.

Lemma INV_new s opt : INV s (NewFunctional opt).
Proof.
  destruct (NewFunctional_fields opt) as [Hr Hn].
  unfold INV, root_node. rewrite Hr, Hn. simpl node_of_root.
  rewrite node_pairs_nil. split; [reflexivity|]. split; [unfold uint_max; lia|].
  split; [apply closed_nil|]. intros []. reflexivity.
Qed.

Lemma INV_mono s s' h : s `prefix_of` s' -> INV s h -> INV s' h.
Proof.
  intros Hpre (Hn & Hlt & Hcl & Hwf).
  split; [|split; [exact Hlt|split]].
  - rewrite (node_pairs_mono s s' depthLimit depthLimit) by (try assumption; lia).
    exact Hn.
  - apply (closed_mono s s' depthLimit); [assumption|lia|assumption].
  - intros Hne. apply (wf_node_mono s s'); [assumption|]. apply Hwf, Hne.
Qed.

Lemma reachable_INV s h : reachable s h -> INV s h.
Proof.
  induction 1 as [s opt|s s' h _ IH Hpre|s s' h h' bs v added _ IH Hlt HP
                 |s s' h h' bs v deleted _ IH HD].
  - apply INV_new.
  - apply (INV_mono s); assumption.
  - destruct (Put_spec s h bs v IH Hlt) as (s1 & h1 & a1 & E & _ & HI & _).
    rewrite E in HP. injection HP as <- <- <-. exact HI.
  - destruct (Del_spec s h bs IH) as (s1 & h1 & v1 & d1 & E & _ & HI & _).
    rewrite E in HD. injection HD as <- <- <- <-. exact HI.
Qed.

(** The walk on a map that satisfies the invariant. *)
Lemma Get_total s h bs : INV s h -> exists r, Get s h bs = Ret r.
Proof.
  intros HI. destruct (decide (nentries h = 0%Z)) as [E|Hne].
  - exists (nil_value, false). unfold Get, IsEmpty.
    rewrite bool_decide_eq_true_2 by exact E. reflexivity.
  - destruct (INV_root s h HI Hne) as (r & Hr & _ & Hcl).
    eexists. apply (Get_tree_get s h bs r Hne Hr Hcl).
Qed.

(** [Get] reads the cells of the map only: it gives the same result in
    every extension of the store. *)
Lemma Get_mono s s' h bs :
  s `prefix_of` s' -> INV s h -> Get s' h bs = Get s h bs.
Proof.
  intros Hpre HI. destruct (decide (nentries h = 0%Z)) as [E|Hne].
  - unfold Get, IsEmpty. rewrite bool_decide_eq_true_2 by exact E. reflexivity.
  - destruct (INV_root s h HI Hne) as (r & Hr & _ & Hcl).
    rewrite (Get_tree_get s h bs r Hne Hr Hcl).
    rewrite (Get_tree_get s' h bs r Hne Hr)
      by (apply (closed_mono s s' depthLimit); [assumption|lia|assumption]).
    f_equal. apply tree_get_mono; assumption.
Qed.

End Hamt32Reach.

(** ** hamt32: misses and the depth guard of the walk *)

Section Hamt32Miss.
Import Hamt32.
Context {V : Type} {HH : HostHash}.
Abbreviation value := (@value V).
Abbreviation leaf := (@leaf V).
Abbreviation nodeI := (@nodeI V).
Abbreviation table := (@table V).
Abbreviation store := (list table).
Implicit Types (s : store) (t : table) (n : nodeI) (h : @HamtBase).

Lemma Get_loop_miss s k hv fuel depth cur x :
  Get_loop s k hv fuel depth cur = Ret (x, false) -> x = nil_value.
Proof.
  revert depth cur. induction fuel as [|fuel IH]; intros depth cur; [discriminate|].
  simpl. unfold deref. destruct (s !! cur) as [t|]; [|discriminate].
  rewrite obind_Ret. destruct (table_get t (Index hv depth)) as [|l|q].
  - congruence.
  - intros [= E]. pose proof (leaf_get_miss l k) as Hm. rewrite E in Hm.
    symmetry. symmetry in Hm. simpl in Hm. rewrite Hm; reflexivity.
  - case_bool_decide; [discriminate|apply IH].
Qed.

(** A miss of [Get] returns the nil value. *)
Lemma Get_miss_nil s h bs x : Get s h bs = Ret (x, false) -> x = nil_value.
Proof.
  unfold Get. destruct (IsEmpty h); [congruence|].
  destruct (root h) as [r|]; [apply Get_loop_miss|discriminate].
Qed.

(** [Del] of a key that [Get] does not find. *)
Lemma Del_miss s h bs x :
  INV s h -> Get s h bs = Ret (x, false) ->
  Del s h bs = Ret (s, h, nil_value, false).
Proof.
  intros HI HG.
  destruct (Del_spec s h bs HI)
    as (s' & h' & val & deleted & E & _ & _ & (r & Hr & Hd & Hv) & Hsame & _).
  rewrite HG in Hr. injection Hr as <-. simpl in Hd, Hv. subst deleted val.
  destruct (Hsame eq_refl) as [-> ->].
  rewrite E. rewrite (Get_miss_nil s h bs x HG). reflexivity.
Qed.

(** The guard of the walk: a table found in the slot of the last level
    makes [find] and [Get] panic. *)
Lemma overdeep_panic s k hv fuel depth cur path idx :
  fuel + depth = S maxDepth -> overdeep s hv fuel depth cur ->
  (exists msg, find_loop s hv fuel depth cur path idx = Panic msg) /\
  Get_loop s k hv fuel depth cur = Panic "SHOULD NOT HAPPEN".
Proof.
  revert depth cur path idx.
  induction fuel as [|fuel IH]; intros depth cur path idx Hfd Ho; [destruct Ho|].
  simpl in Ho. simpl find_loop. simpl Get_loop. unfold deref.
  destruct (s !! cur) as [t|]; [|destruct Ho]. rewrite !obind_Ret.
  destruct (table_get t (Index hv depth)) as [|l|q];
    [destruct Ho|destruct Ho|].
  case_bool_decide as Hd.
  - split; [eexists; reflexivity|reflexivity].
  - destruct Ho as [Ho|Ho]; [contradiction|].
    apply IH; [lia|exact Ho].
Qed.

End Hamt32Miss.

(** ** hamt64: the in-place operations *)

Section Hamt64Facts.
Import Hamt64.
Context {V : Type} {HH : HostHash}.
Abbreviation value := (@value V).
Abbreviation leaf := (@leaf V).
Abbreviation nodeI := (@nodeI V).
Abbreviation table := (@table V).
Abbreviation store := (list table).
Implicit Types (s : store) (t : table) (n : nodeI) (h : @Hamt).

Lemma Get_loop_Del_loop s h k fuel depth cur x hp path :
  Get_loop s k fuel depth cur = Ret (x, false) ->
  Del_loop s h k fuel depth hp cur path = Ret (s, h, nil_value, false).
Proof.
  revert depth cur hp path.
  induction fuel as [|fuel IH]; intros depth cur hp path; [discriminate|].
  simpl. unfold deref. destruct (s !! cur) as [t|]; [|discriminate].
  rewrite !obind_Ret. destruct (table_get t (Index (Hash k) depth)) as [|l|q].
  - reflexivity.
  - intros [= E]. destruct (leaf_del_get l k) as [Hd _]. rewrite E in Hd.
    destruct (leaf_del l k) as [[dl val] deleted]. simpl in Hd. subst deleted.
    reflexivity.
  - case_bool_decide; [discriminate|]. apply IH.
Qed.

(** [Del] of a key that [Get] does not find: nothing is written. *)
Lemma Get_miss_Del s h k x :
  Get s h k = Ret (x, false) -> Del s h k = Ret (s, h, nil_value, false).
Proof.
  unfold Get, Del. destruct (root h) as [r|]; [|reflexivity].
  apply Get_loop_Del_loop.
Qed.

(** *** The kinds of the tables *)















Lemma New_fields opt : root (New opt) = None.
Proof. unfold New. repeat case_bool_decide; reflexivity. Qed.


End Hamt64Facts.

(** ** The entries of a table *)

Section EntriesFacts.
Context {V : Type} {P : Params}.
Abbreviation nodeI := (@nodeI V).
Abbreviation table := (@table V).
Implicit Types (t : table) (n : nodeI) (i j : nat).

Lemma length_filter_nonnil (l : list nodeI) :
  length (filter (fun n => is_nil n = false) l)
  = sum_list (map (fun n => if is_nil n then 0 else 1) l).
Proof.
  induction l as [|n l IH]; [reflexivity|].
  rewrite filter_cons. simpl. destruct (is_nil n) eqn:E.
  - destruct (decide (true = false)); [discriminate|]. exact IH.
  - destruct (decide (false = false)); [|contradiction]. simpl. rewrite IH. reflexivity.
Qed.

(** [nentries()] is the number of [entries()]. *)
Lemma table_nentries_entries t :
  wf_table t -> table_nentries t = length (table_entries t).
Proof.
  intros Hwf.
  assert (E1 : table_nentries t
               = sum_list (map (fun n => if is_nil n then 0 else 1) (table_nodes t))).
  { destruct t as [d h nodes|d h bm nodes]; simpl.
    - apply length_filter_nonnil.
    - destruct Hwf as (_ & _ & Hnn). clear -Hnn.
      induction Hnn as [|n l Hn _ IH]; [reflexivity|]. simpl. rewrite Hn, IH. reflexivity. }
  rewrite E1, (table_nodes_sum (fun n => if is_nil n then 0 else 1) t Hwf eq_refl).
  unfold table_entries. generalize (seq 0 indexLimit). intros l.
  induction l as [|i l IH]; [reflexivity|]. simpl.
  destruct (table_get t i); simpl; rewrite IH; reflexivity.
Qed.

End EntriesFacts.

(** ** hamt64: the collapse loop of [Del] *)

Section Hamt64Collapse.
Import Hamt64.
Context {V : Type} {HH : HostHash}.
Abbreviation value := (@value V).
Abbreviation leaf := (@leaf V).
Abbreviation nodeI := (@nodeI V).
Abbreviation table := (@table V).
Abbreviation store := (list table).
Implicit Types (s : store) (t : table) (n : nodeI) (h : @Hamt).



End Hamt64Collapse.

(** * The properties of the maps *)

Section Hamt32Properties.
Import Hamt32.
Context {V : Type} {HH : HostHash}.
Abbreviation value := (@value V).
Abbreviation table := (@table V).
Abbreviation store := (list table).
Implicit Types (s : store) (h : HamtBase) (bs : list byte) (v : value).


(** C2: [Put] on a persistent map writes no table of the heap it started
    from: the heap grows by new cells only, so the old root and every table
    below it are intact, and [Get] on the old map returns for every key
    what it returned before. *)
Theorem put_preserves_old_version s h bs v :
  reachable s h -> (nentries h + 1 < uint_max)%Z ->
  exists s' h' added,
    Put s h bs v = Ret (s', h', added) /\
    (forall p t, s !! p = Some t -> s' !! p = Some t) /\
    forall bs', Get s' h bs' = Get s h bs'.
Proof.
  intros Hr Hlt. pose proof (reachable_INV s h Hr) as HI.
  destruct (Put_spec s h bs v HI Hlt) as (s' & h' & added & E & Hpre & _).
  exists s', h', added. split; [exact E|]. split.
  - intros p t. apply prefix_lookup, Hpre.
  - intros bs'. apply Get_mono; assumption.
Qed.

(** C4: [Del] of a key that the map does not hold returns the map it was
    called on, with the same heap, the nil value and [false]; this holds
    for the persistent map of hamt32 and for the in-place map of hamt64. *)
Theorem del_miss_unchanged :
  (forall s h bs x,
     reachable s h -> Get s h bs = Ret (x, false) ->
     Del s h bs = Ret (s, h, nil_value, false)) /\
  (forall (s : store) (h : Hamt64.Hamt) (k : iKey) (x : value),
     Hamt64.Get s h k = Ret (x, false) ->
     Hamt64.Del s h k = Ret (s, h, nil_value, false)).
Proof.
  split.
  - intros s h bs x Hr. apply Del_miss, reachable_INV, Hr.
  - intros s h k x. apply Get_miss_Del.
Qed.

(** C5: [Put] reports [added = true] exactly when [Get] did not find the
    key before, and the entry count grows by one exactly when [added]. *)
Theorem put_inserted_iff_absent s h bs v :
  reachable s h -> (nentries h + 1 < uint_max)%Z ->
  exists s' h' added x found,
    Put s h bs v = Ret (s', h', added) /\
    Get s h bs = Ret (x, found) /\
    added = negb found /\
    Nentries h' = (if added then Nentries h + 1 else Nentries h)%Z.
Proof.
  intros Hr Hlt.
  destruct (Put_spec s h bs v (reachable_INV s h Hr) Hlt)
    as (s' & h' & added & E & _ & _ & _ & ([x found] & HG & Ha) & Hn & _).
  exists s', h', added, x, found. split; [exact E|]. split; [exact HG|].
  split; [exact Ha|]. unfold Nentries. rewrite Hn. destruct added; lia.
Qed.

(** C7: on every map built by [Put] and [Del] the statistics traversal
    ends and reports as many key/value pairs as [Nentries]. *)
Theorem count_keyvals_nentries s h :
  reachable s h ->
  exists d c, Count s h = Ret (d, c) /\ KeyVals c = Nentries h.
Proof. intros Hr. apply Count_spec, reachable_INV, Hr. Qed.

(** C8: in a map built by the public operations the walk never meets a
    table in the slot of the last level, so [find] and [Get] return; on a
    heap where it does meet one, both panic. *)
Theorem table_at_max_depth :
  (forall s h bs,
     reachable s h ->
     (forall r, root h = Some r ->
        ~ overdeep s (Hash (newKey bs)) (S maxDepth) 0 r) /\
     is_ret (Get s h bs) /\
     (root h <> None -> is_ret (find s h (newKey bs)))) /\
  (forall s h bs r,
     root h = Some r ->
     overdeep s (Hash (newKey bs)) (S maxDepth) 0 r ->
     (exists msg, find s h (newKey bs) = Panic msg) /\
     (IsEmpty h = false -> Get s h bs = Panic "SHOULD NOT HAPPEN")).
Proof.
  assert (Hfind : forall s h bs r, reachable s h -> root h = Some r ->
            is_ret (find s h (newKey bs))).
  { intros s h bs r Hr Hroot. apply reachable_INV in Hr as (_ & _ & Hcl & _).
    unfold root_node in Hcl. rewrite Hroot in Hcl. simpl node_of_root in Hcl.
    unfold find. rewrite Hroot.
    destruct (find_loop_spec s (Hash (newKey bs)) (S maxDepth) 0 r [] 0)
      as (cur' & rest & lf & ct & E & _); [reflexivity|reflexivity|exact Hcl|].
    rewrite E. exact I. }
  split.
  - intros s h bs Hr. split; [|split].
    + intros r Hroot Ho.
      pose proof (Hfind s h bs r Hr Hroot) as Hf. unfold find in Hf.
      rewrite Hroot in Hf.
      destruct (overdeep_panic s (newKey bs) (Hash (newKey bs)) (S maxDepth) 0 r
                  [] 0 ltac:(lia) Ho) as [(msg & E) _].
      rewrite E in Hf. exact Hf.
    + destruct (Get_total s h bs (reachable_INV s h Hr)) as (x & ->). exact I.
    + intros Hne. destruct (root h) as [r|] eqn:Hroot; [|contradiction].
      apply (Hfind s h bs r Hr Hroot).
  - intros s h bs r Hroot Ho.
    destruct (overdeep_panic s (newKey bs) (Hash (newKey bs)) (S maxDepth) 0 r
                [] 0 ltac:(lia) Ho) as [(msg & E) EG].
    split.
    + exists msg. unfold find. rewrite Hroot. exact E.
    + intros He. unfold Get. rewrite He, Hroot. exact EG.
Qed.


End Hamt32Properties.

Section Hamt64Properties.
Import Hamt64.
Context {V : Type} {HH : HostHash}.
Abbreviation value := (@value V).
Abbreviation nodeI := (@nodeI V).
Abbreviation table := (@table V).
Abbreviation store := (list table).
Implicit Types (s : store) (h : Hamt).



End Hamt64Properties.

(** C6 (amended): the upgrade threshold is half the table size in both
    packages; the downgrade threshold is three eighths of the table size
    in hamt32 (16 and 12 for 32 slots) and one eighth in hamt64 (32 and 8
    for 64 slots); in both the downgrade threshold is below the upgrade
    threshold. *)
Theorem thresholds :
  Hamt32.UpgradeThreshold = Hamt32.IndexLimit / 2 /\
  Hamt32.DowngradeThreshold = Hamt32.IndexLimit * 3 / 8 /\
  Hamt32.IndexLimit = 32 /\
  Hamt32.UpgradeThreshold = 16 /\ Hamt32.DowngradeThreshold = 12 /\
  Hamt64.upgradeThreshold = Hamt64.tableCapacity / 2 /\
  Hamt64.downgradeThreshold = Hamt64.tableCapacity / 8 /\
  Hamt64.tableCapacity = 64 /\
  Hamt64.upgradeThreshold = 32 /\ Hamt64.downgradeThreshold = 8 /\
  Hamt32.DowngradeThreshold < Hamt32.UpgradeThreshold /\
  Hamt64.downgradeThreshold < Hamt64.upgradeThreshold.
Proof.
  repeat split; try reflexivity.
  - vm_compute. lia.
  - vm_compute. lia.
Qed.

(** * The properties on sample maps *)

(** The samples use integer values, the FNV-1a host hash and the keys "a",
    "ah" and "b": in hamt32 "a" and "ah" share the first digit of their hash
    and differ in the second; "a" and "b" differ in the first. *)

Section Hamt32Samples.
Import Hamt32.
#[local] Existing Instance Sample.host.
Open Scope string_scope.

Ltac sample_reach :=
  eapply (reach_put [] _ (NewFunctional HybridTables) _ (Sample.bytes "a")
            (Some 1%Z) true);
  [apply (reach_new [] HybridTables)|vm_compute; reflexivity
  |vm_compute; reflexivity].


Lemma put_preserves_old_version_witness :
  exists s h,
    @Put Z Sample.host [] (NewFunctional HybridTables) (Sample.bytes "a")
         (Some 1%Z) = Ret (s, h, true) /\
    exists s' h' added,
      Put s h (Sample.bytes "a") (Some 5%Z) = Ret (s', h', added) /\
      (forall p t, s !! p = Some t -> s' !! p = Some t) /\
      forall bs', Get s' h bs' = Get s h bs'.
Proof.
  eexists _, _. split; [vm_compute; reflexivity|].
  apply (@put_preserves_old_version Z Sample.host);
    [sample_reach|vm_compute; reflexivity].
Defined.

Lemma del_miss_unchanged_witness :
  exists s h,
    @Put Z Sample.host [] (NewFunctional HybridTables) (Sample.bytes "a")
         (Some 1%Z) = Ret (s, h, true) /\
    Del s h (Sample.bytes "b") = Ret (s, h, nil_value, false) /\
    exists s64 h64,
      @Hamt64.Put Z Sample.host [] (Hamt64.New Hamt64.HybridTables)
                  (Sample.bytes "a") (Some 1%Z) = Ret (s64, h64, true) /\
      Hamt64.Del s64 h64 (Sample.bytes "b") = Ret (s64, h64, nil_value, false).
Proof.
  eexists _, _. split; [vm_compute; reflexivity|]. split.
  - apply (proj1 (@del_miss_unchanged Z Sample.host) _ _ (Sample.bytes "b") None);
      [sample_reach|vm_compute; reflexivity].
  - eexists _, _. split; [vm_compute; reflexivity|].
    apply (proj2 (@del_miss_unchanged Z Sample.host) _ _ (Sample.bytes "b") None).
    vm_compute. reflexivity.
Defined.

Lemma put_inserted_iff_absent_witness :
  exists s h,
    @Put Z Sample.host [] (NewFunctional HybridTables) (Sample.bytes "a")
         (Some 1%Z) = Ret (s, h, true) /\
    exists s' h' added x found,
      Put s h (Sample.bytes "a") (Some 5%Z) = Ret (s', h', added) /\
      Get s h (Sample.bytes "a") = Ret (x, found) /\
      added = negb found /\
      Nentries h' = (if added then Nentries h + 1 else Nentries h)%Z.
Proof.
  eexists _, _. split; [vm_compute; reflexivity|].
  apply (@put_inserted_iff_absent Z Sample.host);
    [sample_reach|vm_compute; reflexivity].
Defined.

Lemma count_keyvals_nentries_witness :
  exists s h,
    @Put Z Sample.host [] (NewFunctional HybridTables) (Sample.bytes "a")
         (Some 1%Z) = Ret (s, h, true) /\
    exists d c, Count s h = Ret (d, c) /\ KeyVals c = Nentries h.
Proof.
  eexists _, _. split; [vm_compute; reflexivity|].
  apply (@count_keyvals_nentries Z Sample.host). sample_reach.
Defined.

Lemma table_at_max_depth_witness :
  (exists s h,
     @Put Z Sample.host [] (NewFunctional HybridTables) (Sample.bytes "a")
          (Some 1%Z) = Ret (s, h, true) /\
     is_ret (Get s h (Sample.bytes "b"))) /\
  (exists msg, find Sample.deep_store Sample.deep_map (newKey (Sample.bytes "a"))
               = Panic msg) /\
  Get Sample.deep_store Sample.deep_map (Sample.bytes "a")
  = Panic "SHOULD NOT HAPPEN".
Proof.
  split.
  - eexists _, _. split; [vm_compute; reflexivity|].
    apply (proj1 (@table_at_max_depth Z Sample.host) _ _ (Sample.bytes "b")).
    sample_reach.
  - assert (Ho : overdeep Sample.deep_store (Hash (newKey (Sample.bytes "a")))
                          (S maxDepth) 0 0).
    { vm_compute. tauto. }
    destruct (proj2 (@table_at_max_depth Z Sample.host) Sample.deep_store
                Sample.deep_map (Sample.bytes "a") 0 eq_refl Ho) as [Hf HG].
    split; [exact Hf|]. apply HG. reflexivity.
Defined.



End Hamt32Samples.

Section Hamt64Samples.
Import Hamt64.
#[local] Existing Instance Sample.host.
Open Scope string_scope.




End Hamt64Samples.

(** C6, the counterexample: the downgrade threshold of hamt64 is 8, an
    eighth of its 64 slots, where three eighths are 24. *)
Lemma hamt64_downgrade_is_an_eighth :
  Hamt64.downgradeThreshold = 8 /\ Hamt64.tableCapacity * 3 / 8 = 24.
Proof. split; reflexivity. Qed.

(** * Further properties of the persistent map *)

Section Hamt32Walks.
Import Hamt32.
Context {V : Type} {HH : HostHash}.
Abbreviation value := (@value V).
Abbreviation leaf := (@leaf V).
Abbreviation nodeI := (@nodeI V).
Abbreviation table := (@table V).
Abbreviation store := (list table).
Implicit Types (s : store) (h : HamtBase) (bs : list byte) (v : value).

(** The two walks of hamt_common.go go the same way. *)
Lemma find_loop_Get_loop s k hv fuel : forall depth cur path idx,
  fuel + depth = S maxDepth -> depth <= maxDepth -> length path = depth ->
  match find_loop s hv fuel depth cur path idx with
  | Ret (path', lf, idx') =>
      Get_loop s k hv fuel depth cur
      = Ret (match lf with
             | Some l => leaf_get l k
             | None => (nil_value, false)
             end) /\
      0 < length path' <= S maxDepth /\
      idx' = Index hv (length path' - 1)
  | Panic _ => exists msg, Get_loop s k hv fuel depth cur = Panic msg
  end.
Proof.
  induction fuel as [|fuel IH]; intros depth cur path idx Hfd Hd Hlen; [lia|].
  simpl. unfold deref. destruct (s !! cur) as [t|]; [|eexists; reflexivity].
  rewrite !obind_Ret. unfold push.
  destruct (table_get t (Index hv depth)) as [|l|q].
  - assert (Hl : length (cur :: path) - 1 = depth) by (simpl; lia).
    rewrite Hl. split; [reflexivity|]. split; [simpl; lia|reflexivity].
  - assert (Hl : length (cur :: path) - 1 = depth) by (simpl; lia).
    rewrite Hl. split; [reflexivity|]. split; [simpl; lia|reflexivity].
  - case_bool_decide as Hm; [eexists; reflexivity|].
    apply IH; [lia|lia|simpl; lia].
Qed.

End Hamt32Walks.

Section Hamt32More.
Import Hamt32.
Context {V : Type} {HH : HostHash}.
Abbreviation value := (@value V).
Abbreviation leaf := (@leaf V).
Abbreviation table := (@table V).
Abbreviation store := (list table).
Implicit Types (s : store) (h : HamtBase) (bs : list byte) (v : value).

(** X1: [Get] is [find] followed by the leaf's [get].  On a map that is not
    empty, when [find] returns a leaf [Get] returns what the leaf's [get]
    returns for the key, when [find] returns no leaf [Get] returns the nil
    value and [false], and when [find] panics [Get] panics; the stack
    [find] returns holds between one and [DepthLimit] tables, and the index
    is the digit of the hash at the depth of the last one. *)
Theorem get_is_find_then_leaf_get s h bs :
  IsEmpty h = false ->
  match find s h (newKey bs) with
  | Ret (path, lf, idx) =>
      Get s h bs = Ret (match lf with
                        | Some l => leaf_get l (newKey bs)
                        | None => (nil_value, false)
                        end) /\
      0 < length path <= DepthLimit /\
      idx = Index (Hash (newKey bs)) (length path - 1)
  | Panic _ => exists msg, Get s h bs = Panic msg
  end.
Proof.
  intros He. unfold find, Get. rewrite He.
  destruct (root h) as [r|]; [|eexists; reflexivity].
  apply (find_loop_Get_loop s (newKey bs) (Hash (newKey bs)) (S maxDepth) 0 r [] 0);
    [lia|lia|reflexivity].
Qed.

(** X2: [Del] returns what [Get] finds: it reports [deleted] exactly when
    [Get] finds the key, the value it returns is the value [Get] returns,
    and the entry count drops by one exactly when [deleted]. *)
Theorem del_returns_what_get_finds s h bs :
  reachable s h ->
  exists s' h' val deleted,
    Del s h bs = Ret (s', h', val, deleted) /\
    Get s h bs = Ret (val, deleted) /\
    Nentries h' = (if deleted then Nentries h - 1 else Nentries h)%Z.
Proof.
  intros Hr.
  destruct (Del_spec s h bs (reachable_INV s h Hr))
    as (s' & h' & val & deleted & E & _ & _ & ([x f] & HG & Hd & Hv) & _ & Hn & _).
  simpl in Hd, Hv. subst f x.
  exists s', h', val, deleted. split; [exact E|]. split; [exact HG|].
  unfold Nentries. rewrite Hn. destruct deleted; lia.
Qed.

(** X3: [Del] on a persistent map writes no table of the heap it started
    from, and [Get] on the old map returns for every key what it returned
    before. *)
Theorem del_preserves_old_version s h bs :
  reachable s h ->
  exists s' h' val deleted,
    Del s h bs = Ret (s', h', val, deleted) /\
    (forall p t, s !! p = Some t -> s' !! p = Some t) /\
    forall bs', Get s' h bs' = Get s h bs'.
Proof.
  intros Hr. pose proof (reachable_INV s h Hr) as HI.
  destruct (Del_spec s h bs HI) as (s' & h' & val & deleted & E & Hpre & _).
  exists s', h', val, deleted. split; [exact E|]. split.
  - intros p t. apply prefix_lookup, Hpre.
  - intros bs'. apply Get_mono; assumption.
Qed.

(** X4: the maps returned by [Put] and [Del] keep the table option of the
    map they were called on. *)
Theorem put_del_keep_options s h bs v :
  reachable s h -> (nentries h + 1 < uint_max)%Z ->
  (exists s' h' added,
     Put s h bs v = Ret (s', h', added) /\
     grade h' = grade h /\ startFixed h' = startFixed h) /\
  (exists s' h' val deleted,
     Del s h bs = Ret (s', h', val, deleted) /\
     grade h' = grade h /\ startFixed h' = startFixed h).
Proof.
  intros Hr Hlt. pose proof (reachable_INV s h Hr) as HI. split.
  - destruct (Put_spec s h bs v HI Hlt)
      as (s' & h' & added & E & _ & _ & _ & _ & _ & Hg & Hf & _).
    exists s', h', added. auto.
  - destruct (Del_spec s h bs HI)
      as (s' & h' & val & deleted & E & _ & _ & _ & _ & _ & Hg & Hf & _).
    exists s', h', val, deleted. auto.
Qed.

(** X5: a second [Put] of the same key replaces the value: it reports
    [added = false], leaves the entry count as the first [Put] left it, and
    [Get] returns the second value. *)
Theorem put_twice_replaces s h bs v v' :
  reachable s h -> (nentries h + 2 < uint_max)%Z ->
  exists s1 h1 added s2 h2,
    Put s h bs v = Ret (s1, h1, added) /\
    Put s1 h1 bs v' = Ret (s2, h2, false) /\
    Get s2 h2 bs = Ret (v', true) /\
    Nentries h2 = Nentries h1.
Proof.
  intros Hr Hlt. pose proof (reachable_INV s h Hr) as HI.
  destruct (Put_spec s h bs v HI ltac:(lia))
    as (s1 & h1 & a1 & E1 & _ & HI1 & HG1 & _ & Hn1 & _).
  destruct (Put_spec s1 h1 bs v' HI1)
    as (s2 & h2 & a2 & E2 & _ & _ & HG2 & (r & Hr2 & Ha2) & Hn2 & _).
  { rewrite Hn1. destruct a1; lia. }
  rewrite HG1 in Hr2. injection Hr2 as <-. simpl in Ha2. subst a2.
  exists s1, h1, a1, s2, h2. split; [exact E1|]. split; [exact E2|].
  split; [exact HG2|]. unfold Nentries. rewrite Hn2. lia.
Qed.

(** X6: [Del] of a key just put returns the value put and [true], and
    takes the entry count back by one; when the [Put] added the key, the
    count is the one before the [Put]. *)
Theorem put_then_del s h bs v :
  reachable s h -> (nentries h + 1 < uint_max)%Z ->
  exists s1 h1 added s2 h2,
    Put s h bs v = Ret (s1, h1, added) /\
    Del s1 h1 bs = Ret (s2, h2, v, true) /\
    Nentries h2 = (Nentries h1 - 1)%Z /\
    (added = true -> Nentries h2 = Nentries h).
Proof.
  intros Hr Hlt. pose proof (reachable_INV s h Hr) as HI.
  destruct (Put_spec s h bs v HI Hlt)
    as (s1 & h1 & a1 & E1 & _ & HI1 & HG1 & _ & Hn1 & _).
  destruct (Del_spec s1 h1 bs HI1)
    as (s2 & h2 & val & deleted & E2 & _ & _ & (r & Hr2 & Hd & Hv) & _ & Hn2 & _).
  rewrite HG1 in Hr2. injection Hr2 as <-. simpl in Hd, Hv. subst deleted val.
  exists s1, h1, a1, s2, h2. split; [exact E1|]. split; [exact E2|].
  unfold Nentries. rewrite Hn2, Hn1. split; [lia|]. intros ->. lia.
Qed.

End Hamt32More.

(** ** What the traversal keeps *)

Section VisitInvariant.
Context {V : Type} {P : Params} {A : Type}.
Abbreviation nodeI := (@nodeI V).
Abbreviation table := (@table V).
Abbreviation store := (list table).
Variable fn : A -> @visitArg V -> outcome A.
Variable Inv : A -> Prop.
Hypothesis fn_keeps : forall a x b, Inv a -> fn a x = Ret b -> Inv b.

Lemma fold_visit_slot_inv (vt : table -> nat -> A -> outcome (A * nat))
    (s : store) depth (ns : list nodeI) :
  (forall t d a b m, Inv a -> vt t d a = Ret (b, m) -> Inv b) ->
  forall r acc' md,
    (forall a m, r = Ret (a, m) -> Inv a) ->
    fold_left (visit_slot vt fn s depth) ns r = Ret (acc', md) -> Inv acc'.
Proof using fn_keeps.
  intros Hvt. induction ns as [|n ns IH]; intros r acc' md Hr.
  - simpl. intros E. apply (Hr acc' md E).
  - simpl fold_left. apply IH. intros a m.
    destruct r as [[a0 m0]|msg]; [|discriminate].
    specialize (Hr a0 m0 eq_refl). unfold visit_slot. rewrite obind_Ret.
    destruct n as [|l|p].
    + destruct (fn a0 VisitNil) as [b|] eqn:E; [|discriminate].
      rewrite obind_Ret. intros [= <- _]. eapply fn_keeps; eassumption.
    + destruct (fn a0 (VisitLeaf l)) as [b|] eqn:E; [|discriminate].
      rewrite obind_Ret. intros [= <- _]. eapply fn_keeps; eassumption.
    + destruct (deref s p) as [ct|]; [|discriminate]. rewrite obind_Ret.
      destruct (vt ct (S depth) a0) as [[b m']|] eqn:E; [|discriminate].
      rewrite obind_Ret. intros [= <- _]. eapply Hvt; eassumption.
Qed.

(** A property of the accumulator that the visiting function keeps holds
    of the result of the traversal. *)
Lemma visit_invariant (s : store) fuel : forall t depth acc acc' md,
  Inv acc -> visit fn s fuel t depth acc = Ret (acc', md) -> Inv acc'.
Proof using fn_keeps.
  induction fuel as [|fuel IH]; intros t depth acc acc' md Hacc; [discriminate|].
  change (visit fn s (S fuel) t depth acc)
    with (acc <-- fn acc (VisitTable t) ;>
          fold_left (visit_slot (visit fn s fuel) fn s depth)
                    (table_nodes t) (Ret (acc, depth))).
  destruct (fn acc (VisitTable t)) as [a1|] eqn:E; [|discriminate].
  rewrite obind_Ret. apply fold_visit_slot_inv.
  - intros t' d a b m Ha Hv. eapply IH; eassumption.
  - intros a m [= <- _]. eapply fn_keeps; eassumption.
Qed.

End VisitInvariant.

Section Hamt32CountMore.
Import Hamt32.
Context {V : Type} {HH : HostHash}.
Abbreviation value := (@value V).
Abbreviation table := (@table V).
Abbreviation store := (list table).
Implicit Types (s : store) (h : HamtBase).

Lemma uint_incr_sum_l a b :
  uint_incr ((a + b) mod uint_max) = ((uint_incr a + b) mod uint_max)%Z.
Proof.
  unfold uint_incr.
  rewrite Z.add_mod_idemp_l by (unfold uint_max; lia).
  rewrite (Z.add_mod_idemp_l (a + 1)) by (unfold uint_max; lia).
  f_equal. lia.
Qed.

Lemma uint_incr_sum_r a b :
  uint_incr ((a + b) mod uint_max) = ((a + uint_incr b) mod uint_max)%Z.
Proof.
  unfold uint_incr.
  rewrite Z.add_mod_idemp_l by (unfold uint_max; lia).
  rewrite Z.add_mod_idemp_r by (unfold uint_max; lia).
  f_equal. lia.
Qed.

Lemma countFn_sums (c : Counts) (x : @visitArg V) (c' : Counts) :
  (Nodes c = (Tables c + Leafs c) mod uint_max /\
   Tables c = (CountFixedTables c + CountSparseTables c) mod uint_max /\
   Leafs c = (FlatLeafs c + CollisionLeafs c) mod uint_max)%Z ->
  countFn c x = Ret c' ->
  (Nodes c' = (Tables c' + Leafs c') mod uint_max /\
   Tables c' = (CountFixedTables c' + CountSparseTables c') mod uint_max /\
   Leafs c' = (FlatLeafs c' + CollisionLeafs c') mod uint_max)%Z.
Proof.
  intros (HN & HT & HL). destruct x as [| t | [k v|hv kvs]]; simpl.
  - intros [= <-]. simpl. auto.
  - destruct (array_incr _ _) as [a1|]; [|discriminate]. rewrite obind_Ret.
    destruct (array_incr _ _) as [a2|]; [|discriminate]. rewrite obind_Ret.
    intros [= <-]. simpl. split; [|split; [|exact HL]].
    + rewrite HN. apply uint_incr_sum_l.
    + rewrite HT. destruct (is_fixed t);
        [apply uint_incr_sum_l|apply uint_incr_sum_r].
  - intros [= <-]. simpl. split; [|split; [exact HT|]].
    + rewrite HN. apply uint_incr_sum_r.
    + rewrite HL. apply uint_incr_sum_l.
  - intros [= <-]. simpl. split; [|split; [exact HT|]].
    + rewrite HN. apply uint_incr_sum_r.
    + rewrite HL. apply uint_incr_sum_r.
Qed.

(** X7: the statistics of [Count] add up: the nodes counted are the tables
    and the leaves, the tables are the fixed and the sparse ones, the
    leaves are the flat and the collision ones (as [uint] sums). *)
Theorem count_sums s h :
  reachable s h ->
  exists d c,
    Count s h = Ret (d, c) /\
    (Nodes c = (Tables c + Leafs c) mod uint_max /\
     Tables c = (CountFixedTables c + CountSparseTables c) mod uint_max /\
     Leafs c = (FlatLeafs c + CollisionLeafs c) mod uint_max)%Z.
Proof.
  intros Hr. destruct (Count_spec s h (reachable_INV s h Hr)) as (d & c & E & _).
  exists d, c. split; [exact E|].
  unfold Count in E.
  destruct (match root h with Some r => deref s r | None => Ret _ end) as [rt|];
    [|discriminate].
  rewrite obind_Ret in E.
  destruct (visit countFn s _ rt 0 newCounts) as [[c0 md]|] eqn:Ev; [|discriminate].
  rewrite obind_Ret in E. injection E as <- <-.
  eapply (visit_invariant countFn _ countFn_sums); [|exact Ev].
  vm_compute. auto.
Qed.

End Hamt32CountMore.

(** * Further properties of the in-place map *)

Section Hamt64More.
Import Hamt64.
Context {V : Type} {HH : HostHash}.
Abbreviation value := (@value V).
Abbreviation leaf := (@leaf V).
Abbreviation nodeI := (@nodeI V).
Abbreviation table := (@table V).
Abbreviation store := (list table).
Implicit Types (s : store) (h : Hamt) (k : iKey) (v : value).

Lemma find_loop_Get_loop64 s k fuel : forall depth cur path idx,
  fuel + depth = S maxDepth -> depth <= maxDepth -> length path = depth ->
  match find_loop s k fuel depth cur path idx with
  | Ret (path', lf, idx') =>
      Get_loop s k fuel depth cur
      = Ret (match lf with
             | Some l => leaf_get l k
             | None => (nil_value, false)
             end) /\
      0 < length path' <= S maxDepth /\
      idx' = Index (Hash k) (length path' - 1)
  | Panic _ => exists msg, Get_loop s k fuel depth cur = Panic msg
  end.
Proof.
  induction fuel as [|fuel IH]; intros depth cur path idx Hfd Hd Hlen; [lia|].
  simpl. unfold deref. destruct (s !! cur) as [t|]; [|eexists; reflexivity].
  rewrite !obind_Ret. unfold push.
  destruct (table_get t (Index (Hash k) depth)) as [|l|q].
  - assert (Hl : length (cur :: path) - 1 = depth) by (simpl; lia).
    rewrite Hl. split; [reflexivity|]. split; [simpl; lia|reflexivity].
  - assert (Hl : length (cur :: path) - 1 = depth) by (simpl; lia).
    rewrite Hl. split; [reflexivity|]. split; [simpl; lia|reflexivity].
  - case_bool_decide as Hm; [eexists; reflexivity|].
    apply IH; [lia|lia|simpl; lia].
Qed.

(** X8: in hamt64 too [Get] is [find] followed by the leaf's [get]: when
    [find] returns a leaf [Get] returns what the leaf's [get] returns for
    the key, when it returns no leaf [Get] returns the nil value and
    [false], and when it panics so does [Get].  On an empty map [find]
    returns an empty stack; otherwise the stack holds between one and ten
    tables and the index is the digit of the hash at the depth of the last
    one. *)
Theorem get_is_find_then_leaf_get64 s h k :
  match find s h k with
  | Ret (path, lf, idx) =>
      Get s h k = Ret (match lf with
                       | Some l => leaf_get l k
                       | None => (nil_value, false)
                       end) /\
      (if IsEmpty h then path = [] /\ lf = None /\ idx = 0
       else 0 < length path <= S maxDepth /\
            idx = Index (Hash k) (length path - 1))
  | Panic _ => exists msg, Get s h k = Panic msg
  end.
Proof.
  unfold find, Get, IsEmpty. destruct (root h) as [r|]; [|auto].
  apply (find_loop_Get_loop64 s k (S maxDepth) 0 r [] 0); [lia|lia|reflexivity].
Qed.

End Hamt64More.

(** * The persistent map as a finite map *)

Section AssocFacts.
Context {A B : Type} `{EqDecision A}.
Implicit Types (l : list (A * B)) (k : A).

Lemma assoc_unique l k (v1 v2 : B) :
  NoDup (map fst l) -> In (k, v1) l -> In (k, v2) l -> v1 = v2.
Proof.
  induction l as [|[k0 v0] l IH]; simpl; [tauto|].
  intros Hnd H1 H2. apply list.NoDup_cons in Hnd as [Hni Hnd].
  destruct H1 as [H1|H1], H2 as [H2|H2].
  - congruence.
  - injection H1 as -> ->. exfalso. apply Hni, list_elem_of_In.
    apply (in_map fst _ _ H2).
  - injection H2 as -> ->. exfalso. apply Hni, list_elem_of_In.
    apply (in_map fst _ _ H1).
  - apply IH; assumption.
Qed.

Lemma assoc_without_in l k k' (v : B) :
  In (k', v) (filter (fun p => p.1 <> k) l) <-> k' <> k /\ In (k', v) l.
Proof.
  rewrite <- !list_elem_of_In, list_elem_of_filter. simpl. tauto.
Qed.

Lemma assoc_without_keys l k k' :
  In k' (map fst (filter (fun p => p.1 <> k) l)) <->
  k' <> k /\ In k' (map fst l).
Proof.
  rewrite !in_map_iff. split.
  - intros ([k1 v1] & E & Hin). simpl in E. subst k1.
    apply assoc_without_in in Hin as [Hne Hin]. split; [exact Hne|].
    exists (k', v1). auto.
  - intros (Hne & [k1 v1] & E & Hin). simpl in E. subst k1.
    exists (k', v1). split; [reflexivity|]. apply assoc_without_in. auto.
Qed.

Lemma assoc_without_nodup l k :
  NoDup (map fst l) -> NoDup (map fst (filter (fun p => p.1 <> k) l)).
Proof.
  induction l as [|[k0 v0] l IH]; simpl; [intros; constructor|].
  intros Hnd. apply list.NoDup_cons in Hnd as [Hni Hnd].
  rewrite filter_cons. simpl. destruct (decide (k0 <> k)) as [Hk|Hk].
  - simpl. apply list.NoDup_cons. split; [|apply IH, Hnd].
    intros Hin. apply Hni. apply list_elem_of_In.
    apply list_elem_of_In in Hin. apply assoc_without_keys in Hin. tauto.
  - apply IH, Hnd.
Qed.

Lemma assoc_without_absent l k :
  ~ In k (map fst l) -> filter (fun p => p.1 <> k) l = l.
Proof.
  induction l as [|[k0 v0] l IH]; simpl; [reflexivity|].
  intros Hni. rewrite filter_cons. simpl.
  destruct (decide (k0 <> k)) as [Hk|Hk].
  - f_equal. apply IH. tauto.
  - exfalso. apply Hni. left. destruct (decide (k0 = k)); [assumption|tauto].
Qed.

Lemma assoc_without_length l k :
  NoDup (map fst l) -> In k (map fst l) ->
  S (length (filter (fun p => p.1 <> k) l)) = length l.
Proof.
  induction l as [|[k0 v0] l IH]; simpl; [tauto|].
  intros Hnd Hin. apply list.NoDup_cons in Hnd as [Hni Hnd].
  rewrite filter_cons. simpl. destruct (decide (k0 <> k)) as [Hk|Hk].
  - simpl. f_equal. apply IH; [exact Hnd|]. destruct Hin; [contradiction|assumption].
  - assert (k0 = k) as -> by (destruct (decide (k0 = k)); [assumption|tauto]).
    f_equal. rewrite assoc_without_absent; [reflexivity|].
    intros Hin'. apply Hni, list_elem_of_In, Hin'.
Qed.

End AssocFacts.

Section Hamt32Leaves.
Import Hamt32.
Context {V : Type} {HH : HostHash}.
Abbreviation value := (@value V).
Abbreviation leaf := (@leaf V).
Abbreviation table := (@table V).
Abbreviation store := (list table).
Implicit Types (s : store) (h : HamtBase) (bs : list byte) (v : value).

Lemma INV_leaves_mono s s' h :
  s `prefix_of` s' -> INV s h -> INV_leaves s h -> INV_leaves s' h.
Proof.
  intros Hpre (_ & _ & Hcl & _) HL Hne ds l Hat.
  rewrite (leaf_at_mono s s' _ _ _ Hpre Hcl) in Hat. apply (HL Hne ds l Hat).
Qed.

Lemma flatLeaf_nodup (k : iKey) v : leaf_nodup (flatLeaf k v).
Proof.
  unfold leaf_nodup. simpl. apply list.NoDup_cons. split; [|constructor].
  apply not_elem_of_nil.
Qed.

(** In the maps built by the public operations no leaf holds a key twice. *)
Lemma reachable_INV_leaves s h : reachable s h -> INV_leaves s h.
Proof.
  induction 1 as [s opt|s s' h Hr IH Hpre|s s' h h' bs v added Hr IH Hlt E
                 |s s' h h' bs v deleted Hr IH E].
  - intros Hne. destruct (NewFunctional_fields opt) as [_ E]. congruence.
  - apply (INV_leaves_mono s s' h Hpre (reachable_INV s h Hr) IH).
  - destruct (Put_spec s h bs v (reachable_INV s h Hr) Hlt)
      as (s1 & h1 & a1 & E1 & _ & _ & _ & _ & _ & _ & _ & _ & HL).
    rewrite E in E1. injection E1 as <- <- <-.
    intros _ ds l' Hat.
    destruct (HL ds l' Hat) as [[Hne Ho]|[->|(ds0 & l & Hne & Ho & ->)]].
    + apply (IH Hne ds l' Ho).
    + apply flatLeaf_nodup.
    + apply leaf_put_nodup, (IH Hne ds0 l Ho).
  - destruct (Del_spec s h bs (reachable_INV s h Hr))
      as (s1 & h1 & v1 & d1 & E1 & _ & _ & (r & HG & Hd & _) & Hsame & Hn & _
          & _ & _ & _ & HL).
    rewrite E in E1. injection E1 as <- <- <- <-.
    intros Hne' ds l' Hat.
    assert (Hne : nentries h <> 0%Z).
    { intros E0. destruct deleted.
      - unfold Get, IsEmpty in HG. rewrite bool_decide_eq_true_2 in HG by exact E0.
        injection HG as <-. discriminate.
      - destruct (Hsame eq_refl) as [_ ->]. contradiction. }
    destruct (HL ds l' Hne' Hat) as [Ho|(ds0 & l & Ho & Hl)].
    + apply (IH Hne ds l' Ho).
    + apply (leaf_del_nodup l (newKey bs) l' (IH Hne ds0 l Ho) Hl).
Qed.

(** Every map built by the public operations holds the pairs of a list
    without repeated keys. *)
Lemma reachable_model s h :
  reachable s h ->
  exists kvs : list (list byte * value),
    NoDup (map fst kvs) /\
    nentries h = Z.of_nat (length kvs) /\
    forall bs,
      (exists v, In (bs, v) kvs /\ Get s h bs = Ret (v, true)) \/
      (~ In bs (map fst kvs) /\ Get s h bs = Ret (nil_value, false)).
Proof.
  induction 1 as [s opt|s s' h Hr IH Hpre|s s' h h' bs v added Hr IH Hlt E
                 |s s' h h' bs v deleted Hr IH E].
  - exists []. split; [constructor|]. destruct (NewFunctional_fields opt) as [_ E].
    split; [exact E|]. intros bs. right. split; [simpl; tauto|].
    unfold Get, IsEmpty. rewrite bool_decide_eq_true_2 by exact E. reflexivity.
  - destruct IH as (kvs & Hnd & Hn & Hg). exists kvs.
    split; [exact Hnd|]. split; [exact Hn|]. intros bs.
    rewrite (Get_mono s s' h bs Hpre (reachable_INV s h Hr)). apply Hg.
  - destruct IH as (kvs & Hnd & Hn & Hg).
    destruct (Put_spec s h bs v (reachable_INV s h Hr) Hlt)
      as (s1 & h1 & a1 & E1 & _ & _ & HG1 & (r & HG & Ha) & Hn1 & _ & _ & Hfr & _).
    rewrite E in E1. injection E1 as <- <- <-.
    exists ((bs, v) :: filter (fun p => p.1 <> bs) kvs).
    split; [|split].
    + simpl. apply list.NoDup_cons. split; [|apply assoc_without_nodup, Hnd].
      intros Hin. apply list_elem_of_In, assoc_without_keys in Hin. tauto.
    + rewrite Hn1, Hn. simpl length.
      destruct (Hg bs) as [(v0 & Hin & HG0)|(Hni & HG0)];
        rewrite HG0 in HG; injection HG as <-; simpl in Ha; subst added.
      * rewrite <- (assoc_without_length kvs bs Hnd (in_map fst _ _ Hin)). lia.
      * rewrite (assoc_without_absent kvs bs Hni). lia.
    + intros bs'. destruct (decide (bs' = bs)) as [->|Hne].
      * left. exists v. split; [left; reflexivity|exact HG1].
      * rewrite (Hfr bs' Hne).
        destruct (Hg bs') as [(v0 & Hin & HG0)|(Hni & HG0)].
        -- left. exists v0. split; [|exact HG0]. right.
           apply assoc_without_in. auto.
        -- right. split; [|exact HG0]. simpl. intros [Hb|Hin]; [congruence|].
           apply assoc_without_keys in Hin. tauto.
  - destruct IH as (kvs & Hnd & Hn & Hg).
    destruct (Del_spec s h bs (reachable_INV s h Hr))
      as (s1 & h1 & v1 & d1 & E1 & _ & _ & (r & HG & Hd & _) & Hsame & Hn1 & _
          & _ & Hfr & Hmiss & _).
    rewrite E in E1. injection E1 as <- <- <- <-.
    destruct deleted.
    + exists (filter (fun p => p.1 <> bs) kvs).
      split; [apply assoc_without_nodup, Hnd|]. split.
      * rewrite Hn1, Hn.
        destruct (Hg bs) as [(v0 & Hin & HG0)|(Hni & HG0)];
          rewrite HG0 in HG; injection HG as <-; simpl in Hd; [|discriminate].
        rewrite <- (assoc_without_length kvs bs Hnd (in_map fst _ _ Hin)). lia.
      * intros bs'. destruct (decide (bs' = bs)) as [->|Hne].
        -- right. split; [|apply Hmiss; [apply reachable_INV_leaves, Hr|reflexivity]].
           intros Hin. apply assoc_without_keys in Hin. tauto.
        -- rewrite (Hfr bs' Hne).
           destruct (Hg bs') as [(v0 & Hin & HG0)|(Hni & HG0)].
           ++ left. exists v0. split; [|exact HG0]. apply assoc_without_in. auto.
           ++ right. split; [|exact HG0]. intros Hin.
              apply assoc_without_keys in Hin. tauto.
    + destruct (Hsame eq_refl) as [-> ->]. exists kvs. auto.
Qed.

End Hamt32Leaves.

Section Hamt32Map.
Import Hamt32.
Context {V : Type} {HH : HostHash}.
Abbreviation value := (@value V).
Abbreviation leaf := (@leaf V).
Abbreviation table := (@table V).
Abbreviation store := (list table).
Implicit Types (s : store) (h : HamtBase) (bs : list byte) (v : value).

(** X9: [Put] of a key changes no other key: in the map it returns, [Get]
    of every other key returns what it returned in the map [Put] was
    called on. *)
Theorem put_keeps_other_keys s h bs v :
  reachable s h -> (nentries h + 1 < uint_max)%Z ->
  exists s' h' added,
    Put s h bs v = Ret (s', h', added) /\
    forall bs', bs' <> bs -> Get s' h' bs' = Get s h bs'.
Proof.
  intros Hr Hlt.
  destruct (Put_spec s h bs v (reachable_INV s h Hr) Hlt)
    as (s' & h' & added & E & _ & _ & _ & _ & _ & _ & _ & Hfr & _).
  exists s', h', added. auto.
Qed.

(** X10: after [Del] of a key, [Get] of that key in the map returned finds
    nothing: it returns the nil value and [false], whether the key was
    there or not. *)
Theorem del_then_get_misses s h bs :
  reachable s h ->
  exists s' h' val deleted,
    Del s h bs = Ret (s', h', val, deleted) /\
    Get s' h' bs = Ret (nil_value, false).
Proof.
  intros Hr.
  destruct (Del_spec s h bs (reachable_INV s h Hr))
    as (s' & h' & val & deleted & E & _ & _ & ([x f] & HG & Hd & Hv) & Hsame & _
        & _ & _ & _ & Hmiss & _).
  exists s', h', val, deleted. split; [exact E|]. simpl in Hd, Hv. subst f x.
  destruct deleted.
  - apply Hmiss; [apply reachable_INV_leaves, Hr|reflexivity].
  - destruct (Hsame eq_refl) as [-> ->]. rewrite HG. f_equal. f_equal.
    apply (Get_miss_nil s h bs val HG).
Qed.

(** X11: [Del] of a key changes no other key: in the map it returns, [Get]
    of every other key returns what it returned in the map [Del] was
    called on. *)
Theorem del_keeps_other_keys s h bs :
  reachable s h ->
  exists s' h' val deleted,
    Del s h bs = Ret (s', h', val, deleted) /\
    forall bs', bs' <> bs -> Get s' h' bs' = Get s h bs'.
Proof.
  intros Hr.
  destruct (Del_spec s h bs (reachable_INV s h Hr))
    as (s' & h' & val & deleted & E & _ & _ & _ & _ & _ & _ & _ & Hfr & _).
  exists s', h', val, deleted. auto.
Qed.

(** X12: [Put] of a key the map does not hold, followed by [Del] of that
    key, gives a map that answers every [Get] as the first map did and has
    its entry count. *)
Theorem put_del_round_trip s h bs v x :
  reachable s h -> (nentries h + 1 < uint_max)%Z ->
  Get s h bs = Ret (x, false) ->
  exists s1 h1 s2 h2,
    Put s h bs v = Ret (s1, h1, true) /\
    Del s1 h1 bs = Ret (s2, h2, v, true) /\
    Nentries h2 = Nentries h /\
    forall bs', Get s2 h2 bs' = Get s h bs'.
Proof.
  intros Hr Hlt HG0. pose proof (reachable_INV s h Hr) as HI.
  destruct (Put_spec s h bs v HI Hlt)
    as (s1 & h1 & a1 & E1 & _ & HI1 & HG1 & (r & HG & Ha) & Hn1 & _ & _ & Hfr1 & _).
  rewrite HG0 in HG. injection HG as <-. simpl in Ha. subst a1.
  assert (Hr1 : reachable s1 h1) by (eapply reach_put; eassumption).
  destruct (Del_spec s1 h1 bs HI1)
    as (s2 & h2 & val & deleted & E2 & _ & _ & (r & Hr2 & Hd & Hv) & _ & Hn2 & _
        & _ & Hfr2 & Hmiss & _).
  rewrite HG1 in Hr2. injection Hr2 as <-. simpl in Hd, Hv. subst deleted val.
  exists s1, h1, s2, h2. split; [exact E1|]. split; [exact E2|]. split.
  - unfold Nentries. rewrite Hn2, Hn1. lia.
  - intros bs'. destruct (decide (bs' = bs)) as [->|Hne].
    + rewrite (Hmiss (reachable_INV_leaves s1 h1 Hr1) eq_refl), HG0.
      f_equal. f_equal. symmetry. apply (Get_miss_nil s h bs x HG0).
    + rewrite (Hfr2 bs' Hne). apply (Hfr1 bs' Hne).
Qed.

(** X13: a second [Del] of the same key does nothing: it returns the store
    and the map of the first [Del] unchanged, the nil value and [false]. *)
Theorem del_twice s h bs :
  reachable s h ->
  exists s1 h1 val deleted,
    Del s h bs = Ret (s1, h1, val, deleted) /\
    Del s1 h1 bs = Ret (s1, h1, nil_value, false).
Proof.
  intros Hr.
  destruct (Del_spec s h bs (reachable_INV s h Hr))
    as (s1 & h1 & val & deleted & E & _ & HI1 & ([x f] & HG & Hd & Hv) & Hsame & _
        & _ & _ & _ & Hmiss & _).
  exists s1, h1, val, deleted. split; [exact E|]. simpl in Hd, Hv. subst f x.
  apply (Del_miss s1 h1 bs nil_value HI1).
  destruct deleted.
  - apply Hmiss; [apply reachable_INV_leaves, Hr|reflexivity].
  - destruct (Hsame eq_refl) as [-> ->]. rewrite HG. f_equal. f_equal.
    apply (Get_miss_nil s h bs val HG).
Qed.

(** X14: a map built by the public operations is a finite map: there is a
    list of pairs without repeated keys such that [Get] finds exactly the
    keys of the list, each with its value, and [Nentries] is the length of
    the list. *)
Theorem reachable_is_finite_map s h :
  reachable s h ->
  exists kvs : list (list byte * value),
    NoDup (map fst kvs) /\
    Nentries h = Z.of_nat (length kvs) /\
    (forall bs v, In (bs, v) kvs <-> Get s h bs = Ret (v, true)) /\
    (forall bs, ~ In bs (map fst kvs) <-> Get s h bs = Ret (nil_value, false)).
Proof.
  intros Hr. destruct (reachable_model s h Hr) as (kvs & Hnd & Hn & Hg).
  exists kvs. split; [exact Hnd|]. split; [exact Hn|]. split.
  - intros bs v. destruct (Hg bs) as [(v0 & Hin & HG0)|(Hni & HG0)]; rewrite HG0.
    + split.
      * intros Hin'. rewrite (assoc_unique kvs bs v v0 Hnd Hin' Hin). reflexivity.
      * intros [= ->]. exact Hin.
    + split; [|discriminate]. intros Hin. exfalso. apply Hni.
      apply (in_map fst _ _ Hin).
  - intros bs. destruct (Hg bs) as [(v0 & Hin & HG0)|(Hni & HG0)]; rewrite HG0.
    + split; [|discriminate]. intros Hni. exfalso. apply Hni.
      apply (in_map fst _ _ Hin).
    + split; [reflexivity|]. intros _. exact Hni.
Qed.

End Hamt32Map.

(** * The two histograms of [Count] *)

Section Hamt32Histograms.
Import Hamt32.
Context {V : Type} {HH : HostHash}.
Abbreviation value := (@value V).
Abbreviation table := (@table V).
Abbreviation store := (list table).
Implicit Types (s : store) (h : HamtBase).

Lemma array_incr_sum (a a' : list Z) i :
  array_incr a i = Ret a' ->
  (foldr Z.add 0 a' mod uint_max = uint_incr (foldr Z.add 0 a mod uint_max))%Z.
Proof.
  unfold array_incr. destruct (a !! i) as [x|] eqn:E; [|discriminate].
  intros [= <-].
  assert (Hs : (foldr Z.add 0 (<[i := uint_incr x]> a)
                = foldr Z.add 0 a - x + uint_incr x)%Z).
  { revert i E. induction a as [|y a IH]; intros i E; [discriminate|].
    destruct i as [|i]; simpl in *.
    - injection E as ->. lia.
    - rewrite (IH i E). lia. }
  rewrite Hs. unfold uint_incr.
  rewrite Z.add_mod_idemp_r by (unfold uint_max; lia).
  rewrite Z.add_mod_idemp_l by (unfold uint_max; lia).
  f_equal. lia.
Qed.

Lemma countFn_histograms (c : Counts) (x : @visitArg V) (c' : Counts) :
  (foldr Z.add 0 (TableCountsByNentries c) mod uint_max = Tables c /\
   foldr Z.add 0 (TableCountsByDepth c) mod uint_max = Tables c)%Z ->
  countFn c x = Ret c' ->
  (foldr Z.add 0 (TableCountsByNentries c') mod uint_max = Tables c' /\
   foldr Z.add 0 (TableCountsByDepth c') mod uint_max = Tables c')%Z.
Proof.
  intros (HN & HD). destruct x as [| t | [k v|hv kvs]]; simpl.
  - intros [= <-]. simpl. auto.
  - destruct (array_incr (TableCountsByNentries c) _) as [a1|] eqn:E1;
      [|discriminate].
    rewrite obind_Ret.
    destruct (array_incr (TableCountsByDepth c) _) as [a2|] eqn:E2;
      [|discriminate].
    rewrite obind_Ret.
    intros [= <-]. simpl.
    rewrite (array_incr_sum _ _ _ E1), (array_incr_sum _ _ _ E2), HN, HD. auto.
  - intros [= <-]. simpl. auto.
  - intros [= <-]. simpl. auto.
Qed.

(** X15: [Count] enters every table once in each of its two histograms:
    the entries of [TableCountsByNentries] and those of
    [TableCountsByDepth] both add up to [Tables] (as [uint] sums). *)
Theorem count_histograms s h :
  reachable s h ->
  exists d c,
    Count s h = Ret (d, c) /\
    (foldr Z.add 0 (TableCountsByNentries c) mod uint_max = Tables c /\
     foldr Z.add 0 (TableCountsByDepth c) mod uint_max = Tables c)%Z.
Proof.
  intros Hr. destruct (Count_spec s h (reachable_INV s h Hr)) as (d & c & E & _).
  exists d, c. split; [exact E|].
  unfold Count in E.
  destruct (match root h with Some r => deref s r | None => Ret _ end) as [rt|];
    [|discriminate].
  rewrite obind_Ret in E.
  destruct (visit countFn s _ rt 0 newCounts) as [[c0 md]|] eqn:Ev; [|discriminate].
  rewrite obind_Ret in E. injection E as <- <-.
  eapply (visit_invariant countFn _ countFn_histograms); [|exact Ev].
  vm_compute. auto.
Qed.

End Hamt32Histograms.

(** * The further properties on a sample map *)

Section Hamt32MoreSamples.
Import Hamt32.
#[local] Existing Instance Sample.host.
Open Scope string_scope.

Ltac sample_map :=
  eapply (reach_put [] _ (NewFunctional HybridTables) _ (Sample.bytes "a")
            (Some 1%Z) true);
  [apply (reach_new [] HybridTables)|vm_compute; reflexivity
  |vm_compute; reflexivity].

Lemma get_is_find_then_leaf_get_witness :
  exists s h,
    @Put Z Sample.host [] (NewFunctional HybridTables) (Sample.bytes "a")
         (Some 1%Z) = Ret (s, h, true) /\
    IsEmpty h = false /\
    match find s h (newKey (Sample.bytes "a")) with
    | Ret (path, lf, idx) =>
        Get s h (Sample.bytes "a")
        = Ret (match lf with
               | Some l => leaf_get l (newKey (Sample.bytes "a"))
               | None => (nil_value, false)
               end) /\
        0 < length path <= DepthLimit /\
        idx = Index (Hash (newKey (Sample.bytes "a"))) (length path - 1)
    | Panic _ => exists msg, Get s h (Sample.bytes "a") = Panic msg
    end.
Proof.
  eexists _, _. split; [vm_compute; reflexivity|].
  split; [vm_compute; reflexivity|].
  apply (@get_is_find_then_leaf_get Z Sample.host). vm_compute. reflexivity.
Defined.

Lemma del_returns_what_get_finds_witness :
  exists s h,
    @Put Z Sample.host [] (NewFunctional HybridTables) (Sample.bytes "a")
         (Some 1%Z) = Ret (s, h, true) /\
    exists s' h' val deleted,
      Del s h (Sample.bytes "a") = Ret (s', h', val, deleted) /\
      Get s h (Sample.bytes "a") = Ret (val, deleted) /\
      Nentries h' = (if deleted then Nentries h - 1 else Nentries h)%Z.
Proof.
  eexists _, _. split; [vm_compute; reflexivity|].
  apply (@del_returns_what_get_finds Z Sample.host). sample_map.
Defined.

Lemma del_preserves_old_version_witness :
  exists s h,
    @Put Z Sample.host [] (NewFunctional HybridTables) (Sample.bytes "a")
         (Some 1%Z) = Ret (s, h, true) /\
    exists s' h' val deleted,
      Del s h (Sample.bytes "a") = Ret (s', h', val, deleted) /\
      (forall p t, s !! p = Some t -> s' !! p = Some t) /\
      forall bs', Get s' h bs' = Get s h bs'.
Proof.
  eexists _, _. split; [vm_compute; reflexivity|].
  apply (@del_preserves_old_version Z Sample.host). sample_map.
Defined.

Lemma put_del_keep_options_witness :
  exists s h,
    @Put Z Sample.host [] (NewFunctional HybridTables) (Sample.bytes "a")
         (Some 1%Z) = Ret (s, h, true) /\
    (exists s' h' added,
       Put s h (Sample.bytes "ah") (Some 2%Z) = Ret (s', h', added) /\
       grade h' = grade h /\ startFixed h' = startFixed h) /\
    (exists s' h' val deleted,
       Del s h (Sample.bytes "ah") = Ret (s', h', val, deleted) /\
       grade h' = grade h /\ startFixed h' = startFixed h).
Proof.
  eexists _, _. split; [vm_compute; reflexivity|].
  apply (@put_del_keep_options Z Sample.host);
    [sample_map|vm_compute; reflexivity].
Defined.

Lemma put_twice_replaces_witness :
  exists s h,
    @Put Z Sample.host [] (NewFunctional HybridTables) (Sample.bytes "a")
         (Some 1%Z) = Ret (s, h, true) /\
    exists s1 h1 added s2 h2,
      Put s h (Sample.bytes "ah") (Some 2%Z) = Ret (s1, h1, added) /\
      Put s1 h1 (Sample.bytes "ah") (Some 3%Z) = Ret (s2, h2, false) /\
      Get s2 h2 (Sample.bytes "ah") = Ret (Some 3%Z, true) /\
      Nentries h2 = Nentries h1.
Proof.
  eexists _, _. split; [vm_compute; reflexivity|].
  apply (@put_twice_replaces Z Sample.host);
    [sample_map|vm_compute; reflexivity].
Defined.

Lemma put_then_del_witness :
  exists s h,
    @Put Z Sample.host [] (NewFunctional HybridTables) (Sample.bytes "a")
         (Some 1%Z) = Ret (s, h, true) /\
    exists s1 h1 added s2 h2,
      Put s h (Sample.bytes "ah") (Some 2%Z) = Ret (s1, h1, added) /\
      Del s1 h1 (Sample.bytes "ah") = Ret (s2, h2, Some 2%Z, true) /\
      Nentries h2 = (Nentries h1 - 1)%Z /\
      (added = true -> Nentries h2 = Nentries h).
Proof.
  eexists _, _. split; [vm_compute; reflexivity|].
  apply (@put_then_del Z Sample.host); [sample_map|vm_compute; reflexivity].
Defined.

Lemma count_sums_witness :
  exists s h,
    @Put Z Sample.host [] (NewFunctional HybridTables) (Sample.bytes "a")
         (Some 1%Z) = Ret (s, h, true) /\
    exists d c,
      Count s h = Ret (d, c) /\
      (Nodes c = (Tables c + Leafs c) mod uint_max /\
       Tables c = (CountFixedTables c + CountSparseTables c) mod uint_max /\
       Leafs c = (FlatLeafs c + CollisionLeafs c) mod uint_max)%Z.
Proof.
  eexists _, _. split; [vm_compute; reflexivity|].
  apply (@count_sums Z Sample.host). sample_map.
Defined.

Lemma put_keeps_other_keys_witness :
  exists s h,
    @Put Z Sample.host [] (NewFunctional HybridTables) (Sample.bytes "a")
         (Some 1%Z) = Ret (s, h, true) /\
    exists s' h' added,
      Put s h (Sample.bytes "ah") (Some 2%Z) = Ret (s', h', added) /\
      forall bs', bs' <> Sample.bytes "ah" -> Get s' h' bs' = Get s h bs'.
Proof.
  eexists _, _. split; [vm_compute; reflexivity|].
  apply (@put_keeps_other_keys Z Sample.host);
    [sample_map|vm_compute; reflexivity].
Defined.

Lemma del_then_get_misses_witness :
  exists s h,
    @Put Z Sample.host [] (NewFunctional HybridTables) (Sample.bytes "a")
         (Some 1%Z) = Ret (s, h, true) /\
    exists s' h' val deleted,
      Del s h (Sample.bytes "a") = Ret (s', h', val, deleted) /\
      Get s' h' (Sample.bytes "a") = Ret (nil_value, false).
Proof.
  eexists _, _. split; [vm_compute; reflexivity|].
  apply (@del_then_get_misses Z Sample.host). sample_map.
Defined.

Lemma del_keeps_other_keys_witness :
  exists s h,
    @Put Z Sample.host [] (NewFunctional HybridTables) (Sample.bytes "a")
         (Some 1%Z) = Ret (s, h, true) /\
    exists s' h' val deleted,
      Del s h (Sample.bytes "a") = Ret (s', h', val, deleted) /\
      forall bs', bs' <> Sample.bytes "a" -> Get s' h' bs' = Get s h bs'.
Proof.
  eexists _, _. split; [vm_compute; reflexivity|].
  apply (@del_keeps_other_keys Z Sample.host). sample_map.
Defined.

Lemma put_del_round_trip_witness :
  exists s h,
    @Put Z Sample.host [] (NewFunctional HybridTables) (Sample.bytes "a")
         (Some 1%Z) = Ret (s, h, true) /\
    Get s h (Sample.bytes "ah") = Ret (None, false) /\
    exists s1 h1 s2 h2,
      Put s h (Sample.bytes "ah") (Some 2%Z) = Ret (s1, h1, true) /\
      Del s1 h1 (Sample.bytes "ah") = Ret (s2, h2, Some 2%Z, true) /\
      Nentries h2 = Nentries h /\
      forall bs', Get s2 h2 bs' = Get s h bs'.
Proof.
  eexists _, _. split; [vm_compute; reflexivity|].
  split; [vm_compute; reflexivity|].
  apply (@put_del_round_trip Z Sample.host _ _ (Sample.bytes "ah") (Some 2%Z) None);
    [sample_map|vm_compute; reflexivity|vm_compute; reflexivity].
Defined.

Lemma del_twice_witness :
  exists s h,
    @Put Z Sample.host [] (NewFunctional HybridTables) (Sample.bytes "a")
         (Some 1%Z) = Ret (s, h, true) /\
    exists s1 h1 val deleted,
      Del s h (Sample.bytes "a") = Ret (s1, h1, val, deleted) /\
      Del s1 h1 (Sample.bytes "a") = Ret (s1, h1, nil_value, false).
Proof.
  eexists _, _. split; [vm_compute; reflexivity|].
  apply (@del_twice Z Sample.host). sample_map.
Defined.

Lemma reachable_is_finite_map_witness :
  exists s h,
    @Put Z Sample.host [] (NewFunctional HybridTables) (Sample.bytes "a")
         (Some 1%Z) = Ret (s, h, true) /\
    exists kvs : list (list byte * option Z),
      NoDup (map fst kvs) /\
      Nentries h = Z.of_nat (length kvs) /\
      (forall bs v, In (bs, v) kvs <-> Get s h bs = Ret (v, true)) /\
      (forall bs, ~ In bs (map fst kvs) <-> Get s h bs = Ret (nil_value, false)).
Proof.
  eexists _, _. split; [vm_compute; reflexivity|].
  apply (@reachable_is_finite_map Z Sample.host). sample_map.
Defined.

Lemma count_histograms_witness :
  exists s h,
    @Put Z Sample.host [] (NewFunctional HybridTables) (Sample.bytes "a")
         (Some 1%Z) = Ret (s, h, true) /\
    exists d c,
      Count s h = Ret (d, c) /\
      (foldr Z.add 0 (TableCountsByNentries c) mod uint_max = Tables c /\
       foldr Z.add 0 (TableCountsByDepth c) mod uint_max = Tables c)%Z.
Proof.
  eexists _, _. split; [vm_compute; reflexivity|].
  apply (@count_histograms Z Sample.host). sample_map.
Defined.

End Hamt32MoreSamples.

(** * Tables rewritten in place *)

Section InPlace.
Context {V : Type} {P : Params} {HH : HostHash}.
Abbreviation value := (@value V).
Abbreviation leaf := (@leaf V).
Abbreviation nodeI := (@nodeI V).
Abbreviation table := (@table V).
Abbreviation store := (list table).
Implicit Types (s : store) (t : table) (n : nodeI) (p q u cur : loc)
  (path : list nat) (stack : tableStack) (hv : hashVal) (k : iKey).

Lemma digits_prefix_Index hv (d dc j : nat) :
  (digits hv d ++ [j]) `prefix_of` digits hv dc -> j = Index hv d /\ d < dc.
Proof.
  intros [rest E].
  assert (Hlen : dc = d + 1 + length rest).
  { apply (f_equal length) in E.
    rewrite !length_app, !length_digits in E. simpl in E. lia. }
  split; [|lia].
  apply (f_equal (fun l => l !! d)) in E.
  rewrite digits_lookup in E by lia.
  rewrite <- app_assoc, lookup_app_r in E by (rewrite length_digits; lia).
  rewrite length_digits, Nat.sub_diag in E. simpl in E. congruence.
Qed.

(** A well-formed subtree that cannot hold the table at position [pos]
    reads the same after the cell of that table was rewritten. *)
Lemma inplace_frame s s' u tu pos fuel : forall path n,
  s !! u = Some tu ->
  digits (table_Hash tu) (table_depth tu) = pos ->
  (forall q t, q <> u -> s !! q = Some t -> s' !! q = Some t) ->
  ~ path `prefix_of` pos ->
  wf_node s fuel path n ->
  wf_node s' fuel path n /\
  forall ds, leaf_at s' fuel n ds = leaf_at s fuel n ds.
Proof.
  induction fuel as [|fuel IH]; intros path n Hu Hpos Hag Hnp Hwf;
    destruct n as [|l|q].
  - split; [apply wf_node_nil|]. intros ds. rewrite !leaf_at_nil. reflexivity.
  - split; [exact Hwf|]. intros ds. rewrite !leaf_at_leaf. reflexivity.
  - apply wf_node_table in Hwf as (f & t & Hf & _). discriminate.
  - split; [apply wf_node_nil|]. intros ds. rewrite !leaf_at_nil. reflexivity.
  - split; [exact Hwf|]. intros ds. rewrite !leaf_at_leaf. reflexivity.
  - apply wf_node_table in Hwf as (f & t & Hf & Ht & Hwt & Hd & Hh & Hch).
    injection Hf as <-.
    assert (Hq : q <> u).
    { intros ->. rewrite Hu in Ht. injection Ht as ->.
      apply Hnp. rewrite <- Hpos, Hd, Hh. reflexivity. }
    pose proof (Hag q t Hq Ht) as Ht'.
    assert (Hsub : forall i, ~ (path ++ [i]) `prefix_of` pos).
    { intros i Hp. apply Hnp. etrans; [|exact Hp]. apply prefix_app_r. reflexivity. }
    split.
    + apply wf_node_table. exists fuel, t. repeat split; try assumption.
      intros i Hi. apply (IH (path ++ [i]) _ Hu Hpos Hag (Hsub i) (Hch i Hi)).
    + intros ds. rewrite (leaf_at_table _ _ _ _ _ Ht'), (leaf_at_table _ _ _ _ _ Ht).
      destruct ds as [|i ds']; [reflexivity|].
      destruct (decide (i < indexLimit)) as [Hi|Hi].
      * apply (IH (path ++ [i]) _ Hu Hpos Hag (Hsub i) (Hch i Hi)).
      * rewrite !table_get_ge by (auto; lia). rewrite !leaf_at_nil. reflexivity.
Qed.

(** The table [u] at depth [d] on the walk along [hv], one slot of which
    was rewritten in place. *)
Lemma inplace_local s s' hv u tu tu' (d fc idx : nat) n' :
  s !! u = Some tu -> s' !! u = Some tu' ->
  (forall q t, q <> u -> s !! q = Some t -> s' !! q = Some t) ->
  wf_node s (S fc) (digits hv d) (tableNode u) ->
  wf_table tu' -> table_depth tu' = table_depth tu ->
  table_Hash tu' = table_Hash tu ->
  idx < indexLimit ->
  (forall j, j < indexLimit ->
     table_get tu' j = if bool_decide (idx = j) then n' else table_get tu j) ->
  wf_node s' fc (digits hv d ++ [idx]) n' ->
  wf_node s' (S fc) (digits hv d) (tableNode u) /\
  forall ds,
    leaf_at s' (S fc) (tableNode u) ds
    = match ds with
      | [] => None
      | i :: ds' =>
          if bool_decide (i = idx) then leaf_at s' fc n' ds'
          else leaf_at s (S fc) (tableNode u) ds
      end.
Proof.
  intros Hu Hu' Hag Hwf Hwt' Hd' Hh' Hidx Hg Hn'.
  apply wf_node_table in Hwf as (f & t & Hf & Ht & Hwt & Hd & Hh & Hch).
  injection Hf as <-. rewrite Hu in Ht. injection Ht as <-.
  assert (Hpos : digits (table_Hash tu) (table_depth tu) = digits hv d).
  { rewrite Hd, length_digits in *. exact Hh. }
  assert (Hfr : forall i, i < indexLimit ->
            wf_node s' fc (digits hv d ++ [i]) (table_get tu i) /\
            forall ds, leaf_at s' fc (table_get tu i) ds
                       = leaf_at s fc (table_get tu i) ds).
  { intros i Hi.
    apply (inplace_frame s s' u tu (digits hv d) fc _ _ Hu Hpos Hag); [|apply Hch, Hi].
    intros Hp. apply prefix_length in Hp. rewrite length_app in Hp.
    simpl in Hp. lia. }
  split.
  - apply wf_node_table. exists fc, tu'. split; [reflexivity|].
    split; [exact Hu'|]. split; [exact Hwt'|].
    split; [rewrite Hd'; exact Hd|]. split; [rewrite Hh'; exact Hh|].
    intros i Hi. rewrite (Hg i Hi). case_bool_decide as E.
    + subst i. exact Hn'.
    + apply (Hfr i Hi).
  - intros ds. rewrite (leaf_at_table _ _ _ _ _ Hu'), (leaf_at_table _ _ _ _ _ Hu).
    destruct ds as [|i ds']; [reflexivity|].
    destruct (decide (i < indexLimit)) as [Hi|Hi].
    + rewrite (Hg i Hi). case_bool_decide; case_bool_decide;
        try congruence; try reflexivity.
      apply (Hfr i Hi).
    + rewrite !table_get_ge by (auto; lia).
      rewrite bool_decide_eq_false_2 by lia. rewrite !leaf_at_nil. reflexivity.
Qed.

(** The trie above a table rewritten in place: the ancestors of the table
    [c], at depth [dc] on the walk along [hv], are untouched, and so is
    every subtree off the walk. *)
Lemma inplace_lift s s' hv c tc (dc : nat) :
  s !! c = Some tc -> table_depth tc = dc ->
  digits (table_Hash tc) dc = digits hv dc ->
  (forall q t, q <> c -> s !! q = Some t -> s' !! q = Some t) ->
  forall stack a,
    chain s hv a stack -> length stack <= dc ->
    wf_node s depthLimit [] (tableNode (root_of a stack)) ->
    wf_node s' (depthLimit - length stack) (digits hv (length stack))
            (tableNode a) ->
    wf_node s' depthLimit [] (tableNode (root_of a stack)) /\
    chain s' hv a stack /\
    forall ds,
      leaf_at s' depthLimit (tableNode (root_of a stack)) ds
      = if bool_decide (take (length stack) ds = digits hv (length stack))
        then leaf_at s' (depthLimit - length stack) (tableNode a)
               (drop (length stack) ds)
        else leaf_at s depthLimit (tableNode (root_of a stack)) ds.
Proof.
  intros Hc Hdc Hhc Hag.
  assert (Hpos : digits (table_Hash tc) (table_depth tc) = digits hv dc)
    by (rewrite Hdc; exact Hhc).
  induction stack as [|par rest IH]; intros a Hch Hlen Hwf Hwa.
  - simpl in *. rewrite Nat.sub_0_r in Hwa. split; [exact Hwa|]. split; [exact I|].
    intros ds. rewrite ?Nat.sub_0_r, ?drop_0. reflexivity.
  - simpl root_of in *. simpl length in *.
    destruct Hch as [(tp & Htp & Hg) Hch].
    destruct (chain_wf s hv par rest Hch Hwf) as [Hlr Hwp].
    replace (depthLimit - length rest) with (S (depthLimit - S (length rest)))
      in Hwp by lia.
    pose proof Hwp as Hwp0.
    apply wf_node_table in Hwp as (f & t & Hf & Ht & Hwt & Hd & Hh & Hkids).
    injection Hf as <-. rewrite Htp in Ht. injection Ht as <-.
    rewrite length_digits in Hd, Hh.
    assert (Hpc : par <> c).
    { intros ->. rewrite Hc in Htp. injection Htp as ->. lia. }
    pose proof (Hag par tp Hpc Htp) as Htp'.
    assert (Hfr : forall i, i < indexLimit -> i <> Index hv (length rest) ->
              wf_node s' (depthLimit - S (length rest))
                      (digits hv (length rest) ++ [i]) (table_get tp i) /\
              forall ds, leaf_at s' (depthLimit - S (length rest)) (table_get tp i) ds
                         = leaf_at s (depthLimit - S (length rest)) (table_get tp i) ds).
    { intros i Hi Hne.
      apply (inplace_frame s s' c tc (digits hv dc) _ _ _ Hc Hpos Hag);
        [|apply Hkids, Hi].
      intros Hp. apply digits_prefix_Index in Hp as [E _]. contradiction. }
    assert (Hwp' : wf_node s' (depthLimit - length rest) (digits hv (length rest))
                     (tableNode par)).
    { replace (depthLimit - length rest) with (S (depthLimit - S (length rest)))
        by lia.
      apply wf_node_table. exists (depthLimit - S (length rest)), tp.
      rewrite length_digits. repeat split; try assumption.
      intros i Hi. destruct (decide (i = Index hv (length rest))) as [->|Hne].
      - rewrite Hg, <- digits_S. exact Hwa.
      - apply (Hfr i Hi Hne). }
    destruct (IH par Hch ltac:(lia) Hwf Hwp') as (Hroot & Hch' & Hleaf).
    split; [exact Hroot|]. split.
    { split; [|exact Hch']. exists tp. auto. }
    intros ds. rewrite Hleaf.
    destruct (decide (take (S (length rest)) ds = digits hv (S (length rest))))
      as [Htk|Htk].
    + rewrite (bool_decide_eq_true_2 _ Htk).
      apply take_S_digits in Htk as [Htk Hi].
      rewrite (bool_decide_eq_true_2 _ Htk).
      replace (depthLimit - length rest) with (S (depthLimit - S (length rest)))
        by lia.
      rewrite (leaf_at_table _ _ _ _ _ Htp'), (drop_S _ _ _ Hi), Hg. reflexivity.
    + rewrite (bool_decide_eq_false_2 _ Htk). case_bool_decide as Htk'; [|reflexivity].
      rewrite (chain_leaf_at s hv par rest ds Hch Hlr Htk').
      replace (depthLimit - length rest) with (S (depthLimit - S (length rest)))
        by lia.
      rewrite (leaf_at_table _ _ _ _ _ Htp'), (leaf_at_table _ _ _ _ _ Htp).
      destruct (drop (length rest) ds) as [|i ds'] eqn:Edrop; [reflexivity|].
      assert (Hi : ds !! length rest = Some i).
      { rewrite <- (take_drop (length rest) ds), Edrop.
        assert (Hl : length (take (length rest) ds) = length rest)
          by (rewrite Htk', length_digits; reflexivity).
        rewrite lookup_app_r by lia. rewrite Hl, Nat.sub_diag. reflexivity. }
      assert (Hne : i <> Index hv (length rest)).
      { intros ->. apply Htk. apply take_S_digits. auto. }
      destruct (decide (i < indexLimit)) as [Hil|Hil].
      * apply (Hfr i Hil Hne).
      * rewrite !table_get_ge by (auto; lia). rewrite !leaf_at_nil. reflexivity.
Qed.

(** What a lookup finds is read off the leaf the walk of the key reaches. *)
Lemma leaf_at_tree_get s s' fuel fuel' n n' k' depth :
  (forall ds, leaf_at s' fuel n' ds = leaf_at s fuel' n ds) ->
  fuel = fuel' ->
  tree_get s' k' fuel depth n' = tree_get s k' fuel' depth n.
Proof.
  intros H <-. rewrite !tree_get_leaf_at, H. reflexivity.
Qed.

Lemma chain_slot_leaf_at s hv cur stack tc (fc : nat) ds :
  chain s hv cur stack -> depthLimit - length stack = S fc ->
  s !! cur = Some tc ->
  take (S (length stack)) ds = digits hv (S (length stack)) ->
  leaf_at s depthLimit (tableNode (root_of cur stack)) ds
  = leaf_at s fc (table_get tc (Index hv (length stack)))
      (drop (S (length stack)) ds).
Proof.
  intros Hch Hfc Hc Htk. apply take_S_digits in Htk as [Htk Hi].
  rewrite (chain_leaf_at s hv cur stack ds Hch ltac:(lia) Htk), Hfc.
  rewrite (leaf_at_table _ _ _ _ _ Hc), (drop_S _ _ _ Hi). reflexivity.
Qed.

Lemma digits_tree_leaf_at s fuel n k' (d : nat) :
  tree_get s k' fuel d n
  = match leaf_at s fuel n (drop d (digits (Hash k') (d + fuel))) with
    | Some l => leaf_get l k'
    | None => (nil_value, false)
    end.
Proof. rewrite tree_get_leaf_at, drop_digits. reflexivity. Qed.

Lemma chain_slot_get s hv cur stack tc (fc : nat) k' :
  chain s hv cur stack -> depthLimit - length stack = S fc ->
  s !! cur = Some tc ->
  digits (Hash k') (S (length stack)) = digits hv (S (length stack)) ->
  tree_get s k' depthLimit 0 (tableNode (root_of cur stack))
  = tree_get s k' fc (S (length stack))
      (table_get tc (Index hv (length stack))).
Proof.
  intros Hch Hfc Hc Hd.
  rewrite (digits_tree_leaf_at s depthLimit _ k' 0), drop_0. simpl Nat.add.
  rewrite (chain_slot_leaf_at s hv cur stack tc fc _ Hch Hfc Hc).
  - rewrite (digits_tree_leaf_at s fc _ k' (S (length stack))).
    replace (S (length stack) + fc) with depthLimit by lia. reflexivity.
  - rewrite take_digits by lia. exact Hd.
Qed.

(** A slot of the table the walk stands on is rewritten in place: the
    trie stays well formed, and it reads as before off the walk. *)
Lemma inplace_slot s s' hv cur stack tc tc' (fc : nat) n' :
  chain s hv cur stack ->
  wf_node s depthLimit [] (tableNode (root_of cur stack)) ->
  depthLimit - length stack = S fc ->
  s !! cur = Some tc -> s' !! cur = Some tc' ->
  (forall q t, q <> cur -> s !! q = Some t -> s' !! q = Some t) ->
  wf_table tc' -> table_depth tc' = table_depth tc ->
  table_Hash tc' = table_Hash tc ->
  (forall j, j < indexLimit ->
     table_get tc' j = if bool_decide (Index hv (length stack) = j) then n'
                       else table_get tc j) ->
  wf_node s' fc (digits hv (S (length stack))) n' ->
  wf_node s' depthLimit [] (tableNode (root_of cur stack)) /\
  chain s' hv cur stack /\
  (forall ds,
     leaf_at s' depthLimit (tableNode (root_of cur stack)) ds
     = if bool_decide (take (S (length stack)) ds = digits hv (S (length stack)))
       then leaf_at s' fc n' (drop (S (length stack)) ds)
       else leaf_at s depthLimit (tableNode (root_of cur stack)) ds) /\
  (forall k',
     tree_get s' k' depthLimit 0 (tableNode (root_of cur stack))
     = if bool_decide (digits (Hash k') (S (length stack))
                       = digits hv (S (length stack)))
       then tree_get s' k' fc (S (length stack)) n'
       else tree_get s k' depthLimit 0 (tableNode (root_of cur stack))).
Proof.
  intros Hch Hwf Hfc Hc Hc' Hag Hwt' Hd' Hh' Hg Hn'.
  destruct (chain_wf s hv cur stack Hch Hwf) as [Hlen Hwc].
  rewrite Hfc in Hwc.
  assert (Hfields : table_depth tc = length stack /\
                    digits (table_Hash tc) (length stack) = digits hv (length stack)).
  { apply wf_node_table in Hwc as (f & t & _ & Ht & _ & Hd & Hh & _).
    rewrite Hc in Ht. injection Ht as <-. rewrite length_digits in Hd, Hh. auto. }
  destruct Hfields as [Hdc Hhc].
  rewrite digits_S in Hn'.
  destruct (inplace_local s s' hv cur tc tc' (length stack) fc
              (Index hv (length stack)) n' Hc Hc' Hag Hwc Hwt' Hd' Hh'
              (Index_lt _ _) Hg Hn') as [Hwc' Hloc].
  destruct (inplace_lift s s' hv cur tc (length stack) Hc Hdc Hhc Hag stack cur
              Hch (le_n _) Hwf) as (Hroot & Hch' & Hleaf).
  { rewrite Hfc. exact Hwc'. }
  assert (Hl : forall ds,
     leaf_at s' depthLimit (tableNode (root_of cur stack)) ds
     = if bool_decide (take (S (length stack)) ds = digits hv (S (length stack)))
       then leaf_at s' fc n' (drop (S (length stack)) ds)
       else leaf_at s depthLimit (tableNode (root_of cur stack)) ds).
  { intros ds. rewrite Hleaf, Hfc, Hloc.
    destruct (decide (take (S (length stack)) ds = digits hv (S (length stack))))
      as [Htk|Htk].
    - rewrite (bool_decide_eq_true_2 _ Htk).
      apply take_S_digits in Htk as [Htk Hi].
      rewrite (bool_decide_eq_true_2 _ Htk), (drop_S _ _ _ Hi).
      rewrite bool_decide_eq_true_2 by reflexivity. reflexivity.
    - rewrite (bool_decide_eq_false_2 _ Htk).
      case_bool_decide as Htk'; [|reflexivity].
      rewrite (chain_leaf_at s hv cur stack ds Hch Hlen Htk'), Hfc.
      destruct (drop (length stack) ds) as [|i ds'] eqn:Edrop.
      + rewrite (leaf_at_table _ _ _ _ _ Hc). reflexivity.
      + case_bool_decide as Ei; [|reflexivity]. exfalso. apply Htk.
        apply take_S_digits. split; [exact Htk'|]. subst i.
        rewrite <- (take_drop (length stack) ds), Edrop.
        assert (Hlt : length (take (length stack) ds) = length stack)
          by (rewrite Htk', length_digits; reflexivity).
        rewrite lookup_app_r by lia. rewrite Hlt, Nat.sub_diag. reflexivity. }
  split; [exact Hroot|]. split; [exact Hch'|]. split; [exact Hl|].
  intros k'.
  rewrite (digits_tree_leaf_at s' depthLimit _ k' 0), drop_0. simpl Nat.add.
  rewrite Hl, take_digits by lia.
  case_bool_decide.
  - rewrite (digits_tree_leaf_at s' fc _ k' (S (length stack))).
    replace (S (length stack) + fc) with depthLimit by lia. reflexivity.
  - rewrite (digits_tree_leaf_at s depthLimit _ k' 0), drop_0. reflexivity.
Qed.

(** A table replaced by another with the same children, at the root. *)
Lemma regrade_root s cur tc T' :
  wf_node s depthLimit [] (tableNode cur) ->
  s !! cur = Some tc ->
  wf_table T' -> table_depth T' = 0 ->
  (forall j, table_get T' j = table_get tc j) ->
  wf_node (s ++ [T']) depthLimit [] (tableNode (length s)) /\
  forall ds,
    leaf_at (s ++ [T']) depthLimit (tableNode (length s)) ds
    = leaf_at s depthLimit (tableNode cur) ds.
Proof.
  intros Hwf Hc HwT HdT Hg.
  assert (Hpre : s `prefix_of` (s ++ [T'])) by (apply prefix_app_r; reflexivity).
  assert (Hnt : (s ++ [T']) !! length s = Some T').
  { rewrite lookup_app_r by lia. rewrite Nat.sub_diag. reflexivity. }
  pose proof Hwf as Hwf0.
  apply wf_node_table in Hwf as (f & t & Hf & Ht & Hwt & Hd & Hh & Hch).
  rewrite Hc in Ht. injection Ht as <-.
  split.
  - apply wf_node_table. exists f, T'. split; [exact Hf|]. split; [exact Hnt|].
    split; [exact HwT|]. split; [exact HdT|]. split; [reflexivity|].
    intros i Hi. rewrite Hg. apply (wf_node_mono s); [exact Hpre|apply Hch, Hi].
  - intros ds. rewrite Hf, (leaf_at_table _ _ _ _ _ Hnt), (leaf_at_table _ _ _ _ _ Hc).
    destruct ds as [|i ds']; [reflexivity|]. rewrite Hg.
    destruct (decide (i < indexLimit)) as [Hi|Hi].
    + apply leaf_at_mono; [exact Hpre|].
      eapply wf_node_closed; [|apply Hch, Hi]. rewrite length_app. simpl. lia.
    + rewrite !table_get_ge by (auto; lia). rewrite !leaf_at_nil. reflexivity.
Qed.

(** A table replaced by another with the same children, below the root:
    the slot of the parent is rewritten in place. *)
Lemma regrade_inner s hv cur par rest tc tp T' (fc : nat) :
  chain s hv cur (par :: rest) ->
  wf_node s depthLimit [] (tableNode (root_of par rest)) ->
  depthLimit - S (length rest) = S fc ->
  s !! cur = Some tc -> s !! par = Some tp ->
  wf_table T' -> table_depth T' = S (length rest) ->
  digits (table_Hash T') (S (length rest)) = digits hv (S (length rest)) ->
  (forall j, table_get T' j = table_get tc j) ->
  let s3 := <[par := table_set tp (Index hv (length rest))
                       (tableNode (length s))]> (s ++ [T']) in
  wf_node s3 depthLimit [] (tableNode (root_of par rest)) /\
  chain s3 hv (length s) (par :: rest) /\
  s3 !! length s = Some T' /\
  forall ds,
    leaf_at s3 depthLimit (tableNode (root_of par rest)) ds
    = leaf_at s depthLimit (tableNode (root_of par rest)) ds.
Proof.
  intros Hch Hwf Hfc Hc Hp HwT HdT HhT Hg s3.
  set (s2 := s ++ [T']).
  set (nt := length s).
  assert (Hpre : s `prefix_of` s2) by (apply prefix_app_r; reflexivity).
  assert (Hnt : s2 !! nt = Some T').
  { unfold s2, nt. rewrite lookup_app_r by lia. rewrite Nat.sub_diag. reflexivity. }
  assert (Hplt : par < length s) by (apply lookup_lt_is_Some; eauto).
  assert (Hp2 : s2 !! par = Some tp) by (eapply prefix_lookup; eassumption).
  assert (Hp3 : s3 !! par
                = Some (table_set tp (Index hv (length rest)) (tableNode nt))).
  { unfold s3. apply list_lookup_insert_eq. apply lookup_lt_is_Some. eauto. }
  assert (Hag : forall q t, q <> par -> s2 !! q = Some t -> s3 !! q = Some t).
  { intros q t Hq Ht. unfold s3. rewrite list_lookup_insert_ne by auto. exact Ht. }
  assert (Hnt3 : s3 !! nt = Some T') by (apply Hag; [unfold nt; lia|exact Hnt]).
  pose proof Hch as Hch0. destruct Hch as [(tp0 & Htp0 & Hslot) Hchp].
  rewrite Hp in Htp0. injection Htp0 as <-.
  destruct (chain_wf s hv par rest Hchp Hwf) as [Hlr Hwp].
  destruct (chain_wf s hv cur (par :: rest) Hch0 Hwf) as [_ Hwc].
  simpl length in Hwc. rewrite Hfc in Hwc.
  apply wf_node_table in Hwp as (fp & t & Hfp & Ht & Hwtp & Hdp & Hhp & _).
  rewrite Hp in Ht. injection Ht as <-. rewrite length_digits in Hdp, Hhp.
  apply wf_node_table in Hwc as (f & t & Hf & Ht & Hwt & Hd & Hh & Hkids).
  injection Hf as <-. rewrite Hc in Ht. injection Ht as <-.
  assert (Hpos : digits (table_Hash tp) (table_depth tp) = digits hv (length rest))
    by (rewrite Hdp; exact Hhp).
  assert (Hfr : forall i, i < indexLimit ->
            wf_node s3 fc (digits hv (S (length rest)) ++ [i]) (table_get tc i) /\
            forall ds, leaf_at s3 fc (table_get tc i) ds
                       = leaf_at s fc (table_get tc i) ds).
  { intros i Hi.
    destruct (inplace_frame s2 s3 par tp (digits hv (length rest)) fc
                (digits hv (S (length rest)) ++ [i]) (table_get tc i)
                Hp2 Hpos Hag) as [Hw Hl].
    - intros Hpf. apply prefix_length in Hpf.
      rewrite length_app, !length_digits in Hpf. simpl in Hpf. lia.
    - apply (wf_node_mono s); [exact Hpre|apply Hkids, Hi].
    - split; [exact Hw|]. intros ds. rewrite Hl.
      apply leaf_at_mono; [exact Hpre|].
      eapply wf_node_closed; [|apply Hkids, Hi].
      rewrite length_app, length_digits. simpl. lia. }
  assert (HwT3 : wf_node s3 (S fc) (digits hv (S (length rest))) (tableNode nt)).
  { apply wf_node_table. exists fc, T'. rewrite length_digits.
    split; [reflexivity|]. split; [exact Hnt3|]. split; [exact HwT|].
    split; [exact HdT|]. split; [exact HhT|].
    intros i Hi. rewrite Hg. apply (Hfr i Hi). }
  destruct (inplace_slot s2 s3 hv par rest tp
              (table_set tp (Index hv (length rest)) (tableNode nt)) (S fc)
              (tableNode nt))
    as (Hroot & Hchain & Hleaf & _).
  - apply (chain_mono s); assumption.
  - apply (wf_node_mono s); assumption.
  - lia.
  - exact Hp2.
  - exact Hp3.
  - exact Hag.
  - apply wf_table_set; [exact Hwtp|apply Index_lt].
  - apply table_set_fields.
  - apply table_set_fields.
  - intros j Hj. apply table_get_set; [exact Hwtp|apply Index_lt|exact Hj].
  - exact HwT3.
  - split; [exact Hroot|]. split; [|split; [exact Hnt3|]].
    + split; [|exact Hchain].
      eexists. split; [exact Hp3|].
      rewrite table_get_set by (auto using Index_lt).
      rewrite bool_decide_eq_true_2 by reflexivity. reflexivity.
    + intros ds. rewrite Hleaf. case_bool_decide as Htk.
      * pose proof (chain_leaf_at s hv cur (par :: rest) ds Hch0
                      ltac:(simpl; lia) Htk) as E.
        simpl root_of in E. simpl length in E. rewrite E, Hfc.
        rewrite (leaf_at_table _ _ _ _ _ Hnt3), (leaf_at_table _ _ _ _ _ Hc).
        destruct (drop (S (length rest)) ds) as [|i ds']; [reflexivity|].
        rewrite Hg. destruct (decide (i < indexLimit)) as [Hi|Hi].
        -- apply (Hfr i Hi).
        -- rewrite !table_get_ge by (auto; lia). rewrite !leaf_at_nil. reflexivity.
      * apply leaf_at_mono; [exact Hpre|].
        eapply wf_node_closed; [|exact Hwf]. simpl. lia.
Qed.

(** The slot of the walk of [k] rewritten in place with a node that
    answers [res] for [k] and for every other key as the old slot. *)
Lemma put_slot s s' k (res : value * bool) cur stack tc tc' (fc : nat) n' :
  chain s (Hash k) cur stack ->
  wf_node s depthLimit [] (tableNode (root_of cur stack)) ->
  depthLimit - length stack = S fc ->
  s !! cur = Some tc -> s' !! cur = Some tc' ->
  (forall q t, q <> cur -> s !! q = Some t -> s' !! q = Some t) ->
  wf_table tc' -> table_depth tc' = table_depth tc ->
  table_Hash tc' = table_Hash tc ->
  (forall j, j < indexLimit ->
     table_get tc' j = if bool_decide (Index (Hash k) (length stack) = j) then n'
                       else table_get tc j) ->
  wf_node s' fc (digits (Hash k) (S (length stack))) n' ->
  tree_get s' k fc (S (length stack)) n' = res ->
  (forall k', k' <> k ->
     tree_get s' k' fc (S (length stack)) n'
     = tree_get s k' fc (S (length stack))
         (table_get tc (Index (Hash k) (length stack)))) ->
  ((forall ds l, leaf_at s depthLimit (tableNode (root_of cur stack)) ds = Some l ->
                 leaf_nodup l) ->
   forall ds l', leaf_at s' fc n' ds = Some l' -> leaf_nodup l') ->
  wf_node s' depthLimit [] (tableNode (root_of cur stack)) /\
  chain s' (Hash k) cur stack /\
  tree_get s' k depthLimit 0 (tableNode (root_of cur stack)) = res /\
  (forall k', k' <> k ->
     tree_get s' k' depthLimit 0 (tableNode (root_of cur stack))
     = tree_get s k' depthLimit 0 (tableNode (root_of cur stack))) /\
  ((forall ds l, leaf_at s depthLimit (tableNode (root_of cur stack)) ds = Some l ->
                 leaf_nodup l) ->
   forall ds l', leaf_at s' depthLimit (tableNode (root_of cur stack)) ds = Some l' ->
                 leaf_nodup l').
Proof.
  intros Hch Hwf Hfc Hc Hc' Hag Hwt' Hd' Hh' Hg Hn' Hk Hother Hnd.
  destruct (inplace_slot s s' (Hash k) cur stack tc tc' fc n'
              Hch Hwf Hfc Hc Hc' Hag Hwt' Hd' Hh' Hg Hn')
    as (Hroot & Hch' & Hleaf & Hget).
  split; [exact Hroot|]. split; [exact Hch'|]. split; [|split].
  - rewrite Hget, bool_decide_eq_true_2 by reflexivity. exact Hk.
  - intros k' Hne. rewrite Hget. case_bool_decide as Hd; [|reflexivity].
    rewrite (Hother k' Hne).
    symmetry. apply (chain_slot_get s (Hash k) cur stack tc fc k' Hch Hfc Hc Hd).
  - intros Hold ds l'. rewrite Hleaf. case_bool_decide.
    + apply (Hnd Hold).
    + apply Hold.
Qed.

End InPlace.

(** * The in-place map keeps its invariant *)

Section Hamt64Put.
Import Hamt64.
Context {V : Type} {HH : HostHash}.
Abbreviation value := (@value V).
Abbreviation leaf := (@leaf V).
Abbreviation nodeI := (@nodeI V).
Abbreviation table := (@table V).
Abbreviation store := (list table).
Implicit Types (s : store) (t : table) (n : nodeI) (p q cur : loc)
  (stack : tableStack) (hv : hashVal) (k : iKey) (h : Hamt).

Lemma depthLimit64 : @depthLimit params = S maxDepth.
Proof. reflexivity. Qed.

Lemma Get_loop_tree_get64 s k fuel depth p :
  fuel + depth = S maxDepth ->
  closed s fuel (tableNode p) ->
  Get_loop s k fuel depth p = Ret (tree_get s k fuel depth (tableNode p)).
Proof.
  revert depth p. induction fuel as [|fuel IH]; intros depth p Hfd Hcl.
  - destruct Hcl.
  - apply closed_table in Hcl as (fuel' & t & [= <-] & Ht & Hwf & Hd & Hc).
    simpl. unfold deref. rewrite Ht, obind_Ret.
    rewrite (tree_get_table _ _ _ _ _ _ Ht).
    specialize (Hc (Index (Hash k) depth) (Index_lt _ _)).
    destruct (table_get t (Index (Hash k) depth)) as [|l|q] eqn:Hg.
    + rewrite tree_get_nil. reflexivity.
    + rewrite tree_get_leaf. reflexivity.
    + destruct fuel as [|fuel]; [destruct Hc|].
      rewrite bool_decide_eq_false_2 by lia.
      apply IH; [lia|exact Hc].
Qed.

(** [Get] on a map that satisfies the invariant. *)
Lemma Get_tree_get64 s h k r :
  root h = Some r -> wf_node s depthLimit [] (tableNode r) ->
  Get s h k = Ret (tree_get s k depthLimit 0 (tableNode r)).
Proof.
  intros Hr Hwf. unfold Get. rewrite Hr.
  apply Get_loop_tree_get64; [apply Nat.add_0_r|].
  change (S maxDepth) with (@depthLimit params).
  eapply wf_node_closed; [|exact Hwf]. simpl. lia.
Qed.

Lemma update_Ret s p t (f : table -> table) :
  s !! p = Some t ->
  update s p f = Ret (<[p := f t]> s) /\
  (<[p := f t]> s) !! p = Some (f t) /\
  (forall q t0, q <> p -> s !! q = Some t0 -> (<[p := f t]> s) !! q = Some t0).
Proof.
  intros Hp. unfold update. rewrite Hp. split; [reflexivity|]. split.
  - apply list_lookup_insert_eq. apply lookup_lt_is_Some. eauto.
  - intros q t0 Hq Ht0. rewrite list_lookup_insert_ne by auto. exact Ht0.
Qed.

(** The upgrade step of [Put] changes neither the shape nor the content
    of the trie. *)
Lemma Put_upgrade_spec s h k depth cur path t (fc : nat) :
  chain s (Hash k) cur path ->
  wf_node s depthLimit [] (tableNode (root_of cur path)) ->
  root h = Some (root_of cur path) ->
  length path = depth -> depthLimit - depth = S fc ->
  s !! cur = Some t ->
  exists s' h' r',
    Put_upgrade s h k depth (hashPath (Hash k) depth) cur path = Ret (s', h') /\
    root h' = Some r' /\ nentries h' = nentries h /\
    wf_node s' depthLimit [] (tableNode r') /\
    forall ds, leaf_at s' depthLimit (tableNode r') ds
               = leaf_at s depthLimit (tableNode (root_of cur path)) ds.
Proof.
  intros Hch Hwf Hroot Hlen Hfc Hc.
  assert (Hsame : exists s' h' r',
            Ret (s, h) = Ret (s', h') /\
            root h' = Some r' /\ nentries h' = nentries h /\
            wf_node s' depthLimit [] (tableNode r') /\
            forall ds, leaf_at s' depthLimit (tableNode r') ds
                       = leaf_at s depthLimit (tableNode (root_of cur path)) ds).
  { exists s, h, (root_of cur path). auto. }
  unfold Put_upgrade. destruct (grade h); [|exact Hsame].
  unfold deref. rewrite Hc, obind_Ret.
  destruct (negb (is_fixed t) && bool_decide (upgradeThreshold <= table_nentries t));
    [|exact Hsame].
  clear Hsame. unfold alloc.
  destruct (chain_wf s (Hash k) cur path Hch Hwf) as [_ Hwc].
  rewrite Hlen, Hfc in Hwc.
  apply wf_node_table in Hwc as (f & t0 & _ & Ht0 & Hwt & _).
  rewrite Hc in Ht0. injection Ht0 as <-.
  destruct (upgradeToFixedTable_spec (hashPath (Hash k) depth) depth t Hwt)
    as (HwT & HdT & HhT & _ & HgT).
  destruct path as [|par rest].
  - simpl in Hlen. subst depth. simpl.
    destruct (regrade_root s cur t _ Hwf Hc HwT HdT HgT) as [Hw Hl].
    eexists _, _, _. split; [reflexivity|]. split; [reflexivity|].
    split; [reflexivity|]. split; [exact Hw|exact Hl].
  - simpl in Hlen. subst depth. rewrite bool_decide_eq_false_2 by lia.
    simpl peek. cbv iota. simpl root_of in *.
    pose proof Hch as [(tp & Htp & _) _].
    assert (Htp2 : (s ++ [upgradeToFixedTable (hashPath (Hash k) (S (length rest)))
                            (S (length rest)) (table_entries t)]) !! par = Some tp).
    { eapply prefix_lookup; [|exact Htp]. apply prefix_app_r. reflexivity. }
    destruct (update_Ret _ par tp
                (fun tb => table_set tb (Index (Hash k) (S (length rest) - 1))
                             (tableNode (length s))) Htp2) as (-> & _).
    rewrite obind_Ret. replace (S (length rest) - 1) with (length rest) by lia.
    destruct (regrade_inner s (Hash k) cur par rest t tp _ fc Hch Hwf Hfc Hc Htp
                HwT HdT) as (Hw & _ & _ & Hl).
    { rewrite HhT. apply digits_hashPath. }
    { exact HgT. }
    eexists _, _, _. split; [reflexivity|]. split; [exact Hroot|].
    split; [reflexivity|]. split; [exact Hw|exact Hl].
Qed.

Lemma Put_loop_S s h k (v : value) fuel depth hp cur path :
  Put_loop s h k v (S fuel) depth hp cur path =
  (let idx := Index (Hash k) depth in
   t <-- deref s cur ;>
   match table_get t idx with
   | nilNode =>
       s1 <-- update s cur
                (fun t => table_set t idx (leafNode (newFlatLeaf k v))) ;>
       let h1 := set_nentries h (int_incr (nentries h)) in
       '(s2, h2) <-- Put_upgrade s1 h1 k depth hp cur path ;>
       Ret (s2, h2, true)
   | leafNode curLeaf =>
       if bool_decide (leaf_Hash curLeaf = Hash k) then
         let '(colLeaf, inserted) := leaf_put curLeaf k v in
         if inserted then
           s1 <-- update s cur
                    (fun t => table_set t idx (leafNode colLeaf)) ;>
           Ret (s1, set_nentries h (int_incr (nentries h)), true)
         else
           s1 <-- update s cur
                    (fun t => table_replace t idx (leafNode colLeaf)) ;>
           Ret (s1, h, false)
       else if bool_decide (depth = maxDepth) then Panic "WTF!!!"
       else
         let hp := BuildHashPath hp idx depth in
         let '(s1, collisionTable) :=
           newTable h s (depth + 1) hp curLeaf (newFlatLeaf k v) in
         s2 <-- update s1 cur
                  (fun t => table_set t idx (tableNode collisionTable)) ;>
         Ret (s2, set_nentries h (int_incr (nentries h)), true)
   | tableNode n =>
       Put_loop s h k v fuel (S depth) (BuildHashPath hp idx depth) n
                (push path cur)
   end).
Proof. reflexivity. Qed.

(** The leaf in the slot of the walk is a leaf of the trie. *)
Lemma slot_leaf_at s hv cur stack tc (fc : nat) (l : leaf) :
  chain s hv cur stack -> depthLimit - length stack = S fc ->
  s !! cur = Some tc ->
  table_get tc (Index hv (length stack)) = leafNode l ->
  leaf_at s depthLimit (tableNode (root_of cur stack))
          (digits hv (S (length stack))) = Some l.
Proof.
  intros Hch Hfc Hc Hslot.
  rewrite (chain_slot_leaf_at s hv cur stack tc fc _ Hch Hfc Hc).
  - rewrite Hslot. apply leaf_at_leaf.
  - apply take_digits. lia.
Qed.

Lemma Put_loop_spec s h k (v : value) fuel : forall depth cur path,
  root h = Some (root_of cur path) ->
  wf_node s depthLimit [] (tableNode (root_of cur path)) ->
  chain s (Hash k) cur path ->
  length path = depth -> fuel + depth = S maxDepth ->
  exists s' h' ins r',
    Put_loop s h k v fuel depth (hashPath (Hash k) depth) cur path
      = Ret (s', h', ins) /\
    root h' = Some r' /\
    wf_node s' depthLimit [] (tableNode r') /\
    tree_get s' k depthLimit 0 (tableNode r') = (v, true) /\
    (forall k', k' <> k ->
       tree_get s' k' depthLimit 0 (tableNode r')
       = tree_get s k' depthLimit 0 (tableNode (root_of cur path))) /\
    ((forall ds l, leaf_at s depthLimit (tableNode (root_of cur path)) ds = Some l ->
                   leaf_nodup l) ->
     forall ds l', leaf_at s' depthLimit (tableNode r') ds = Some l' ->
                   leaf_nodup l') /\
    ins = negb (tree_get s k depthLimit 0 (tableNode (root_of cur path))).2 /\
    nentries h' = (if ins then int_incr (nentries h) else nentries h).
Proof.
  induction fuel as [|fuel IH]; intros depth cur path Hroot Hwf Hch Hlen Hfd.
  { destruct (chain_wf s (Hash k) cur path Hch Hwf) as [Hl _].
    rewrite depthLimit64 in Hl. lia. }
  destruct (chain_wf s (Hash k) cur path Hch Hwf) as [Hl Hwc].
  assert (Hfc : depthLimit - length path = S fuel) by (rewrite depthLimit64; lia).
  rewrite Hfc in Hwc. pose proof Hwc as Hwc0.
  apply wf_node_table in Hwc as (f & tc & Hf & Hc & Hwt & Hd & Hh & Hkids).
  injection Hf as <-. rewrite length_digits in Hd, Hh.
  pose proof (Index_lt (Hash k) depth) as Hidx.
  pose proof (Hkids _ Hidx) as Hkid.
  rewrite <- Hlen in Hkid at 1. rewrite <- digits_S in Hkid.
  pose proof (chain_slot_get s (Hash k) cur path tc fuel k Hch Hfc Hc eq_refl) as Hold.
  rewrite Put_loop_S. cbv zeta. unfold deref. rewrite Hc, obind_Ret.
  subst depth.
  destruct (table_get tc (Index (Hash k) (length path))) as [|l|q] eqn:Hslot.
  - (* the slot is empty *)
    destruct (update_Ret s cur tc
                (fun t => table_set t (Index (Hash k) (length path))
                            (leafNode (newFlatLeaf k v))) Hc) as (-> & Hc1 & Hag).
    rewrite obind_Ret.
    match type of Hc1 with ?x !! _ = _ => set (s1 := x) in * end.
    destruct (put_slot s s1 k (v, true) cur path tc _ fuel (leafNode (flatLeaf k v))
                Hch Hwf Hfc Hc Hc1 Hag)
      as (Hwf1 & Hch1 & Hg1 & Hf1 & Hn1).
    { apply wf_table_set; assumption. }
    { apply table_set_fields. }
    { apply table_set_fields. }
    { intros j Hj. apply table_get_set; assumption. }
    { apply wf_node_leaf, wf_leaf_flat. rewrite length_digits. reflexivity. }
    { rewrite tree_get_leaf. simpl. rewrite key_equals_refl. reflexivity. }
    { intros k' Hne. rewrite Hslot, tree_get_leaf, tree_get_nil. simpl.
      rewrite key_equals_false by congruence. reflexivity. }
    { intros _ ds l'. rewrite leaf_at_leaf. intros [= <-].
      unfold leaf_nodup. simpl. apply NoDup_singleton. }
    destruct (Put_upgrade_spec s1 (set_nentries h (int_incr (nentries h))) k
                (length path) cur path _ fuel Hch1 Hwf1 Hroot eq_refl Hfc Hc1)
      as (s2 & h2 & r2 & -> & Hr2 & Hn2 & Hwf2 & Hl2).
    rewrite obind_Ret. exists s2, h2, true, r2.
    split; [reflexivity|]. split; [exact Hr2|]. split; [exact Hwf2|].
    split; [|split; [|split; [|split]]].
    + rewrite (leaf_at_tree_get s1 s2 _ _ _ _ k 0 Hl2 eq_refl). exact Hg1.
    + intros k' Hne. rewrite (leaf_at_tree_get s1 s2 _ _ _ _ k' 0 Hl2 eq_refl).
      apply Hf1, Hne.
    + intros Ho ds l'. rewrite Hl2. apply (Hn1 Ho).
    + rewrite Hold, tree_get_nil. reflexivity.
    + exact Hn2.
  - (* the slot holds a leaf *)
    assert (Hwl : wf_leaf (digits (Hash k) (S (length path))) l)
      by (apply wf_node_leaf in Hkid; exact Hkid).
    rewrite tree_get_leaf in Hold.
    case_bool_decide as Hhash.
    + destruct (leaf_put l k v) as [colLeaf inserted] eqn:Elp.
      assert (Hcol : colLeaf = (leaf_put l k v).1) by (rewrite Elp; reflexivity).
      assert (Hins : inserted = negb (leaf_get l k).2).
      { rewrite <- (leaf_put_added l k v), Elp. reflexivity. }
      assert (Hcommon : forall tc' s1,
                s1 !! cur = Some tc' ->
                (forall q t, q <> cur -> s !! q = Some t -> s1 !! q = Some t) ->
                wf_table tc' -> table_depth tc' = table_depth tc ->
                table_Hash tc' = table_Hash tc ->
                (forall j, j < indexLimit ->
                   table_get tc' j
                   = if bool_decide (Index (Hash k) (length path) = j)
                     then leafNode colLeaf else table_get tc j) ->
                wf_node s1 depthLimit [] (tableNode (root_of cur path)) /\
                tree_get s1 k depthLimit 0 (tableNode (root_of cur path)) = (v, true) /\
                (forall k', k' <> k ->
                   tree_get s1 k' depthLimit 0 (tableNode (root_of cur path))
                   = tree_get s k' depthLimit 0 (tableNode (root_of cur path))) /\
                ((forall ds l0,
                    leaf_at s depthLimit (tableNode (root_of cur path)) ds = Some l0 ->
                    leaf_nodup l0) ->
                 forall ds l',
                   leaf_at s1 depthLimit (tableNode (root_of cur path)) ds = Some l' ->
                   leaf_nodup l')).
      { intros tc' s1 Hc1 Hag Hwt' Hd' Hh' Hg'.
        destruct (put_slot s s1 k (v, true) cur path tc tc' fuel (leafNode colLeaf)
                    Hch Hwf Hfc Hc Hc1 Hag Hwt' Hd' Hh' Hg')
          as (Hwf1 & _ & Hg1 & Hf1 & Hn1); [| | | |auto].
        - apply wf_node_leaf. rewrite Hcol. apply wf_leaf_put; assumption.
        - rewrite tree_get_leaf, Hcol. apply leaf_get_put.
        - intros k' Hne. rewrite Hslot, !tree_get_leaf, Hcol.
          apply leaf_get_put_other, Hne.
        - intros Ho ds l'. rewrite leaf_at_leaf. intros [= <-]. rewrite Hcol.
          apply leaf_put_nodup.
          apply (Ho _ _ (slot_leaf_at s (Hash k) cur path tc fuel l Hch Hfc Hc Hslot)). }
      destruct inserted.
      * destruct (update_Ret s cur tc
                    (fun t => table_set t (Index (Hash k) (length path))
                                (leafNode colLeaf)) Hc) as (-> & Hc1 & Hag).
        rewrite obind_Ret.
        destruct (Hcommon _ _ Hc1 Hag) as (Hwf1 & Hg1 & Hf1 & Hn1).
        { apply wf_table_set; assumption. }
        { apply table_set_fields. }
        { apply table_set_fields. }
        { intros j Hj. apply table_get_set; assumption. }
        eexists _, _, true, _. split; [reflexivity|]. split; [exact Hroot|].
        split; [exact Hwf1|]. split; [exact Hg1|]. split; [exact Hf1|].
        split; [exact Hn1|]. split; [|reflexivity].
        rewrite Hold. exact Hins.
      * destruct (update_Ret s cur tc
                    (fun t => table_replace t (Index (Hash k) (length path))
                                (leafNode colLeaf)) Hc) as (-> & Hc1 & Hag).
        rewrite obind_Ret.
        destruct (Hcommon _ _ Hc1 Hag) as (Hwf1 & Hg1 & Hf1 & Hn1).
        { apply wf_table_replace; [assumption|reflexivity]. }
        { apply table_replace_fields. }
        { apply table_replace_fields. }
        { intros j Hj. apply table_get_replace; try assumption.
          rewrite Hslot. reflexivity. }
        eexists _, _, false, _. split; [reflexivity|]. split; [exact Hroot|].
        split; [exact Hwf1|]. split; [exact Hg1|]. split; [exact Hf1|].
        split; [exact Hn1|]. split; [|reflexivity].
        rewrite Hold. exact Hins.
    + (* another hash: a table for both leaves *)
      case_bool_decide as Hmax.
      { exfalso. apply Hhash.
        apply digits_inj; [eapply wf_leaf_Hash_lt; exact Hwl|apply Hash_lt|].
        destruct Hwl as [Hdg _]. rewrite length_digits in Hdg.
        rewrite depthLimit64, <- Hmax. exact Hdg. }
      cbv zeta. rewrite <- hashPath_S, Nat.add_1_r. unfold newTable, newFlatLeaf.
      destruct (createTable_rec (fullinit h) (maxDepth - S (length path)) s
                  (S (length path)) (hashPath (Hash k) (S (length path))) l
                  (flatLeaf k v)) as [s1 ct] eqn:Ect.
      assert (Hfuel : S (maxDepth - S (length path)) = fuel) by lia.
      assert (Hlast : maxDepth - S (length path) + S (length path) = lastLevel).
      { assert (E9 : @lastLevel params = maxDepth) by reflexivity.
        rewrite E9. lia. }
      assert (Hpos : 0 < @depthLimit params) by (rewrite depthLimit64; lia).
      destruct (createTable_rec_spec _ _ _ _ _ _ _ _ _ Hlast Hpos Hwl Hhash Ect)
        as (Hpre & Hwct & _ & Hgct).
      destruct (createTable_rec_other _ _ _ _ _ _ _ _ _ Hlast Hpos Hwl Hhash Ect)
        as (Hoct & Hlct).
      rewrite Hfuel in Hwct, Hgct, Hoct, Hlct.
      pose proof (prefix_lookup _ _ _ _ Hpre Hc) as Hc1.
      destruct (update_Ret s1 cur tc
                  (fun t => table_set t (Index (Hash k) (length path))
                              (tableNode ct)) Hc1) as (-> & Hc2 & Hag2).
      rewrite obind_Ret.
      match type of Hc2 with ?x !! _ = _ => set (s2 := x) in * end.
      assert (Hag : forall q t, q <> cur -> s !! q = Some t -> s2 !! q = Some t).
      { intros q t Hq Ht. apply Hag2; [exact Hq|].
        eapply prefix_lookup; eassumption. }
      destruct (inplace_frame s1 s2 cur tc (digits (Hash k) (length path)) fuel
                  (digits (Hash k) (S (length path))) (tableNode ct) Hc1)
        as [Hwct2 Hlct2]; [| | |exact Hwct|].
      { rewrite Hd. exact Hh. }
      { exact Hag2. }
      { intros Hp. apply prefix_length in Hp. rewrite !length_digits in Hp. lia. }
      destruct (put_slot s s2 k (v, true) cur path tc _ fuel (tableNode ct)
                  Hch Hwf Hfc Hc Hc2 Hag)
        as (Hwf1 & _ & Hg1 & Hf1 & Hn1).
      { apply wf_table_set; assumption. }
      { apply table_set_fields. }
      { apply table_set_fields. }
      { intros j Hj. apply table_get_set; assumption. }
      { exact Hwct2. }
      { rewrite (leaf_at_tree_get s1 s2 _ _ _ _ k _ Hlct2 eq_refl). exact Hgct. }
      { intros k' Hne. rewrite (leaf_at_tree_get s1 s2 _ _ _ _ k' _ Hlct2 eq_refl).
        rewrite Hslot, tree_get_leaf. apply Hoct, Hne. }
      { intros Ho ds l'. rewrite Hlct2. intros Hat.
        destruct (Hlct ds l' Hat) as [->| ->].
        - apply (Ho _ _ (slot_leaf_at s (Hash k) cur path tc fuel l Hch Hfc Hc Hslot)).
        - unfold leaf_nodup. simpl. apply NoDup_singleton. }
      eexists _, _, true, _. split; [reflexivity|]. split; [exact Hroot|].
      split; [exact Hwf1|]. split; [exact Hg1|]. split; [exact Hf1|].
      split; [exact Hn1|]. split; [|reflexivity].
      rewrite Hold. erewrite leaf_get_other_hash; [reflexivity|exact Hwl|exact Hhash].
  - (* the slot holds a table: one level down *)
    rewrite <- hashPath_S.
    destruct (IH (S (length path)) q (push path cur)) as
      (s' & h' & ins & r' & E & Hr' & Hwf' & Hg' & Hf' & Hn' & Hi' & Hne');
      [exact Hroot|exact Hwf| |reflexivity|lia|].
    { split; [|exact Hch]. exists tc. auto. }
    exists s', h', ins, r'. auto 10.
Qed.

(** [Put] on a map that satisfies the invariant. *)
Lemma Put_spec64 s h k (v : value) :
  INV s h ->
  exists s' h' ins,
    Put s h k v = Ret (s', h', ins) /\
    INV s' h' /\
    Get s' h' k = Ret (v, true) /\
    (forall k', k' <> k -> Get s' h' k' = Get s h k') /\
    (exists r, Get s h k = Ret r /\ ins = negb r.2) /\
    nentries h' = (if ins then int_incr (nentries h) else nentries h).
Proof.
  unfold INV. intros HI. destruct (root h) as [r|] eqn:Hroot.
  - destruct HI as [Hwf Hnd].
    destruct (Put_loop_spec s h k v (S maxDepth) 0 r [] Hroot Hwf I eq_refl
                (Nat.add_0_r _))
      as (s' & h' & ins & r' & E & Hr' & Hwf' & Hg' & Hf' & Hn' & Hi' & Hne').
    rewrite hashPath_0 in E. simpl root_of in *.
    exists s', h', ins. unfold Put. rewrite Hroot. split; [exact E|].
    rewrite Hr'. split; [split; [exact Hwf'|apply Hn', Hnd]|].
    rewrite (Get_tree_get64 s' h' k r' Hr' Hwf'). split; [rewrite Hg'; reflexivity|].
    split; [|split; [|exact Hne']].
    + intros k' Hne. rewrite (Get_tree_get64 s' h' k' r' Hr' Hwf'), (Hf' k' Hne).
      symmetry. apply Get_tree_get64; assumption.
    + eexists. split; [apply Get_tree_get64; eassumption|exact Hi'].
  - unfold Put. rewrite Hroot.
    unfold newRootTable, createRootFixedTable, newFlatLeaf, alloc. simpl leaf_Hash.
    change (emptyFixedTable 0 0%N) with (@emptyTable V params true 0 0%N).
    pose proof (Index_lt (Hash k) 0) as Hidx.
    destruct (single_table_spec true 0 0%N (Index (Hash k) 0) (leafNode (flatLeaf k v)))
      as (Hwt & Hd & Hh & _ & Hg); auto.
    match goal with |- context [s ++ [?t]] => set (T := t) in * end.
    assert (HT : (s ++ [T]) !! length s = Some T).
    { rewrite lookup_app_r by lia. rewrite Nat.sub_diag. reflexivity. }
    assert (Hwf : wf_node (s ++ [T]) depthLimit [] (tableNode (length s))).
    { rewrite depthLimit64. apply wf_node_table. exists maxDepth, T.
      split; [reflexivity|]. split; [exact HT|]. split; [exact Hwt|].
      split; [exact Hd|]. split; [reflexivity|].
      intros i Hi. rewrite Hg. case_bool_decide.
      - subst i. apply wf_node_leaf, wf_leaf_flat. reflexivity.
      - apply wf_node_nil. }
    eexists _, _, true. split; [reflexivity|].
    set (h1 := set_nentries _ _).
    assert (Hr1 : root h1 = Some (length s)) by reflexivity.
    rewrite Hr1.
    split; [split; [exact Hwf|]|].
    { intros ds l. rewrite depthLimit64, (leaf_at_table _ _ _ _ _ HT).
      destruct ds as [|i ds']; [discriminate|]. rewrite Hg.
      case_bool_decide.
      - rewrite leaf_at_leaf. intros [= <-]. unfold leaf_nodup. simpl.
        apply NoDup_singleton.
      - rewrite leaf_at_nil. discriminate. }
    split; [|split; [|split]].
    + rewrite (Get_tree_get64 _ h1 k (length s) Hr1 Hwf).
      rewrite depthLimit64, (tree_get_table _ _ _ _ _ _ HT), Hg.
      rewrite bool_decide_eq_true_2 by reflexivity.
      rewrite tree_get_leaf. simpl. rewrite key_equals_refl. reflexivity.
    + intros k' Hne. rewrite (Get_tree_get64 _ h1 k' (length s) Hr1 Hwf).
      unfold Get. rewrite Hroot.
      rewrite depthLimit64, (tree_get_table _ _ _ _ _ _ HT), Hg.
      case_bool_decide.
      * rewrite tree_get_leaf. simpl. rewrite key_equals_false by congruence.
        reflexivity.
      * rewrite tree_get_nil. reflexivity.
    + exists (nil_value, false). unfold Get. rewrite Hroot. auto.
    + reflexivity.
Qed.

End Hamt64Put.

Section Hamt64Del.
Import Hamt64.
Context {V : Type} {HH : HostHash}.
Abbreviation value := (@value V).
Abbreviation leaf := (@leaf V).
Abbreviation nodeI := (@nodeI V).
Abbreviation table := (@table V).
Abbreviation store := (list table).
Implicit Types (s : store) (t : table) (n : nodeI) (p q cur : loc)
  (stack : tableStack) (hv : hashVal) (k : iKey) (h : Hamt).

Lemma wf_leaf_shorten (path : list nat) (i : nat) (l : leaf) :
  wf_leaf (path ++ [i]) l ->
  wf_leaf path l /\ Index (leaf_Hash l) (length path) = i.
Proof.
  intros [Hd Hc]. rewrite length_app in Hd. simpl in Hd.
  rewrite Nat.add_1_r, digits_S in Hd.
  apply app_inj_tail in Hd as [Hd Hi]. split; [split; assumption|exact Hi].
Qed.

Lemma single_entry t (i : nat) (e : nodeI) :
  wf_table t -> table_entries t = [(i, e)] ->
  table_get t i = e /\ forall j, j <> i -> table_get t j = nilNode.
Proof.
  intros Hwt He.
  assert (Hin : (i, e) ∈ table_entries t) by (rewrite He; left).
  apply elem_of_table_entries in Hin as (_ & Hg & _). split; [exact Hg|].
  intros j Hne. destruct (decide (j < indexLimit)) as [Hj|Hj].
  - destruct (table_get t j) as [|l|q] eqn:E; [reflexivity| |]; exfalso.
    + assert (Hin : (j, leafNode l) ∈ table_entries t)
        by (apply elem_of_table_entries; auto).
      rewrite He in Hin. apply list_elem_of_singleton in Hin. congruence.
    + assert (Hin : (j, tableNode q) ∈ table_entries t)
        by (apply elem_of_table_entries; auto).
      rewrite He in Hin. apply list_elem_of_singleton in Hin. congruence.
  - apply table_get_ge; [exact Hwt|lia].
Qed.

Lemma collapse_0 s cur path : collapse s cur 0 path = (t <-- deref s cur ;> Ret (s, cur)).
Proof.
  simpl. destruct (deref s cur) as [t|]; [|reflexivity]. simpl.
  destruct (bool_decide _); reflexivity.
Qed.

Lemma collapse_S s cur depth path :
  collapse s cur (S depth) path =
  (t <-- deref s cur ;>
   if bool_decide (table_nentries t = 1) then
     match table_entries t with
     | [] => Panic "index out of range"
     | (_, leafNode lf) :: _ =>
         match pop path with
         | (None, _) => Panic "nil dereference"
         | (Some parentTable, path') =>
             let parentIdx := Index (table_Hash t) depth in
             s1 <-- update s parentTable
                      (fun tb => table_set tb parentIdx (leafNode lf)) ;>
             collapse s1 parentTable depth path'
         end
     | _ :: _ => Ret (s, cur)
     end
   else Ret (s, cur)).
Proof. reflexivity. Qed.

(** The collapse loop of [Del] keeps the trie well formed and changes the
    answer for no key; every leaf it leaves was a leaf before. *)
Lemma collapse_spec hv depth : forall s cur path,
  length path = depth -> chain s hv cur path ->
  wf_node s depthLimit [] (tableNode (root_of cur path)) ->
  exists s' cur' t',
    collapse s cur depth path = Ret (s', cur') /\
    s' !! cur' = Some t' /\
    wf_node s' depthLimit [] (tableNode (root_of cur path)) /\
    (forall k', tree_get s' k' depthLimit 0 (tableNode (root_of cur path))
                = tree_get s k' depthLimit 0 (tableNode (root_of cur path))) /\
    (forall ds l',
       leaf_at s' depthLimit (tableNode (root_of cur path)) ds = Some l' ->
       exists ds0,
         leaf_at s depthLimit (tableNode (root_of cur path)) ds0 = Some l').
Proof.
  induction depth as [|depth IH]; intros s cur path Hlen Hch Hwf.
  - destruct (chain_wf s hv cur path Hch Hwf) as [_ Hwc].
    apply wf_node_table in Hwc as (f & t & _ & Hc & _).
    rewrite collapse_0. unfold deref. rewrite Hc, obind_Ret.
    exists s, cur, t. split; [reflexivity|]. split; [exact Hc|].
    split; [exact Hwf|]. split; [reflexivity|]. intros ds l' H. exists ds. exact H.
  - destruct path as [|par rest]; [discriminate|]. injection Hlen as Hlen.
    destruct (chain_wf s hv cur (par :: rest) Hch Hwf) as [Hl Hwc].
    simpl length in Hl, Hwc. simpl root_of in *.
    pose proof Hwc as Hwc0.
    apply wf_node_table in Hwc as (f & t & Hf & Hc & Hwt & Hd & Hh & Hkids).
    rewrite length_digits in Hd, Hh.
    assert (Hsame : exists s' cur' t',
              Ret (s, cur) = Ret (s', cur') /\
              s' !! cur' = Some t' /\
              wf_node s' depthLimit [] (tableNode (root_of par rest)) /\
              (forall k', tree_get s' k' depthLimit 0 (tableNode (root_of par rest))
                          = tree_get s k' depthLimit 0 (tableNode (root_of par rest))) /\
              (forall ds l',
                 leaf_at s' depthLimit (tableNode (root_of par rest)) ds = Some l' ->
                 exists ds0,
                   leaf_at s depthLimit (tableNode (root_of par rest)) ds0 = Some l')).
    { exists s, cur, t. split; [reflexivity|]. split; [exact Hc|].
      split; [exact Hwf|]. split; [reflexivity|]. intros ds l' H. exists ds. exact H. }
    rewrite collapse_S. unfold deref. rewrite Hc, obind_Ret.
    case_bool_decide as Hn1; [|exact Hsame].
    pose proof (table_nentries_entries t Hwt) as Hne. rewrite Hn1 in Hne.
    destruct (table_entries t) as [|[i e] ents] eqn:Ee; [discriminate|].
    destruct ents as [|? ?]; [|discriminate].
    destruct (single_entry t i e Hwt Ee) as [Hgi Hgo].
    assert (Hi : i < indexLimit).
    { assert (Hin : (i, e) ∈ table_entries t) by (rewrite Ee; left).
      apply elem_of_table_entries in Hin. tauto. }
    destruct e as [|lf|q]; [| |exact Hsame].
    { assert (Hin : (i, @nilNode V) ∈ table_entries t) by (rewrite Ee; left).
      apply elem_of_table_entries in Hin as (_ & _ & Hnil). discriminate. }
    clear Hsame. simpl pop. cbv iota zeta.
    pose proof Hch as [(tp & Htp & Hslot) Hchp].
    assert (Hpidx : Index (table_Hash t) depth = Index hv (length rest)).
    { rewrite <- Hlen. apply (digits_eq_Index _ _ (S (length rest))); [exact Hh|lia]. }
    rewrite Hpidx.
    destruct (update_Ret s par tp
                (fun tb => table_set tb (Index hv (length rest)) (leafNode lf)) Htp)
      as (-> & Hp1 & Hag).
    rewrite obind_Ret.
    match type of Hp1 with ?x !! _ = _ => set (s1 := x) in * end.
    destruct (chain_wf s hv par rest Hchp Hwf) as [_ Hwp].
    apply wf_node_table in Hwp as (fp & tp0 & Hfp & Htp0 & Hwtp & _).
    rewrite Htp in Htp0. injection Htp0 as <-.
    assert (Hfuel : fp = S f) by lia.
    pose proof (Hkids i Hi) as Hkid. rewrite Hgi in Hkid.
    apply wf_node_leaf, wf_leaf_shorten in Hkid as [Hwl Hil].
    rewrite length_digits in Hil.
    destruct (inplace_slot s s1 hv par rest tp _ fp (leafNode lf)
                Hchp Hwf Hfp Htp Hp1 Hag)
      as (Hwf1 & Hch1 & Hleaf1 & Hget1).
    { apply wf_table_set; [exact Hwtp|apply Index_lt]. }
    { apply table_set_fields. }
    { apply table_set_fields. }
    { intros j Hj. apply table_get_set; [exact Hwtp|apply Index_lt|exact Hj]. }
    { apply wf_node_leaf. exact Hwl. }
    destruct (IH s1 par rest Hlen Hch1 Hwf1)
      as (s' & cur' & t' & E & Hc' & Hwf' & Hg' & Hl').
    exists s', cur', t'. split; [exact E|]. split; [exact Hc'|].
    split; [exact Hwf'|]. split.
    + intros k'. rewrite Hg', Hget1. case_bool_decide as Hdg; [|reflexivity].
      rewrite tree_get_leaf.
      rewrite (chain_slot_get s hv par rest tp fp k' Hchp Hfp Htp Hdg), Hslot.
      rewrite Hfuel, (tree_get_table _ _ _ _ _ _ Hc).
      destruct (decide (Index (Hash k') (S (length rest)) = i)) as [Ei|Ei].
      * rewrite Ei, Hgi, tree_get_leaf. reflexivity.
      * rewrite (Hgo _ Ei), tree_get_nil.
        apply (leaf_get_other_hash _ _ _ Hwl). intros Eh. apply Ei.
        rewrite <- Eh. exact Hil.
    + intros ds l' Hat. destruct (Hl' ds l' Hat) as (ds1 & Hat1).
      rewrite Hleaf1 in Hat1. case_bool_decide as Htk.
      * rewrite leaf_at_leaf in Hat1. injection Hat1 as <-.
        exists (digits hv (S (length rest)) ++ [i]).
        pose proof (chain_leaf_at s hv cur (par :: rest)
                      (digits hv (S (length rest)) ++ [i]) Hch) as Ec.
        simpl root_of in Ec. simpl length in Ec. rewrite Ec.
        -- rewrite drop_app_length' by (rewrite length_digits; reflexivity).
           rewrite Hf, (leaf_at_table _ _ _ _ _ Hc), Hgi. apply leaf_at_leaf.
        -- lia.
        -- apply take_app_length'. rewrite length_digits. reflexivity.
      * exists ds1. exact Hat1.
Qed.

(** The downgrade step of [Del] changes neither the shape nor the content
    of the trie; the walk goes on from the table it returns. *)
Lemma Del_downgrade_spec s h k depth cur path t (fc : nat) (delLeaf : option leaf) :
  chain s (Hash k) cur path ->
  wf_node s depthLimit [] (tableNode (root_of cur path)) ->
  root h = Some (root_of cur path) ->
  length path = depth -> depthLimit - depth = S fc ->
  s !! cur = Some t ->
  exists s' h' cur',
    Del_downgrade s h k depth (hashPath (Hash k) depth) cur path delLeaf
      = Ret (s', h', cur') /\
    root h' = Some (root_of cur' path) /\ nentries h' = nentries h /\
    chain s' (Hash k) cur' path /\
    wf_node s' depthLimit [] (tableNode (root_of cur' path)) /\
    forall ds, leaf_at s' depthLimit (tableNode (root_of cur' path)) ds
               = leaf_at s depthLimit (tableNode (root_of cur path)) ds.
Proof.
  intros Hch Hwf Hroot Hlen Hfc Hc.
  assert (Hsame : exists s' h' cur',
            Ret (s, h, cur) = Ret (s', h', cur') /\
            root h' = Some (root_of cur' path) /\ nentries h' = nentries h /\
            chain s' (Hash k) cur' path /\
            wf_node s' depthLimit [] (tableNode (root_of cur' path)) /\
            forall ds, leaf_at s' depthLimit (tableNode (root_of cur' path)) ds
                       = leaf_at s depthLimit (tableNode (root_of cur path)) ds).
  { exists s, h, cur. auto 10. }
  unfold Del_downgrade. destruct (grade h); [|exact Hsame].
  destruct delLeaf as [dl|]; [exact Hsame|].
  unfold deref. rewrite Hc, obind_Ret.
  destruct (is_fixed t && bool_decide (table_nentries t <= downgradeThreshold));
    [|exact Hsame].
  clear Hsame. unfold alloc.
  destruct (chain_wf s (Hash k) cur path Hch Hwf) as [_ Hwc].
  rewrite Hlen, Hfc in Hwc.
  apply wf_node_table in Hwc as (f & t0 & _ & Ht0 & Hwt & _).
  rewrite Hc in Ht0. injection Ht0 as <-.
  destruct (downgradeToSparseTable_spec (hashPath (Hash k) depth) depth t Hwt)
    as (HwT & HdT & HhT & _ & HgT).
  destruct path as [|par rest].
  - simpl in Hlen. subst depth. simpl.
    destruct (regrade_root s cur t _ Hwf Hc HwT HdT HgT) as [Hw Hl].
    eexists _, _, _. split; [reflexivity|]. split; [reflexivity|].
    split; [reflexivity|]. split; [exact I|]. split; [exact Hw|exact Hl].
  - simpl in Hlen. subst depth. rewrite bool_decide_eq_false_2 by lia.
    simpl peek. cbv iota. simpl root_of in *.
    pose proof Hch as [(tp & Htp & _) _].
    assert (Htp2 : (s ++ [downgradeToSparseTable (hashPath (Hash k) (S (length rest)))
                            (S (length rest)) (table_entries t)]) !! par = Some tp).
    { eapply prefix_lookup; [|exact Htp]. apply prefix_app_r. reflexivity. }
    destruct (update_Ret _ par tp
                (fun tb => table_set tb (Index (Hash k) (S (length rest) - 1))
                             (tableNode (length s))) Htp2) as (-> & _).
    rewrite obind_Ret. replace (S (length rest) - 1) with (length rest) by lia.
    destruct (regrade_inner s (Hash k) cur par rest t tp _ fc Hch Hwf Hfc Hc Htp
                HwT HdT) as (Hw & Hch' & _ & Hl).
    { rewrite HhT. apply digits_hashPath. }
    { exact HgT. }
    eexists _, _, _. split; [reflexivity|]. split; [exact Hroot|].
    split; [reflexivity|]. split; [exact Hch'|]. split; [exact Hw|exact Hl].
Qed.

Lemma Del_loop_S s h k fuel depth hp cur path :
  Del_loop s h k (S fuel) depth hp cur path =
  (let idx := Index (Hash k) depth in
   t <-- deref s cur ;>
   match table_get t idx with
   | nilNode => Ret (s, h, nil_value, false)
   | leafNode curLeaf =>
       let '(delLeaf, val, deleted) := leaf_del curLeaf k in
       if negb deleted then Ret (s, h, nil_value, false)
       else
         let h1 := set_nentries h (int_decr (nentries h)) in
         s1 <-- update s cur
                  (fun t => table_set t idx (node_of_leaf delLeaf)) ;>
         '(s2, h2, curTable) <--
           Del_downgrade s1 h1 k depth hp cur path delLeaf ;>
         '(s3, curTable) <-- collapse s2 curTable depth path ;>
         t3 <-- deref s3 curTable ;>
         let h3 :=
           if bool_decide (Some curTable = root h2)
              && bool_decide (table_nentries t3 = 0)
           then set_root h2 None else h2 in
         Ret (s3, h3, val, true)
   | tableNode n =>
       Del_loop s h k fuel (S depth) (BuildHashPath hp idx depth) n
                (push path cur)
   end).
Proof. reflexivity. Qed.

Lemma Del_loop_spec s h k fuel : forall depth cur path,
  root h = Some (root_of cur path) ->
  wf_node s depthLimit [] (tableNode (root_of cur path)) ->
  (forall ds l, leaf_at s depthLimit (tableNode (root_of cur path)) ds = Some l ->
                leaf_nodup l) ->
  chain s (Hash k) cur path ->
  length path = depth -> fuel + depth = S maxDepth ->
  exists s' h' val del,
    Del_loop s h k fuel depth (hashPath (Hash k) depth) cur path
      = Ret (s', h', val, del) /\
    INV s' h' /\
    tree_get s k depthLimit 0 (tableNode (root_of cur path)) = (val, del) /\
    Get s' h' k = Ret (nil_value, false) /\
    (forall k', k' <> k ->
       Get s' h' k'
       = Ret (tree_get s k' depthLimit 0 (tableNode (root_of cur path)))) /\
    (del = false -> s' = s /\ h' = h) /\
    nentries h' = (if del then int_decr (nentries h) else nentries h).
Proof.
  induction fuel as [|fuel IH]; intros depth cur path Hroot Hwf Hnd Hch Hlen Hfd.
  { destruct (chain_wf s (Hash k) cur path Hch Hwf) as [Hl _].
    rewrite depthLimit64 in Hl. lia. }
  destruct (chain_wf s (Hash k) cur path Hch Hwf) as [Hl Hwc].
  assert (Hfc : depthLimit - length path = S fuel) by (rewrite depthLimit64; lia).
  rewrite Hfc in Hwc. pose proof Hwc as Hwc0.
  apply wf_node_table in Hwc as (f & tc & Hf & Hc & Hwt & Hd & Hh & Hkids).
  injection Hf as <-. rewrite length_digits in Hd, Hh.
  pose proof (Index_lt (Hash k) depth) as Hidx.
  pose proof (Hkids _ Hidx) as Hkid.
  rewrite <- Hlen in Hkid at 1. rewrite <- digits_S in Hkid.
  pose proof (chain_slot_get s (Hash k) cur path tc fuel k Hch Hfc Hc eq_refl) as Hold.
  assert (Hmiss : tree_get s k depthLimit 0 (tableNode (root_of cur path))
                  = (nil_value, false) ->
            exists s' h' val del,
              Ret (s, h, nil_value, false) = Ret (s', h', val, del) /\
              INV s' h' /\
              tree_get s k depthLimit 0 (tableNode (root_of cur path)) = (val, del) /\
              Get s' h' k = Ret (nil_value, false) /\
              (forall k', k' <> k ->
                 Get s' h' k'
                 = Ret (tree_get s k' depthLimit 0 (tableNode (root_of cur path)))) /\
              (del = false -> s' = s /\ h' = h) /\
              nentries h' = (if del then int_decr (nentries h) else nentries h)).
  { intros Hm. exists s, h, nil_value, false. split; [reflexivity|].
    split; [unfold INV; rewrite Hroot; auto|]. split; [exact Hm|].
    split; [rewrite (Get_tree_get64 s h k _ Hroot Hwf), Hm; reflexivity|].
    split; [intros k' _; apply Get_tree_get64; assumption|]. auto. }
  rewrite Del_loop_S. cbv zeta. unfold deref. rewrite Hc, obind_Ret.
  subst depth.
  destruct (table_get tc (Index (Hash k) (length path))) as [|l|q] eqn:Hslot.
  - apply Hmiss. rewrite Hold. apply tree_get_nil.
  - rewrite tree_get_leaf in Hold.
    assert (Hwl : wf_leaf (digits (Hash k) (S (length path))) l)
      by (apply wf_node_leaf in Hkid; exact Hkid).
    pose proof (Hnd _ _ (slot_leaf_at s (Hash k) cur path tc fuel l Hch Hfc Hc Hslot))
      as Hndl.
    destruct (leaf_del_get l k) as [Hdel Hval].
    pose proof (leaf_del_self l k Hndl) as Hself.
    pose proof (fun k' Hne => leaf_del_other l k k' Hne) as Hoth.
    pose proof (leaf_del_nodup l k) as Hdn.
    pose proof (wf_leaf_del (digits (Hash k) (S (length path))) l k) as Hwd.
    destruct (leaf_del l k) as [[delLeaf val] deleted]. simpl in *.
    destruct deleted; simpl negb; cbv iota.
    2:{ apply Hmiss. rewrite Hold.
        rewrite (surjective_pairing (leaf_get l k)), <- Hdel.
        f_equal. apply leaf_get_miss. symmetry. exact Hdel. }
    clear Hmiss. specialize (Hval eq_refl). specialize (Hself eq_refl).
    assert (Hfound : leaf_get l k = (val, true)).
    { rewrite (surjective_pairing (leaf_get l k)), <- Hdel, <- Hval. reflexivity. }
    destruct (update_Ret s cur tc
                (fun t => table_set t (Index (Hash k) (length path))
                            (node_of_leaf delLeaf)) Hc) as (-> & Hc1 & Hag).
    rewrite obind_Ret.
    match type of Hc1 with ?x !! _ = _ => set (s1 := x) in * end.
    destruct (put_slot s s1 k (nil_value, false) cur path tc _ fuel
                (node_of_leaf delLeaf) Hch Hwf Hfc Hc Hc1 Hag)
      as (Hwf1 & Hch1 & Hg1 & Hf1 & Hn1).
    { apply wf_table_set; assumption. }
    { apply table_set_fields. }
    { apply table_set_fields. }
    { intros j Hj. apply table_get_set; assumption. }
    { destruct delLeaf as [nl|]; simpl.
      - apply wf_node_leaf. apply (Hwd nl Hwl eq_refl).
      - apply wf_node_nil. }
    { destruct delLeaf as [nl|]; simpl;
        [rewrite tree_get_leaf|rewrite tree_get_nil]; exact Hself. }
    { intros k' Hne. rewrite Hslot, tree_get_leaf.
      rewrite <- (Hoth k' Hne eq_refl).
      destruct delLeaf as [nl|]; simpl;
        [rewrite tree_get_leaf|rewrite tree_get_nil]; reflexivity. }
    { intros _ ds l'. destruct delLeaf as [nl|]; simpl.
      - rewrite leaf_at_leaf. intros [= <-]. apply (Hdn nl Hndl eq_refl).
      - rewrite leaf_at_nil. discriminate. }
    specialize (Hn1 Hnd).
    set (h1 := set_nentries h (int_decr (nentries h))).
    destruct (Del_downgrade_spec s1 h1 k (length path) cur path _ fuel delLeaf
                Hch1 Hwf1 Hroot eq_refl Hfc Hc1)
      as (s2 & h2 & cur2 & -> & Hr2 & Hn2 & Hch2 & Hwf2 & Hl2).
    rewrite obind_Ret.
    destruct (collapse_spec (Hash k) (length path) s2 cur2 path eq_refl Hch2 Hwf2)
      as (s3 & cur3 & t3 & -> & Hc3 & Hwf3 & Hg3 & Hl3).
    rewrite obind_Ret. unfold deref. rewrite Hc3, obind_Ret.
    set (r2 := root_of cur2 path) in *.
    assert (Hget : forall k', tree_get s3 k' depthLimit 0 (tableNode r2)
                              = tree_get s1 k' depthLimit 0 (tableNode (root_of cur path))).
    { intros k'. rewrite Hg3. apply (leaf_at_tree_get s1 s2 _ _ _ _ k' 0 Hl2 eq_refl). }
    eexists _, _, val, true. split; [reflexivity|].
    destruct (bool_decide (Some cur3 = root h2) && bool_decide (table_nentries t3 = 0))
      eqn:Hempty.
    + apply andb_true_iff in Hempty as [Hcr Hz].
      apply bool_decide_eq_true_1 in Hcr. apply bool_decide_eq_true_1 in Hz.
      rewrite Hr2 in Hcr. injection Hcr as Hcr.
      assert (Hall : forall k', tree_get s3 k' depthLimit 0 (tableNode r2)
                                = (nil_value, false)).
      { intros k'. pose proof Hwf3 as Hw.
        apply wf_node_table in Hw as (f3 & t3' & Hf3 & Ht3 & Hwt3 & _).
        rewrite <- Hcr, Hc3 in Ht3. injection Ht3 as <-.
        rewrite Hf3, <- Hcr, (tree_get_table _ _ _ _ _ _ Hc3).
        rewrite (table_nentries_0 t3 _ Hwt3 Hz). apply tree_get_nil. }
      split; [unfold INV; simpl; exact I|]. split; [rewrite Hold; exact Hfound|].
      split; [reflexivity|]. split; [|split; [discriminate|]].
      * intros k' Hne. unfold Get. simpl. rewrite <- (Hf1 k' Hne), <- Hget, Hall.
        reflexivity.
      * simpl. exact Hn2.
    + assert (Hinv : wf_node s3 depthLimit [] (tableNode r2) /\
                     forall ds l0, leaf_at s3 depthLimit (tableNode r2) ds = Some l0 ->
                                   leaf_nodup l0).
      { split; [exact Hwf3|]. intros ds l0 Hat.
        destruct (Hl3 ds l0 Hat) as (ds0 & Hat0). rewrite Hl2 in Hat0.
        apply (Hn1 _ _ Hat0). }
      split; [unfold INV; rewrite Hr2; exact Hinv|].
      split; [rewrite Hold; exact Hfound|].
      split; [rewrite (Get_tree_get64 s3 h2 k r2 Hr2 Hwf3), Hget, Hg1; reflexivity|].
      split; [|split; [discriminate|exact Hn2]].
      intros k' Hne. rewrite (Get_tree_get64 s3 h2 k' r2 Hr2 Hwf3), Hget.
      rewrite (Hf1 k' Hne). reflexivity.
  - rewrite <- hashPath_S.
    destruct (IH (S (length path)) q (push path cur)) as
      (s' & h' & val & del & E & HI' & Hg' & Hk' & Hf' & Hs' & Hn');
      [exact Hroot|exact Hwf|exact Hnd| |reflexivity|lia|].
    { split; [|exact Hch]. exists tc. auto. }
    exists s', h', val, del. auto 10.
Qed.

(** [Del] on a map that satisfies the invariant. *)
Lemma Del_spec64 s h k :
  INV s h ->
  exists s' h' val del,
    Del s h k = Ret (s', h', val, del) /\
    INV s' h' /\
    Get s h k = Ret (val, del) /\
    Get s' h' k = Ret (nil_value, false) /\
    (forall k', k' <> k -> Get s' h' k' = Get s h k') /\
    (del = false -> s' = s /\ h' = h) /\
    nentries h' = (if del then int_decr (nentries h) else nentries h).
Proof.
  intros HI. pose proof HI as HI0. unfold INV in HI.
  destruct (root h) as [r|] eqn:Hroot.
  - destruct HI as [Hwf Hnd].
    destruct (Del_loop_spec s h k (S maxDepth) 0 r [] Hroot Hwf Hnd I eq_refl
                (Nat.add_0_r _))
      as (s' & h' & val & del & E & HI' & Hg' & Hk' & Hf' & Hs' & Hn').
    rewrite hashPath_0 in E. simpl root_of in *.
    exists s', h', val, del. unfold Del. rewrite Hroot. split; [exact E|].
    split; [exact HI'|].
    split; [rewrite (Get_tree_get64 s h k r Hroot Hwf), Hg'; reflexivity|].
    split; [exact Hk'|]. split; [|split; [exact Hs'|exact Hn']].
    intros k' Hne. rewrite (Hf' k' Hne). symmetry.
    apply Get_tree_get64; assumption.
  - exists s, h, nil_value, false. unfold Del, Get. rewrite Hroot. auto 10.
Qed.

(** The maps built by the public operations satisfy the invariant. *)
Lemma reachable_INV64 s h : reachable s h -> INV s h.
Proof.
  induction 1 as [s opt|s s' h h' k v ins _ IH HP|s s' h h' k v del _ IH HD].
  - unfold INV. rewrite New_fields. exact I.
  - destruct (Put_spec64 s h k v IH) as (s1 & h1 & i1 & E & HI & _).
    rewrite HP in E. injection E as <- <- <-. exact HI.
  - destruct (Del_spec64 s h k IH) as (s1 & h1 & v1 & d1 & E & HI & _).
    rewrite HD in E. injection E as <- <- <- <-. exact HI.
Qed.

End Hamt64Del.

(** * The in-place map as a finite map *)

Section Hamt64Map.
Import Hamt64.
Context {V : Type} {HH : HostHash}.
Abbreviation value := (@value V).
Abbreviation leaf := (@leaf V).
Abbreviation table := (@table V).
Abbreviation store := (list table).
Implicit Types (s : store) (h : Hamt) (k : iKey) (v : value).

Lemma int_wrap_incr (n : Z) : int_incr (int_wrap n) = int_wrap (n + 1).
Proof.
  unfold int_incr, int_wrap. f_equal.
  replace ((n + 2 ^ 63) mod 2 ^ 64 - 2 ^ 63 + 1 + 2 ^ 63)%Z
    with ((n + 2 ^ 63) mod 2 ^ 64 + 1)%Z by lia.
  rewrite Z.add_mod_idemp_l by lia. f_equal. lia.
Qed.

Lemma int_wrap_decr (n : Z) : int_decr (int_wrap n) = int_wrap (n - 1).
Proof.
  unfold int_decr, int_wrap. f_equal.
  replace ((n + 2 ^ 63) mod 2 ^ 64 - 2 ^ 63 - 1 + 2 ^ 63)%Z
    with ((n + 2 ^ 63) mod 2 ^ 64 + (- 1))%Z by lia.
  rewrite Z.add_mod_idemp_l by lia. f_equal. lia.
Qed.

(** Every in-place map built by the public operations holds the pairs of a
    list without repeated keys. *)
Lemma reachable_model64 s h :
  reachable s h ->
  exists kvs : list (iKey * value),
    NoDup (map fst kvs) /\
    nentries h = int_wrap (Z.of_nat (length kvs)) /\
    forall k,
      (exists v, In (k, v) kvs /\ Get s h k = Ret (v, true)) \/
      (~ In k (map fst kvs) /\ Get s h k = Ret (nil_value, false)).
Proof.
  induction 1 as [s opt|s s' h h' k v ins Hr IH HP|s s' h h' k v del Hr IH HD].
  - exists []. split; [constructor|]. split.
    + unfold New. repeat case_bool_decide; reflexivity.
    + intros k. right. split; [simpl; tauto|]. unfold Get.
      rewrite New_fields. reflexivity.
  - destruct IH as (kvs & Hnd & Hn & Hg).
    destruct (Put_spec64 s h k v (reachable_INV64 s h Hr))
      as (s1 & h1 & i1 & E & _ & HG1 & Hfr & (r & HG & Hi) & Hn1).
    rewrite HP in E. injection E as <- <- <-.
    exists ((k, v) :: filter (fun p => p.1 <> k) kvs).
    split; [|split].
    + simpl. apply list.NoDup_cons. split; [|apply assoc_without_nodup, Hnd].
      intros Hin. apply list_elem_of_In, assoc_without_keys in Hin. tauto.
    + rewrite Hn1, Hn. simpl length.
      destruct (Hg k) as [(v0 & Hin & HG0)|(Hni & HG0)];
        rewrite HG0 in HG; injection HG as <-; simpl in Hi; subst ins.
      * rewrite <- (assoc_without_length kvs k Hnd (in_map fst _ _ Hin)).
        reflexivity.
      * rewrite (assoc_without_absent kvs k Hni), int_wrap_incr. f_equal. lia.
    + intros k'. destruct (decide (k' = k)) as [->|Hne].
      * left. exists v. split; [left; reflexivity|exact HG1].
      * rewrite (Hfr k' Hne).
        destruct (Hg k') as [(v0 & Hin & HG0)|(Hni & HG0)].
        -- left. exists v0. split; [|exact HG0]. right.
           apply assoc_without_in. auto.
        -- right. split; [|exact HG0]. simpl. intros [Hb|Hin]; [congruence|].
           apply assoc_without_keys in Hin. tauto.
  - destruct IH as (kvs & Hnd & Hn & Hg).
    destruct (Del_spec64 s h k (reachable_INV64 s h Hr))
      as (s1 & h1 & v1 & d1 & E & _ & HG & Hmiss & Hfr & Hsame & Hn1).
    rewrite HD in E. injection E as <- <- <- <-.
    destruct del.
    + exists (filter (fun p => p.1 <> k) kvs).
      split; [apply assoc_without_nodup, Hnd|]. split.
      * rewrite Hn1, Hn.
        destruct (Hg k) as [(v0 & Hin & HG0)|(Hni & HG0)];
          rewrite HG0 in HG; [|discriminate].
        rewrite <- (assoc_without_length kvs k Hnd (in_map fst _ _ Hin)).
        rewrite int_wrap_decr. f_equal. lia.
      * intros k'. destruct (decide (k' = k)) as [->|Hne].
        -- right. split; [|exact Hmiss].
           intros Hin. apply assoc_without_keys in Hin. tauto.
        -- rewrite (Hfr k' Hne).
           destruct (Hg k') as [(v0 & Hin & HG0)|(Hni & HG0)].
           ++ left. exists v0. split; [|exact HG0]. apply assoc_without_in. auto.
           ++ right. split; [|exact HG0]. intros Hin.
              apply assoc_without_keys in Hin. tauto.
    + destruct (Hsame eq_refl) as [-> ->]. exists kvs. auto.
Qed.


(** X17: in hamt64, [Put] of a key changes no other key: after it, [Get]
    of every other key returns what it returned before. *)
Theorem put_keeps_other_keys64 s h k v :
  reachable s h ->
  exists s' h' ins,
    Put s h k v = Ret (s', h', ins) /\
    forall k', k' <> k -> Get s' h' k' = Get s h k'.
Proof.
  intros Hr.
  destruct (Put_spec64 s h k v (reachable_INV64 s h Hr))
    as (s' & h' & ins & E & _ & _ & Hfr & _).
  exists s', h', ins. auto.
Qed.

(** X18: in hamt64, [Put] reports an insertion exactly when [Get] did not
    find the key before, and [Nentries] grows by one (as a Go [int])
    exactly then. *)
Theorem put_inserted_iff_absent64 s h k v :
  reachable s h ->
  exists s' h' ins x found,
    Put s h k v = Ret (s', h', ins) /\
    Get s h k = Ret (x, found) /\
    ins = negb found /\
    Nentries h' = (if ins then int_incr (Nentries h) else Nentries h).
Proof.
  intros Hr.
  destruct (Put_spec64 s h k v (reachable_INV64 s h Hr))
    as (s' & h' & ins & E & _ & _ & _ & ([x found] & HG & Hi) & Hn).
  exists s', h', ins, x, found. auto.
Qed.

(** X19: in hamt64, [Del] returns what [Get] finds: the same value and
    the same flag; [Nentries] drops by one (as a Go [int]) exactly when
    the key was deleted, and a [Del] that deletes nothing changes
    nothing. *)
Theorem del_returns_what_get_finds64 s h k :
  reachable s h ->
  exists s' h' val del,
    Del s h k = Ret (s', h', val, del) /\
    Get s h k = Ret (val, del) /\
    Nentries h' = (if del then int_decr (Nentries h) else Nentries h) /\
    (del = false -> s' = s /\ h' = h).
Proof.
  intros Hr.
  destruct (Del_spec64 s h k (reachable_INV64 s h Hr))
    as (s' & h' & val & del & E & _ & HG & _ & _ & Hs & Hn).
  exists s', h', val, del. auto.
Qed.

(** X20: in hamt64, after [Del] of a key [Get] of that key returns the
    nil value and [false]. *)
Theorem del_then_get_misses64 s h k :
  reachable s h ->
  exists s' h' val del,
    Del s h k = Ret (s', h', val, del) /\
    Get s' h' k = Ret (nil_value, false).
Proof.
  intros Hr.
  destruct (Del_spec64 s h k (reachable_INV64 s h Hr))
    as (s' & h' & val & del & E & _ & _ & Hm & _).
  exists s', h', val, del. auto.
Qed.

(** X21: in hamt64, [Del] of a key changes no other key: after it, [Get]
    of every other key returns what it returned before. *)
Theorem del_keeps_other_keys64 s h k :
  reachable s h ->
  exists s' h' val del,
    Del s h k = Ret (s', h', val, del) /\
    forall k', k' <> k -> Get s' h' k' = Get s h k'.
Proof.
  intros Hr.
  destruct (Del_spec64 s h k (reachable_INV64 s h Hr))
    as (s' & h' & val & del & E & _ & _ & _ & Hfr & _).
  exists s', h', val, del. auto.
Qed.

(** X22: an in-place map built by [New], [Put] and [Del] is a finite map:
    there is a list of pairs without repeated keys such that [Get] finds
    exactly the keys of the list, each with its value, and [Nentries] is
    the length of the list (as a Go [int]). *)
Theorem reachable_is_finite_map64 s h :
  reachable s h ->
  exists kvs : list (iKey * value),
    NoDup (map fst kvs) /\
    Nentries h = int_wrap (Z.of_nat (length kvs)) /\
    (forall k v, In (k, v) kvs <-> Get s h k = Ret (v, true)) /\
    (forall k, ~ In k (map fst kvs) <-> Get s h k = Ret (nil_value, false)).
Proof.
  intros Hr. destruct (reachable_model64 s h Hr) as (kvs & Hnd & Hn & Hg).
  exists kvs. split; [exact Hnd|]. split; [exact Hn|]. split.
  - intros k v. destruct (Hg k) as [(v0 & Hin & HG0)|(Hni & HG0)]; rewrite HG0.
    + split.
      * intros Hin'. rewrite (assoc_unique kvs k v v0 Hnd Hin' Hin). reflexivity.
      * intros [= ->]. exact Hin.
    + split; [|discriminate]. intros Hin. exfalso. apply Hni.
      apply (in_map fst _ _ Hin).
  - intros k. destruct (Hg k) as [(v0 & Hin & HG0)|(Hni & HG0)]; rewrite HG0.
    + split; [|discriminate]. intros Hni. exfalso. apply Hni.
      apply (in_map fst _ _ Hin).
    + split; [reflexivity|]. intros _. exact Hni.
Qed.

End Hamt64Map.

Section Hamt64MoreSamples.
Import Hamt64.
#[local] Existing Instance Sample.host.
Open Scope string_scope.

Ltac sample_map64 :=
  eapply (reach_put [] _ (New HybridTables) _ (Sample.bytes "a") (Some 1%Z) true);
  [apply (reach_new [] HybridTables)|vm_compute; reflexivity].


Lemma put_keeps_other_keys64_witness :
  exists s h,
    @Put Z Sample.host [] (New HybridTables) (Sample.bytes "a") (Some 1%Z)
    = Ret (s, h, true) /\
    exists s' h' ins,
      Put s h (Sample.bytes "b") (Some 2%Z) = Ret (s', h', ins) /\
      forall k', k' <> Sample.bytes "b" -> Get s' h' k' = Get s h k'.
Proof.
  eexists _, _. split; [vm_compute; reflexivity|].
  apply (@put_keeps_other_keys64 Z Sample.host). sample_map64.
Defined.

Lemma put_inserted_iff_absent64_witness :
  exists s h,
    @Put Z Sample.host [] (New HybridTables) (Sample.bytes "a") (Some 1%Z)
    = Ret (s, h, true) /\
    exists s' h' ins x found,
      Put s h (Sample.bytes "a") (Some 5%Z) = Ret (s', h', ins) /\
      Get s h (Sample.bytes "a") = Ret (x, found) /\
      ins = negb found /\
      Nentries h' = (if ins then int_incr (Nentries h) else Nentries h).
Proof.
  eexists _, _. split; [vm_compute; reflexivity|].
  apply (@put_inserted_iff_absent64 Z Sample.host). sample_map64.
Defined.

Lemma del_returns_what_get_finds64_witness :
  exists s h,
    @Put Z Sample.host [] (New HybridTables) (Sample.bytes "a") (Some 1%Z)
    = Ret (s, h, true) /\
    exists s' h' val del,
      Del s h (Sample.bytes "a") = Ret (s', h', val, del) /\
      Get s h (Sample.bytes "a") = Ret (val, del) /\
      Nentries h' = (if del then int_decr (Nentries h) else Nentries h) /\
      (del = false -> s' = s /\ h' = h).
Proof.
  eexists _, _. split; [vm_compute; reflexivity|].
  apply (@del_returns_what_get_finds64 Z Sample.host). sample_map64.
Defined.

Lemma del_then_get_misses64_witness :
  exists s h,
    @Put Z Sample.host [] (New HybridTables) (Sample.bytes "a") (Some 1%Z)
    = Ret (s, h, true) /\
    exists s' h' val del,
      Del s h (Sample.bytes "a") = Ret (s', h', val, del) /\
      Get s' h' (Sample.bytes "a") = Ret (nil_value, false).
Proof.
  eexists _, _. split; [vm_compute; reflexivity|].
  apply (@del_then_get_misses64 Z Sample.host). sample_map64.
Defined.

Lemma del_keeps_other_keys64_witness :
  exists s h,
    @Put Z Sample.host [] (New HybridTables) (Sample.bytes "a") (Some 1%Z)
    = Ret (s, h, true) /\
    exists s' h' val del,
      Del s h (Sample.bytes "a") = Ret (s', h', val, del) /\
      forall k', k' <> Sample.bytes "a" -> Get s' h' k' = Get s h k'.
Proof.
  eexists _, _. split; [vm_compute; reflexivity|].
  apply (@del_keeps_other_keys64 Z Sample.host). sample_map64.
Defined.

Lemma reachable_is_finite_map64_witness :
  exists s h,
    @Put Z Sample.host [] (New HybridTables) (Sample.bytes "a") (Some 1%Z)
    = Ret (s, h, true) /\
    exists kvs : list (iKey * option Z),
      NoDup (map fst kvs) /\
      Nentries h = int_wrap (Z.of_nat (length kvs)) /\
      (forall k v, In (k, v) kvs <-> Get s h k = Ret (v, true)) /\
      (forall k, ~ In k (map fst kvs) <-> Get s h k = Ret (nil_value, false)).
Proof.
  eexists _, _. split; [vm_compute; reflexivity|].
  apply (@reachable_is_finite_map64 Z Sample.host). sample_map64.
Defined.

End Hamt64MoreSamples.

(** * Compact tries *)

Section Dense.
Context {V : Type} {P : Params} {HH : HostHash}.
Abbreviation value := (@value V).
Abbreviation leaf := (@leaf V).
Abbreviation nodeI := (@nodeI V).
Abbreviation table := (@table V).
Abbreviation store := (list table).
Implicit Types (s : store) (t : table) (n : nodeI) (p q u cur : loc)
  (path : list nat) (stack : tableStack) (hv : hashVal) (k : iKey).

Lemma dense_table s fuel p :
  dense s fuel (tableNode p) <->
  exists fuel' t, fuel = S fuel' /\ s !! p = Some t /\
    2 <= node_pairs s fuel (tableNode p) /\
    forall i, i < indexLimit -> dense s fuel' (table_get t i).
Proof.
  destruct fuel as [|fuel]; simpl.
  - split; [tauto|]. intros (f & t & Hf & _). discriminate.
  - destruct (s !! p) as [t|].
    + split.
      * intros [H2 Hk]. exists fuel, t. auto.
      * intros (f & t' & Hf & Ht & H2 & Hk). injection Hf as <-.
        injection Ht as <-. auto.
    + split; [tauto|]. intros (f & t & _ & Ht & _). discriminate.
Qed.

Lemma dense_nil s fuel : dense s fuel (@nilNode V).
Proof. destruct fuel; exact I. Qed.

Lemma dense_leaf s fuel (l : leaf) : dense s fuel (leafNode l).
Proof. destruct fuel; exact I. Qed.

(** The pairs below a well-formed subtree that cannot hold the table at
    position [pos] are the same after the cell of that table was
    rewritten, and the subtree stays dense. *)
Lemma inplace_frame_pairs s s' u tu pos fuel : forall path n,
  s !! u = Some tu ->
  digits (table_Hash tu) (table_depth tu) = pos ->
  (forall q t, q <> u -> s !! q = Some t -> s' !! q = Some t) ->
  ~ path `prefix_of` pos ->
  wf_node s fuel path n ->
  node_pairs s' fuel n = node_pairs s fuel n /\
  (dense s fuel n -> dense s' fuel n).
Proof.
  induction fuel as [|fuel IH]; intros path n Hu Hpos Hag Hnp Hwf;
    destruct n as [|l|q].
  - rewrite !node_pairs_nil. split; [reflexivity|]. intros _. apply dense_nil.
  - rewrite !node_pairs_leaf. split; [reflexivity|]. intros _. apply dense_leaf.
  - apply wf_node_table in Hwf as (f & t & Hf & _). discriminate.
  - rewrite !node_pairs_nil. split; [reflexivity|]. intros _. apply dense_nil.
  - rewrite !node_pairs_leaf. split; [reflexivity|]. intros _. apply dense_leaf.
  - apply wf_node_table in Hwf as (f & t & Hf & Ht & Hwt & Hd & Hh & Hch).
    injection Hf as <-.
    assert (Hq : q <> u).
    { intros ->. rewrite Hu in Ht. injection Ht as ->.
      apply Hnp. rewrite <- Hpos, Hd, Hh. reflexivity. }
    pose proof (Hag q t Hq Ht) as Ht'.
    assert (Hsub : forall i, ~ (path ++ [i]) `prefix_of` pos).
    { intros i Hp. apply Hnp. etrans; [|exact Hp]. apply prefix_app_r. reflexivity. }
    assert (Hpairs : node_pairs s' (S fuel) (tableNode q)
                     = node_pairs s (S fuel) (tableNode q)).
    { rewrite (node_pairs_table _ _ _ _ Ht'), (node_pairs_table _ _ _ _ Ht).
      f_equal. apply map_ext_in. intros i Hi%in_seq.
      apply (IH (path ++ [i]) _ Hu Hpos Hag (Hsub i)). apply Hch. lia. }
    split; [exact Hpairs|].
    intros Hden. apply dense_table in Hden as (f & t0 & Hf & Ht0 & H2 & Hk).
    injection Hf as <-. rewrite Ht in Ht0. injection Ht0 as <-.
    apply dense_table. exists fuel, t. split; [reflexivity|]. split; [exact Ht'|].
    split; [rewrite Hpairs; exact H2|].
    intros i Hi. apply (IH (path ++ [i]) _ Hu Hpos Hag (Hsub i) (Hch i Hi)), Hk, Hi.
Qed.

Lemma dense_mono s s' fuel n :
  s `prefix_of` s' -> closed s fuel n -> dense s fuel n -> dense s' fuel n.
Proof.
  intros Hpre. revert n. induction fuel as [|fuel IH]; intros n Hcl Hd;
    destruct n as [|l|p]; try exact I.
  - apply dense_table in Hd as (f & t & Hf & _). discriminate.
  - pose proof Hcl as Hcl0.
    apply closed_table in Hcl as (f & t & Hf & Ht & _ & _ & Hc).
    injection Hf as <-.
    apply dense_table in Hd as (f & t0 & Hf & Ht0 & H2 & Hk).
    injection Hf as <-. rewrite Ht in Ht0. injection Ht0 as <-.
    apply dense_table. exists fuel, t. split; [reflexivity|].
    split; [eapply prefix_lookup; eassumption|]. split.
    + rewrite (node_pairs_mono s s' (S fuel) (S fuel)); auto.
    + intros i Hi. apply IH; auto.
Qed.

(** A leaf holds a pair. *)
Lemma wf_leaf_pairs path (l : leaf) : wf_leaf path l -> 1 <= length (keyVals l).
Proof.
  intros [_ Hl]. destruct l as [k v|h kvs]; simpl in *; lia.
Qed.

(** A slot that is not empty holds a pair. *)
Lemma nonnil_pairs s fuel path n :
  wf_node s fuel path n -> dense s fuel n -> is_nil n = false ->
  1 <= node_pairs s fuel n.
Proof.
  intros Hwf Hd Hn. destruct n as [|l|p]; [discriminate| |].
  - rewrite node_pairs_leaf. apply wf_node_leaf in Hwf.
    eapply wf_leaf_pairs; eassumption.
  - apply dense_table in Hd as (f & t & _ & _ & H2 & _). lia.
Qed.

(** The pairs below the table [u], one slot of which was rewritten in
    place. *)
Lemma inplace_local_pairs s s' hv u tu tu' (d fc idx : nat) n' :
  s !! u = Some tu -> s' !! u = Some tu' ->
  (forall q t, q <> u -> s !! q = Some t -> s' !! q = Some t) ->
  wf_node s (S fc) (digits hv d) (tableNode u) ->
  idx < indexLimit ->
  (forall j, j < indexLimit ->
     table_get tu' j = if bool_decide (idx = j) then n' else table_get tu j) ->
  node_pairs s' (S fc) (tableNode u) + node_pairs s fc (table_get tu idx)
  = node_pairs s (S fc) (tableNode u) + node_pairs s' fc n' /\
  forall j, j < indexLimit -> j <> idx ->
    dense s fc (table_get tu j) -> dense s' fc (table_get tu' j).
Proof.
  intros Hu Hu' Hag Hwf Hidx Hg.
  apply wf_node_table in Hwf as (f & t & Hf & Ht & Hwt & Hd & Hh & Hch).
  injection Hf as <-. rewrite Hu in Ht. injection Ht as <-.
  assert (Hpos : digits (table_Hash tu) (table_depth tu) = digits hv d).
  { rewrite Hd, length_digits in *. exact Hh. }
  assert (Hfr : forall i, i < indexLimit ->
            node_pairs s' fc (table_get tu i) = node_pairs s fc (table_get tu i) /\
            (dense s fc (table_get tu i) -> dense s' fc (table_get tu i))).
  { intros i Hi.
    apply (inplace_frame_pairs s s' u tu (digits hv d) fc (digits hv d ++ [i]) _
             Hu Hpos Hag); [|apply Hch, Hi].
    intros Hp. apply prefix_length in Hp. rewrite length_app in Hp.
    simpl in Hp. lia. }
  split.
  - rewrite (node_pairs_table _ _ _ _ Hu'), (node_pairs_table _ _ _ _ Hu).
    pose proof (sum_seq_update
                  (fun j => node_pairs s fc (table_get tu j))
                  (fun j => node_pairs s' fc (table_get tu' j))
                  0 indexLimit idx ltac:(lia)) as Hs.
    simpl in Hs. rewrite (Hg idx Hidx), bool_decide_eq_true_2 in Hs by reflexivity.
    apply Hs. intros j Hj Hne. rewrite (Hg j) by lia.
    rewrite bool_decide_eq_false_2 by congruence. apply Hfr. lia.
  - intros j Hj Hne Hden. rewrite (Hg j Hj), bool_decide_eq_false_2 by congruence.
    apply (Hfr j Hj), Hden.
Qed.

Lemma sum_pos (f : nat -> nat) (a len : nat) :
  1 <= sum_list (map f (seq a len)) -> exists i, a <= i < a + len /\ 1 <= f i.
Proof.
  revert a. induction len as [|len IH]; intros a; simpl; [lia|].
  intros H. destruct (decide (1 <= f a)) as [Ha|Ha].
  - exists a. split; [lia|exact Ha].
  - destruct (IH (S a)) as (i & Hi & Hf); [lia|]. exists i. split; [lia|exact Hf].
Qed.

Lemma leaf_found path (l : leaf) :
  wf_leaf path l ->
  exists k, digits (Hash k) (length path) = path /\ (leaf_get l k).2 = true.
Proof.
  intros [Hd Hl]. destruct l as [k v|h kvs]; simpl in *.
  - exists k. split; [exact Hd|]. rewrite key_equals_refl. reflexivity.
  - destruct Hl as [H2 Hall]. destruct kvs as [|[k1 v1] kvs]; [simpl in H2; lia|].
    inversion Hall as [|? ? Hh _]; subst. simpl in Hd. exists k1.
    split; [exact Hd|]. simpl. rewrite key_equals_refl. reflexivity.
Qed.

(** A subtree that holds a pair holds a key that the walk finds. *)
Lemma pairs_found s fuel : forall path n,
  wf_node s fuel path n -> 1 <= node_pairs s fuel n ->
  exists k, digits (Hash k) (length path) = path /\
            (tree_get s k fuel (length path) n).2 = true.
Proof.
  induction fuel as [|fuel IH]; intros path n Hwf Hp; destruct n as [|l|p].
  - rewrite node_pairs_nil in Hp. lia.
  - apply wf_node_leaf, leaf_found in Hwf as (k & Hd & Hf).
    exists k. rewrite tree_get_leaf. auto.
  - apply wf_node_table in Hwf as (f & t & Hf & _). discriminate.
  - rewrite node_pairs_nil in Hp. lia.
  - apply wf_node_leaf, leaf_found in Hwf as (k & Hd & Hf).
    exists k. rewrite tree_get_leaf. auto.
  - apply wf_node_table in Hwf as (f & t & Hf & Ht & Hwt & Hd & Hh & Hch).
    injection Hf as <-. rewrite (node_pairs_table _ _ _ _ Ht) in Hp.
    apply sum_pos in Hp as (i & Hi & Hpi).
    destruct (IH (path ++ [i]) _ (Hch i ltac:(lia)) Hpi) as (k & Hdk & Hfound).
    rewrite length_app in Hdk, Hfound. simpl in Hdk, Hfound.
    rewrite Nat.add_1_r in Hdk, Hfound. rewrite digits_S in Hdk.
    apply app_inj_tail in Hdk as [Hdk Hik].
    exists k. split; [exact Hdk|].
    rewrite (tree_get_table _ _ _ _ _ _ Ht), Hik. exact Hfound.
Qed.

(** The slots of the walk, from the table it stands on up to the root,
    are dense when the slots off the walk are. *)
Lemma dense_unchain s hv : forall stack cur,
  chain s hv cur stack ->
  wf_node s depthLimit [] (tableNode (root_of cur stack)) ->
  dense_off s hv stack ->
  stack <> [] ->
  dense s (depthLimit - length stack) (tableNode cur) ->
  2 <= node_pairs s depthLimit (tableNode (root_of cur stack)) /\
  exists t, s !! root_of cur stack = Some t /\
    forall i, i < indexLimit -> dense s (depthLimit - 1) (table_get t i).
Proof.
  induction stack as [|par rest IH]; intros cur Hch Hwf Hoff Hne Hden;
    [congruence|].
  simpl root_of in *. simpl length in *.
  destruct Hch as [(tp & Htp & Hslot) Hchp].
  destruct Hoff as [(tp0 & Htp0 & Hoffp) Hoff].
  rewrite Htp in Htp0. injection Htp0 as <-.
  destruct (chain_wf s hv par rest Hchp Hwf) as [Hlr Hwp].
  assert (Hkids : forall i, i < indexLimit ->
            dense s (depthLimit - S (length rest)) (table_get tp i)).
  { intros i Hi. destruct (decide (i = Index hv (length rest))) as [->|Hni].
    - rewrite Hslot. exact Hden.
    - apply Hoffp; assumption. }
  assert (Hpairs : 2 <= node_pairs s (depthLimit - length rest) (tableNode par)).
  { replace (depthLimit - length rest) with (S (depthLimit - S (length rest)))
      by lia.
    rewrite (node_pairs_table _ _ _ _ Htp).
    pose proof (sum_seq_ge
                  (fun i => node_pairs s (depthLimit - S (length rest)) (table_get tp i))
                  0 indexLimit (Index hv (length rest))
                  ltac:(pose proof (Index_lt hv (length rest)); lia)) as Hge.
    simpl in Hge. rewrite Hslot in Hge.
    apply dense_table in Hden as (f & t & _ & _ & H2 & _). lia. }
  destruct rest as [|gp rest'].
  - simpl in *. rewrite Nat.sub_0_r in Hpairs. split; [exact Hpairs|].
    exists tp. split; [exact Htp|exact Hkids].
  - apply (IH par Hchp Hwf Hoff); [discriminate|].
    apply dense_table. exists (depthLimit - S (length (gp :: rest'))), tp.
    split; [lia|]. split; [exact Htp|]. split; [exact Hpairs|exact Hkids].
Qed.

(** On a trie whose tables below the root are dense, the slots off the
    walk are dense and so is the table the walk stands on. *)
Lemma dense_chain s hv : forall stack cur,
  chain s hv cur stack ->
  wf_node s depthLimit [] (tableNode (root_of cur stack)) ->
  (exists t, s !! root_of cur stack = Some t /\
     forall i, i < indexLimit -> dense s (depthLimit - 1) (table_get t i)) ->
  dense_off s hv stack /\
  (exists tc, s !! cur = Some tc /\
     forall i, i < indexLimit ->
       dense s (depthLimit - S (length stack)) (table_get tc i)) /\
  (stack <> [] -> dense s (depthLimit - length stack) (tableNode cur)).
Proof.
  induction stack as [|par rest IH]; intros cur Hch Hwf Hroot.
  - simpl in *. split; [exact I|]. split; [exact Hroot|congruence].
  - simpl root_of in *. simpl length in *.
    destruct Hch as [(tp & Htp & Hslot) Hchp].
    destruct (IH par Hchp Hwf Hroot) as (Hoff & (tp0 & Htp0 & Hkids) & _).
    rewrite Htp in Htp0. injection Htp0 as <-.
    pose proof (Hkids _ (Index_lt hv (length rest))) as Hcur.
    rewrite Hslot in Hcur.
    split; [|split; [|intros _; exact Hcur]].
    + split; [|exact Hoff]. exists tp. split; [exact Htp|].
      intros i Hi _. apply Hkids, Hi.
    + apply dense_table in Hcur as (f & tc & Hf & Htc & _ & Hk).
      exists tc. split; [exact Htc|].
      replace (depthLimit - S (S (length rest))) with f by lia. exact Hk.
Qed.

(** The slots off the walk stay dense when a table at or below the one
    the walk stands on is rewritten in place. *)
Lemma dense_off_frame s s' hv c tc pos : forall stack cur,
  s !! c = Some tc ->
  digits (table_Hash tc) (table_depth tc) = pos ->
  (forall q t, q <> c -> s !! q = Some t -> s' !! q = Some t) ->
  digits hv (length stack) `prefix_of` pos ->
  chain s hv cur stack ->
  wf_node s depthLimit [] (tableNode (root_of cur stack)) ->
  dense_off s hv stack -> dense_off s' hv stack.
Proof.
  induction stack as [|par rest IH]; intros cur Hc Hpos Hag Hpre Hch Hwf Hoff;
    [exact I|].
  simpl root_of in *. simpl length in *.
  destruct Hch as [(tp & Htp & Hslot) Hchp].
  destruct Hoff as [(tp0 & Htp0 & Hoffp) Hoff].
  rewrite Htp in Htp0. injection Htp0 as <-.
  destruct (chain_wf s hv par rest Hchp Hwf) as [Hlr Hwp].
  replace (depthLimit - length rest) with (S (depthLimit - S (length rest)))
    in Hwp by lia.
  apply wf_node_table in Hwp as (f & t & Hf & Ht & Hwt & Hd & Hh & Hkids).
  injection Hf as <-. rewrite Htp in Ht. injection Ht as <-.
  rewrite length_digits in Hd, Hh.
  assert (Hpc : par <> c).
  { intros ->. rewrite Hc in Htp. injection Htp as ->.
    apply prefix_length in Hpre. rewrite <- Hpos, Hd, !length_digits in Hpre. lia. }
  split.
  - exists tp. split; [apply Hag; assumption|].
    intros i Hi Hni.
    apply (inplace_frame_pairs s s' c tc pos _ (digits hv (length rest) ++ [i]) _
             Hc Hpos Hag); [|apply Hkids, Hi|apply Hoffp; assumption].
    intros Hp. apply Hni.
    destruct Hpre as [r1 E1]. destruct Hp as [r2 E2].
    rewrite digits_S in E1. rewrite E1, <- !app_assoc in E2.
    apply app_inv_head in E2. simpl in E2. congruence.
  - apply (IH par Hc Hpos Hag); try assumption.
    etrans; [|exact Hpre]. rewrite digits_S. apply prefix_app_r. reflexivity.
Qed.

Lemma dense_off_mono s s' hv : forall stack cur,
  s `prefix_of` s' ->
  chain s hv cur stack ->
  wf_node s depthLimit [] (tableNode (root_of cur stack)) ->
  dense_off s hv stack -> dense_off s' hv stack.
Proof.
  induction stack as [|par rest IH]; intros cur Hpre Hch Hwf Hoff; [exact I|].
  simpl root_of in *. simpl length in *.
  destruct Hch as [(tp & Htp & Hslot) Hchp].
  destruct Hoff as [(tp0 & Htp0 & Hoffp) Hoff].
  rewrite Htp in Htp0. injection Htp0 as <-.
  destruct (chain_wf s hv par rest Hchp Hwf) as [Hlr Hwp].
  replace (depthLimit - length rest) with (S (depthLimit - S (length rest)))
    in Hwp by lia.
  apply wf_node_table in Hwp as (f & t & Hf & Ht & Hwt & Hd & Hh & Hkids).
  injection Hf as <-. rewrite Htp in Ht. injection Ht as <-.
  split.
  - exists tp. split; [eapply prefix_lookup; eassumption|].
    intros i Hi Hni. apply (dense_mono s); [exact Hpre| |apply Hoffp; assumption].
    eapply wf_node_closed; [|apply Hkids, Hi].
    rewrite length_app, length_digits. simpl. lia.
  - apply (IH par Hpre Hchp Hwf Hoff).
Qed.

(** The slot of the walk rewritten in place: the slots off the walk and
    the other slots of the table stay dense, and the pairs below the table
    change as the pairs in the slot do. *)
Lemma slot_dense s s' hv cur stack tc tc' (fc : nat) n' :
  chain s hv cur stack ->
  wf_node s depthLimit [] (tableNode (root_of cur stack)) ->
  depthLimit - length stack = S fc ->
  s !! cur = Some tc -> s' !! cur = Some tc' ->
  (forall q t, q <> cur -> s !! q = Some t -> s' !! q = Some t) ->
  (forall j, j < indexLimit ->
     table_get tc' j = if bool_decide (Index hv (length stack) = j) then n'
                       else table_get tc j) ->
  dense_off s hv stack ->
  (forall i, i < indexLimit -> i <> Index hv (length stack) ->
     dense s fc (table_get tc i)) ->
  dense_off s' hv stack /\
  (forall i, i < indexLimit -> i <> Index hv (length stack) ->
     dense s' fc (table_get tc' i)) /\
  node_pairs s' (S fc) (tableNode cur)
    + node_pairs s fc (table_get tc (Index hv (length stack)))
  = node_pairs s (S fc) (tableNode cur) + node_pairs s' fc n'.
Proof.
  intros Hch Hwf Hfc Hc Hc' Hag Hg Hoff Hkids.
  destruct (chain_wf s hv cur stack Hch Hwf) as [Hlen Hwc].
  rewrite Hfc in Hwc. pose proof Hwc as Hwc0.
  apply wf_node_table in Hwc as (f & t & _ & Ht & _ & Hd & Hh & _).
  rewrite Hc in Ht. injection Ht as <-. rewrite length_digits in Hd, Hh.
  destruct (inplace_local_pairs s s' hv cur tc tc' (length stack) fc
              (Index hv (length stack)) n' Hc Hc' Hag Hwc0 (Index_lt _ _) Hg)
    as [Hsum Hothers].
  split; [|split; [|exact Hsum]].
  - apply (dense_off_frame s s' hv cur tc (digits hv (length stack)) stack cur);
      auto. rewrite Hd. exact Hh.
  - intros i Hi Hni. apply Hothers; auto.
Qed.

(** A table replaced by another with the same children, at the root: the
    children stay dense and the pairs are the same. *)
Lemma regrade_root_dense s cur tc T' (fc : nat) :
  depthLimit = S fc ->
  wf_node s depthLimit [] (tableNode cur) ->
  s !! cur = Some tc ->
  (forall j, table_get T' j = table_get tc j) ->
  (forall i, i < indexLimit -> dense s fc (table_get tc i)) ->
  (forall i, i < indexLimit -> dense (s ++ [T']) fc (table_get T' i)) /\
  node_pairs (s ++ [T']) depthLimit (tableNode (length s))
  = node_pairs s depthLimit (tableNode cur).
Proof.
  intros HD Hwf Hc Hg Hkids. rewrite HD in *.
  assert (Hpre : s `prefix_of` (s ++ [T'])) by (apply prefix_app_r; reflexivity).
  assert (Hnt : (s ++ [T']) !! length s = Some T').
  { rewrite lookup_app_r by lia. rewrite Nat.sub_diag. reflexivity. }
  apply wf_node_table in Hwf as (f & t & Hf & Ht & Hwt & Hd & Hh & Hch).
  injection Hf as <-. rewrite Hc in Ht. injection Ht as <-.
  assert (Hcl : forall i, i < indexLimit -> closed s fc (table_get tc i)).
  { intros i Hi. eapply wf_node_closed; [|apply Hch, Hi]. simpl. lia. }
  split.
  - intros i Hi. rewrite Hg. apply (dense_mono s); auto.
  - rewrite (node_pairs_table _ _ _ _ Hnt), (node_pairs_table _ _ _ _ Hc).
    f_equal. apply map_ext_in. intros i Hi%in_seq. rewrite Hg.
    apply node_pairs_mono; [exact Hpre|lia|apply Hcl; lia].
Qed.

(** A table replaced by another with the same children, below the root. *)
Lemma regrade_inner_dense s hv cur par rest tc tp T' (fc : nat) :
  chain s hv cur (par :: rest) ->
  wf_node s depthLimit [] (tableNode (root_of par rest)) ->
  depthLimit - S (length rest) = S fc ->
  s !! cur = Some tc -> s !! par = Some tp ->
  (forall j, table_get T' j = table_get tc j) ->
  dense_off s hv (par :: rest) ->
  (forall i, i < indexLimit -> dense s fc (table_get tc i)) ->
  let s3 := <[par := table_set tp (Index hv (length rest))
                       (tableNode (length s))]> (s ++ [T']) in
  dense_off s3 hv (par :: rest) /\
  (forall i, i < indexLimit -> dense s3 fc (table_get T' i)) /\
  node_pairs s3 (S fc) (tableNode (length s))
  = node_pairs s (S fc) (tableNode cur).
Proof.
  intros Hch Hwf Hfc Hc Hp Hg Hoff Hkids s3.
  set (s2 := s ++ [T']).
  set (nt := length s).
  assert (Hpre : s `prefix_of` s2) by (apply prefix_app_r; reflexivity).
  assert (Hnt : s2 !! nt = Some T').
  { unfold s2, nt. rewrite lookup_app_r by lia. rewrite Nat.sub_diag. reflexivity. }
  assert (Hplt : par < length s) by (apply lookup_lt_is_Some; eauto).
  assert (Hp2 : s2 !! par = Some tp) by (eapply prefix_lookup; eassumption).
  assert (Hp3 : s3 !! par
                = Some (table_set tp (Index hv (length rest)) (tableNode nt))).
  { unfold s3. apply list_lookup_insert_eq. apply lookup_lt_is_Some. eauto. }
  assert (Hag : forall q t, q <> par -> s2 !! q = Some t -> s3 !! q = Some t).
  { intros q t Hq Ht. unfold s3. rewrite list_lookup_insert_ne by auto. exact Ht. }
  assert (Hnt3 : s3 !! nt = Some T') by (apply Hag; [unfold nt; lia|exact Hnt]).
  pose proof Hch as Hch0. destruct Hch as [(tp0 & Htp0 & Hslot) Hchp].
  rewrite Hp in Htp0. injection Htp0 as <-.
  destruct Hoff as [(tp0 & Htp0 & Hoffp) Hoff].
  rewrite Hp in Htp0. injection Htp0 as <-.
  destruct (chain_wf s hv par rest Hchp Hwf) as [Hlr Hwp].
  destruct (chain_wf s hv cur (par :: rest) Hch0 Hwf) as [_ Hwc].
  simpl length in Hwc. rewrite Hfc in Hwc.
  pose proof Hwp as Hwp0.
  apply wf_node_table in Hwp as (fp & t & Hfp & Ht & Hwtp & Hdp & Hhp & Hkp).
  rewrite Hp in Ht. injection Ht as <-. rewrite length_digits in Hdp, Hhp.
  apply wf_node_table in Hwc as (f & t & Hf & Ht & Hwt & Hd & Hh & Hkc).
  injection Hf as <-. rewrite Hc in Ht. injection Ht as <-.
  assert (Hpos : digits (table_Hash tp) (table_depth tp) = digits hv (length rest))
    by (rewrite Hdp; exact Hhp).
  assert (Hfp' : fp = S fc) by lia. subst fp.
  destruct (slot_dense s2 s3 hv par rest tp
              (table_set tp (Index hv (length rest)) (tableNode nt))
              (S fc) (tableNode nt))
    as (Hoff3 & Hoth3 & _).
  - apply (chain_mono s); assumption.
  - apply (wf_node_mono s); assumption.
  - lia.
  - exact Hp2.
  - exact Hp3.
  - exact Hag.
  - intros j Hj. apply table_get_set; [exact Hwtp|apply Index_lt|exact Hj].
  - apply (dense_off_mono s s2 hv rest par); assumption.
  - intros i Hi Hni. apply (dense_mono s); [exact Hpre| |].
    + eapply wf_node_closed; [|apply Hkp, Hi].
      rewrite length_app, length_digits. simpl. lia.
    + replace (S fc) with (depthLimit - S (length rest)) by lia.
      apply Hoffp; assumption.
  - assert (Hfr : forall i, i < indexLimit ->
              node_pairs s3 fc (table_get tc i) = node_pairs s fc (table_get tc i) /\
              (dense s fc (table_get tc i) -> dense s3 fc (table_get tc i))).
    { intros i Hi.
      assert (Hcl : closed s fc (table_get tc i)).
      { eapply wf_node_closed; [|apply Hkc, Hi].
        rewrite length_app, length_digits. simpl. lia. }
      destruct (inplace_frame_pairs s2 s3 par tp (digits hv (length rest)) fc
                  (digits hv (S (length rest)) ++ [i]) (table_get tc i)
                  Hp2 Hpos Hag) as [Hn Hdn].
      - intros Hpf. apply prefix_length in Hpf.
        rewrite length_app, !length_digits in Hpf. simpl in Hpf. lia.
      - apply (wf_node_mono s); [exact Hpre|apply Hkc, Hi].
      - split.
        + rewrite Hn. apply node_pairs_mono; [exact Hpre|lia|exact Hcl].
        + intros Hd0. apply Hdn. apply (dense_mono s); assumption. }
    split; [|split].
    + split; [|exact Hoff3]. eexists. split; [exact Hp3|].
      intros i Hi Hni. replace (depthLimit - S (length rest)) with (S fc) by lia.
      apply Hoth3; assumption.
    + intros i Hi. rewrite Hg. apply (Hfr i Hi), Hkids, Hi.
    + rewrite (node_pairs_table _ _ _ _ Hnt3), (node_pairs_table _ _ _ _ Hc).
      f_equal. apply map_ext_in. intros i Hi%in_seq. rewrite Hg.
      apply Hfr. lia.
Qed.

(** The pairs below a table with dense children. *)
Lemma table_pairs_one s (fc : nat) path p t :
  s !! p = Some t -> wf_table t ->
  (forall i, i < indexLimit -> wf_node s fc (path ++ [i]) (table_get t i)) ->
  (forall i, i < indexLimit -> dense s fc (table_get t i)) ->
  table_nentries t <> 0 ->
  1 <= node_pairs s (S fc) (tableNode p).
Proof.
  intros Hp Hwt Hwf Hden Hne.
  rewrite (table_nentries_entries t Hwt) in Hne.
  destruct (table_entries t) as [|[i e] ents] eqn:Ee; [simpl in Hne; lia|].
  assert (Hin : (i, e) ∈ table_entries t) by (rewrite Ee; left).
  apply elem_of_table_entries in Hin as (Hi & Hg & Hnn).
  rewrite (node_pairs_table _ _ _ _ Hp).
  pose proof (sum_seq_ge (fun j => node_pairs s fc (table_get t j)) 0 indexLimit i
                ltac:(lia)) as Hge.
  simpl in Hge.
  pose proof (nonnil_pairs s fc _ _ (Hwf i Hi) (Hden i Hi)) as H1.
  rewrite Hg in H1. specialize (H1 Hnn). rewrite Hg in Hge. lia.
Qed.

Lemma table_pairs_two s (fc : nat) path p t :
  s !! p = Some t -> wf_table t ->
  (forall i, i < indexLimit -> wf_node s fc (path ++ [i]) (table_get t i)) ->
  (forall i, i < indexLimit -> dense s fc (table_get t i)) ->
  2 <= table_nentries t ->
  2 <= node_pairs s (S fc) (tableNode p).
Proof.
  intros Hp Hwt Hwf Hden Hne.
  rewrite (table_nentries_entries t Hwt) in Hne.
  pose proof (NoDup_table_entries_fst t) as Hnd.
  destruct (table_entries t) as [|[i e] [|[j e'] ents]] eqn:Ee;
    [simpl in Hne; lia|simpl in Hne; lia|].
  assert (Hin : (i, e) ∈ table_entries t) by (rewrite Ee; left).
  assert (Hin' : (j, e') ∈ table_entries t) by (rewrite Ee; right; left).
  apply elem_of_table_entries in Hin as (Hi & Hg & Hnn).
  apply elem_of_table_entries in Hin' as (Hj & Hg' & Hnn').
  assert (Hij : i <> j).
  { simpl in Hnd. apply list.NoDup_cons in Hnd as [Hni _].
    intros ->. apply Hni. left. }
  rewrite (node_pairs_table _ _ _ _ Hp).
  pose proof (sum_seq_ge2 (fun x => node_pairs s fc (table_get t x)) 0 indexLimit i j
                ltac:(lia) ltac:(lia) Hij) as Hge.
  simpl in Hge.
  pose proof (nonnil_pairs s fc _ _ (Hwf i Hi) (Hden i Hi)) as H1.
  pose proof (nonnil_pairs s fc _ _ (Hwf j Hj) (Hden j Hj)) as H2.
  rewrite Hg in H1. rewrite Hg' in H2. specialize (H1 Hnn). specialize (H2 Hnn').
  rewrite Hg, Hg' in Hge. lia.
Qed.

Lemma table_pairs_sub s (fc : nat) p t (i : nat) q :
  s !! p = Some t -> i < indexLimit -> table_get t i = tableNode q ->
  dense s fc (tableNode q) ->
  2 <= node_pairs s (S fc) (tableNode p).
Proof.
  intros Hp Hi Hg Hden.
  rewrite (node_pairs_table _ _ _ _ Hp).
  pose proof (sum_seq_ge (fun j => node_pairs s fc (table_get t j)) 0 indexLimit i
                ltac:(lia)) as Hge.
  simpl in Hge. rewrite Hg in Hge.
  apply dense_table in Hden as (f & t0 & _ & _ & H2 & _). lia.
Qed.

(** The table built for two leaves is dense. *)
Lemma createTable_rec_dense fixed fuel s depth (leaf1 : leaf) k (v : value) s' p :
  fuel + depth = lastLevel -> 0 < depthLimit ->
  wf_leaf (digits (Hash k) depth) leaf1 ->
  leaf_Hash leaf1 <> Hash k ->
  createTable_rec fixed fuel s depth (hashPath (Hash k) depth) leaf1 (flatLeaf k v)
    = (s', p) ->
  dense s' (S fuel) (tableNode p).
Proof.
  revert s depth s' p. induction fuel as [|fuel IH];
    intros s depth s' p Hfd Hdl Hl1 Hne Hct;
    destruct (createTable_rec_spec fixed _ s depth leaf1 k v s' p Hfd Hdl Hl1 Hne Hct)
      as (_ & Hwf & Hpairs & _);
    pose proof (wf_leaf_pairs _ _ Hl1) as Hlp;
    pose proof Hwf as Hwf0;
    apply wf_node_table in Hwf as (f & t & Hf & Ht & Hwt & _ & _ & Hkids);
    injection Hf as <-;
    (apply dense_table; eexists _, t; split; [reflexivity|]; split; [exact Ht|];
     split; [lia|]).
  - intros i Hi. specialize (Hkids i Hi).
    destruct (table_get t i) as [|l|q]; [apply dense_nil|apply dense_leaf|].
    apply wf_node_table in Hkids as (f & _ & Hf & _). discriminate.
  - revert Hct. rewrite createTable_rec_unfold. cbv zeta. simpl leaf_Hash.
    pose proof Hl1 as [Hd1 _]. rewrite length_digits in Hd1.
    pose proof (Index_lt (leaf_Hash leaf1) depth) as Hi1.
    pose proof (Index_lt (Hash k) depth) as Hi2.
    case_bool_decide as Hidx.
    + destruct (createTable_rec fixed fuel s (S depth)
                  (BuildHashPath (hashPath (Hash k) depth)
                                 (Index (leaf_Hash leaf1) depth) depth)
                  leaf1 (flatLeaf k v)) as [s1 p1] eqn:Hrec.
      intros Ha. rewrite Hidx, <- hashPath_S in Hrec.
      assert (Hl1' : wf_leaf (digits (Hash k) (S depth)) leaf1).
      { rewrite digits_S, <- Hidx.
        pose proof (wf_leaf_extend _ _ Hl1) as He.
        rewrite length_digits in He. exact He. }
      assert (Hfd' : fuel + S depth = lastLevel) by lia.
      pose proof (IH s (S depth) s1 p1 Hfd' Hdl Hl1' Hne Hrec) as Hden1.
      destruct (createTable_rec_spec fixed _ s (S depth) leaf1 k v s1 p1
                  Hfd' Hdl Hl1' Hne Hrec) as (_ & Hwf1 & _).
      apply alloc_spec in Ha as (_ & _ & Hp & Hpre).
      rewrite Ht in Hp. injection Hp as ->.
      destruct (single_table_spec fixed depth (hashPath (Hash k) depth)
                  (Index (leaf_Hash leaf1) depth) (@tableNode V p1))
        as (_ & _ & _ & _ & Hg); auto.
      intros i Hi. rewrite Hg. case_bool_decide; [|apply dense_nil].
      apply (dense_mono s1); [exact Hpre| |exact Hden1].
      eapply wf_node_closed; [|exact Hwf1].
      rewrite length_digits. unfold maxDepth in Hfd'. lia.
    + intros Ha. apply alloc_spec in Ha as (_ & _ & Hp & Hpre).
      rewrite Ht in Hp. injection Hp as ->.
      destruct (pair_table_spec fixed depth (hashPath (Hash k) depth)
                  (Index (leaf_Hash leaf1) depth) (leafNode leaf1)
                  (Index (Hash k) depth) (leafNode (flatLeaf k v)))
        as (_ & _ & _ & _ & Hg); auto.
      intros i Hi. rewrite Hg. repeat case_bool_decide;
        first [apply dense_leaf|apply dense_nil].
Qed.

End Dense.

Section DenseSlot.
Context {V : Type} {P : Params} {HH : HostHash}.
Abbreviation value := (@value V).
Abbreviation leaf := (@leaf V).
Abbreviation nodeI := (@nodeI V).
Abbreviation table := (@table V).
Abbreviation store := (list table).
Implicit Types (s : store) (t : table) (n : nodeI) (p q u cur : loc)
  (path : list nat) (stack : tableStack) (hv : hashVal) (k : iKey).

(** The slot of the walk rewritten in place with a dense node that holds
    no fewer pairs than the slot did. *)
Lemma slot_grow_dense s s' hv cur stack tc tc' (fc : nat) n' :
  chain s hv cur stack ->
  wf_node s depthLimit [] (tableNode (root_of cur stack)) ->
  depthLimit - length stack = S fc ->
  s !! cur = Some tc -> s' !! cur = Some tc' ->
  (forall q t, q <> cur -> s !! q = Some t -> s' !! q = Some t) ->
  (forall j, j < indexLimit ->
     table_get tc' j = if bool_decide (Index hv (length stack) = j) then n'
                       else table_get tc j) ->
  dense_off s hv stack ->
  (forall i, i < indexLimit -> dense s fc (table_get tc i)) ->
  (stack <> [] -> 2 <= node_pairs s (S fc) (tableNode cur)) ->
  dense s' fc n' ->
  1 <= node_pairs s' fc n' ->
  node_pairs s fc (table_get tc (Index hv (length stack))) <= node_pairs s' fc n' ->
  dense_off s' hv stack /\
  (forall i, i < indexLimit -> dense s' fc (table_get tc' i)) /\
  (stack <> [] -> 2 <= node_pairs s' (S fc) (tableNode cur)) /\
  1 <= node_pairs s' (S fc) (tableNode cur).
Proof.
  intros Hch Hwf Hfc Hc Hc' Hag Hg Hoff Hkids H2 Hn' H1 Hle.
  destruct (slot_dense s s' hv cur stack tc tc' fc n' Hch Hwf Hfc Hc Hc' Hag Hg Hoff)
    as (Hoff' & Hoth & Hsum).
  { intros i Hi _. apply Hkids, Hi. }
  assert (Hold : node_pairs s fc (table_get tc (Index hv (length stack)))
                 <= node_pairs s (S fc) (tableNode cur)).
  { rewrite (node_pairs_table _ _ _ _ Hc).
    apply (sum_seq_ge (fun j => node_pairs s fc (table_get tc j)) 0 indexLimit).
    pose proof (Index_lt hv (length stack)). lia. }
  split; [exact Hoff'|]. split; [|split].
  - intros i Hi. destruct (decide (i = Index hv (length stack))) as [->|Hni].
    + rewrite (Hg _ Hi), bool_decide_eq_true_2 by reflexivity. exact Hn'.
    + apply Hoth; assumption.
  - intros Hne. specialize (H2 Hne). lia.
  - lia.
Qed.

End DenseSlot.

(** * The in-place map stays compact *)

Section Hamt64Compact.
Import Hamt64.
Context {V : Type} {HH : HostHash}.
Abbreviation value := (@value V).
Abbreviation leaf := (@leaf V).
Abbreviation nodeI := (@nodeI V).
Abbreviation table := (@table V).
Abbreviation store := (list table).
Implicit Types (s : store) (t : table) (n : nodeI) (p q cur : loc)
  (stack : tableStack) (hv : hashVal) (k : iKey) (h : Hamt).

(** A trie is compact when the slots off some walk are dense, and the
    table the walk stands on has dense slots and holds its share of
    pairs. *)
Lemma walk_compact s h hv cur path tc (fc : nat) :
  chain s hv cur path ->
  wf_node s depthLimit [] (tableNode (root_of cur path)) ->
  root h = Some (root_of cur path) ->
  depthLimit - length path = S fc ->
  s !! cur = Some tc ->
  dense_off s hv path ->
  (forall i, i < indexLimit -> dense s fc (table_get tc i)) ->
  (path <> [] -> 2 <= node_pairs s (S fc) (tableNode cur)) ->
  1 <= node_pairs s (S fc) (tableNode cur) ->
  compact s h.
Proof.
  intros Hch Hwf Hroot Hfc Hc Hoff Hkids H2 H1.
  unfold compact. rewrite Hroot. destruct path as [|par rest].
  - simpl in *. rewrite depthLimit64 in *.
    assert (fc = maxDepth) as -> by lia.
    split; [exact H1|]. exists tc. auto.
  - destruct (dense_unchain s hv (par :: rest) cur Hch Hwf Hoff ltac:(discriminate))
      as (Hp & t & Ht & Hk).
    + rewrite Hfc. apply dense_table. exists fc, tc.
      split; [reflexivity|]. split; [exact Hc|]. split; [apply H2; discriminate|].
      exact Hkids.
    + split; [lia|]. exists t. split; [exact Ht|].
      intros i Hi. specialize (Hk i Hi). rewrite depthLimit64 in Hk.
      replace (S maxDepth - 1) with maxDepth in Hk by lia. exact Hk.
Qed.

(** The walk of a compact trie. *)
Lemma compact_walk s h hv cur path :
  chain s hv cur path ->
  wf_node s depthLimit [] (tableNode (root_of cur path)) ->
  root h = Some (root_of cur path) ->
  compact s h ->
  dense_off s hv path /\
  (exists tc, s !! cur = Some tc /\
     forall i, i < indexLimit ->
       dense s (depthLimit - S (length path)) (table_get tc i)) /\
  (path <> [] -> 2 <= node_pairs s (depthLimit - length path) (tableNode cur)) /\
  1 <= node_pairs s (depthLimit - length path) (tableNode cur).
Proof.
  intros Hch Hwf Hroot Hcp. unfold compact in Hcp. rewrite Hroot in Hcp.
  destruct Hcp as (H1 & t & Ht & Hk).
  destruct (dense_chain s hv path cur Hch Hwf) as (Hoff & Hkids & Hden).
  { exists t. split; [exact Ht|]. intros i Hi. rewrite depthLimit64.
    replace (S maxDepth - 1) with maxDepth by lia. apply Hk, Hi. }
  split; [exact Hoff|]. split; [exact Hkids|].
  assert (H2 : path <> [] ->
               2 <= node_pairs s (depthLimit - length path) (tableNode cur)).
  { intros Hne. apply Hden in Hne.
    apply dense_table in Hne as (f & t0 & _ & _ & H2 & _). exact H2. }
  split; [exact H2|]. destruct path as [|par rest].
  - replace (depthLimit - length (@nil loc)) with (@depthLimit params)
      by (symmetry; apply Nat.sub_0_r).
    exact H1.
  - specialize (H2 ltac:(discriminate)). lia.
Qed.

Lemma Put_upgrade_compact s h k depth cur path t (fc : nat) s' h' :
  chain s (Hash k) cur path ->
  wf_node s depthLimit [] (tableNode (root_of cur path)) ->
  root h = Some (root_of cur path) ->
  length path = depth -> depthLimit - depth = S fc ->
  s !! cur = Some t ->
  dense_off s (Hash k) path ->
  (forall i, i < indexLimit -> dense s fc (table_get t i)) ->
  (path <> [] -> 2 <= node_pairs s (S fc) (tableNode cur)) ->
  1 <= node_pairs s (S fc) (tableNode cur) ->
  Put_upgrade s h k depth (hashPath (Hash k) depth) cur path = Ret (s', h') ->
  compact s' h'.
Proof.
  intros Hch Hwf Hroot Hlen Hfc Hc Hoff Hkids H2 H1.
  assert (Hsame : Ret (s, h) = Ret (s', h') -> compact s' h').
  { intros [= <- <-]. subst depth.
    apply (walk_compact s h (Hash k) cur path t fc); assumption. }
  unfold Put_upgrade. destruct (grade h); [|exact Hsame].
  unfold deref. rewrite Hc, obind_Ret.
  destruct (negb (is_fixed t) && bool_decide (upgradeThreshold <= table_nentries t));
    [|exact Hsame].
  clear Hsame. unfold alloc.
  destruct (chain_wf s (Hash k) cur path Hch Hwf) as [_ Hwc].
  rewrite Hlen, Hfc in Hwc.
  apply wf_node_table in Hwc as (f & t0 & _ & Ht0 & Hwt & _).
  rewrite Hc in Ht0. injection Ht0 as <-.
  destruct (upgradeToFixedTable_spec (hashPath (Hash k) depth) depth t Hwt)
    as (HwT & HdT & HhT & _ & HgT).
  set (T' := upgradeToFixedTable (hashPath (Hash k) depth) depth (table_entries t))
    in *.
  destruct path as [|par rest].
  - simpl in Hlen. subst depth. simpl. intros [= <- <-].
    destruct (regrade_root s cur t T' Hwf Hc HwT HdT HgT) as [Hw Hl].
    destruct (regrade_root_dense s cur t T' fc ltac:(lia) Hwf Hc HgT Hkids)
      as [Hk' Hp'].
    assert (HT : (s ++ [T']) !! length s = Some T').
    { rewrite lookup_app_r by lia. rewrite Nat.sub_diag. reflexivity. }
    assert (HD : @depthLimit params = S fc)
      by (rewrite <- Hfc; symmetry; apply Nat.sub_0_r).
    apply (walk_compact (s ++ [T']) (set_root h (Some (length s))) (Hash k)
             (length s) [] T' fc I Hw eq_refl Hfc HT I Hk').
    + intros Hne. congruence.
    + rewrite <- HD, Hp', HD. exact H1.
  - simpl in Hlen. subst depth. rewrite bool_decide_eq_false_2 by lia.
    simpl peek. cbv iota. simpl root_of in *.
    pose proof Hch as [(tp & Htp & _) _].
    assert (Htp2 : (s ++ [T']) !! par = Some tp).
    { eapply prefix_lookup; [|exact Htp]. apply prefix_app_r. reflexivity. }
    destruct (update_Ret _ par tp
                (fun tb => table_set tb (Index (Hash k) (S (length rest) - 1))
                             (tableNode (length s))) Htp2) as (-> & _).
    rewrite obind_Ret. replace (S (length rest) - 1) with (length rest) by lia.
    intros [= <- <-].
    destruct (regrade_inner s (Hash k) cur par rest t tp T' fc Hch Hwf Hfc Hc Htp
                HwT HdT) as (Hw & Hch' & HT3 & Hl).
    { rewrite HhT. apply digits_hashPath. }
    { exact HgT. }
    destruct (regrade_inner_dense s (Hash k) cur par rest t tp T' fc Hch Hwf Hfc
                Hc Htp HgT Hoff Hkids) as (Hoff' & Hk' & Hp').
    apply (walk_compact _ _ (Hash k) (length s) (par :: rest) T' fc Hch' Hw Hroot
             Hfc HT3 Hoff' Hk').
    + rewrite Hp'. exact H2.
    + rewrite Hp'. exact H1.
Qed.

Lemma Put_loop_compact s h k (v : value) fuel : forall depth cur path s' h' ins,
  root h = Some (root_of cur path) ->
  wf_node s depthLimit [] (tableNode (root_of cur path)) ->
  chain s (Hash k) cur path ->
  length path = depth -> fuel + depth = S maxDepth ->
  dense_off s (Hash k) path ->
  (forall tc, s !! cur = Some tc ->
     forall i, i < indexLimit ->
       dense s (depthLimit - S (length path)) (table_get tc i)) ->
  (path <> [] -> 2 <= node_pairs s (depthLimit - length path) (tableNode cur)) ->
  Put_loop s h k v fuel depth (hashPath (Hash k) depth) cur path
    = Ret (s', h', ins) ->
  compact s' h'.
Proof.
  induction fuel as [|fuel IH];
    intros depth cur path s' h' ins Hroot Hwf Hch Hlen Hfd Hoff Hkids H2.
  { discriminate. }
  destruct (chain_wf s (Hash k) cur path Hch Hwf) as [Hl Hwc].
  assert (Hfc : depthLimit - length path = S fuel) by (rewrite depthLimit64; lia).
  rewrite Hfc in Hwc. pose proof Hwc as Hwc0.
  apply wf_node_table in Hwc as (f & tc & Hf & Hc & Hwt & Hd & Hh & Hwk).
  injection Hf as <-. rewrite length_digits in Hd, Hh.
  specialize (Hkids tc Hc).
  replace (depthLimit - S (length path)) with fuel in Hkids by lia.
  rewrite Hfc in H2.
  pose proof (Index_lt (Hash k) depth) as Hidx.
  pose proof (Hwk _ Hidx) as Hkid.
  rewrite <- Hlen in Hkid at 1. rewrite <- digits_S in Hkid.
  rewrite Put_loop_S. cbv zeta. unfold deref. rewrite Hc, obind_Ret.
  subst depth.
  destruct (table_get tc (Index (Hash k) (length path))) as [|l|q] eqn:Hslot.
  - (* the slot is empty *)
    destruct (update_Ret s cur tc
                (fun t => table_set t (Index (Hash k) (length path))
                            (leafNode (newFlatLeaf k v))) Hc) as (-> & Hc1 & Hag).
    rewrite obind_Ret.
    match type of Hc1 with ?x !! _ = _ => set (s1 := x) in * end.
    assert (Hg1 : forall j, j < indexLimit ->
              table_get (table_set tc (Index (Hash k) (length path))
                           (leafNode (newFlatLeaf k v))) j
              = if bool_decide (Index (Hash k) (length path) = j)
                then leafNode (flatLeaf k v) else table_get tc j).
    { intros j Hj. apply table_get_set; assumption. }
    destruct (inplace_slot s s1 (Hash k) cur path tc _ fuel (leafNode (flatLeaf k v))
                Hch Hwf Hfc Hc Hc1 Hag) as (Hwf1 & Hch1 & _).
    { apply wf_table_set; assumption. }
    { apply table_set_fields. }
    { apply table_set_fields. }
    { exact Hg1. }
    { apply wf_node_leaf, wf_leaf_flat. rewrite length_digits. reflexivity. }
    destruct (slot_grow_dense s s1 (Hash k) cur path tc _ fuel
                (leafNode (flatLeaf k v)) Hch Hwf Hfc Hc Hc1 Hag Hg1 Hoff Hkids H2)
      as (Hoff1 & Hk1 & H21 & H11).
    { apply dense_leaf. }
    { rewrite node_pairs_leaf. simpl. lia. }
    { rewrite Hslot, node_pairs_nil. lia. }
    destruct (Put_upgrade s1 _ k (length path) _ cur path) as [[s2 h2]|] eqn:Eu;
      [|discriminate].
    rewrite obind_Ret. intros [= <- <- <-].
    apply (Put_upgrade_compact s1 (set_nentries h (int_incr (nentries h))) k
             (length path) cur path _ fuel s2 h2
             Hch1 Hwf1 Hroot eq_refl Hfc Hc1 Hoff1 Hk1 H21 H11 Eu).
  - (* the slot holds a leaf *)
    assert (Hwl : wf_leaf (digits (Hash k) (S (length path))) l)
      by (apply wf_node_leaf in Hkid; exact Hkid).
    pose proof (wf_leaf_pairs _ _ Hwl) as Hlp.
    case_bool_decide as Hhash.
    + pose proof (leaf_put_pairs l k v) as Hpp.
      pose proof (wf_leaf_put _ l k v Hwl Hhash) as Hwp.
      destruct (leaf_put l k v) as [colLeaf inserted] eqn:Elp. simpl in Hpp, Hwp.
      assert (Hcommon : forall tc' s1 h1,
                s1 !! cur = Some tc' ->
                (forall q t, q <> cur -> s !! q = Some t -> s1 !! q = Some t) ->
                wf_table tc' -> table_depth tc' = table_depth tc ->
                table_Hash tc' = table_Hash tc ->
                (forall j, j < indexLimit ->
                   table_get tc' j
                   = if bool_decide (Index (Hash k) (length path) = j)
                     then leafNode colLeaf else table_get tc j) ->
                root h1 = root h ->
                compact s1 h1).
      { intros tc' s1 h1 Hc1 Hag Hwt' Hd' Hh' Hg' Hr1.
        destruct (inplace_slot s s1 (Hash k) cur path tc tc' fuel (leafNode colLeaf)
                    Hch Hwf Hfc Hc Hc1 Hag Hwt' Hd' Hh' Hg')
          as (Hwf1 & Hch1 & _).
        { apply wf_node_leaf. exact Hwp. }
        destruct (slot_grow_dense s s1 (Hash k) cur path tc tc' fuel
                    (leafNode colLeaf) Hch Hwf Hfc Hc Hc1 Hag Hg' Hoff Hkids H2)
          as (Hoff1 & Hk1 & H21 & H11).
        { apply dense_leaf. }
        { rewrite node_pairs_leaf. lia. }
        { rewrite Hslot, !node_pairs_leaf. lia. }
        apply (walk_compact s1 h1 (Hash k) cur path tc' fuel Hch1 Hwf1
                 (eq_trans Hr1 Hroot) Hfc Hc1 Hoff1 Hk1 H21 H11). }
      destruct inserted.
      * destruct (update_Ret s cur tc
                    (fun t => table_set t (Index (Hash k) (length path))
                                (leafNode colLeaf)) Hc) as (-> & Hc1 & Hag).
        rewrite obind_Ret. intros [= <- <- <-].
        apply (Hcommon _ _ _ Hc1 Hag); [| | | |reflexivity].
        { apply wf_table_set; assumption. }
        { apply table_set_fields. }
        { apply table_set_fields. }
        { intros j Hj. apply table_get_set; assumption. }
      * destruct (update_Ret s cur tc
                    (fun t => table_replace t (Index (Hash k) (length path))
                                (leafNode colLeaf)) Hc) as (-> & Hc1 & Hag).
        rewrite obind_Ret. intros [= <- <- <-].
        apply (Hcommon _ _ _ Hc1 Hag); [| | | |reflexivity].
        { apply wf_table_replace; [assumption|reflexivity]. }
        { apply table_replace_fields. }
        { apply table_replace_fields. }
        { intros j Hj. apply table_get_replace; try assumption.
          rewrite Hslot. reflexivity. }
    + case_bool_decide as Hmax; [discriminate|].
      cbv zeta. rewrite <- hashPath_S, Nat.add_1_r. unfold newTable, newFlatLeaf.
      destruct (createTable_rec (fullinit h) (maxDepth - S (length path)) s
                  (S (length path)) (hashPath (Hash k) (S (length path))) l
                  (flatLeaf k v)) as [s1 ct] eqn:Ect.
      assert (Hfuel : S (maxDepth - S (length path)) = fuel) by lia.
      assert (Hlast : maxDepth - S (length path) + S (length path) = lastLevel).
      { assert (E9 : @lastLevel params = maxDepth) by reflexivity.
        rewrite E9. lia. }
      assert (Hpos : 0 < @depthLimit params) by (rewrite depthLimit64; lia).
      destruct (createTable_rec_spec _ _ _ _ _ _ _ _ _ Hlast Hpos Hwl Hhash Ect)
        as (Hpre & Hwct & Hpct & _).
      pose proof (createTable_rec_dense _ _ _ _ _ _ _ _ _ Hlast Hpos Hwl Hhash Ect)
        as Hdct.
      rewrite Hfuel in Hwct, Hpct, Hdct.
      pose proof (prefix_lookup _ _ _ _ Hpre Hc) as Hc1.
      destruct (update_Ret s1 cur tc
                  (fun t => table_set t (Index (Hash k) (length path))
                              (tableNode ct)) Hc1) as (-> & Hc2 & Hag2).
      rewrite obind_Ret. intros [= <- <- <-].
      match type of Hc2 with ?x !! _ = _ => set (s2 := x) in * end.
      assert (Hag : forall q t, q <> cur -> s !! q = Some t -> s2 !! q = Some t).
      { intros q t Hq Ht. apply Hag2; [exact Hq|].
        eapply prefix_lookup; eassumption. }
      assert (Hpos1 : digits (table_Hash tc) (table_depth tc)
                      = digits (Hash k) (length path)) by (rewrite Hd; exact Hh).
      assert (Hnp : ~ digits (Hash k) (S (length path))
                      `prefix_of` digits (Hash k) (length path)).
      { intros Hp. apply prefix_length in Hp. rewrite !length_digits in Hp. lia. }
      destruct (inplace_frame s1 s2 cur tc (digits (Hash k) (length path)) fuel
                  (digits (Hash k) (S (length path))) (tableNode ct) Hc1 Hpos1 Hag2
                  Hnp Hwct) as [Hwct2 _].
      destruct (inplace_frame_pairs s1 s2 cur tc (digits (Hash k) (length path)) fuel
                  (digits (Hash k) (S (length path))) (tableNode ct) Hc1 Hpos1 Hag2
                  Hnp Hwct) as [Hpct2 Hdct2].
      assert (Hg2 : forall j, j < indexLimit ->
                table_get (table_set tc (Index (Hash k) (length path))
                             (tableNode ct)) j
                = if bool_decide (Index (Hash k) (length path) = j)
                  then tableNode ct else table_get tc j).
      { intros j Hj. apply table_get_set; assumption. }
      destruct (inplace_slot s s2 (Hash k) cur path tc _ fuel (tableNode ct)
                  Hch Hwf Hfc Hc Hc2 Hag) as (Hwf2 & Hch2 & _).
      { apply wf_table_set; assumption. }
      { apply table_set_fields. }
      { apply table_set_fields. }
      { exact Hg2. }
      { exact Hwct2. }
      destruct (slot_grow_dense s s2 (Hash k) cur path tc _ fuel (tableNode ct)
                  Hch Hwf Hfc Hc Hc2 Hag Hg2 Hoff Hkids H2)
        as (Hoff2 & Hk2 & H22 & H12).
      { apply Hdct2, Hdct. }
      { rewrite Hpct2, Hpct. lia. }
      { rewrite Hslot, node_pairs_leaf, Hpct2, Hpct. lia. }
      apply (walk_compact s2 _ (Hash k) cur path _ fuel Hch2 Hwf2 Hroot Hfc Hc2
               Hoff2 Hk2 H22 H12).
  - (* the slot holds a table: one level down *)
    rewrite <- hashPath_S. intros E.
    pose proof (Hkids _ Hidx) as Hdq. rewrite Hslot in Hdq.
    apply (IH (S (length path)) q (push path cur) s' h' ins); auto.
    + split; [|exact Hch]. exists tc. auto.
    + lia.
    + split; [|exact Hoff]. exists tc. split; [exact Hc|].
      intros i Hi _. replace (depthLimit - S (length path)) with fuel by lia.
      apply Hkids, Hi.
    + intros tq Hq. apply dense_table in Hdq as (f & t0 & Hf & Ht0 & _ & Hk0).
      rewrite Hq in Ht0. injection Ht0 as <-. simpl length.
      replace (depthLimit - S (S (length path))) with f by lia. exact Hk0.
    + intros _. apply dense_table in Hdq as (f & t0 & Hf & _ & Hp0 & _).
      simpl length. replace (depthLimit - S (length path)) with fuel by lia.
      exact Hp0.
Qed.

End Hamt64Compact.

Section Hamt64CompactDel.
Import Hamt64.
Context {V : Type} {HH : HostHash}.
Abbreviation value := (@value V).
Abbreviation leaf := (@leaf V).
Abbreviation nodeI := (@nodeI V).
Abbreviation table := (@table V).
Abbreviation store := (list table).
Implicit Types (s : store) (t : table) (n : nodeI) (p q cur : loc)
  (stack : tableStack) (hv : hashVal) (k : iKey) (h : Hamt).

Lemma Del_downgrade_dense s h k depth cur path t (fc : nat)
    (delLeaf : option leaf) s' h' cur' :
  chain s (Hash k) cur path ->
  wf_node s depthLimit [] (tableNode (root_of cur path)) ->
  root h = Some (root_of cur path) ->
  length path = depth -> depthLimit - depth = S fc ->
  s !! cur = Some t ->
  dense_off s (Hash k) path ->
  (forall i, i < indexLimit -> dense s fc (table_get t i)) ->
  Del_downgrade s h k depth (hashPath (Hash k) depth) cur path delLeaf
    = Ret (s', h', cur') ->
  chain s' (Hash k) cur' path /\
  wf_node s' depthLimit [] (tableNode (root_of cur' path)) /\
  root h' = Some (root_of cur' path) /\
  dense_off s' (Hash k) path /\
  (exists t', s' !! cur' = Some t' /\
     forall i, i < indexLimit -> dense s' fc (table_get t' i)) /\
  node_pairs s' (S fc) (tableNode cur') = node_pairs s (S fc) (tableNode cur).
Proof.
  intros Hch Hwf Hroot Hlen Hfc Hc Hoff Hkids.
  assert (Hsame : Ret (s, h, cur) = Ret (s', h', cur') ->
            chain s' (Hash k) cur' path /\
            wf_node s' depthLimit [] (tableNode (root_of cur' path)) /\
            root h' = Some (root_of cur' path) /\
            dense_off s' (Hash k) path /\
            (exists t', s' !! cur' = Some t' /\
               forall i, i < indexLimit -> dense s' fc (table_get t' i)) /\
            node_pairs s' (S fc) (tableNode cur') = node_pairs s (S fc) (tableNode cur)).
  { intros [= <- <- <-]. eauto 10. }
  unfold Del_downgrade. destruct (grade h); [|exact Hsame].
  destruct delLeaf as [dl|]; [exact Hsame|].
  unfold deref. rewrite Hc, obind_Ret.
  destruct (is_fixed t && bool_decide (table_nentries t <= downgradeThreshold));
    [|exact Hsame].
  clear Hsame. unfold alloc.
  destruct (chain_wf s (Hash k) cur path Hch Hwf) as [_ Hwc].
  rewrite Hlen, Hfc in Hwc.
  apply wf_node_table in Hwc as (f & t0 & _ & Ht0 & Hwt & _).
  rewrite Hc in Ht0. injection Ht0 as <-.
  destruct (downgradeToSparseTable_spec (hashPath (Hash k) depth) depth t Hwt)
    as (HwT & HdT & HhT & _ & HgT).
  set (T' := downgradeToSparseTable (hashPath (Hash k) depth) depth (table_entries t))
    in *.
  destruct path as [|par rest].
  - simpl in Hlen. subst depth. simpl. intros [= <- <- <-].
    destruct (regrade_root s cur t T' Hwf Hc HwT HdT HgT) as [Hw Hl].
    destruct (regrade_root_dense s cur t T' fc
                ltac:(rewrite <- Hfc; symmetry; apply Nat.sub_0_r) Hwf Hc HgT Hkids)
      as [Hk' Hp'].
    assert (HD : @depthLimit params = S fc)
      by (rewrite <- Hfc; symmetry; apply Nat.sub_0_r).
    assert (HT : (s ++ [T']) !! length s = Some T').
    { rewrite lookup_app_r by lia. rewrite Nat.sub_diag. reflexivity. }
    split; [exact I|]. split; [exact Hw|]. split; [reflexivity|].
    split; [exact I|]. split; [exists T'; auto|].
    rewrite <- HD. exact Hp'.
  - simpl in Hlen. subst depth. rewrite bool_decide_eq_false_2 by lia.
    simpl peek. cbv iota. simpl root_of in *.
    pose proof Hch as [(tp & Htp & _) _].
    assert (Htp2 : (s ++ [T']) !! par = Some tp).
    { eapply prefix_lookup; [|exact Htp]. apply prefix_app_r. reflexivity. }
    destruct (update_Ret _ par tp
                (fun tb => table_set tb (Index (Hash k) (S (length rest) - 1))
                             (tableNode (length s))) Htp2) as (-> & _).
    rewrite obind_Ret. replace (S (length rest) - 1) with (length rest) by lia.
    intros [= <- <- <-].
    destruct (regrade_inner s (Hash k) cur par rest t tp T' fc Hch Hwf Hfc Hc Htp
                HwT HdT) as (Hw & Hch' & HT3 & Hl).
    { rewrite HhT. apply digits_hashPath. }
    { exact HgT. }
    destruct (regrade_inner_dense s (Hash k) cur par rest t tp T' fc Hch Hwf Hfc
                Hc Htp HgT Hoff Hkids) as (Hoff' & Hk' & Hp').
    split; [exact Hch'|]. split; [exact Hw|]. split; [exact Hroot|].
    split; [exact Hoff'|]. split; [exists T'; auto|exact Hp'].
Qed.

(** The collapse loop of [Del] stops on a table that holds two pairs, or on
    the root. *)
Lemma collapse_dense hv depth : forall s cur path s' cur',
  length path = depth -> chain s hv cur path ->
  wf_node s depthLimit [] (tableNode (root_of cur path)) ->
  dense_off s hv path ->
  (exists tc, s !! cur = Some tc /\
     forall i, i < indexLimit ->
       dense s (depthLimit - S (length path)) (table_get tc i)) ->
  (path <> [] -> 1 <= node_pairs s (depthLimit - length path) (tableNode cur)) ->
  collapse s cur depth path = Ret (s', cur') ->
  exists path' t',
    chain s' hv cur' path' /\
    root_of cur' path' = root_of cur path /\
    wf_node s' depthLimit [] (tableNode (root_of cur path)) /\
    s' !! cur' = Some t' /\
    dense_off s' hv path' /\
    (forall i, i < indexLimit ->
       dense s' (depthLimit - S (length path')) (table_get t' i)) /\
    (path' <> [] ->
     2 <= node_pairs s' (depthLimit - length path') (tableNode cur')).
Proof.
  induction depth as [|depth IH];
    intros s cur path s' cur' Hlen Hch Hwf Hoff (tc & Hc & Hkids) H1.
  - destruct path; [|discriminate].
    rewrite collapse_0. unfold deref. rewrite Hc, obind_Ret. intros [= <- <-].
    exists [], tc. split; [exact I|]. split; [reflexivity|]. split; [exact Hwf|].
    split; [exact Hc|]. split; [exact I|]. split; [exact Hkids|congruence].
  - destruct path as [|par rest]; [discriminate|]. injection Hlen as Hlen.
    specialize (H1 ltac:(discriminate)).
    destruct (chain_wf s hv cur (par :: rest) Hch Hwf) as [Hl Hwc].
    simpl length in *. simpl root_of in *.
    pose proof Hwc as Hwc0.
    apply wf_node_table in Hwc as (f & t & Hf & Ht & Hwt & Hd & Hh & Hwk).
    rewrite Hc in Ht. injection Ht as <-.
    rewrite length_digits in Hd, Hh.
    replace (depthLimit - S (S (length rest))) with f in Hkids by lia.
    rewrite Hf in H1.
    assert (Hexit : 2 <= node_pairs s (S f) (tableNode cur) ->
              Ret (s, cur) = Ret (s', cur') ->
              exists path' t',
                chain s' hv cur' path' /\
                root_of cur' path' = root_of par rest /\
                wf_node s' depthLimit [] (tableNode (root_of par rest)) /\
                s' !! cur' = Some t' /\
                dense_off s' hv path' /\
                (forall i, i < indexLimit ->
                   dense s' (depthLimit - S (length path')) (table_get t' i)) /\
                (path' <> [] ->
                 2 <= node_pairs s' (depthLimit - length path') (tableNode cur'))).
    { intros H2 [= <- <-]. exists (par :: rest), tc.
      split; [exact Hch|]. split; [reflexivity|]. split; [exact Hwf|].
      split; [exact Hc|]. split; [exact Hoff|]. simpl length.
      replace (depthLimit - S (S (length rest))) with f by lia.
      split; [exact Hkids|]. intros _. rewrite Hf. exact H2. }
    rewrite collapse_S. unfold deref. rewrite Hc, obind_Ret.
    case_bool_decide as Hn1.
    2:{ apply Hexit.
        destruct (decide (table_nentries tc = 0)) as [Hz|Hz].
        - exfalso. rewrite (node_pairs_table _ _ _ _ Hc) in H1.
          rewrite (table_sum_empty (fun n => node_pairs s f n) tc) in H1; [lia| |].
          + apply node_pairs_nil.
          + intros j. apply (table_nentries_0 tc j Hwt Hz).
        - apply (table_pairs_two s f (digits hv (S (length rest))) cur tc Hc Hwt Hwk
                   Hkids). lia. }
    pose proof (table_nentries_entries tc Hwt) as Hne. rewrite Hn1 in Hne.
    destruct (table_entries tc) as [|[i e] ents] eqn:Ee; [discriminate|].
    destruct ents as [|? ?]; [|discriminate].
    destruct (single_entry tc i e Hwt Ee) as [Hgi Hgo].
    assert (Hi : i < indexLimit).
    { assert (Hin : (i, e) ∈ table_entries tc) by (rewrite Ee; left).
      apply elem_of_table_entries in Hin. tauto. }
    destruct e as [|lf|q].
    { assert (Hin : (i, @nilNode V) ∈ table_entries tc) by (rewrite Ee; left).
      apply elem_of_table_entries in Hin as (_ & _ & Hnil). discriminate. }
    2:{ apply Hexit. apply (table_pairs_sub s f cur tc i q Hc Hi Hgi).
        rewrite <- Hgi. apply Hkids, Hi. }
    clear Hexit. simpl pop. cbv iota zeta.
    pose proof Hch as [(tp & Htp & Hslot) Hchp].
    destruct Hoff as [(tp0 & Htp0 & Hoffp) Hoff].
    rewrite Htp in Htp0. injection Htp0 as <-.
    assert (Hpidx : Index (table_Hash tc) depth = Index hv (length rest)).
    { rewrite <- Hlen. apply (digits_eq_Index _ _ (S (length rest))); [exact Hh|lia]. }
    rewrite Hpidx.
    destruct (update_Ret s par tp
                (fun tb => table_set tb (Index hv (length rest)) (leafNode lf)) Htp)
      as (-> & Hp1 & Hag).
    rewrite obind_Ret.
    match type of Hp1 with ?x !! _ = _ => set (s1 := x) in * end.
    destruct (chain_wf s hv par rest Hchp Hwf) as [_ Hwp].
    apply wf_node_table in Hwp as (fp & tp0 & Hfp & Htp0 & Hwtp & _).
    rewrite Htp in Htp0. injection Htp0 as <-.
    assert (Hfuel : fp = S f) by lia. subst fp.
    pose proof (Hwk i Hi) as Hkid. rewrite Hgi in Hkid.
    apply wf_node_leaf, wf_leaf_shorten in Hkid as [Hwl Hil].
    assert (Hg1 : forall j, j < indexLimit ->
              table_get (table_set tp (Index hv (length rest)) (leafNode lf)) j
              = if bool_decide (Index hv (length rest) = j) then leafNode lf
                else table_get tp j).
    { intros j Hj. apply table_get_set; [exact Hwtp|apply Index_lt|exact Hj]. }
    destruct (inplace_slot s s1 hv par rest tp _ (S f) (leafNode lf)
                Hchp Hwf Hfp Htp Hp1 Hag)
      as (Hwf1 & Hch1 & _).
    { apply wf_table_set; [exact Hwtp|apply Index_lt]. }
    { apply table_set_fields. }
    { apply table_set_fields. }
    { exact Hg1. }
    { apply wf_node_leaf. exact Hwl. }
    destruct (slot_dense s s1 hv par rest tp _ (S f) (leafNode lf)
                Hchp Hwf Hfp Htp Hp1 Hag Hg1 Hoff)
      as (Hoff1 & Hoth1 & _).
    { intros j Hj Hnj. replace (S f) with (depthLimit - S (length rest)) by lia.
      apply Hoffp; assumption. }
    intros E.
    apply (IH s1 par rest s' cur' Hlen Hch1 Hwf1 Hoff1); [| |exact E].
    + eexists. split; [exact Hp1|]. intros j Hj.
      replace (depthLimit - S (length rest)) with (S f) by lia.
      destruct (decide (j = Index hv (length rest))) as [->|Hnj].
      * rewrite (Hg1 _ Hj), bool_decide_eq_true_2 by reflexivity. apply dense_leaf.
      * apply Hoth1; assumption.
    + intros _. rewrite Hfp, (node_pairs_table _ _ _ _ Hp1).
      pose proof (sum_seq_ge
                    (fun j => node_pairs s1 (S f)
                                (table_get (table_set tp (Index hv (length rest))
                                              (leafNode lf)) j))
                    0 indexLimit (Index hv (length rest))
                    ltac:(pose proof (Index_lt hv (length rest)); lia)) as Hge.
      cbv beta in Hge.
      rewrite (Hg1 _ (Index_lt _ _)), bool_decide_eq_true_2 in Hge by reflexivity.
      rewrite node_pairs_leaf in Hge.
      pose proof (wf_leaf_pairs _ _ Hwl). lia.
Qed.

Lemma Del_loop_compact s h k fuel : forall depth cur path s' h' val del,
  compact s h ->
  root h = Some (root_of cur path) ->
  wf_node s depthLimit [] (tableNode (root_of cur path)) ->
  chain s (Hash k) cur path ->
  length path = depth -> fuel + depth = S maxDepth ->
  dense_off s (Hash k) path ->
  (forall tc, s !! cur = Some tc ->
     forall i, i < indexLimit ->
       dense s (depthLimit - S (length path)) (table_get tc i)) ->
  (path <> [] -> 2 <= node_pairs s (depthLimit - length path) (tableNode cur)) ->
  Del_loop s h k fuel depth (hashPath (Hash k) depth) cur path
    = Ret (s', h', val, del) ->
  compact s' h'.
Proof.
  induction fuel as [|fuel IH];
    intros depth cur path s' h' val del Hcp Hroot Hwf Hch Hlen Hfd Hoff Hkids H2.
  { intros [= <- <- <- <-]. exact Hcp. }
  destruct (chain_wf s (Hash k) cur path Hch Hwf) as [Hl Hwc].
  assert (Hfc : depthLimit - length path = S fuel) by (rewrite depthLimit64; lia).
  rewrite Hfc in Hwc. pose proof Hwc as Hwc0.
  apply wf_node_table in Hwc as (f & tc & Hf & Hc & Hwt & Hd & Hh & Hwk).
  injection Hf as <-. rewrite length_digits in Hd, Hh.
  specialize (Hkids tc Hc).
  replace (depthLimit - S (length path)) with fuel in Hkids by lia.
  rewrite Hfc in H2.
  pose proof (Index_lt (Hash k) depth) as Hidx.
  pose proof (Hwk _ Hidx) as Hkid.
  rewrite <- Hlen in Hkid at 1. rewrite <- digits_S in Hkid.
  rewrite Del_loop_S. cbv zeta. unfold deref. rewrite Hc, obind_Ret.
  subst depth.
  destruct (table_get tc (Index (Hash k) (length path))) as [|l|q] eqn:Hslot.
  - intros [= <- <- <- <-]. exact Hcp.
  - assert (Hwl : wf_leaf (digits (Hash k) (S (length path))) l)
      by (apply wf_node_leaf in Hkid; exact Hkid).
    pose proof (leaf_del_pairs l k) as Hdp.
    pose proof (wf_leaf_del (digits (Hash k) (S (length path))) l k) as Hwd.
    destruct (leaf_del l k) as [[delLeaf val0] deleted]. simpl in *.
    destruct deleted; simpl negb; cbv iota.
    2:{ intros [= <- <- <- <-]. exact Hcp. }
    specialize (Hdp eq_refl).
    destruct (update_Ret s cur tc
                (fun t => table_set t (Index (Hash k) (length path))
                            (node_of_leaf delLeaf)) Hc) as (-> & Hc1 & Hag).
    rewrite obind_Ret.
    match type of Hc1 with ?x !! _ = _ => set (s1 := x) in * end.
    assert (Hg1 : forall j, j < indexLimit ->
              table_get (table_set tc (Index (Hash k) (length path))
                           (node_of_leaf delLeaf)) j
              = if bool_decide (Index (Hash k) (length path) = j)
                then node_of_leaf delLeaf else table_get tc j).
    { intros j Hj. apply table_get_set; assumption. }
    destruct (inplace_slot s s1 (Hash k) cur path tc _ fuel (node_of_leaf delLeaf)
                Hch Hwf Hfc Hc Hc1 Hag) as (Hwf1 & Hch1 & _).
    { apply wf_table_set; assumption. }
    { apply table_set_fields. }
    { apply table_set_fields. }
    { exact Hg1. }
    { destruct delLeaf as [nl|]; simpl.
      - apply wf_node_leaf. apply (Hwd nl Hwl eq_refl).
      - apply wf_node_nil. }
    destruct (slot_dense s s1 (Hash k) cur path tc _ fuel (node_of_leaf delLeaf)
                Hch Hwf Hfc Hc Hc1 Hag Hg1 Hoff)
      as (Hoff1 & Hoth1 & Hsum1).
    { intros i Hi _. apply Hkids, Hi. }
    assert (Hk1 : forall i, i < indexLimit ->
              dense s1 fuel
                (table_get (table_set tc (Index (Hash k) (length path))
                              (node_of_leaf delLeaf)) i)).
    { intros i Hi. destruct (decide (i = Index (Hash k) (length path))) as [->|Hni].
      - rewrite (Hg1 _ Hi), bool_decide_eq_true_2 by reflexivity.
        destruct delLeaf; [apply dense_leaf|apply dense_nil].
      - apply Hoth1; assumption. }
    assert (Hp1 : S (node_pairs s1 (S fuel) (tableNode cur))
                  = node_pairs s (S fuel) (tableNode cur)).
    { rewrite Hslot, node_pairs_leaf in Hsum1.
      destruct delLeaf as [nl|]; simpl in Hsum1;
        [rewrite node_pairs_leaf in Hsum1|rewrite node_pairs_nil in Hsum1]; lia. }
    set (h1 := set_nentries h (int_decr (nentries h))).
    destruct (Del_downgrade s1 h1 k (length path) _ cur path delLeaf)
      as [[[s2 h2] cur2]|] eqn:Ed; [|discriminate].
    rewrite obind_Ret.
    destruct (Del_downgrade_dense s1 h1 k (length path) cur path _ fuel delLeaf
                s2 h2 cur2 Hch1 Hwf1 Hroot eq_refl Hfc Hc1 Hoff1 Hk1 Ed)
      as (Hch2 & Hwf2 & Hr2 & Hoff2 & (t2 & Hc2 & Hk2) & Hp2).
    destruct (collapse s2 cur2 (length path) path) as [[s3 cur3]|] eqn:Ec;
      [|discriminate].
    rewrite obind_Ret.
    destruct (collapse_dense (Hash k) (length path) s2 cur2 path s3 cur3 eq_refl
                Hch2 Hwf2 Hoff2)
      as (path' & t3 & Hch3 & Hr3 & Hwf3 & Hc3 & Hoff3 & Hk3 & H23); [| |exact Ec|].
    { exists t2. split; [exact Hc2|].
      replace (depthLimit - S (length path)) with fuel by lia. exact Hk2. }
    { intros Hne. rewrite Hfc, Hp2. specialize (H2 Hne). lia. }
    unfold deref. rewrite Hc3, obind_Ret. intros [= <- <- <- <-].
    destruct (bool_decide (Some cur3 = root h2) && bool_decide (table_nentries t3 = 0))
      eqn:Hempty.
    { unfold compact. simpl. exact I. }
    destruct (chain_wf s3 (Hash k) cur3 path' Hch3
                ltac:(rewrite Hr3; exact Hwf3)) as [Hl3 Hwc3].
    pose proof Hwc3 as Hwc30.
    apply wf_node_table in Hwc3 as (f3 & t3' & Hf3 & Ht3 & Hwt3 & _ & _ & Hwk3).
    rewrite Hc3 in Ht3. injection Ht3 as <-.
    replace (depthLimit - S (length path')) with f3 in Hk3 by lia.
    rewrite Hf3 in H23.
    apply (walk_compact s3 h2 (Hash k) cur3 path' t3 f3 Hch3); auto.
    + rewrite Hr3. exact Hwf3.
    + rewrite Hr3. exact Hr2.
    + destruct path' as [|par' rest']; [|specialize (H23 ltac:(discriminate)); lia].
      simpl in Hr3. subst cur3.
      rewrite Hr2, bool_decide_eq_true_2 in Hempty by reflexivity.
      simpl in Hempty. apply bool_decide_eq_false_1 in Hempty.
      apply (table_pairs_one s3 f3 _ _ t3 Hc3 Hwt3 Hwk3 Hk3 Hempty).
  - rewrite <- hashPath_S. intros E.
    pose proof (Hkids _ Hidx) as Hdq. rewrite Hslot in Hdq.
    apply (IH (S (length path)) q (push path cur) s' h' val del); auto.
    + split; [|exact Hch]. exists tc. auto.
    + lia.
    + split; [|exact Hoff]. exists tc. split; [exact Hc|].
      intros i Hi _. replace (depthLimit - S (length path)) with fuel by lia.
      apply Hkids, Hi.
    + intros tq Hq. apply dense_table in Hdq as (f & t0 & Hf & Ht0 & _ & Hk0).
      rewrite Hq in Ht0. injection Ht0 as <-. simpl length.
      replace (depthLimit - S (S (length path))) with f by lia. exact Hk0.
    + intros _. apply dense_table in Hdq as (f & t0 & Hf & _ & Hp0 & _).
      simpl length. replace (depthLimit - S (length path)) with fuel by lia.
      exact Hp0.
Qed.

(** The maps built by the public operations are compact. *)
Lemma reachable_compact s h : reachable s h -> compact s h.
Proof.
  induction 1 as [s opt|s s' h h' k v ins Hr IH HP|s s' h h' k v del Hr IH HD].
  - unfold compact. rewrite New_fields. exact I.
  - pose proof (reachable_INV64 s h Hr) as HI. unfold INV in HI.
    unfold Put in HP. destruct (root h) as [r|] eqn:Hroot.
    + destruct HI as [Hwf _].
      destruct (compact_walk s h (Hash k) r [] I Hwf Hroot IH)
        as (Hoff & (tc & Hc & Hk) & H2 & _).
      rewrite <- (hashPath_0 (Hash k)) in HP.
      apply (Put_loop_compact s h k v (S maxDepth) 0 r [] s' h' ins Hroot Hwf I
               eq_refl (Nat.add_0_r _) Hoff); [|exact H2|exact HP].
      intros tc0 Hc0. rewrite Hc in Hc0. injection Hc0 as <-. exact Hk.
    + unfold newRootTable, createRootFixedTable, newFlatLeaf, alloc in HP.
      simpl leaf_Hash in HP. injection HP as <- <- <-.
      change (emptyFixedTable 0 0%N) with (@emptyTable V params true 0 0%N).
      pose proof (Index_lt (Hash k) 0) as Hidx.
      destruct (single_table_spec true 0 0%N (Index (Hash k) 0)
                  (leafNode (flatLeaf k v)))
        as (Hwt & Hd & Hh & _ & Hg); auto.
      match goal with |- context [s ++ [?t]] => set (T := t) in * end.
      assert (HT : (s ++ [T]) !! length s = Some T).
      { rewrite lookup_app_r by lia. rewrite Nat.sub_diag. reflexivity. }
      unfold compact. simpl root. split.
      * rewrite depthLimit64, (node_pairs_table _ _ _ _ HT).
        pose proof (sum_seq_ge (fun j => node_pairs (s ++ [T]) maxDepth (table_get T j))
                      0 indexLimit (Index (Hash k) 0) ltac:(lia)) as Hge.
        cbv beta in Hge. rewrite Hg, bool_decide_eq_true_2 in Hge by reflexivity.
        rewrite node_pairs_leaf in Hge. simpl in Hge. exact Hge.
      * exists T. split; [exact HT|]. intros i Hi. rewrite Hg.
        case_bool_decide; [apply dense_leaf|apply dense_nil].
  - pose proof (reachable_INV64 s h Hr) as HI. unfold INV in HI.
    unfold Del in HD. destruct (root h) as [r|] eqn:Hroot.
    + destruct HI as [Hwf _].
      destruct (compact_walk s h (Hash k) r [] I Hwf Hroot IH)
        as (Hoff & (tc & Hc & Hk) & H2 & _).
      rewrite <- (hashPath_0 (Hash k)) in HD.
      apply (Del_loop_compact s h k (S maxDepth) 0 r [] s' h' v del IH Hroot Hwf I
               eq_refl (Nat.add_0_r _) Hoff); [|exact H2|exact HD].
      intros tc0 Hc0. rewrite Hc in Hc0. injection Hc0 as <-. exact Hk.
    + injection HD as <- <- <- <-. exact IH.
Qed.

End Hamt64CompactDel.

(** * Empty maps *)

Lemma int_wrap_mod (n : Z) :
  ((int_wrap n + 2 ^ 63) mod 2 ^ 64 = (n + 2 ^ 63) mod 2 ^ 64)%Z.
Proof.
  unfold int_wrap.
  replace ((n + 2 ^ 63) mod 2 ^ 64 - 2 ^ 63 + 2 ^ 63)%Z
    with ((n + 2 ^ 63) mod 2 ^ 64)%Z by lia.
  apply Zmod_mod.
Qed.

Lemma int_wrap_ext (a b : Z) :
  ((a + 2 ^ 63) mod 2 ^ 64 = (b + 2 ^ 63) mod 2 ^ 64)%Z -> int_wrap a = int_wrap b.
Proof. unfold int_wrap. intros ->. reflexivity. Qed.

Lemma int_decr_incr (n : Z) : int_decr (int_incr (int_wrap n)) = int_wrap n.
Proof.
  unfold int_decr, int_incr. apply int_wrap_ext.
  replace (int_wrap (int_wrap n + 1) - 1 + 2 ^ 63)%Z
    with (int_wrap (int_wrap n + 1) + 2 ^ 63 - 1)%Z by lia.
  rewrite <- Zminus_mod_idemp_l, int_wrap_mod, Zminus_mod_idemp_l.
  replace (int_wrap n + 1 + 2 ^ 63 - 1)%Z with (int_wrap n + 2 ^ 63)%Z by lia.
  apply int_wrap_mod.
Qed.

Section Hamt32Empty.
Import Hamt32.
Context {V : Type} {HH : HostHash}.
Abbreviation value := (@value V).
Abbreviation table := (@table V).
Abbreviation store := (list table).
Implicit Types (s : store) (h : HamtBase).

(** X23: for a map built by the public operations, [IsEmpty] holds exactly
    when [Get] finds no key. *)
Theorem isempty_iff_no_key s h :
  reachable s h ->
  IsEmpty h = true <-> forall bs, Get s h bs = Ret (nil_value, false).
Proof.
  intros Hr. destruct (reachable_model s h Hr) as (kvs & _ & Hn & Hg). split.
  - intros He bs. unfold Get. rewrite He. reflexivity.
  - intros Hall. unfold IsEmpty. apply bool_decide_eq_true_2.
    destruct kvs as [|[bs v] kvs]; [exact Hn|]. exfalso.
    destruct (Hg bs) as [(v0 & _ & HG)|(Hni & _)].
    + rewrite Hall in HG. discriminate.
    + apply Hni. left. reflexivity.
Qed.

End Hamt32Empty.

Section Hamt64Empty.
Import Hamt64.
Context {V : Type} {HH : HostHash}.
Abbreviation value := (@value V).
Abbreviation table := (@table V).
Abbreviation store := (list table).
Implicit Types (s : store) (h : Hamt) (k : iKey).

Lemma empty_no_key64 s h k : IsEmpty h = true -> Get s h k = Ret (nil_value, false).
Proof.
  unfold IsEmpty, Get. destruct (root h); [discriminate|reflexivity].
Qed.

Lemma no_key_empty64 s h :
  reachable s h -> (forall k, (exists v, Get s h k = Ret (v, false))) ->
  IsEmpty h = true.
Proof.
  intros Hr Hall. pose proof (reachable_compact s h Hr) as Hc.
  pose proof (reachable_INV64 s h Hr) as HI. unfold INV in HI.
  unfold compact in Hc. unfold IsEmpty.
  destruct (root h) as [r|] eqn:Hroot; [|reflexivity]. exfalso.
  destruct HI as [Hwf _]. destruct Hc as [H1 _].
  destruct (pairs_found s depthLimit [] (tableNode r) Hwf H1) as (k & _ & Hf).
  destruct (Hall k) as (v & HG).
  rewrite (Get_tree_get64 s h k r Hroot Hwf) in HG. simpl length in Hf.
  injection HG as HG. rewrite HG in Hf. discriminate.
Qed.

(** X24: [Put] of a key the in-place map does not hold, followed by [Del] of
    that key, gives a map that answers every [Get] as the first map did and
    has its entry count. *)
Theorem put_del_round_trip64 s h k (v x : value) :
  reachable s h -> Get s h k = Ret (x, false) ->
  exists s1 h1 s2 h2,
    Put s h k v = Ret (s1, h1, true) /\
    Del s1 h1 k = Ret (s2, h2, v, true) /\
    Nentries h2 = Nentries h /\
    forall k', Get s2 h2 k' = Get s h k'.
Proof.
  intros Hr HG0. pose proof (reachable_INV64 s h Hr) as HI.
  destruct (reachable_model64 s h Hr) as (kvs & _ & Hn & Hg).
  destruct (Put_spec64 s h k v HI)
    as (s1 & h1 & i1 & E1 & HI1 & HG1 & Hfr1 & (r & HG & Hi) & Hn1).
  rewrite HG0 in HG. injection HG as <-. simpl in Hi. subst i1.
  destruct (Del_spec64 s1 h1 k HI1)
    as (s2 & h2 & val & del & E2 & _ & HG2 & Hmiss & Hfr2 & _ & Hn2).
  rewrite HG1 in HG2. injection HG2 as <- <-.
  exists s1, h1, s2, h2. split; [exact E1|]. split; [exact E2|]. split.
  - unfold Nentries. rewrite Hn2, Hn1, Hn. apply int_decr_incr.
  - intros k'. destruct (decide (k' = k)) as [->|Hne].
    + rewrite Hmiss, HG0. f_equal. f_equal.
      destruct (Hg k) as [(v0 & _ & HG)|(_ & HG)]; rewrite HG0 in HG;
        [discriminate|]. injection HG as ->. reflexivity.
    + rewrite (Hfr2 k' Hne). apply (Hfr1 k' Hne).
Qed.

(** X25: for an in-place map built by the public operations, [IsEmpty]
    (the root is nil) holds exactly when [Get] finds no key. *)
Theorem isempty_iff_no_key64 s h :
  reachable s h ->
  IsEmpty h = true <-> forall k, Get s h k = Ret (nil_value, false).
Proof.
  intros Hr. split.
  - intros He k. apply empty_no_key64, He.
  - intros Hall. apply (no_key_empty64 s h Hr). intros k. eexists. apply Hall.
Qed.

(** X26: the in-place map stays compact under [Put] and [Del]: the root
    table holds at least one pair, and every table below the root holds at
    least two pairs in its subtree. *)
Theorem tables_stay_compact s h : reachable s h -> compact s h.
Proof. apply reachable_compact. Qed.

(** X27: an in-place map built by the public operations whose root is nil
    has the entry count 0. *)
Theorem isempty_nentries64 s h :
  reachable s h -> IsEmpty h = true -> Nentries h = 0%Z.
Proof.
  intros Hr He. destruct (reachable_model64 s h Hr) as (kvs & _ & Hn & Hg).
  unfold Nentries. rewrite Hn.
  destruct kvs as [|[k v] kvs]; [reflexivity|]. exfalso.
  destruct (Hg k) as [(v0 & _ & HG)|(Hni & _)].
  - rewrite (empty_no_key64 s h k He) in HG. discriminate.
  - apply Hni. left. reflexivity.
Qed.


(** X29: a second [Del] of the same key from the in-place map does nothing:
    it returns the store and the map of the first [Del] unchanged, the nil
    value and [false]. *)
Theorem del_twice64 s h k :
  reachable s h ->
  exists s1 h1 val del,
    Del s h k = Ret (s1, h1, val, del) /\
    Del s1 h1 k = Ret (s1, h1, nil_value, false).
Proof.
  intros Hr. pose proof (reachable_INV64 s h Hr) as HI.
  destruct (Del_spec64 s h k HI) as (s1 & h1 & val & del & E1 & HI1 & _ & Hm & _).
  destruct (Del_spec64 s1 h1 k HI1)
    as (s2 & h2 & val2 & del2 & E2 & _ & HG2 & _ & _ & Hsame & _).
  rewrite Hm in HG2. injection HG2 as <- <-.
  destruct (Hsame eq_refl) as [-> ->].
  exists s1, h1, val, del. auto.
Qed.

End Hamt64Empty.

Section EmptySamples.
#[local] Existing Instance Sample.host.
Open Scope string_scope.

Lemma isempty_iff_no_key_witness :
  exists s h,
    @Hamt32.Put Z Sample.host [] (Hamt32.NewFunctional Hamt32.HybridTables)
      (Sample.bytes "a") (Some 1%Z) = Ret (s, h, true) /\
    (Hamt32.IsEmpty h = true <->
     forall bs, Hamt32.Get s h bs = Ret (nil_value, false)).
Proof.
  eexists _, _. split; [vm_compute; reflexivity|].
  apply (@isempty_iff_no_key Z Sample.host).
  eapply (Hamt32.reach_put [] _ (Hamt32.NewFunctional Hamt32.HybridTables) _
            (Sample.bytes "a") (Some 1%Z) true);
    [apply (Hamt32.reach_new [] Hamt32.HybridTables)|vm_compute; reflexivity
    |vm_compute; reflexivity].
Defined.

Ltac sample_reach64 :=
  eapply (Hamt64.reach_put [] _ (Hamt64.New Hamt64.HybridTables) _ (Sample.bytes "a")
            (Some 1%Z) true);
  [apply (Hamt64.reach_new [] Hamt64.HybridTables)|vm_compute; reflexivity].

Lemma put_del_round_trip64_witness :
  exists s h,
    @Hamt64.Put Z Sample.host [] (Hamt64.New Hamt64.HybridTables) (Sample.bytes "a")
      (Some 1%Z) = Ret (s, h, true) /\
    Hamt64.Get s h (Sample.bytes "b") = Ret (None, false) /\
    exists s1 h1 s2 h2,
      Hamt64.Put s h (Sample.bytes "b") (Some 2%Z) = Ret (s1, h1, true) /\
      Hamt64.Del s1 h1 (Sample.bytes "b") = Ret (s2, h2, Some 2%Z, true) /\
      Hamt64.Nentries h2 = Hamt64.Nentries h /\
      forall k', Hamt64.Get s2 h2 k' = Hamt64.Get s h k'.
Proof.
  eexists _, _. split; [vm_compute; reflexivity|].
  split; [vm_compute; reflexivity|].
  apply (@put_del_round_trip64 Z Sample.host _ _ _ _ None);
    [sample_reach64|vm_compute; reflexivity].
Defined.

Lemma isempty_iff_no_key64_witness :
  exists s h,
    @Hamt64.Put Z Sample.host [] (Hamt64.New Hamt64.HybridTables) (Sample.bytes "a")
      (Some 1%Z) = Ret (s, h, true) /\
    (Hamt64.IsEmpty h = true <->
     forall k, Hamt64.Get s h k = Ret (nil_value, false)).
Proof.
  eexists _, _. split; [vm_compute; reflexivity|].
  apply (@isempty_iff_no_key64 Z Sample.host). sample_reach64.
Defined.

Lemma tables_stay_compact_witness :
  exists s h,
    @Hamt64.Put Z Sample.host [] (Hamt64.New Hamt64.HybridTables) (Sample.bytes "a")
      (Some 1%Z) = Ret (s, h, true) /\
    Hamt64.compact s h.
Proof.
  eexists _, _. split; [vm_compute; reflexivity|].
  apply (@tables_stay_compact Z Sample.host). sample_reach64.
Defined.

Lemma isempty_nentries64_witness :
  exists s h val,
    @Hamt64.Del Z Sample.host [] (Hamt64.New Hamt64.HybridTables) (Sample.bytes "a")
    = Ret (s, h, val, false) /\
    Hamt64.IsEmpty h = true /\ Hamt64.Nentries h = 0%Z.
Proof.
  eexists _, _, _. split; [vm_compute; reflexivity|].
  split; [vm_compute; reflexivity|].
  apply (@isempty_nentries64 Z Sample.host [] _);
    [|vm_compute; reflexivity].
  eapply (Hamt64.reach_del [] _ (Hamt64.New Hamt64.HybridTables) _ (Sample.bytes "a")
            _ false);
    [apply (Hamt64.reach_new [] Hamt64.HybridTables)|vm_compute; reflexivity].
Defined.


Lemma del_twice64_witness :
  exists s h,
    @Hamt64.Put Z Sample.host [] (Hamt64.New Hamt64.HybridTables) (Sample.bytes "a")
      (Some 1%Z) = Ret (s, h, true) /\
    exists s1 h1 val del,
      Hamt64.Del s h (Sample.bytes "a") = Ret (s1, h1, val, del) /\
      Hamt64.Del s1 h1 (Sample.bytes "a") = Ret (s1, h1, nil_value, false).
Proof.
  eexists _, _. split; [vm_compute; reflexivity|].
  apply (@del_twice64 Z Sample.host). sample_reach64.
Defined.

End EmptySamples.
